(** * Seating-chart generator: layout/matrix conversion, validation and
      application of AI seating results

    A shallow embedding of the TypeScript sources

    - [src/types.ts]                      (LayoutObject, SeatingChart)
    - [src/components/LayoutEditor.tsx]   (checkCollision, handleDrop,
                                           parseLayoutMatrixToObjects,
                                           convertObjectsToLayoutMatrix)
    - [src/components/GeneratedChart.tsx] (handleGenerateClick, the chart of
                                           a desk, and the handlers of [App]
                                           for clearing the chart and for
                                           the saved classrooms)
    - [src/components/LayoutPreview.tsx]  (the seats of a desk, the size of
                                           the preview)
    - [src/services/geminiService.ts]     (generateSeatingArrangement)
    - [ManageLayoutsModal]                (handleSaveClick, handleDeleteClick)

    Modelling conventions.

    - A JavaScript [number] is an exact rational [Q].  Grid coordinates and
      sizes are whole numbers or halves, on which the double-precision
      numbers of the code compute exactly.  Two computations of the code can
      round, and the model is exact there: the pointer arithmetic of
      [handleDrop] on coordinates with fractions, and the mean of three or
      more column centres ([clusterCenter]), where the last bit of a double
      can decide an exact tie between two columns.  Indices and counters are
      [nat].
    - A JavaScript string is kept as the bytes of its UTF-8 encoding, a
      [string]: [trim] removes the white space of one, two and three bytes,
      and [padEnd] counts UTF-16 code units.
    - [Array.prototype.sort] is the stable insertion sort [JS.sort], the
      result the language fixes for a consistent comparator; for another
      comparator the order is the engine's, and the numbering of the desks
      is given for every order as well ([numberedMatrixOf]).
    - [null] / [undefined] are [None].
    - A JavaScript object used as a dictionary is a [gmap string _].
    - React state is an explicit record; a handler is a function from the
      state it closes over to the state after its updates. *)

From Stdlib Require Import QArith Qabs Qround Lqa ZArith Lia.
From Stdlib Require Import String Ascii List Permutation DecimalString DecimalNat Sorted.
From stdpp Require Import gmap strings list.

Local Open Scope string_scope.
#[local] Set Warnings "-register-all".
Local Open Scope list_scope.

(** ** JavaScript built-ins used by the sources *)

Module JS.

(** [`${n}`] for a non-negative integer. *)
Definition string_of_nat (n : nat) : string :=
  NilEmpty.string_of_uint (Nat.to_uint n).

(** [`${z}`] for an integer. *)
Definition string_of_Z (z : Z) : string :=
  match z with
  | Zneg p => "-" +:+ string_of_nat (Pos.to_nat p)
  | _ => string_of_nat (Z.to_nat z)
  end.

(** [s.split(sep)] for a one-character separator. *)
Fixpoint split (sep : ascii) (s : string) : list string :=
  match s with
  | EmptyString => [""]
  | String c s' =>
      if Ascii.eqb c sep then "" :: split sep s'
      else match split sep s' with
           | [] => [String c ""]
           | w :: ws => String c w :: ws
           end
  end.

(** [a.join(sep)]. *)
Definition join (sep : string) (a : list string) : string := String.concat sep a.

(** White space and line terminators that [trim] removes.  A string is kept
    as its UTF-8 bytes, so the characters below U+0080 are one byte (tab,
    line feed, vertical tab, form feed, carriage return, space), U+00A0 is
    two bytes and the others are three: U+1680, U+2000 to U+200A, U+2028,
    U+2029, U+202F, U+205F, U+3000 and U+FEFF. *)
Definition isWhiteSpace (c : ascii) : bool :=
  let n := nat_of_ascii c in
  (Nat.leb 9 n && Nat.leb n 13) || Nat.eqb n 32.

Definition isWhiteSpace2 (c1 c2 : ascii) : bool :=
  Nat.eqb (nat_of_ascii c1) 194 && Nat.eqb (nat_of_ascii c2) 160.

Definition isWhiteSpace3 (c1 c2 c3 : ascii) : bool :=
  let n1 := nat_of_ascii c1 in
  let n2 := nat_of_ascii c2 in
  let n3 := nat_of_ascii c3 in
  (Nat.eqb n1 225 && Nat.eqb n2 154 && Nat.eqb n3 128) ||
  (Nat.eqb n1 226 && Nat.eqb n2 128 &&
   ((Nat.leb 128 n3 && Nat.leb n3 138) || Nat.eqb n3 168 || Nat.eqb n3 169 ||
    Nat.eqb n3 175)) ||
  (Nat.eqb n1 226 && Nat.eqb n2 129 && Nat.eqb n3 159) ||
  (Nat.eqb n1 227 && Nat.eqb n2 128 && Nat.eqb n3 128) ||
  (Nat.eqb n1 239 && Nat.eqb n2 187 && Nat.eqb n3 191).

Fixpoint trimStart (s : string) : string :=
  match s with
  | EmptyString => ""
  | String c1 s1 =>
      if isWhiteSpace c1 then trimStart s1
      else
        match s1 with
        | EmptyString => s
        | String c2 s2 =>
            if isWhiteSpace2 c1 c2 then trimStart s2
            else
              match s2 with
              | EmptyString => s
              | String c3 s3 => if isWhiteSpace3 c1 c2 c3 then trimStart s3 else s
              end
        end
  end.

(** The end of the string is cut where only white space follows. *)
Fixpoint trimEnd (s : string) : string :=
  match s with
  | EmptyString => ""
  | String c s' =>
      if String.eqb (trimStart s) "" then "" else String c (trimEnd s')
  end.

Definition trim (s : string) : string := trimEnd (trimStart s).

(** [s.length]: the UTF-16 code units of the string.  A character of one,
    two or three bytes of UTF-8 is one unit, a character of four bytes is
    two; the bytes 128 to 191 continue a character. *)
Fixpoint codeUnits (s : string) : nat :=
  match s with
  | EmptyString => 0%nat
  | String c s' =>
      let n := nat_of_ascii c in
      ((if Nat.leb 128 n && Nat.leb n 191 then 0 else if Nat.leb 240 n then 2 else 1)
       + codeUnits s')%nat
  end.

Fixpoint spaces (n : nat) : string :=
  match n with
  | O => ""
  | S n' => String " " (spaces n')
  end.

(** [s.padEnd(n)]. *)
Definition padEnd (n : nat) (s : string) : string :=
  s +:+ spaces (n - codeUnits s).

(** [s.includes(c)] for a one-character needle. *)
Fixpoint includes (c : ascii) (s : string) : bool :=
  match s with
  | EmptyString => false
  | String c' s' => Ascii.eqb c' c || includes c s'
  end.

(** [s.match(/c/g)]: the list of matches, [None] ([null]) when there is none. *)
Fixpoint matches (c : ascii) (s : string) : list string :=
  match s with
  | EmptyString => []
  | String c' s' =>
      if Ascii.eqb c' c then String c "" :: matches c s' else matches c s'
  end.

Definition matchAll (c : ascii) (s : string) : option (list string) :=
  match matches c s with
  | [] => None
  | ms => Some ms
  end.

(** [a.sort(compareFn)].  ECMAScript requires the sort to be stable, which
    fixes the result whenever [compareFn] is a consistent comparator; the
    model is the stable insertion sort.  For an inconsistent comparator the
    language leaves the order to the implementation, which returns some
    permutation of the array. *)
Fixpoint sortInsert {A} (compareFn : A -> A -> Q) (a : A) (sorted : list A) : list A :=
  match sorted with
  | [] => [a]
  | b :: rest =>
      if Qle_bool (compareFn a b) 0%Q then a :: sorted
      else b :: sortInsert compareFn a rest
  end.

Definition sort {A} (compareFn : A -> A -> Q) (a : list A) : list A :=
  foldr (sortInsert compareFn) [] a.

(** [[...new Set(a)]] on numbers: first occurrences, in insertion order. *)
Fixpoint setAdd (seen : list Q) (v : Q) : list Q :=
  match seen with
  | [] => [v]
  | w :: seen' => if Qeq_bool w v then seen else w :: setAdd seen' v
  end.

Definition uniqueNumbers (a : list Q) : list Q := fold_left setAdd a [].

(** [[...new Set(a)]] on strings. *)
Fixpoint setAddString (seen : list string) (v : string) : list string :=
  match seen with
  | [] => [v]
  | w :: seen' => if String.eqb w v then seen else w :: setAddString seen' v
  end.

Definition uniqueStrings (a : list string) : list string := fold_left setAddString a [].

(** [a.forEach((v, i) => ...)] where the callback updates captured
    variables: the captured state [s] is threaded through the calls. *)
Fixpoint forEachFrom {A St} (f : St -> A -> nat -> St) (i : nat) (a : list A) (s : St) : St :=
  match a with
  | [] => s
  | v :: a' => forEachFrom f (S i) a' (f s v i)
  end.

Definition forEach {A St} (f : St -> A -> nat -> St) (a : list A) (s : St) : St :=
  forEachFrom f 0 a s.

(** [a.findIndex(p)]; [None] is [-1]. *)
Fixpoint findIndexFrom {A} (p : A -> bool) (i : nat) (a : list A) : option nat :=
  match a with
  | [] => None
  | v :: a' => if p v then Some i else findIndexFrom p (S i) a'
  end.

Definition findIndex {A} (p : A -> bool) (a : list A) : option nat :=
  findIndexFrom p 0 a.

(** The line feed character of ['\n']. *)
Definition LF : ascii := "010"%char.

(** [Math.round]: the nearest integer, halves rounded up. *)
Definition round (q : Q) : Z := Qfloor (q + (1 # 2))%Q.

Definition Qlt_bool (a b : Q) : bool := negb (Qle_bool b a).

(** [Number(s)] on a string of decimal digits; [None] stands for [NaN]. *)
Definition Number (s : string) : option nat :=
  match s with
  | EmptyString => Some 0%nat
  | _ => option_map Nat.of_uint (NilEmpty.uint_of_string s)
  end.

(** Values as [JSON.parse] produces them. *)
Inductive Value : Type :=
  | Null
  | Bool (b : bool)
  | Num (q : Q)
  | Str (s : string)
  | Arr (a : list Value)
  | Obj (fields : list (string * Value)).

(** Truthiness of a value; [None] is [undefined]. *)
Definition truthy (v : option Value) : bool :=
  match v with
  | None => false
  | Some Null => false
  | Some (Bool b) => b
  | Some (Num q) => negb (Qeq_bool q 0)
  | Some (Str s) => negb (String.eqb s "")
  | Some (Arr _) => true
  | Some (Obj _) => true
  end.

Definition isArray (v : option Value) : bool :=
  match v with
  | Some (Arr _) => true
  | _ => false
  end.

(** A statement either completes or throws. *)
Inductive Completion (A : Type) : Type :=
  | Normal (a : A)
  | Throw (message : string).
Arguments Normal {A} a.
Arguments Throw {A} message.

Definition bind {A B} (c : Completion A) (k : A -> Completion B) : Completion B :=
  match c with
  | Normal a => k a
  | Throw m => Throw m
  end.

(** [v.name]: reading a property of [null] throws; a value without the
    property gives [undefined].  A later duplicate key of an object wins, as
    in [JSON.parse]. *)
Definition getProp (v : Value) (name : string) : Completion (option Value) :=
  match v with
  | Null => Throw "TypeError: Cannot read properties of null"
  | Obj fields =>
      Normal (option_map snd
                (List.find (fun kv => String.eqb (fst kv) name) (rev fields)))
  | _ => Normal None
  end.

End JS.

(** ** [src/types.ts] *)

Module LO.
Record t : Type := mk {
  id : string;
  type : string;
  x : Q;
  y : Q;
  width : Q;
  height : Q;
  rotation : option Q;
  students : option (list (option string));
  userBlockedSeats : option (list nat);
}.
End LO.

Abbreviation LayoutObject := LO.t.

(** [Desk = DeskType | null]; the grids built here only hold strings. *)
Abbreviation Desk := string (only parsing).

(** ** [src/components/LayoutEditor.tsx]: constants *)

Definition GRID_SIZE : Q := 16.
Definition DESK_WIDTH_UNITS : Q := 8.
Definition DESK_HEIGHT_UNITS : Q := 4.

Record PaletteDesk : Type := {
  p_type : string;
  p_name : string;
  p_width : Q;
  p_height : Q;
}.

Definition PALETTE_DESKS : list PaletteDesk :=
  [ {| p_type := "1"; p_name := "Jednolavice";
       p_width := DESK_WIDTH_UNITS / 2; p_height := DESK_HEIGHT_UNITS |};
    {| p_type := "11"; p_name := "Dvojlavice";
       p_width := DESK_WIDTH_UNITS; p_height := DESK_HEIGHT_UNITS |};
    {| p_type := "111"; p_name := "Trojlavice";
       p_width := DESK_WIDTH_UNITS + (DESK_WIDTH_UNITS / 2);
       p_height := DESK_HEIGHT_UNITS |};
    {| p_type := "101"; p_name := "Trojlavice (blok.)";
       p_width := DESK_WIDTH_UNITS + (DESK_WIDTH_UNITS / 2);
       p_height := DESK_HEIGHT_UNITS |} ].

(** ** [convertObjectsToLayoutMatrix] *)

Record LayoutMatrix : Type := {
  matrix : string;
  layout : list (list Desk);
  positionMap : gmap string string;
  numberedMatrix : string;
}.

(** The key [`${rowIndex}-${colIndex}`]. *)
Definition positionKey (rowIndex colIndex : nat) : string :=
  JS.string_of_nat rowIndex +:+ "-" +:+ JS.string_of_nat colIndex.

(** A. The comparator of the UI numbering (front-to-back, left-to-right). *)
Definition uiCompare (a b : LayoutObject) : Q :=
  let yDifference := (LO.y a - LO.y b)%Q in
  if JS.Qlt_bool (DESK_HEIGHT_UNITS / 2) (Qabs yDifference)
  then (LO.y b - LO.y a)%Q
  else (LO.x a - LO.x b)%Q.

Definition uiSortedObjects (objects : list LayoutObject) : list LayoutObject :=
  JS.sort uiCompare objects.

Definition deskNumberMap (objects : list LayoutObject) : gmap string nat :=
  JS.forEach (fun m desk index => <[LO.id desk := (index + 1)%nat]> m)
             (uiSortedObjects objects) ∅.

(** 1. Rows by proximity of the vertical centres, back to front. *)
Definition compareY (a b : LayoutObject) : Q := (LO.y a - LO.y b)%Q.
Definition compareX (a b : LayoutObject) : Q := (LO.x a - LO.x b)%Q.

Definition sortedByY (objects : list LayoutObject) : list LayoutObject :=
  JS.sort compareY objects.

Definition verticalCenter (d : LayoutObject) : Q := (LO.y d + LO.height d / 2)%Q.

Definition sameRow (currentDesk firstDeskInRow : LayoutObject) : bool :=
  JS.Qlt_bool (Qabs (verticalCenter currentDesk - verticalCenter firstDeskInRow))
              DESK_HEIGHT_UNITS.

(** The loop over [sortedByY[1..]]: [currentRow] is the row being filled and
    the result lists the rows pushed from here on.  [currentRow] is never
    empty, so its first branch is not reached. *)
Fixpoint groupRowsFrom (currentRow rest : list LayoutObject) : list (list LayoutObject) :=
  match rest with
  | [] => [JS.sort compareX currentRow]
  | currentDesk :: rest' =>
      match currentRow with
      | [] => groupRowsFrom [currentDesk] rest'
      | firstDeskInRow :: _ =>
          if sameRow currentDesk firstDeskInRow
          then groupRowsFrom (currentRow ++ [currentDesk]) rest'
          else JS.sort compareX currentRow :: groupRowsFrom [currentDesk] rest'
      end
  end.

Definition groupRows (objects : list LayoutObject) : list (list LayoutObject) :=
  match sortedByY objects with
  | [] => []
  | first :: rest => groupRowsFrom [first] rest
  end.

(** 2. Global column positions. *)
Definition horizontalCenter (d : LayoutObject) : Q := (LO.x d + LO.width d / 2)%Q.

Definition sortedUniqueCenters (objects : list LayoutObject) : list Q :=
  JS.sort Qminus (JS.uniqueNumbers (map horizontalCenter objects)).

(** The mean of a cluster, exact; the code divides doubles, which rounds the
    mean of three or more centres. *)
Definition clusterCenter (currentCluster : list Q) : Q :=
  (fold_left Qplus currentCluster 0 / inject_Z (Z.of_nat (length currentCluster)))%Q.

Fixpoint clusterFrom (currentCluster rest : list Q) : list Q :=
  match rest with
  | [] => [clusterCenter currentCluster]
  | c :: rest' =>
      if JS.Qlt_bool (c - List.last currentCluster 0%Q) (DESK_WIDTH_UNITS / 2)
      then clusterFrom (currentCluster ++ [c]) rest'
      else clusterCenter currentCluster :: clusterFrom [c] rest'
  end.

Definition columnCenters (objects : list LayoutObject) : list Q :=
  match sortedUniqueCenters objects with
  | [] => []
  | first :: rest => clusterFrom [first] rest
  end.

Definition numCols (columnCenters : list Q) : nat :=
  if Nat.ltb 0 (length columnCenters) then length columnCenters else 1%nat.

(** 3. The grid.  [minDistance = Infinity] is [None], [bestColIndex = -1] is
    [None]. *)
Definition nearerColumn (deskCenter : Q) (st : option nat * option Q)
    (center : Q) (index : nat) : option nat * option Q :=
  let distance := Qabs (deskCenter - center) in
  let closer := match st.2 with
                | None => true
                | Some minDistance => JS.Qlt_bool distance minDistance
                end in
  if closer then (Some index, Some distance) else st.

Definition bestColumn (columnCenters : list Q) (deskCenter : Q) : option nat * option Q :=
  JS.forEach (nearerColumn deskCenter) columnCenters (None, None).

(** [newRow[i] === '--' || newRow[i] === undefined]. *)
Definition isFree (newRow : list Desk) (i : nat) : bool :=
  match newRow !! i with
  | None => true
  | Some cell => String.eqb cell "--"
  end.

(** One call of the [row.forEach] callback; it writes [newRow] and the shared
    [positionMap].  The indices written by [newRow[i] = ...] are below
    [numCols], hence inside [newRow]. *)
Definition placeDesk (columnCenters : list Q) (numCols rowIndex : nat)
    (st : list Desk * gmap string string) (desk : LayoutObject)
    : list Desk * gmap string string :=
  let newRow := st.1 in
  let positionMap := st.2 in
  let deskCenter := horizontalCenter desk in
  match (bestColumn columnCenters deskCenter).1 with
  | None => st
  | Some bestColIndex =>
      if isFree newRow bestColIndex then
        (<[bestColIndex := LO.type desk]> newRow,
         <[positionKey rowIndex bestColIndex := LO.id desk]> positionMap)
      else
        match List.find (isFree newRow) (seq 0 numCols) with
        | Some i =>
            (<[i := LO.type desk]> newRow,
             <[positionKey rowIndex i := LO.id desk]> positionMap)
        | None =>
            let newIndex := length newRow in
            (newRow ++ [LO.type desk],
             <[positionKey rowIndex newIndex := LO.id desk]> positionMap)
        end
  end.

Definition buildRow (columnCenters : list Q) (numCols rowIndex : nat)
    (row : list LayoutObject) (positionMap : gmap string string)
    : list Desk * gmap string string :=
  fold_left (placeDesk columnCenters numCols rowIndex) row
            (replicate numCols "--", positionMap).

Definition gridStep (columnCenters : list Q) (numCols : nat)
    (st : list (list Desk) * gmap string string) (row : list LayoutObject)
    (rowIndex : nat) : list (list Desk) * gmap string string :=
  let r := buildRow columnCenters numCols rowIndex row st.2 in
  (st.1 ++ [r.1], r.2).

Definition buildGrid (columnCenters : list Q) (numCols : nat)
    (rows : list (list LayoutObject)) : list (list Desk) * gmap string string :=
  JS.forEach (gridStep columnCenters numCols) rows ([], ∅).

Definition maxRowLength (layoutGrid : list (list Desk)) : nat :=
  fold_left (fun max row => Nat.max max (length row)) layoutGrid 0%nat.

Definition padRows (layoutGrid : list (list Desk)) : list (list Desk) :=
  map (fun row => row ++ replicate (maxRowLength layoutGrid - length row) "--")
      layoutGrid.

Definition serializeGrid (grid : list (list string)) : string :=
  JS.join (String JS.LF "") (map (JS.join ",") grid).

(** B. The numbered grid. *)
Definition numberedCell (positionMap : gmap string string)
    (deskNumberMap : gmap string nat) (rowIndex colIndex : nat) (deskType : Desk)
    : string :=
  if negb (String.eqb deskType "--") then
    match positionMap !! positionKey rowIndex colIndex with
    | Some deskId =>
        if negb (String.eqb deskId "") then
          match deskNumberMap !! deskId with
          | Some deskNumber => "L" +:+ JS.string_of_nat deskNumber
          | None => "--"
          end
        else "--"
    | None => "--"
    end
  else "--".

Definition numberedGrid (finalLayoutGrid : list (list Desk))
    (positionMap : gmap string string) (deskNumberMap : gmap string nat)
    : list (list string) :=
  imap (fun rowIndex row =>
          imap (fun colIndex deskType =>
                  numberedCell positionMap deskNumberMap rowIndex colIndex deskType)
               row)
       finalLayoutGrid.

Definition convertObjectsToLayoutMatrix (objects : list LayoutObject) : LayoutMatrix :=
  match objects with
  | [] => {| matrix := ""; layout := []; positionMap := ∅; numberedMatrix := "" |}
  | _ =>
      let rows := groupRows objects in
      match rows with
      | [] => {| matrix := ""; layout := []; positionMap := ∅; numberedMatrix := "" |}
      | _ =>
          let centers := columnCenters objects in
          let g := buildGrid centers (numCols centers) rows in
          let finalLayoutGrid := padRows g.1 in
          {| matrix := serializeGrid finalLayoutGrid;
             layout := finalLayoutGrid;
             positionMap := g.2;
             numberedMatrix :=
               serializeGrid
                 (map (map (JS.padEnd 5))
                      (numberedGrid finalLayoutGrid g.2 (deskNumberMap objects))) |}
      end
  end.

(** ** [parseLayoutMatrixToObjects] *)

Definition deskConfig (trimmedDesk : string) : Q * Q :=
  match List.find (fun d => String.eqb (p_type d) trimmedDesk) PALETTE_DESKS with
  | Some d => (p_width d, p_height d)
  | None => (DESK_WIDTH_UNITS, DESK_HEIGHT_UNITS)
  end.

Definition parseCell (rowIndex : nat) (st : list LayoutObject * nat)
    (deskType : string) (colIndex : nat) : list LayoutObject * nat :=
  let objects := st.1 in
  let idCounter := st.2 in
  let trimmedDesk := JS.trim deskType in
  if negb (String.eqb trimmedDesk "") && negb (String.eqb trimmedDesk "--") then
    let config := deskConfig trimmedDesk in
    (objects ++
       [ {| LO.id := "desk-initial-" +:+ JS.string_of_nat idCounter;
            LO.type := trimmedDesk;
            LO.x := inject_Z (Z.of_nat colIndex) * (DESK_WIDTH_UNITS + 2);
            LO.y := inject_Z (Z.of_nat rowIndex) * (DESK_HEIGHT_UNITS + 2);
            LO.width := config.1;
            LO.height := config.2;
            LO.rotation := Some 0%Q;
            LO.students := None;
            LO.userBlockedSeats := Some [] |} ],
     S idCounter)
  else st.

Definition parseRow (st : list LayoutObject * nat) (row : string) (rowIndex : nat)
    : list LayoutObject * nat :=
  JS.forEach (parseCell rowIndex) (JS.split "," row) st.

Definition parseLayoutMatrixToObjects (matrix : string) : list LayoutObject :=
  let rows := JS.split JS.LF (JS.trim matrix) in
  (JS.forEach parseRow rows ([], 0%nat)).1.

(** ** [LayoutEditor]: collision test and drop handler *)

Module Editor.

(** The [dragData] ref. *)
Record DragData : Type := {
  type : string;
  width : Q;
  height : Q;
  isNew : bool;
  id : option string;
  offsetX : option Q;
  offsetY : option Q;
}.

(** The component state, the [dragData] ref and the console. *)
Record State : Type := {
  layoutObjects : list LayoutObject;
  dragData : option DragData;
  console : list string;
}.

(** What [handleDrop] reads from the event and the environment:
    [e.clientX], [e.clientY], the editor's bounding rectangle (when
    [editorRef.current] is set) and [Date.now()]. *)
Record DropEvent : Type := {
  clientX : Q;
  clientY : Q;
  editorRect : option (Q * Q);
  now : nat;
}.

Definition overlaps (newDesk desk : LayoutObject) : bool :=
  JS.Qlt_bool (LO.x newDesk) (LO.x desk + LO.width desk) &&
  JS.Qlt_bool (LO.x desk) (LO.x newDesk + LO.width newDesk) &&
  JS.Qlt_bool (LO.y newDesk) (LO.y desk + LO.height desk) &&
  JS.Qlt_bool (LO.y desk) (LO.y newDesk + LO.height newDesk).

Fixpoint checkCollision (newDesk : LayoutObject) (existingDesks : list LayoutObject) : bool :=
  match existingDesks with
  | [] => false
  | desk :: rest =>
      if String.eqb (LO.id desk) (LO.id newDesk) then checkCollision newDesk rest
      else if overlaps newDesk desk then true
      else checkCollision newDesk rest
  end.

(** [v || 0] on an optional number. *)
Definition orZero (v : option Q) : Q :=
  match v with
  | Some q => q
  | None => 0%Q
  end.

(** [newDesk] of [handleDrop].  The pointer arithmetic is exact; it is the
    arithmetic of the code for coordinates in whole pixels. *)
Definition newDeskOf (d : DragData) (e : DropEvent) (rectLeft rectTop : Q) : LayoutObject :=
  let x := (clientX e - rectLeft -
            (if isNew d then width d * GRID_SIZE / 2 else orZero (offsetX d)))%Q in
  let y := (clientY e - rectTop -
            (if isNew d then height d * GRID_SIZE / 2 else orZero (offsetY d)))%Q in
  let gridX := JS.round (x / GRID_SIZE) in
  let gridY := JS.round (y / GRID_SIZE) in
  {| LO.id := match id d with
              | Some i => if String.eqb i "" then "desk-" +:+ JS.string_of_nat (now e) else i
              | None => "desk-" +:+ JS.string_of_nat (now e)
              end;
     LO.type := type d;
     LO.x := inject_Z gridX;
     LO.y := inject_Z gridY;
     LO.width := width d;
     LO.height := height d;
     LO.rotation := Some 0%Q;
     LO.students := None;
     LO.userBlockedSeats := Some [] |}.

Definition handleDrop (e : DropEvent) (st : State) : State :=
  match dragData st, editorRect e with
  | Some d, Some (rectLeft, rectTop) =>
      let newDesk := newDeskOf d e rectLeft rectTop in
      let otherDesks :=
        List.filter (fun o => negb (String.eqb (LO.id o) (LO.id newDesk)))
                    (layoutObjects st) in
      if checkCollision newDesk otherDesks then
        {| layoutObjects := layoutObjects st;
           dragData := dragData st;
           console := console st ++ ["Collision detected!"] |}
      else if isNew d then
        {| layoutObjects := layoutObjects st ++ [newDesk];
           dragData := None;
           console := console st |}
      else
        let moved :=
          match List.find (fun o => String.eqb (LO.id o) (LO.id newDesk))
                          (layoutObjects st) with
          | Some existingDesk =>
              {| LO.id := LO.id newDesk;
                 LO.type := LO.type newDesk;
                 LO.x := LO.x newDesk;
                 LO.y := LO.y newDesk;
                 LO.width := LO.width existingDesk;
                 LO.height := LO.height existingDesk;
                 LO.rotation := LO.rotation existingDesk;
                 LO.students := LO.students newDesk;
                 LO.userBlockedSeats := LO.userBlockedSeats existingDesk |}
          | None => newDesk
          end in
        {| layoutObjects :=
             map (fun o => if String.eqb (LO.id o) (LO.id newDesk) then moved else o)
                 (layoutObjects st);
           dragData := None;
           console := console st |}
  | _, _ => st
  end.

End Editor.

(** ** [src/services/geminiService.ts] *)

Module Service.

Record Request : Type := {
  layoutMatrix : string;
  students : list string;
  conditions : string;
  numberedMatrix : string;
  currentArrangementMatrix : option string;
}.

(** What the awaited call and the parsing of its text come to: the call
    throws or rejects, [response.text.trim()] or [JSON.parse] throws, or
    [JSON.parse] returns a value. *)
Inductive Reply : Type :=
  | TransportError (message : string)
  | ParseError (message : string)
  | Parsed (parsed : JS.Value).

(** [{ seating, error }]; [error] is whatever the reply carried. *)
Record Result : Type := {
  seating : option (list JS.Value);
  error : option JS.Value;
}.

Definition INVALID_FORMAT : string :=
  "AI vrátilo neplatný formát dat (chybí pole 'seating').".

Definition COMMUNICATION_ERROR : string :=
  "Při komunikaci s AI službou nastala chyba. Zkuste to prosím znovu.".

(** The prompt is one of two templates chosen by [isModification]; only the
    choice is kept. *)
Definition isModification (r : Request) : bool :=
  match currentArrangementMatrix r with
  | Some _ => true
  | None => false
  end.

(** The body of the [try] block. *)
Definition tryBlock (reply : Reply) : JS.Completion Result :=
  match reply with
  | TransportError m => JS.Throw m
  | ParseError m => JS.Throw m
  | Parsed parsed =>
      JS.bind (JS.getProp parsed "error") (fun parsedError =>
      if JS.truthy parsedError then
        JS.Normal {| seating := None; error := parsedError |}
      else
        JS.bind (JS.getProp parsed "seating") (fun parsedSeating =>
        if negb (JS.truthy parsedSeating) || negb (JS.isArray parsedSeating) then
          JS.Throw INVALID_FORMAT
        else
          match parsedSeating with
          | Some (JS.Arr rows) => JS.Normal {| seating := Some rows; error := None |}
          | _ => JS.Throw INVALID_FORMAT
          end))
  end.

(** The function: the result and what [console.error] received. *)
Definition generateSeatingArrangement (request : Request) (reply : Reply)
    : Result * list string :=
  match tryBlock reply with
  | JS.Normal r => (r, [])
  | JS.Throw m =>
      ({| seating := None; error := Some (JS.Str COMMUNICATION_ERROR) |}, [m])
  end.

End Service.

(** ** [handleGenerateClick] *)

Module App.

Record State : Type := {
  layoutObjects : list LayoutObject;
  students : string;
  conditions : string;
  seatingChart : option (list JS.Value);
  finalArrangement : option (list LayoutObject);
  isLoading : bool;
  error : option JS.Value;
}.

(** A run of the handler either returns without awaiting anything, or awaits
    one call of [generateSeatingArrangement] and resumes with its result.
    When the resumed part throws, the state stays as it was at the await. *)
Inductive Run : Type :=
  | Returned (st : State)
  | Awaits (request : Service.Request)
           (resume : Service.Result -> JS.Completion State).

Definition EMPTY_LAYOUT : string :=
  "Rozložení lavic je prázdné. Přidejte lavice v editoru.".

Definition EMPTY_ROSTER : string := "Seznam žáků je prázdný.".

Definition insufficientSeats (studentCount : nat) (availableSeats : Z) : string :=
  "Nedostatek míst. Počet žáků (" +:+ JS.string_of_nat studentCount +:+
  ") přesahuje počet dostupných míst (" +:+ JS.string_of_Z availableSeats +:+ ").".

(** [students.trim().split('\n').filter(s => s.trim() !== '')]. *)
Definition studentListOf (students : string) : list string :=
  List.filter (fun s => negb (String.eqb (JS.trim s) ""))
              (JS.split JS.LF (JS.trim students)).

(** [x?.length || 0] and [x || []] on an optional array. *)
Definition lengthOrZero {A} (a : option (list A)) : nat :=
  match a with
  | Some l => length l
  | None => 0%nat
  end.

Definition orEmpty {A} (a : option (list A)) : list A :=
  match a with
  | Some l => l
  | None => []
  end.

(** The seats a type code offers before user blocking. *)
Definition potentialSeats (type : string) : nat :=
  if JS.includes "1" type
  then length (orEmpty (JS.matchAll "1" type))
  else length (orEmpty (JS.matchAll "0" type)).

Definition availableSeats (layoutObjects : list LayoutObject) : Z :=
  fold_left
    (fun availableSeats desk =>
       if negb (String.eqb (LO.type desk) "--") then
         let numUserBlocked := lengthOrZero (LO.userBlockedSeats desk) in
         (availableSeats +
          (Z.of_nat (potentialSeats (LO.type desk)) - Z.of_nat numUserBlocked))%Z
       else availableSeats)
    layoutObjects 0%Z.

(** The names seated in an arrangement, first occurrences. *)
Definition namesOf (arrangement : list LayoutObject) : list string :=
  JS.uniqueStrings
    (List.filter (fun s => negb (String.eqb s "") && negb (String.eqb (JS.trim s) ""))
       (omap (fun s => s) (flat_map (fun desk => orEmpty (LO.students desk)) arrangement))).

(** The text of the current arrangement given to the modification prompt.
    The [for ... in] loop looks for the key of a desk id; the keys are
    enumerated here in the order of the map, which finds the same key
    whenever an id sits under one key only. *)
Definition positionOf (positionMap : gmap string string) (deskId : string)
    : option (nat * nat) :=
  match List.find (fun kv => String.eqb (snd kv) deskId) (map_to_list positionMap) with
  | Some (pos, _) =>
      match map JS.Number (JS.split "-" pos) with
      | Some r :: Some c :: _ => Some (r, c)
      | _ => None
      end
  | None => None
  end.

Definition deskText (desk : LayoutObject) : string :=
  match LO.students desk with
  | Some (s :: l) =>
      "[" +:+ JS.join ", " (map (fun o => match o with
                                          | Some n => if String.eqb n "" then "prázdné" else n
                                          | None => "prázdné"
                                          end) (s :: l)) +:+ "]"
  | _ => "[prázdná]"
  end.

Definition arrangementMatrix (layout : list (list Desk))
    (positionMap : gmap string string) (arrangement : list LayoutObject) : string :=
  let arrangementGrid : list (list string) :=
    map (map (fun cell => if String.eqb cell "--" then "--" else "[prázdná]")) layout in
  let filled :=
    fold_left
      (fun grid desk =>
         match positionOf positionMap (LO.id desk) with
         | Some (r, c) => alter (fun row => <[c := deskText desk]> row) r grid
         | None => grid
         end)
      arrangement arrangementGrid in
  JS.join (String JS.LF "") (map (fun row => JS.join " " (map (JS.padEnd 25) row)) filled).

(** The conditions synthesised for user-blocked seats. *)
Definition additionalConditions (layoutObjects : list LayoutObject) : list string :=
  let sortedForNumbering := JS.sort uiCompare layoutObjects in
  flat_map
    (fun desk =>
       match LO.userBlockedSeats desk with
       | Some (b :: bs) =>
           match JS.findIndex (fun d => String.eqb (LO.id d) (LO.id desk))
                              sortedForNumbering with
           | Some deskIndex =>
               let deskNumber := (deskIndex + 1)%nat in
               map (fun seatIndex =>
                      "V lavici č. " +:+ JS.string_of_nat deskNumber +:+
                      " je místo č. " +:+ JS.string_of_nat (seatIndex + 1) +:+
                      " (zleva) blokováno a nelze jej obsadit.")
                   (b :: bs)
           | None => []
           end
       | _ => []
       end)
    layoutObjects.

Definition finalConditions (st : State) : string :=
  JS.trim (JS.join (String JS.LF "")
                   (conditions st :: additionalConditions (layoutObjects st))).

(** ** Applying a seating result *)

(** [typeof s === 'string' ? s : null]. *)
Definition seatName (s : JS.Value) : option string :=
  match s with
  | JS.Str n => Some n
  | _ => None
  end.

Definition withStudents (obj : LayoutObject) (students : list (option string))
    : LayoutObject :=
  {| LO.id := LO.id obj; LO.type := LO.type obj;
     LO.x := LO.x obj; LO.y := LO.y obj;
     LO.width := LO.width obj; LO.height := LO.height obj;
     LO.rotation := LO.rotation obj;
     LO.students := Some students;
     LO.userBlockedSeats := LO.userBlockedSeats obj |}.

(** [populatedLayoutObjects.find(obj => obj.id === objectId)] followed by the
    assignment to [targetObject.students]: the first object with that id is
    updated in place. *)
Fixpoint setStudents (objectId : string) (students : list (option string))
    (populated : list LayoutObject) : list LayoutObject :=
  match populated with
  | [] => []
  | obj :: rest =>
      if String.eqb (LO.id obj) objectId then withStudents obj students :: rest
      else obj :: setStudents objectId students rest
  end.

Definition applyCell (positionMap : gmap string string) (rowIndex : nat)
    (populated : list LayoutObject) (deskStudents : JS.Value) (colIndex : nat)
    : list LayoutObject :=
  if JS.truthy (Some deskStudents) then
    match positionMap !! positionKey rowIndex colIndex with
    | Some objectId =>
        if negb (String.eqb objectId "") then
          match deskStudents with
          | JS.Arr seats => setStudents objectId (map seatName seats) populated
          | _ => populated
          end
        else populated
    | None => populated
    end
  else populated.

(** [result.seating.forEach((row, rowIndex) => row.forEach(...))]; a row that
    is not an array has no [forEach] and the call throws. *)
Definition applyRow (positionMap : gmap string string)
    (populated : JS.Completion (list LayoutObject)) (row : JS.Value) (rowIndex : nat)
    : JS.Completion (list LayoutObject) :=
  JS.bind populated (fun p =>
    match row with
    | JS.Arr cells => JS.Normal (JS.forEach (applyCell positionMap rowIndex) cells p)
    | _ => JS.Throw "TypeError: row.forEach is not a function"
    end).

Definition applySeating (layoutObjects : list LayoutObject)
    (positionMap : gmap string string) (seating : list JS.Value)
    : JS.Completion (list LayoutObject) :=
  let populatedLayoutObjects := map (fun obj => withStudents obj []) layoutObjects in
  JS.forEach (applyRow positionMap) seating (JS.Normal populatedLayoutObjects).

Definition handleGenerateClick (st : State) : Run :=
  (* setError(null); setIsLoading(true); setSeatingChart(null) *)
  let started :=
    {| layoutObjects := layoutObjects st; students := students st;
       conditions := conditions st; seatingChart := None;
       finalArrangement := finalArrangement st;
       isLoading := true; error := None |} in
  let failWith (s0 : State) (message : string) : State :=
    {| layoutObjects := layoutObjects s0; students := students s0;
       conditions := conditions s0; seatingChart := seatingChart s0;
       finalArrangement := finalArrangement s0;
       isLoading := false; error := Some (JS.Str message) |} in
  let m := convertObjectsToLayoutMatrix (layoutObjects st) in
  if String.eqb (matrix m) "" || Nat.eqb (length (layout m)) 0 then
    Returned (failWith started EMPTY_LAYOUT)
  else
    let afterAwait (s0 : State) (result : Service.Result) : JS.Completion State :=
      if JS.truthy (Service.error result) then
        JS.Normal
          {| layoutObjects := layoutObjects s0; students := students s0;
             conditions := conditions s0; seatingChart := seatingChart s0;
             finalArrangement := finalArrangement s0;
             isLoading := false; error := Service.error result |}
      else
        match Service.seating result with
        | Some seating =>
            JS.bind (applySeating (layoutObjects st) (positionMap m) seating)
              (fun populatedLayoutObjects =>
                 JS.Normal
                   {| layoutObjects := layoutObjects s0; students := students s0;
                      conditions := conditions s0; seatingChart := Some seating;
                      finalArrangement := Some populatedLayoutObjects;
                      isLoading := false; error := error s0 |})
        | None =>
            JS.Normal
              {| layoutObjects := layoutObjects s0; students := students s0;
                 conditions := conditions s0; seatingChart := seatingChart s0;
                 finalArrangement := finalArrangement s0;
                 isLoading := false; error := error s0 |}
        end in
    match finalArrangement st with
    | Some arrangement =>
        (* modification of an existing arrangement *)
        let studentList := namesOf arrangement in
        let currentArrangementMatrix :=
          arrangementMatrix (layout m) (positionMap m) arrangement in
        Awaits
          {| Service.layoutMatrix := matrix m;
             Service.students := studentList;
             Service.conditions := finalConditions st;
             Service.numberedMatrix := numberedMatrix m;
             Service.currentArrangementMatrix := Some currentArrangementMatrix |}
          (afterAwait started)
    | None =>
        (* generation; setFinalArrangement(null) *)
        let studentList := studentListOf (students st) in
        if Nat.eqb (length studentList) 0 then
          Returned (failWith started EMPTY_ROSTER)
        else
          let seats := availableSeats (layoutObjects st) in
          if Z.ltb seats (Z.of_nat (length studentList)) then
            Returned (failWith started (insufficientSeats (length studentList) seats))
          else
            Awaits
              {| Service.layoutMatrix := matrix m;
                 Service.students := studentList;
                 Service.conditions := finalConditions st;
                 Service.numberedMatrix := numberedMatrix m;
                 Service.currentArrangementMatrix := None |}
              (afterAwait started)
    end.

End App.

(** ** Vocabulary of the statements *)

(** A string of characters below U+0080 without white space. *)
Fixpoint noWhiteSpace (s : string) : bool :=
  match s with
  | EmptyString => true
  | String c s' =>
      negb (JS.isWhiteSpace c) && Nat.ltb (nat_of_ascii c) 128 && noWhiteSpace s'
  end.

Definition isDigit (c : ascii) : bool :=
  let n := nat_of_ascii c in Nat.leb 48 n && Nat.leb n 57.

Fixpoint allDigits (s : string) : bool :=
  match s with
  | EmptyString => true
  | String c s' => isDigit c && allDigits s'
  end.

(** The order a comparator stands for: [a] may come before [b]. *)
Definition before {A : Type} (compareFn : A -> A -> Q) (a b : A) : Prop :=
  (compareFn a b <= 0)%Q.

(** The number of occurrences of a character. *)
Fixpoint countChar (c : ascii) (s : string) : nat :=
  match s with
  | EmptyString => 0%nat
  | String a s' => ((if Ascii.eqb a c then 1 else 0) + countChar c s')%nat
  end.

(** A type code: a string over the alphabet {0,1}. *)
Fixpoint isTypeCode (s : string) : bool :=
  match s with
  | EmptyString => true
  | String a s' => (Ascii.eqb a "0" || Ascii.eqb a "1") && isTypeCode s'
  end.

(** The occupiable-seat count of a type code in the words of the
    specification: the count of ['1'] when there is any, otherwise the count
    of ['0']. *)
Definition occupiableSeatCount (typeCode : string) : nat :=
  if Nat.ltb 0 (countChar "1" typeCode)
  then countChar "1" typeCode
  else countChar "0" typeCode.

Definition userBlockedCount (desk : LayoutObject) : nat :=
  App.lengthOrZero (LO.userBlockedSeats desk).

(** The half-open rectangle of a desk, and two rectangles sharing a point. *)
Definition inRectangle (d : LayoutObject) (px py : Q) : Prop :=
  (LO.x d <= px /\ px < LO.x d + LO.width d /\
   LO.y d <= py /\ py < LO.y d + LO.height d)%Q.

Definition rectanglesOverlap (a b : LayoutObject) : Prop :=
  exists px py, inRectangle a px py /\ inRectangle b px py.

(** Two rectangles that meet along an edge at most: one ends where the other
    begins, on one of the axes. *)
Definition rectanglesTouch (a b : LayoutObject) : Prop :=
  (LO.x a + LO.width a == LO.x b \/ LO.x b + LO.width b == LO.x a \/
   LO.y a + LO.height a == LO.y b \/ LO.y b + LO.height b == LO.y a)%Q.

(** The result of the service call as the claim words it: a seating and no
    error, or no seating and an error string. *)
Definition exclusiveResult (r : Service.Result) : Prop :=
  (Service.seating r <> None /\ Service.error r = None) \/
  (Service.seating r = None /\ exists s, Service.error r = Some (JS.Str s)).

(** The cell of a grid at a row and a column. *)
Definition cellAt {A : Type} (grid : list (list A)) (r c : nat) : option A :=
  grid !! r ≫= (fun row => row !! c).

(** A row under construction: [occ] lists the occupied columns with the desk
    each holds. *)
Definition RowOK (newRow : list string) (occ : list (nat * LayoutObject)) : Prop :=
  NoDup (map fst occ) /\
  (forall c d, (c, d) ∈ occ -> newRow !! c = Some (LO.type d) /\ LO.type d <> "--") /\
  (forall c t, newRow !! c = Some t -> t <> "--" -> c ∈ map fst occ).

(** The writes of one row into the position map. *)
Definition recordRow (rowIndex : nat) (occ : list (nat * LayoutObject))
    (positionMap : gmap string string) : gmap string string :=
  fold_left (fun m cd => <[positionKey rowIndex (fst cd) := LO.id (snd cd)]> m)
            occ positionMap.

(** The desks of a grid with their cells: [(r, c, d)] says that desk [d] sits
    in row [r], column [c]. *)
Definition placesOfRow (r : nat) (occ : list (nat * LayoutObject))
    : list (nat * nat * LayoutObject) :=
  map (fun cd => (r, fst cd, snd cd)) occ.

Definition Placed (rows : list (list LayoutObject)) (grid : list (list string))
    (positionMap : gmap string string) (P : list (nat * nat * LayoutObject)) : Prop :=
  length grid = length rows /\
  NoDup (map fst P) /\
  map snd P = concat rows /\
  (forall r c d, (r, c, d) ∈ P ->
     (exists row, rows !! r = Some row /\ d ∈ row) /\
     cellAt grid r c = Some (LO.type d) /\ LO.type d <> "--") /\
  (forall r row d, rows !! r = Some row -> d ∈ row -> exists c, (r, c, d) ∈ P) /\
  (forall r c t, cellAt grid r c = Some t -> t <> "--" -> exists d, (r, c, d) ∈ P) /\
  (forall k v, positionMap !! k = Some v <->
     exists r c d, (r, c, d) ∈ P /\ k = positionKey r c /\ v = LO.id d).

(** A cell text that holds neither a comma nor a line feed. *)
Definition cleanCell (s : string) : bool :=
  negb (JS.includes "," s) && negb (JS.includes JS.LF s).

(** The cells of a matrix text: lines, each split at the commas. *)
Definition cellsOfText (text : string) : list (list string) :=
  map (JS.split ",") (JS.split JS.LF text).

(** Two desks whose vertical centres are less than one desk height apart. *)
Definition sameLine (a b : LayoutObject) : Prop :=
  (Qabs (verticalCenter a - verticalCenter b) < DESK_HEIGHT_UNITS)%Q.

(** A group of desks that forms one physical row. *)
Definition physicalRow (group : list LayoutObject) : Prop :=
  forall a b, a ∈ group -> b ∈ group -> sameLine a b.

(** Every desk of [front] is nearer the board (larger [y]) than every desk of
    [behind], and on another line. *)
Definition inFrontOf (front behind : list LayoutObject) : Prop :=
  forall f b, f ∈ front -> b ∈ behind ->
    (LO.y b < LO.y f)%Q /\ ~ sameLine f b.

(** Desk [d] appears in text line [line] of the matrix: one of the line's
    comma-separated cells holds its type code, and the position map gives the
    desk's id for that cell. *)
Definition appearsInLine (m : LayoutMatrix) (d : LayoutObject) (line : nat) : Prop :=
  exists c,
    cellAt (cellsOfText (matrix m)) line c = Some (LO.type d) /\
    positionMap m !! positionKey line c = Some (LO.id d).

(** The cells of a grid in reading order, each with its row and column. *)
Fixpoint rowCellsFrom {A : Type} (r c : nat) (row : list A) : list (nat * nat * A) :=
  match row with
  | [] => []
  | a :: row' => (r, c, a) :: rowCellsFrom r (S c) row'
  end.

Fixpoint gridCellsFrom {A : Type} (r : nat) (grid : list (list A)) : list (nat * nat * A) :=
  match grid with
  | [] => []
  | row :: grid' => rowCellsFrom r 0 row ++ gridCellsFrom (S r) grid'
  end.

Definition gridCells {A : Type} (grid : list (list A)) : list (nat * nat * A) :=
  gridCellsFrom 0 grid.

(** A cell that holds a desk. *)
Definition holdsDesk (cell : nat * nat * string) : bool :=
  negb (String.eqb (snd cell) "--").

(** The cell texts of the numbered matrix: a label [L{n}] and the blank
    cell, both padded to five characters. *)
Definition labelText (n : nat) : string := JS.padEnd 5 ("L" +:+ JS.string_of_nat n).

Definition blankText : string := JS.padEnd 5 "--".

(** The state a generation request is left in when it is refused before any
    call: the message is set and nothing else is kept from the attempt. *)
Definition refused (st : App.State) (message : string) : App.State :=
  {| App.layoutObjects := App.layoutObjects st;
     App.students := App.students st;
     App.conditions := App.conditions st;
     App.seatingChart := None;
     App.finalArrangement := App.finalArrangement st;
     App.isLoading := false;
     App.error := Some (JS.Str message) |}.

(** One step of the application of a seating result, on a cell in reading
    order. *)
Definition applyAt (pm : gmap string string) (populated : list LayoutObject)
    (cell : nat * nat * JS.Value) : list LayoutObject :=
  App.applyCell pm (fst (fst cell)) populated (snd cell) (snd (fst cell)).

(** What one cell does to one object. *)
Definition seatAt (pm : gmap string string) (o : LayoutObject)
    (cell : nat * nat * JS.Value) : LayoutObject :=
  match snd cell with
  | JS.Arr seats =>
      match pm !! positionKey (fst (fst cell)) (snd (fst cell)) with
      | Some objectId =>
          if negb (String.eqb objectId "") && String.eqb (LO.id o) objectId
          then App.withStudents o (map App.seatName seats)
          else o
      | None => o
      end
  | _ => o
  end.

(** A cell that seats object [o]. *)
Definition seats (pm : gmap string string) (o : LayoutObject)
    (cell : nat * nat * JS.Value) (students : list JS.Value) : Prop :=
  snd cell = JS.Arr students /\
  pm !! positionKey (fst (fst cell)) (snd (fst cell)) = Some (LO.id o).


(** The objects [parseLayoutMatrixToObjects] makes of the cells of a text, in
    reading order; [k] is the id counter. *)
Definition isDeskText (cell : string) : bool :=
  negb (String.eqb (JS.trim cell) "") && negb (String.eqb (JS.trim cell) "--").

Definition parsedDesk (k : nat) (cell : nat * nat * string) : LayoutObject :=
  {| LO.id := "desk-initial-" +:+ JS.string_of_nat k;
     LO.type := JS.trim (snd cell);
     LO.x := inject_Z (Z.of_nat (snd (fst cell))) * (DESK_WIDTH_UNITS + 2);
     LO.y := inject_Z (Z.of_nat (fst (fst cell))) * (DESK_HEIGHT_UNITS + 2);
     LO.width := fst (deskConfig (JS.trim (snd cell)));
     LO.height := snd (deskConfig (JS.trim (snd cell)));
     LO.rotation := Some 0%Q;
     LO.students := None;
     LO.userBlockedSeats := Some [] |}.

Fixpoint parsedFrom (k : nat) (cells : list (nat * nat * string)) : list LayoutObject :=
  match cells with
  | [] => []
  | cell :: cells' =>
      if isDeskText (snd cell) then parsedDesk k cell :: parsedFrom (S k) cells'
      else parsedFrom k cells'
  end.

(** A cell of a layout: ["--"] or a non-empty type code. *)
Definition layoutCell (t : string) : Prop :=
  t = "--" \/ (isTypeCode t = true /\ t <> "").

(** The parsed desks of a grid, row by row. *)
Fixpoint parsedRows (k r : nat) (grid : list (list string)) : list (list LayoutObject) :=
  match grid with
  | [] => []
  | row :: grid' =>
      let ds := parsedFrom k (rowCellsFrom r 0 row) in
      ds :: parsedRows (k + length ds) (S r) grid'
  end.

(** A chain of blocks for the row grouping: every block is non-empty, off
    the line of the block before it, and on one line with its first desk. *)
Fixpoint Blocks (first : LayoutObject) (blocks : list (list LayoutObject)) : Prop :=
  match blocks with
  | [] => True
  | [] :: _ => False
  | (b :: block) :: rest =>
      sameRow b first = false /\
      (forall d, d ∈ block -> sameRow d b = true) /\
      Blocks b rest
  end.

(** The number of a row or a column, as a rational. *)
Definition Qnat (n : nat) : Q := inject_Z (Z.of_nat n).

(** A row of a grid that holds a desk. *)
Definition rowHasDesk (row : list string) : Prop :=
  exists t, t ∈ row /\ isDeskText t = true.

(** The horizontal centres of the desks parsed in column [c] lie between
    [10 c + 2] and [10 c + 6]. *)
Definition inColumn (u : Q) (c : nat) : Prop :=
  (10 * Qnat c + 2 <= u /\ u <= 10 * Qnat c + 6)%Q.

(** A sorted run of centres that goes through the columns one by one:
    [Chain c v rest cEnd] says that after the value [v] of column [c] the
    values of [rest] stay in the column, less than half a desk width apart,
    or pass to the next column, and end in column [cEnd]. *)
Inductive Chain : nat -> Q -> list Q -> nat -> Prop :=
  | Chain_nil c v : Chain c v [] c
  | Chain_same c v u rest cEnd :
      inColumn u c -> (u - v < DESK_WIDTH_UNITS / 2)%Q ->
      Chain c u rest cEnd -> Chain c v (u :: rest) cEnd
  | Chain_next c v u rest cEnd :
      inColumn u (S c) -> (DESK_WIDTH_UNITS / 2 <= u - v)%Q ->
      Chain (S c) u rest cEnd -> Chain c v (u :: rest) cEnd.

(** The width a parsed desk gets from its cell text, and a column of a grid
    holding a desk of some width. *)
Definition cellWidth (t : string) : Q := fst (deskConfig (JS.trim t)).

Definition columnHoldsWidth (grid : list (list string)) (c : nat) (w : Q) : Prop :=
  exists r t, cellAt grid r c = Some t /\ t <> "--" /\ (cellWidth t == w)%Q.

(** No column holds a desk of half width and a desk of one and a half width
    without a desk of full width. *)
Definition noSplitColumn (grid : list (list string)) : Prop :=
  forall c,
    columnHoldsWidth grid c (DESK_WIDTH_UNITS / 2) ->
    columnHoldsWidth grid c (DESK_WIDTH_UNITS + DESK_WIDTH_UNITS / 2) ->
    columnHoldsWidth grid c DESK_WIDTH_UNITS.

(** In the search for the nearest column: the least distance found so far is
    still more than the distance from [v] to [m]. *)
Definition farther (v m : Q) (st : option nat * option Q) : Prop :=
  match snd st with
  | None => True
  | Some d => (Qabs (v - m) < d)%Q
  end.

(** A column of a row under construction that holds a desk. *)
Definition occupied (row : list string) (c : nat) : Prop :=
  exists t, row !! c = Some t /\ t <> "--".

(** The clusters whose means [clusterFrom] returns. *)
Fixpoint clustersFrom (currentCluster rest : list Q) : list (list Q) :=
  match rest with
  | [] => [currentCluster]
  | c :: rest' =>
      if JS.Qlt_bool (c - List.last currentCluster 0%Q) (DESK_WIDTH_UNITS / 2)
      then clustersFrom (currentCluster ++ [c]) rest'
      else currentCluster :: clustersFrom [c] rest'
  end.

(** An ascending run of centres, each less than half a desk width after the
    one before it. *)
Fixpoint Tight (l : list Q) : Prop :=
  match l with
  | a :: (b :: _) as l' => (a <= b)%Q /\ (b - a < DESK_WIDTH_UNITS / 2)%Q /\ Tight l'
  | _ => True
  end.

(** Clusters in ascending order, half a desk width apart at least. *)
Fixpoint Separated (clusters : list (list Q)) : Prop :=
  match clusters with
  | [] => True
  | l :: clusters' =>
      (forall x y, x ∈ l -> y ∈ concat clusters' -> (DESK_WIDTH_UNITS / 2 <= y - x)%Q) /\
      Separated clusters'
  end.

(** ** The round trip through the matrix text *)

(** Parsing the matrix of a set of desks back. *)
Definition roundTrip (objects : list LayoutObject) : list LayoutObject :=
  parseLayoutMatrixToObjects (matrix (convertObjectsToLayoutMatrix objects)).

(** A desk of the palette at whole grid units. *)
Definition onPaletteGrid (d : LayoutObject) : Prop :=
  (exists p, p ∈ PALETTE_DESKS /\ LO.type d = p_type p /\
             LO.width d = p_width p /\ LO.height d = p_height p) /\
  (exists i j : nat, LO.x d = Qnat i /\ LO.y d = Qnat j).

Definition handAuthored (objects : list LayoutObject) : Prop :=
  Forall onPaletteGrid objects /\ NoDup (map LO.id objects).

Definition nonOverlapping (objects : list LayoutObject) : Prop :=
  forall i j a b, objects !! i = Some a -> objects !! j = Some b -> i <> j ->
    ~ rectanglesOverlap a b.

(** The round trip keeps the number of desks, the type codes and the matrix. *)
Definition roundTripStable (objects : list LayoutObject) : Prop :=
  length (roundTrip objects) = length objects /\
  Permutation (map LO.type (roundTrip objects)) (map LO.type objects) /\
  matrix (convertObjectsToLayoutMatrix (roundTrip objects)) =
    matrix (convertObjectsToLayoutMatrix objects).

(** ** Example layouts and requests *)

(** The drag of a new desk from the palette, a drop on an editor whose
    rectangle starts at the origin, and the desks after the drop. *)
Definition dragNew (type : string) (width : Q) : Editor.DragData :=
  {| Editor.type := type; Editor.width := width; Editor.height := DESK_HEIGHT_UNITS;
     Editor.isNew := true; Editor.id := None;
     Editor.offsetX := Some 0%Q; Editor.offsetY := Some 0%Q |}.

Definition dropAt (clientX clientY : Q) (now : nat) : Editor.DropEvent :=
  {| Editor.clientX := clientX; Editor.clientY := clientY;
     Editor.editorRect := Some (0%Q, 0%Q); Editor.now := now |}.

Definition dragging (d : Editor.DragData) (objects : list LayoutObject) : Editor.State :=
  {| Editor.layoutObjects := objects; Editor.dragData := Some d; Editor.console := [] |}.

Definition dropNew (type : string) (width clientX clientY : Q) (now : nat)
    (objects : list LayoutObject) : list LayoutObject :=
  Editor.layoutObjects
    (Editor.handleDrop (dropAt clientX clientY now) (dragging (dragNew type width) objects)).

(** A single desk centred behind a triple desk. *)
Definition singleDesk : LayoutObject :=
  LO.mk "desk-1" "1" 2 0 (DESK_WIDTH_UNITS / 2) DESK_HEIGHT_UNITS
        (Some 0%Q) None (Some []).

Definition tripleDesk : LayoutObject :=
  LO.mk "desk-2" "111" 0 6
        (DESK_WIDTH_UNITS + DESK_WIDTH_UNITS / 2) DESK_HEIGHT_UNITS
        (Some 0%Q) None (Some []).

Definition centredDesks : list LayoutObject := [singleDesk; tripleDesk].

(** A double desk and a single desk in the back row, a triple desk in front
    of the double desk. *)
Definition classroom : list LayoutObject :=
  [ LO.mk "desk-1" "11" 0 0 DESK_WIDTH_UNITS DESK_HEIGHT_UNITS
          (Some 0%Q) None (Some []);
    LO.mk "desk-2" "1" 10 0 (DESK_WIDTH_UNITS / 2) DESK_HEIGHT_UNITS
          (Some 0%Q) None (Some []);
    LO.mk "desk-3" "111" 0 6
          (DESK_WIDTH_UNITS + DESK_WIDTH_UNITS / 2) DESK_HEIGHT_UNITS
          (Some 0%Q) None (Some []) ].

(** The layout ["1"] with a roster of two names. *)
Definition oneSeatRequest : App.State :=
  {| App.layoutObjects := parseLayoutMatrixToObjects "1";
     App.students := "Alice" +:+ String JS.LF "Bob";
     App.conditions := ""; App.seatingChart := None;
     App.finalArrangement := None; App.isLoading := false;
     App.error := None |}.

(** A double desk in the editor and the drop of a new double desk on it. *)
Definition doubleDesk : LayoutObject :=
  LO.mk "desk-1" "11" 0 0 DESK_WIDTH_UNITS DESK_HEIGHT_UNITS
        (Some 0%Q) None (Some []).

(** ** [LayoutEditor]: the other handlers *)

Module LayoutEditor.

(** What [handleDragStart] reads from the event: the pointer and the
    bounding rectangle of the dragged element. *)
Record DragStartEvent : Type := {
  clientX : Q;
  clientY : Q;
  targetLeft : Q;
  targetTop : Q;
}.

(** The [desk] argument of [handleDragStart]: [{ ...desk, isNew: false }] for
    a desk of the canvas and [{ ...desk, isNew: true }] for a desk of the
    palette, which has no [id]. *)
Definition canvasDesk (desk : LayoutObject) : Editor.DragData :=
  {| Editor.type := LO.type desk; Editor.width := LO.width desk;
     Editor.height := LO.height desk; Editor.isNew := false;
     Editor.id := Some (LO.id desk);
     Editor.offsetX := None; Editor.offsetY := None |}.

Definition paletteDesk (p : PaletteDesk) : Editor.DragData :=
  {| Editor.type := p_type p; Editor.width := p_width p;
     Editor.height := p_height p; Editor.isNew := true;
     Editor.id := None;
     Editor.offsetX := None; Editor.offsetY := None |}.

(** [dragData.current = { ...desk, offsetX, offsetY }]. *)
Definition handleDragStart (e : DragStartEvent) (desk : Editor.DragData)
    (st : Editor.State) : Editor.State :=
  let offsetX := (clientX e - targetLeft e)%Q in
  let offsetY := (clientY e - targetTop e)%Q in
  {| Editor.layoutObjects := Editor.layoutObjects st;
     Editor.dragData :=
       Some {| Editor.type := Editor.type desk; Editor.width := Editor.width desk;
               Editor.height := Editor.height desk; Editor.isNew := Editor.isNew desk;
               Editor.id := Editor.id desk;
               Editor.offsetX := Some offsetX; Editor.offsetY := Some offsetY |};
     Editor.console := Editor.console st |}.

(** [setLayoutObjects(prev => prev.filter(d => d.id !== id))]. *)
Definition removeDesk (id : string) (layoutObjects : list LayoutObject)
    : list LayoutObject :=
  List.filter (fun d => negb (String.eqb (LO.id d) id)) layoutObjects.

(** [{ ...desk, width: desk.height, height: desk.width,
       rotation: (desk.rotation || 0) === 0 ? 90 : 0 }]. *)
Definition rotate (desk : LayoutObject) : LayoutObject :=
  {| LO.id := LO.id desk; LO.type := LO.type desk;
     LO.x := LO.x desk; LO.y := LO.y desk;
     LO.width := LO.height desk; LO.height := LO.width desk;
     LO.rotation :=
       Some (if Qeq_bool (Editor.orZero (LO.rotation desk)) 0 then 90%Q else 0%Q);
     LO.students := LO.students desk;
     LO.userBlockedSeats := LO.userBlockedSeats desk |}.

Definition handleRotateDesk (id : string) (layoutObjects : list LayoutObject)
    : list LayoutObject :=
  map (fun desk => if String.eqb (LO.id desk) id then rotate desk else desk)
      layoutObjects.

(** [{ ...d, userBlockedSeats: newBlocked }]. *)
Definition toggleSeat (seatIndex : nat) (d : LayoutObject) : LayoutObject :=
  let currentBlocked := App.orEmpty (LO.userBlockedSeats d) in
  let isBlocked := existsb (Nat.eqb seatIndex) currentBlocked in
  let newBlocked :=
    if isBlocked
    then List.filter (fun i => negb (Nat.eqb i seatIndex)) currentBlocked
    else currentBlocked ++ [seatIndex] in
  {| LO.id := LO.id d; LO.type := LO.type d;
     LO.x := LO.x d; LO.y := LO.y d;
     LO.width := LO.width d; LO.height := LO.height d;
     LO.rotation := LO.rotation d;
     LO.students := LO.students d;
     LO.userBlockedSeats := Some newBlocked |}.

Definition handleSeatClick (deskId : string) (seatIndex : nat)
    (layoutObjects : list LayoutObject) : list LayoutObject :=
  map (fun d => if String.eqb (LO.id d) deskId then toggleSeat seatIndex d else d)
      layoutObjects.

End LayoutEditor.

(** No two desks of the list are in collision, in the sense of
    [checkCollision]. *)
Definition collisionFree (objects : list LayoutObject) : Prop :=
  forall i j a b, objects !! i = Some a -> objects !! j = Some b -> i <> j ->
    Editor.overlaps a b = false.

(** The id [handleDrop] gives to a new desk dropped at time [now]. *)
Definition newDeskId (now : nat) : string := "desk-" +:+ JS.string_of_nat now.

(** A desk moved to a grid position, as [handleDrop] rebuilds it. *)
Definition movedTo (gridX gridY : Z) (desk : LayoutObject) : LayoutObject :=
  {| LO.id := LO.id desk; LO.type := LO.type desk;
     LO.x := inject_Z gridX; LO.y := inject_Z gridY;
     LO.width := LO.width desk; LO.height := LO.height desk;
     LO.rotation := LO.rotation desk;
     LO.students := None;
     LO.userBlockedSeats := LO.userBlockedSeats desk |}.

(** ** [src/components/LayoutPreview.tsx] *)

(** [Math.max] on two numbers. *)
Definition Math_max (a b : Q) : Q := if Qle_bool a b then b else a.

Module LayoutPreview.

(** [/^[01]+$/.test(type)]. *)
Definition isSeatCode (type : string) : bool :=
  negb (String.eqb type "") && isTypeCode type.

(** What [renderDesk] computes for one seat; the class names and the styles
    made of these flags are left out. *)
Record Seat : Type := {
  isPermanentlyBlocked : bool;
  isUserBlocked : bool;
  isClickable : bool;
}.

(** The seats of the element [renderDesk] returns; [onSeatClick] says
    whether a click handler was passed.  The empty space ["--"] and an
    unknown type have no seat. *)
Definition renderDesk (type : string) (userBlockedSeats : list nat)
    (onSeatClick : bool) : list Seat :=
  if String.eqb type "--" then []
  else if isSeatCode type then
    let seats := list_ascii_of_string type in
    let hasOnes := JS.includes "1" type in
    imap (fun index seat =>
            let isPermanentlyBlocked := hasOnes && Ascii.eqb seat "0" in
            {| isPermanentlyBlocked := isPermanentlyBlocked;
               isUserBlocked := existsb (Nat.eqb index) userBlockedSeats;
               isClickable := onSeatClick && negb isPermanentlyBlocked |})
         seats
  else [].

(** The bounding box of the desks with its padding of two units:
    [totalWidth] and [totalHeight]. *)
Definition boundingBox (layoutObjects : list LayoutObject) : Q * Q :=
  let total :=
    fold_left
      (fun (t : Q * Q) desk =>
         (Math_max t.1 (LO.x desk + LO.width desk),
          Math_max t.2 (LO.y desk + LO.height desk)))
      layoutObjects (0%Q, 0%Q) in
  ((total.1 + 2)%Q, (total.2 + 2)%Q).

(** The size of the container in pixels for a grid unit of [unit] pixels
    ([PREVIEW_GRID_UNIT_SIZE] in the preview, [PRINT_GRID_UNIT_SIZE] in the
    chart); the components render nothing ([null]) for no desk. *)
Definition PREVIEW_GRID_UNIT_SIZE : Q := 10.
Definition PRINT_GRID_UNIT_SIZE : Q := 12.

Definition containerSize (unit : Q) (layoutObjects : list LayoutObject)
    : option (Q * Q) :=
  match layoutObjects with
  | [] => None
  | _ =>
      let box := boundingBox layoutObjects in
      Some ((box.1 * unit)%Q, (box.2 * unit)%Q)
  end.

End LayoutPreview.

(** ** [src/components/GeneratedChart.tsx]: the seats of a desk of the chart *)

Module GeneratedChart.

(** What [renderDeskWithStudents] computes for one seat: whether the seat is
    unavailable and the name displayed in it, if any. *)
Record SeatCell : Type := {
  isUnavailable : bool;
  shownName : option string;
}.

Definition renderDeskWithStudents (desk : LayoutObject) : list SeatCell :=
  let type := LO.type desk in
  let students := App.orEmpty (LO.students desk) in
  if LayoutPreview.isSeatCode type then
    imap (fun index seat =>
            let isUnavailable := JS.includes "1" type && Ascii.eqb seat "0" in
            let studentName :=
              match students !! index with
              | Some (Some name) => name
              | _ => ""
              end in
            {| isUnavailable := isUnavailable;
               shownName :=
                 if negb isUnavailable && negb (String.eqb studentName "")
                 then Some studentName else None |})
         (list_ascii_of_string type)
  else [].

End GeneratedChart.

(** The seats a desk adds to the count of the availability check. *)
Definition deskSeats (d : LayoutObject) : Z :=
  if negb (String.eqb (LO.type d) "--")
  then (Z.of_nat (App.potentialSeats (LO.type d)) -
        Z.of_nat (App.lengthOrZero (LO.userBlockedSeats d)))%Z
  else 0%Z.

(** Seat [i] of a desk of the editor answers clicks. *)
Definition clickableSeat (type : string) (i : nat) : Prop :=
  exists s, LayoutPreview.renderDesk type [] true !! i = Some s /\
            LayoutPreview.isClickable s = true.

(** The blocked seats of a desk are seats the editor lets the user click,
    each listed once. *)
Definition blockedByClicks (d : LayoutObject) : Prop :=
  NoDup (App.orEmpty (LO.userBlockedSeats d)) /\
  forall i, i ∈ App.orEmpty (LO.userBlockedSeats d) -> clickableSeat (LO.type d) i.

(** The indices of the seats that answer clicks, counted from [start]. *)
Fixpoint clickableIndices (seats : list LayoutPreview.Seat) (start : nat) : list nat :=
  match seats with
  | [] => []
  | s :: rest =>
      (if LayoutPreview.isClickable s then [start] else []) ++
      clickableIndices rest (S start)
  end.

(** The sentence [handleGenerateClick] adds to the conditions for a blocked
    seat of the desk with number [deskNumber]. *)
Definition blockedSeatSentence (deskNumber seatIndex : nat) : string :=
  "V lavici č. " +:+ JS.string_of_nat deskNumber +:+
  " je místo č. " +:+ JS.string_of_nat (seatIndex + 1) +:+
  " (zleva) blokováno a nelze jej obsadit.".

(** A desk without its students. *)
Definition frame (o : LayoutObject)
    : string * string * Q * Q * Q * Q * option Q * option (list nat) :=
  (LO.id o, LO.type o, LO.x o, LO.y o, LO.width o, LO.height o,
   LO.rotation o, LO.userBlockedSeats o).

(** [defaultLayout] of the application: five rows of three double desks. *)
Definition defaultLayout : string :=
  "11,11,11" +:+ String JS.LF
  ("11,11,11" +:+ String JS.LF
  ("11,11,11" +:+ String JS.LF
  ("11,11,11" +:+ String JS.LF "11,11,11"))).

(** The id the parser gives to its [k]-th desk. *)
Definition initialDeskId (k : nat) : string := "desk-initial-" +:+ JS.string_of_nat k.


(** ** [App]: clearing the chart and the saved classrooms *)

Module Store.

(** [SavedClassroom] of [src/types.ts]. *)
Record SavedClassroom : Type := {
  name : string;
  layout : list LayoutObject;
  arrangement : option (list LayoutObject);
}.

(** The state of [App] the handlers of the saved classrooms work on: the
    state [handleGenerateClick] uses, the saved classrooms and the flag of
    the dialog. *)
Record State : Type := {
  app : App.State;
  savedLayouts : list SavedClassroom;
  isManageLayoutsModalOpen : bool;
}.

Definition withError (message : string) (st : App.State) : App.State :=
  {| App.layoutObjects := App.layoutObjects st;
     App.students := App.students st;
     App.conditions := App.conditions st;
     App.seatingChart := App.seatingChart st;
     App.finalArrangement := App.finalArrangement st;
     App.isLoading := App.isLoading st;
     App.error := Some (JS.Str message) |}.

Definition SAVE_FAILED : string := "Nepodařilo se uložit rozložení.".
Definition DELETE_FAILED : string := "Nepodařilo se smazat rozložení.".
Definition NAME_MISSING : string := "Zadejte prosím název rozložení.".

Section Environment.

(** [sort()] without a comparator orders strings by their UTF-16 code
    units; [defaultCompare] is that order as a comparator. *)
Variable defaultCompare : string -> string -> Q.

(** [a.localeCompare(b)] of the host. *)
Variable localeCompare : string -> string -> Q.

(** Whether [localStorage.setItem] stores the classrooms; it throws when the
    storage refuses the text. *)
Variable setItem : list SavedClassroom -> bool.

(** [handleClearChart]. *)
Definition handleClearChart (st : App.State) : App.State :=
  let students :=
    match App.finalArrangement st with
    | Some finalArrangement =>
        let studentsFromChart := JS.sort defaultCompare (App.namesOf finalArrangement) in
        JS.join (String JS.LF "") studentsFromChart
    | None => App.students st
    end in
  {| App.layoutObjects := App.layoutObjects st;
     App.students := students;
     App.conditions := "";
     App.seatingChart := None;
     App.finalArrangement := None;
     App.isLoading := App.isLoading st;
     App.error := None |}.

(** [handleSaveLayoutToStorage]. *)
Definition handleSaveLayoutToStorage (name : string) (layout : list LayoutObject)
    (arrangement : option (list LayoutObject)) (st : State) : State :=
  let newSavedClassroom :=
    {| Store.name := name; Store.layout := layout; Store.arrangement := arrangement |} in
  let existingLayoutIndex :=
    JS.findIndex (fun l => String.eqb (Store.name l) name) (savedLayouts st) in
  let updatedLayouts :=
    match existingLayoutIndex with
    | Some i => <[i := newSavedClassroom]> (savedLayouts st)
    | None => savedLayouts st ++ [newSavedClassroom]
    end in
  let sorted :=
    JS.sort (fun a b => localeCompare (Store.name a) (Store.name b)) updatedLayouts in
  if setItem sorted then
    {| app := app st; savedLayouts := sorted;
       isManageLayoutsModalOpen := isManageLayoutsModalOpen st |}
  else
    {| app := withError SAVE_FAILED (app st); savedLayouts := savedLayouts st;
       isManageLayoutsModalOpen := isManageLayoutsModalOpen st |}.

(** [handleLoadLayoutFromStorage]. *)
Definition handleLoadLayoutFromStorage (layout : list LayoutObject)
    (arrangement : option (list LayoutObject)) (st : State) : State :=
  {| app :=
       {| App.layoutObjects := layout;
          App.students := App.students (app st);
          App.conditions := App.conditions (app st);
          App.seatingChart := None;
          App.finalArrangement := arrangement;
          App.isLoading := App.isLoading (app st);
          App.error := App.error (app st) |};
     savedLayouts := savedLayouts st;
     isManageLayoutsModalOpen := false |}.

(** [handleDeleteLayoutFromStorage]. *)
Definition handleDeleteLayoutFromStorage (name : string) (st : State) : State :=
  let updatedLayouts :=
    List.filter (fun l => negb (String.eqb (Store.name l) name)) (savedLayouts st) in
  if setItem updatedLayouts then
    {| app := app st; savedLayouts := updatedLayouts;
       isManageLayoutsModalOpen := isManageLayoutsModalOpen st |}
  else
    {| app := withError DELETE_FAILED (app st); savedLayouts := savedLayouts st;
       isManageLayoutsModalOpen := isManageLayoutsModalOpen st |}.

(** [handleSaveClick] of [ManageLayoutsModal], with the props [App] passes
    ([currentLayout] is [layoutObjects], [currentArrangement] is
    [finalArrangement], [onSave] is [handleSaveLayoutToStorage]).
    [newLayoutName] is the text of the input, [confirmed] the answer to
    [window.confirm] when it is asked.  The result is the state, the text of
    the input afterwards and the message of [alert], if any. *)
Definition handleSaveClick (newLayoutName : string) (confirmed : bool) (st : State)
    : State * string * option string :=
  let trimmedName := JS.trim newLayoutName in
  if negb (String.eqb trimmedName "") then
    if existsb (fun layout => String.eqb (Store.name layout) trimmedName) (savedLayouts st)
       && negb confirmed
    then (st, newLayoutName, None)
    else (handleSaveLayoutToStorage trimmedName (App.layoutObjects (app st))
            (App.finalArrangement (app st)) st, "", None)
  else (st, newLayoutName, Some NAME_MISSING).

(** [handleDeleteClick] of [ManageLayoutsModal]; [confirmed] is the answer to
    [window.confirm]. *)
Definition handleDeleteClick (name : string) (confirmed : bool) (st : State) : State :=
  if confirmed then handleDeleteLayoutFromStorage name st else st.

(** The classroom listed under a name. *)
Definition saved (name : string) (st : State) : option SavedClassroom :=
  List.find (fun l => String.eqb (Store.name l) name) (savedLayouts st).

(** The [Načíst] button of a listed classroom:
    [onLoad(saved.layout, saved.arrangement || null)]. *)
Definition loadClick (s : SavedClassroom) (st : State) : State :=
  handleLoadLayoutFromStorage (layout s) (arrangement s) st.

End Environment.

End Store.

(** The order of strings by the codes of their characters, as a comparator. *)
Definition compareByCode (a b : string) : Q :=
  match String.compare a b with
  | Lt => (-1)%Q
  | Eq => 0%Q
  | Gt => 1%Q
  end.

(** ** Further example inputs *)

(** A desk grabbed at its top left corner, and an editor holding the double
    desk. *)
Definition grabAtCorner : LayoutEditor.DragStartEvent :=
  {| LayoutEditor.clientX := 0; LayoutEditor.clientY := 0;
     LayoutEditor.targetLeft := 0; LayoutEditor.targetTop := 0 |}.

Definition oneDeskEditor : Editor.State :=
  {| Editor.layoutObjects := [doubleDesk]; Editor.dragData := None; Editor.console := [] |}.

Definition doublePalette : PaletteDesk :=
  {| p_type := "11"; p_name := "Dvojlavice";
     p_width := DESK_WIDTH_UNITS; p_height := DESK_HEIGHT_UNITS |}.

(** A double desk right below the double desk. *)
Definition deskBelow : LayoutObject :=
  LO.mk "desk-2" "11" 0 4 DESK_WIDTH_UNITS DESK_HEIGHT_UNITS (Some 0%Q) None (Some []).

(** The triple desk with two students, and a state whose final arrangement
    is that desk. *)
Definition seatedTriple : LayoutObject :=
  LO.mk "desk-2" "111" 0 6
        (DESK_WIDTH_UNITS + DESK_WIDTH_UNITS / 2) DESK_HEIGHT_UNITS
        (Some 0%Q) (Some [Some "Bob"; None; Some "Alice"]) (Some []).

Definition seatedChart : App.State :=
  {| App.layoutObjects := [tripleDesk];
     App.students := "Bob";
     App.conditions := ""; App.seatingChart := None;
     App.finalArrangement := Some [seatedTriple]; App.isLoading := false;
     App.error := None |}.

(** The layout ["11"] with a roster of two names. *)
Definition twoSeatRequest : App.State :=
  {| App.layoutObjects := parseLayoutMatrixToObjects "11";
     App.students := "Alice" +:+ String JS.LF "Bob";
     App.conditions := ""; App.seatingChart := None;
     App.finalArrangement := None; App.isLoading := false;
     App.error := None |}.

(** The cells of [defaultLayout]. *)
Definition defaultGrid : list (list string) :=
  [ ["11"; "11"; "11"]; ["11"; "11"; "11"]; ["11"; "11"; "11"];
    ["11"; "11"; "11"]; ["11"; "11"; "11"] ].

(** No saved classroom yet, the dialog open, and a storage that accepts
    every write. *)
Definition emptyStore : Store.State :=
  {| Store.app := twoSeatRequest; Store.savedLayouts := [];
     Store.isManageLayoutsModalOpen := true |}.

Definition acceptingStorage (updatedLayouts : list Store.SavedClassroom) : bool := true.

(** ** The numbering for the order the sort returns *)

(** [Array.prototype.sort] returns a permutation of the array.  For a
    comparator that is consistent on the elements the language fixes the
    result, the stable sorted order, which is [JS.sort compareFn a]; for
    another comparator the order is left to the engine.  The desk numbers
    and the numbered matrix of [convertObjectsToLayoutMatrix] are given here
    for the array [uiSortedObjects] as the sort returned it, whatever it
    is. *)
Definition deskNumberMapOf (uiSortedObjects : list LayoutObject) : gmap string nat :=
  JS.forEach (fun m desk index => <[LO.id desk := (index + 1)%nat]> m)
             uiSortedObjects ∅.

Definition numberedMatrixOf (uiSortedObjects : list LayoutObject)
    (finalLayoutGrid : list (list Desk)) (positionMap : gmap string string) : string :=
  serializeGrid
    (map (map (JS.padEnd 5))
         (numberedGrid finalLayoutGrid positionMap (deskNumberMapOf uiSortedObjects))).

(** The visual order of the numbering.  Two desks whose [y] differ by at most
    half a desk height are in one band; a desk comes before another when it is
    nearer the front (larger [y]) by more than that, or in one band with it
    and not to its right. *)
Definition sameBand (a b : LayoutObject) : Prop :=
  (Qabs (LO.y a - LO.y b) <= DESK_HEIGHT_UNITS / 2)%Q.

Definition visuallyBefore (a b : LayoutObject) : Prop :=
  (DESK_HEIGHT_UNITS / 2 < LO.y a - LO.y b)%Q \/
  (sameBand a b /\ (LO.x a <= LO.x b)%Q).

Definition strictlyBefore (a b : LayoutObject) : Prop :=
  (DESK_HEIGHT_UNITS / 2 < LO.y a - LO.y b)%Q \/
  (sameBand a b /\ (LO.x a < LO.x b)%Q).

(** The bands are rows: a desk in one band with two others puts them in one
    band. *)
Definition bandsAreRows (objects : list LayoutObject) : Prop :=
  forall a b c, a ∈ objects -> b ∈ objects -> c ∈ objects ->
    sameBand a b -> sameBand b c -> sameBand a c.

(** Three double desks of the palette, each half a desk height nearer the
    front than the one to its left. *)
Definition staggeredDesks : list LayoutObject :=
  [ LO.mk "desk-1" "11" 0 0 DESK_WIDTH_UNITS DESK_HEIGHT_UNITS (Some 0%Q) None (Some []);
    LO.mk "desk-2" "11" 10 2 DESK_WIDTH_UNITS DESK_HEIGHT_UNITS (Some 0%Q) None (Some []);
    LO.mk "desk-3" "11" 20 4 DESK_WIDTH_UNITS DESK_HEIGHT_UNITS (Some 0%Q) None (Some []) ].

(** ** Whole pixels *)

(** A pixel coordinate or a size that is a whole number of moderate size.
    The code computes with double-precision numbers; on such values its
    subtractions, its products with [GRID_SIZE], the halving and the division
    by [GRID_SIZE] are exact, so the numbers of the code are the rationals
    of the model. *)
Definition wholePixel (v : Q) : Prop :=
  exists z : Z, (v == inject_Z z)%Q /\ (Z.abs z <= 2 ^ 32)%Z.


(** * Proofs *)


(** Rational arithmetic stays folded under [simpl]. *)
#[global] Arguments Qabs : simpl never.
#[global] Arguments Qplus : simpl never.
#[global] Arguments Qminus : simpl never.
#[global] Arguments Qmult : simpl never.
#[global] Arguments Qdiv : simpl never.
#[global] Arguments Qopp : simpl never.
#[global] Arguments Qinv : simpl never.
#[global] Arguments inject_Z : simpl never.
#[global] Arguments Qle_bool : simpl never.
#[global] Arguments Qeq_bool : simpl never.
#[global] Arguments JS.Qlt_bool : simpl never.
#[global] Arguments JS.sort : simpl never.

(** * Facts about the JavaScript built-ins *)

Section StringFacts.

(** [c] does not occur in [s]. *)
Lemma includes_app c s t :
  JS.includes c (s +:+ t) = JS.includes c s || JS.includes c t.
Proof.
  induction s as [|a s IH]; simpl; [reflexivity|].
  rewrite IH. now rewrite orb_assoc.
Qed.

Lemma split_without sep s :
  JS.includes sep s = false -> JS.split sep s = [s].
Proof.
  induction s as [|a s IH]; simpl; [reflexivity|].
  destruct (Ascii.eqb a sep); simpl; [discriminate|].
  intros H. now rewrite (IH H).
Qed.

Lemma split_app_sep sep s t :
  JS.includes sep s = false ->
  JS.split sep (s +:+ String sep t) = s :: JS.split sep t.
Proof.
  induction s as [|a s IH]; simpl.
  - intros _. now rewrite Ascii.eqb_refl.
  - destruct (Ascii.eqb a sep); simpl; [discriminate|].
    intros H. now rewrite (IH H).
Qed.

(** Splitting undoes joining when no element holds the separator. *)
Lemma split_join sep (l : list string) :
  l <> [] ->
  Forall (fun s => JS.includes sep s = false) l ->
  JS.split sep (JS.join (String sep "") l) = l.
Proof.
  induction l as [|s l IH]; [congruence|].
  intros _ H. inversion_clear H as [|? ? Hs Hl].
  destruct l as [|s' l].
  - simpl. now apply split_without.
  - change (JS.join (String sep "") (s :: s' :: l))
      with (s +:+ String sep (JS.join (String sep "") (s' :: l))).
    rewrite split_app_sep by assumption.
    f_equal. apply IH; [congruence | assumption].
Qed.

Lemma join_includes c sep (l : list string) :
  JS.includes c sep = false ->
  Forall (fun s => JS.includes c s = false) l ->
  JS.includes c (JS.join sep l) = false.
Proof.
  intros Hsep. induction l as [|s l IH]; intros H; [reflexivity|].
  inversion_clear H as [|? ? Hs Hl].
  destruct l as [|s' l]; [exact Hs|].
  change (JS.join sep (s :: s' :: l)) with (s +:+ sep +:+ JS.join sep (s' :: l)).
  rewrite !includes_app, Hs, Hsep. simpl. now apply IH.
Qed.

(** ** [trim] *)

Lemma trimEnd_cons c s :
  JS.trimEnd (String c s) =
  if String.eqb (JS.trimStart (String c s)) "" then "" else String c (JS.trimEnd s).
Proof. reflexivity. Qed.

(** A byte below 128 is no part of a character of several bytes. *)
Lemma isWhiteSpace2_ascii c1 c2 :
  (nat_of_ascii c1 < 128 \/ nat_of_ascii c2 < 128)%nat -> JS.isWhiteSpace2 c1 c2 = false.
Proof.
  intros H. unfold JS.isWhiteSpace2.
  destruct (Nat.eqb_spec (nat_of_ascii c1) 194); [|reflexivity].
  destruct (Nat.eqb_spec (nat_of_ascii c2) 160); [lia|reflexivity].
Qed.

Lemma isWhiteSpace3_ascii c1 c2 c3 :
  (nat_of_ascii c1 < 128 \/ nat_of_ascii c2 < 128 \/ nat_of_ascii c3 < 128)%nat ->
  JS.isWhiteSpace3 c1 c2 c3 = false.
Proof.
  intros H. unfold JS.isWhiteSpace3. cbv zeta.
  destruct (Nat.lt_ge_cases (nat_of_ascii c1) 128) as [H1|H1].
  { assert (forall k, (128 <= k)%nat -> Nat.eqb (nat_of_ascii c1) k = false) as E
      by (intros k Hk; apply Nat.eqb_neq; lia).
    rewrite !E by lia. reflexivity. }
  destruct (Nat.lt_ge_cases (nat_of_ascii c2) 128) as [H2|H2].
  { assert (forall k, (128 <= k)%nat -> Nat.eqb (nat_of_ascii c2) k = false) as E
      by (intros k Hk; apply Nat.eqb_neq; lia).
    rewrite !E by lia. now rewrite !andb_false_r. }
  assert (nat_of_ascii c3 < 128)%nat as H3 by lia.
  assert (forall k, (128 <= k)%nat -> Nat.eqb (nat_of_ascii c3) k = false) as E
    by (intros k Hk; apply Nat.eqb_neq; lia).
  rewrite !E by lia.
  assert (Nat.leb 128 (nat_of_ascii c3) = false) as -> by (apply Nat.leb_gt; lia).
  simpl. now rewrite !andb_false_r.
Qed.

(** [trimStart] stops at a character below U+0080 that is no white space. *)
Lemma trimStart_keeps c s :
  JS.isWhiteSpace c = false -> (nat_of_ascii c < 128)%nat ->
  JS.trimStart (String c s) = String c s.
Proof.
  intros E Hc. simpl. rewrite E.
  destruct s as [|c2 s2]; [reflexivity|].
  rewrite isWhiteSpace2_ascii by now left.
  destruct s2 as [|c3 s3]; [reflexivity|].
  now rewrite isWhiteSpace3_ascii by now left.
Qed.

(** [trimStart] returns its argument or a shorter string. *)
Lemma trimStart_cases_le n : forall s, (String.length s <= n)%nat ->
  JS.trimStart s = s \/ (String.length (JS.trimStart s) < String.length s)%nat.
Proof.
  induction n as [|n IH]; intros s Hs.
  { destruct s; [now left|simpl in Hs; lia]. }
  destruct s as [|c1 s1]; [now left|]. simpl in Hs.
  change (JS.trimStart (String c1 s1)) with
    (if JS.isWhiteSpace c1 then JS.trimStart s1
     else match s1 with
          | EmptyString => String c1 s1
          | String c2 s2 =>
              if JS.isWhiteSpace2 c1 c2 then JS.trimStart s2
              else match s2 with
                   | EmptyString => String c1 s1
                   | String c3 s3 =>
                       if JS.isWhiteSpace3 c1 c2 c3 then JS.trimStart s3 else String c1 s1
                   end
          end).
  destruct (JS.isWhiteSpace c1).
  { right. destruct (IH s1) as [->|H]; [lia|simpl; lia|simpl; lia]. }
  destruct s1 as [|c2 s2]; [now left|]. simpl in Hs.
  destruct (JS.isWhiteSpace2 c1 c2).
  { right. destruct (IH s2) as [->|H]; [lia|simpl; lia|simpl; lia]. }
  destruct s2 as [|c3 s3]; [now left|]. simpl in Hs.
  destruct (JS.isWhiteSpace3 c1 c2 c3); [|now left].
  right. destruct (IH s3) as [->|H]; [lia|simpl; lia|simpl; lia].
Qed.

Lemma trimStart_cases s :
  JS.trimStart s = s \/ (String.length (JS.trimStart s) < String.length s)%nat.
Proof. now apply (trimStart_cases_le (String.length s)). Qed.

Lemma trimStart_length s : (String.length (JS.trimStart s) <= String.length s)%nat.
Proof. destruct (trimStart_cases s) as [->|H]; lia. Qed.

Lemma trimEnd_length s : (String.length (JS.trimEnd s) <= String.length s)%nat.
Proof.
  induction s as [|a s IH]; [simpl; lia|].
  rewrite trimEnd_cons. destruct (JS.trimStart (String a s) =? ""); simpl; lia.
Qed.

(** A string that is its own trim neither starts nor ends with white space. *)
Lemma trim_fixed s : JS.trim s = s -> JS.trimStart s = s /\ JS.trimEnd s = s.
Proof.
  unfold JS.trim. intros H.
  assert (JS.trimStart s = s) as Hs.
  { destruct (trimStart_cases s) as [E|Hlt]; [exact E|].
    pose proof (trimEnd_length (JS.trimStart s)) as H1. rewrite H in H1. lia. }
  split; [exact Hs|]. now rewrite Hs in H.
Qed.

(** A string that only white space makes up stays so from a character below
    U+0080 on. *)
Lemma trimStart_empty_le n : forall s c t, (String.length s <= n)%nat ->
  (nat_of_ascii c < 128)%nat ->
  JS.trimStart (s +:+ String c t) = "" -> JS.trimStart (String c t) = "".
Proof.
  induction n as [|n IH]; intros s c t Hs Hc H.
  { destruct s; [exact H|simpl in Hs; lia]. }
  destruct s as [|c1 s1]; [exact H|]. simpl in Hs.
  change (String c1 s1 +:+ String c t) with (String c1 (s1 +:+ String c t)) in H.
  change (JS.trimStart (String c1 (s1 +:+ String c t))) with
    (if JS.isWhiteSpace c1 then JS.trimStart (s1 +:+ String c t)
     else match s1 +:+ String c t with
          | EmptyString => String c1 (s1 +:+ String c t)
          | String c2 s2 =>
              if JS.isWhiteSpace2 c1 c2 then JS.trimStart s2
              else match s2 with
                   | EmptyString => String c1 (s1 +:+ String c t)
                   | String c3 s3 =>
                       if JS.isWhiteSpace3 c1 c2 c3 then JS.trimStart s3
                       else String c1 (s1 +:+ String c t)
                   end
          end) in H.
  destruct (JS.isWhiteSpace c1).
  { apply (IH s1); [lia|exact Hc|exact H]. }
  destruct s1 as [|c2 s2].
  { change ("" +:+ String c t) with (String c t) in H. cbv iota in H.
    rewrite isWhiteSpace2_ascii in H by now right.
    destruct t as [|c3 s3]; [discriminate H|].
    rewrite isWhiteSpace3_ascii in H by (right; now left). discriminate H. }
  simpl in Hs.
  change (String c2 s2 +:+ String c t) with (String c2 (s2 +:+ String c t)) in H.
  cbv iota in H.
  destruct (JS.isWhiteSpace2 c1 c2).
  { apply (IH s2); [lia|exact Hc|exact H]. }
  destruct s2 as [|c3 s3].
  { change ("" +:+ String c t) with (String c t) in H. cbv iota in H.
    rewrite isWhiteSpace3_ascii in H by (right; now right). discriminate H. }
  simpl in Hs.
  change (String c3 s3 +:+ String c t) with (String c3 (s3 +:+ String c t)) in H.
  cbv iota in H.
  destruct (JS.isWhiteSpace3 c1 c2 c3); [|discriminate H].
  apply (IH s3); [lia|exact Hc|exact H].
Qed.

(** The end of a string is kept when it is kept from a character below
    U+0080 on. *)
Lemma trimEnd_app s c t :
  (nat_of_ascii c < 128)%nat ->
  JS.trimEnd (String c t) = String c t ->
  JS.trimEnd (s +:+ String c t) = s +:+ String c t.
Proof.
  intros Hc Ht.
  assert (JS.trimStart (String c t) <> "") as Hstart.
  { intros E. rewrite trimEnd_cons, E in Ht. discriminate Ht. }
  induction s as [|a s IH]; [exact Ht|].
  change (String a s +:+ String c t) with (String a (s +:+ String c t)).
  rewrite trimEnd_cons, IH.
  destruct (String.eqb_spec (JS.trimStart (String a (s +:+ String c t))) "") as [E|_];
    [|reflexivity].
  exfalso. apply Hstart.
  apply (trimStart_empty_le (String.length (String a s)) (String a s) c t);
    [lia|exact Hc|exact E].
Qed.

(** The cases of [trimStart]. *)
Lemma trimStart_ws c s : JS.isWhiteSpace c = true -> JS.trimStart (String c s) = JS.trimStart s.
Proof. intros E. simpl. now rewrite E. Qed.

Lemma trimStart_ws2 c1 c2 s :
  JS.isWhiteSpace c1 = false -> JS.isWhiteSpace2 c1 c2 = true ->
  JS.trimStart (String c1 (String c2 s)) = JS.trimStart s.
Proof. intros E1 E2. simpl. now rewrite E1, E2. Qed.

Lemma trimStart_ws3 c1 c2 c3 s :
  JS.isWhiteSpace c1 = false -> JS.isWhiteSpace2 c1 c2 = false ->
  JS.isWhiteSpace3 c1 c2 c3 = true ->
  JS.trimStart (String c1 (String c2 (String c3 s))) = JS.trimStart s.
Proof. intros E1 E2 E3. simpl. now rewrite E1, E2, E3. Qed.

Lemma trimStart_2 c1 c2 :
  JS.isWhiteSpace c1 = false -> JS.isWhiteSpace2 c1 c2 = false ->
  JS.trimStart (String c1 (String c2 "")) = String c1 (String c2 "").
Proof. intros E1 E2. simpl. now rewrite E1, E2. Qed.

Lemma trimStart_3 c1 c2 c3 s :
  JS.isWhiteSpace c1 = false -> JS.isWhiteSpace2 c1 c2 = false ->
  JS.isWhiteSpace3 c1 c2 c3 = false ->
  JS.trimStart (String c1 (String c2 (String c3 s))) = String c1 (String c2 (String c3 s)).
Proof. intros E1 E2 E3. simpl. now rewrite E1, E2, E3. Qed.

(** The start of a string is kept when a character below U+0080, or
    nothing, follows it. *)
Lemma trimStart_app s t :
  s <> "" -> JS.trimStart s = s ->
  (t = "" \/ exists c t', t = String c t' /\ (nat_of_ascii c < 128)%nat) ->
  JS.trimStart (s +:+ t) = s +:+ t.
Proof.
  intros Hne Hs Ht.
  assert (forall u, (String.length u < String.length s)%nat ->
                    JS.trimStart u <> s) as Hshort.
  { intros u Hu E. pose proof (trimStart_length u) as Hl. rewrite E in Hl. lia. }
  destruct s as [|c1 s1]; [congruence|].
  destruct (JS.isWhiteSpace c1) eqn:E1.
  { exfalso. rewrite (trimStart_ws c1 s1 E1) in Hs.
    apply (Hshort s1); [simpl; lia|exact Hs]. }
  destruct s1 as [|c2 s2].
  { change (String c1 "" +:+ t) with (String c1 t).
    destruct Ht as [->|(c & t' & -> & Hc)]; [exact Hs|].
    destruct t' as [|c3 s3].
    - apply trimStart_2; [exact E1|apply isWhiteSpace2_ascii; now right].
    - apply trimStart_3; [exact E1|apply isWhiteSpace2_ascii; now right|].
      apply isWhiteSpace3_ascii. right. now left. }
  destruct (JS.isWhiteSpace2 c1 c2) eqn:E2.
  { exfalso. rewrite (trimStart_ws2 c1 c2 s2 E1 E2) in Hs.
    apply (Hshort s2); [simpl; lia|exact Hs]. }
  destruct s2 as [|c3 s3].
  { change (String c1 (String c2 "") +:+ t) with (String c1 (String c2 t)).
    destruct Ht as [->|(c & t' & -> & Hc)]; [exact Hs|].
    apply trimStart_3; [exact E1|exact E2|].
    apply isWhiteSpace3_ascii. right. now right. }
  destruct (JS.isWhiteSpace3 c1 c2 c3) eqn:E3.
  { exfalso. rewrite (trimStart_ws3 c1 c2 c3 s3 E1 E2 E3) in Hs.
    apply (Hshort s3); [simpl; lia|exact Hs]. }
  change (String c1 (String c2 (String c3 s3)) +:+ t)
    with (String c1 (String c2 (String c3 (s3 +:+ t)))).
  now apply trimStart_3.
Qed.

(** A string of characters below U+0080 without white space is its own
    trim. *)
Lemma noWhiteSpace_cons a s :
  noWhiteSpace (String a s) = true ->
  JS.isWhiteSpace a = false /\ (nat_of_ascii a < 128)%nat /\ noWhiteSpace s = true.
Proof.
  simpl. intros H. apply andb_true_iff in H as [H Hs].
  apply andb_true_iff in H as [Ha Hlt]. apply negb_true_iff in Ha.
  apply Nat.ltb_lt in Hlt. auto.
Qed.

Lemma trimEnd_noWhiteSpace s : noWhiteSpace s = true -> JS.trimEnd s = s.
Proof.
  induction s as [|a s IH]; [reflexivity|].
  intros H. destruct (noWhiteSpace_cons a s H) as (Ha & Hlt & Hs).
  rewrite trimEnd_cons, (trimStart_keeps a s Ha Hlt), (IH Hs). reflexivity.
Qed.

Lemma trim_noWhiteSpace s : noWhiteSpace s = true -> JS.trim s = s.
Proof.
  intros H. unfold JS.trim.
  destruct s as [|a s]; [reflexivity|].
  destruct (noWhiteSpace_cons a s H) as (Ha & Hlt & Hs).
  rewrite (trimStart_keeps a s Ha Hlt). now apply trimEnd_noWhiteSpace.
Qed.

End StringFacts.

Section Decimal.

Lemma string_of_uint_digits d : allDigits (NilEmpty.string_of_uint d) = true.
Proof. induction d; simpl; auto. Qed.

Lemma string_of_nat_digits n : allDigits (JS.string_of_nat n) = true.
Proof. apply string_of_uint_digits. Qed.

Lemma string_of_nat_inj n m : JS.string_of_nat n = JS.string_of_nat m -> n = m.
Proof.
  unfold JS.string_of_nat. intros H.
  apply Unsigned.to_uint_inj.
  assert (Some (Nat.to_uint n) = Some (Nat.to_uint m)) as E.
  { rewrite <- !NilEmpty.usu. now rewrite H. }
  now inversion E.
Qed.

Lemma allDigits_excludes c s :
  isDigit c = false -> allDigits s = true -> JS.includes c s = false.
Proof.
  intros Hc. induction s as [|a s IH]; simpl; [reflexivity|].
  intros H. apply andb_true_iff in H as [Ha Hs].
  rewrite (IH Hs), orb_false_r.
  destruct (Ascii.eqb_spec a c) as [->|]; [congruence|reflexivity].
Qed.

Lemma allDigits_noWhiteSpace s : allDigits s = true -> noWhiteSpace s = true.
Proof.
  induction s as [|a s IH]; simpl; [reflexivity|].
  intros H. apply andb_true_iff in H as [Ha Hs]. rewrite (IH Hs), andb_true_r.
  unfold isDigit in Ha. unfold JS.isWhiteSpace.
  apply andb_true_iff in Ha as [H1 H2].
  apply Nat.leb_le in H1, H2.
  destruct (Nat.leb_spec (nat_of_ascii a) 13); [lia|].
  rewrite andb_false_r. simpl.
  destruct (Nat.eqb_spec (nat_of_ascii a) 32); [lia|]. simpl.
  apply Nat.ltb_lt. lia.
Qed.

(** Two strings that agree after a separator-free prefix and a separator. *)
Lemma app_sep_inj sep a a' b b' :
  JS.includes sep a = false -> JS.includes sep a' = false ->
  a +:+ String sep b = a' +:+ String sep b' -> a = a' /\ b = b'.
Proof.
  revert a'. induction a as [|x a IH]; intros [|x' a']; simpl.
  - intros _ _ H. now inversion H.
  - intros _ H E. inversion E; subst. now rewrite Ascii.eqb_refl in H.
  - intros H _ E. inversion E; subst. now rewrite Ascii.eqb_refl in H.
  - intros H H' E. inversion E; subst.
    apply orb_false_iff in H as [_ H], H' as [_ H'].
    destruct (IH a' H H' H2) as [-> ->]. now split.
Qed.

Lemma positionKey_inj r c r' c' :
  positionKey r c = positionKey r' c' -> r = r' /\ c = c'.
Proof.
  unfold positionKey. intros H.
  apply (app_sep_inj "-"%char) in H as [H1 H2].
  - split; now apply string_of_nat_inj.
  - apply allDigits_excludes; [reflexivity | apply string_of_nat_digits].
  - apply allDigits_excludes; [reflexivity | apply string_of_nat_digits].
Qed.

End Decimal.


(** * Facts about [sort] *)

Section SortFacts.
Context {A : Type} (compareFn : A -> A -> Q).

Lemma sortInsert_Permutation a l :
  Permutation (JS.sortInsert compareFn a l) (a :: l).
Proof.
  induction l as [|b l IH]; simpl; [reflexivity|].
  destruct (Qle_bool (compareFn a b) 0); [reflexivity|].
  rewrite IH. apply perm_swap.
Qed.

Lemma sort_Permutation l : Permutation (JS.sort compareFn l) l.
Proof.
  induction l as [|a l IH]; [reflexivity|].
  change (JS.sort compareFn (a :: l)) with (JS.sortInsert compareFn a (JS.sort compareFn l)).
  rewrite sortInsert_Permutation. now constructor.
Qed.

Lemma sort_length l : length (JS.sort compareFn l) = length l.
Proof. apply Permutation_length, sort_Permutation. Qed.

Lemma sort_elem_of a l : a ∈ JS.sort compareFn l <-> a ∈ l.
Proof. now rewrite sort_Permutation. Qed.

Lemma sort_nil_inv l : JS.sort compareFn l = [] -> l = [].
Proof.
  intros H. apply Permutation_nil. rewrite <- H. apply sort_Permutation.
Qed.

#[local] Abbreviation before := (before compareFn).

(** A list already in order is left as it is: the sort is stable. *)
Lemma sort_sorted_id l : StronglySorted before l -> JS.sort compareFn l = l.
Proof.
  induction 1 as [|a l Hl IH Ha]; [reflexivity|].
  change (JS.sort compareFn (a :: l)) with (JS.sortInsert compareFn a (JS.sort compareFn l)).
  rewrite IH. destruct l as [|b l]; simpl; [reflexivity|].
  inversion_clear Ha as [|? ? Hab _].
  apply Qle_bool_iff in Hab. now rewrite Hab.
Qed.

Hypothesis before_total : forall a b, before a b \/ before b a.
Hypothesis before_trans : forall a b c, before a b -> before b c -> before a c.

Lemma sortInsert_sorted a l :
  StronglySorted before l -> StronglySorted before (JS.sortInsert compareFn a l).
Proof.
  induction 1 as [|b l Hl IH Hb]; simpl.
  - repeat constructor.
  - destruct (Qle_bool (compareFn a b) 0) eqn:E.
    + apply Qle_bool_iff in E. constructor; [now constructor|].
      constructor; [exact E|].
      eapply Forall_impl; [exact Hb|]. intros c Hc. now apply before_trans with b.
    + assert (before b a) as Hba.
      { destruct (before_total a b) as [H|H]; [|exact H].
        apply Qle_bool_iff in H. congruence. }
      constructor; [exact IH|].
      apply Forall_forall. intros c Hc.
      rewrite sortInsert_Permutation in Hc.
      apply elem_of_cons in Hc as [->|Hc]; [exact Hba|].
      rewrite Forall_forall in Hb. now apply Hb.
Qed.

Lemma sort_sorted l : StronglySorted before (JS.sort compareFn l).
Proof.
  induction l as [|a l IH]; [constructor|].
  change (JS.sort compareFn (a :: l)) with (JS.sortInsert compareFn a (JS.sort compareFn l)).
  now apply sortInsert_sorted.
Qed.

End SortFacts.

(** The same for a comparator that is consistent on the elements at hand. *)
Section SortOn.
Context {A : Type} (compareFn : A -> A -> Q).
#[local] Abbreviation before' := (before compareFn).

Lemma sortInsert_sorted_on (E : list A) a l :
  (forall x y, x ∈ E -> y ∈ E -> before' x y \/ before' y x) ->
  (forall x y z, x ∈ E -> y ∈ E -> z ∈ E -> before' x y -> before' y z -> before' x z) ->
  a ∈ E -> (forall x, x ∈ l -> x ∈ E) ->
  StronglySorted before' l -> StronglySorted before' (JS.sortInsert compareFn a l).
Proof.
  intros Htot Htrans Ha Hl Hs. induction Hs as [|b l Hs IH Hb]; simpl.
  - repeat constructor.
  - assert (b ∈ E) as HbE by (apply Hl; now left).
    assert (forall x, x ∈ l -> x ∈ E) as Hl' by (intros x Hx; apply Hl; now right).
    destruct (Qle_bool (compareFn a b) 0) eqn:Eab.
    + apply Qle_bool_iff in Eab. constructor; [now constructor|].
      constructor; [exact Eab|].
      apply Forall_forall. intros c Hc. rewrite Forall_forall in Hb.
      apply (Htrans a b c); auto.
    + assert (before' b a) as Hba.
      { destruct (Htot a b Ha HbE) as [H|H]; [|exact H].
        apply Qle_bool_iff in H. congruence. }
      constructor; [now apply IH|].
      apply Forall_forall. intros c Hc.
      rewrite sortInsert_Permutation in Hc.
      apply elem_of_cons in Hc as [->|Hc]; [exact Hba|].
      rewrite Forall_forall in Hb. now apply Hb.
Qed.

Lemma sort_sorted_on (l : list A) :
  (forall x y, x ∈ l -> y ∈ l -> before' x y \/ before' y x) ->
  (forall x y z, x ∈ l -> y ∈ l -> z ∈ l -> before' x y -> before' y z -> before' x z) ->
  StronglySorted before' (JS.sort compareFn l).
Proof.
  intros Htot Htrans.
  assert (forall k, (forall x, x ∈ k -> x ∈ l) -> StronglySorted before' (JS.sort compareFn k)) as H.
  { induction k as [|a k IH]; intros Hk; [constructor|].
    change (JS.sort compareFn (a :: k)) with (JS.sortInsert compareFn a (JS.sort compareFn k)).
    apply (sortInsert_sorted_on l); auto.
    - apply Hk. now left.
    - intros x Hx. rewrite sort_elem_of in Hx. apply Hk. now right.
    - apply IH. intros x Hx. apply Hk. now right. }
  now apply H.
Qed.

End SortOn.

(** The comparators [a.y - b.y], [a.x - b.x] and [a - b] are consistent. *)
Lemma compareY_before a b : before compareY a b <-> (LO.y a <= LO.y b)%Q.
Proof. unfold before, compareY. split; intros; lra. Qed.

Lemma compareX_before a b : before compareX a b <-> (LO.x a <= LO.x b)%Q.
Proof. unfold before, compareX. split; intros; lra. Qed.

Lemma Qminus_before a b : before Qminus a b <-> (a <= b)%Q.
Proof. unfold before. split; intros; lra. Qed.

Lemma sortedByY_sorted objects : StronglySorted (before compareY) (sortedByY objects).
Proof.
  apply sort_sorted.
  - intros a b. rewrite !compareY_before. lra.
  - intros a b c. rewrite !compareY_before. lra.
Qed.

Lemma sort_Qminus_sorted l : StronglySorted (before Qminus) (JS.sort Qminus l).
Proof.
  apply sort_sorted.
  - intros a b. rewrite !Qminus_before. lra.
  - intros a b c. rewrite !Qminus_before. lra.
Qed.

Lemma sort_compareX_sorted l : StronglySorted (before compareX) (JS.sort compareX l).
Proof.
  apply sort_sorted.
  - intros a b. rewrite !compareX_before. lra.
  - intros a b c. rewrite !compareX_before. lra.
Qed.


(** * Seat counting (availability check) *)

Lemma Qlt_bool_iff a b : JS.Qlt_bool a b = true <-> (a < b)%Q.
Proof.
  unfold JS.Qlt_bool. rewrite negb_true_iff.
  split.
  - intros H. apply Qnot_le_lt. intros Hle. apply Qle_bool_iff in Hle. congruence.
  - intros H. destruct (Qle_bool b a) eqn:E; [|reflexivity].
    apply Qle_bool_iff in E. lra.
Qed.

Lemma Qlt_bool_false_iff a b : JS.Qlt_bool a b = false <-> (b <= a)%Q.
Proof.
  unfold JS.Qlt_bool. rewrite negb_false_iff. apply Qle_bool_iff.
Qed.

Lemma matches_length c s : length (JS.matches c s) = countChar c s.
Proof.
  induction s as [|a s IH]; simpl; [reflexivity|].
  destruct (Ascii.eqb a c); simpl; now rewrite IH.
Qed.

Lemma matchAll_length c s : length (App.orEmpty (JS.matchAll c s)) = countChar c s.
Proof.
  unfold JS.matchAll. rewrite <- matches_length.
  now destruct (JS.matches c s).
Qed.

Lemma includes_countChar c s : JS.includes c s = Nat.ltb 0 (countChar c s).
Proof.
  induction s as [|a s IH]; simpl; [reflexivity|].
  destruct (Ascii.eqb a c); simpl; [reflexivity|exact IH].
Qed.

Lemma potentialSeats_spec type : App.potentialSeats type = occupiableSeatCount type.
Proof.
  unfold App.potentialSeats, occupiableSeatCount.
  rewrite includes_countChar, !matchAll_length. reflexivity.
Qed.

Lemma isTypeCode_not_blank s : isTypeCode s = true -> String.eqb s "--" = false.
Proof.
  intros H. destruct (String.eqb_spec s "--") as [->|]; [discriminate|reflexivity].
Qed.

Lemma availableSeats_fold objs z :
  Forall (fun d => isTypeCode (LO.type d) = true) objs ->
  fold_left
    (fun availableSeats desk =>
       if negb (String.eqb (LO.type desk) "--") then
         (availableSeats +
          (Z.of_nat (App.potentialSeats (LO.type desk)) -
           Z.of_nat (App.lengthOrZero (LO.userBlockedSeats desk))))%Z
       else availableSeats) objs z
  = (z + foldr Z.add 0
       (map (fun d => Z.of_nat (occupiableSeatCount (LO.type d)) -
                      Z.of_nat (userBlockedCount d)) objs))%Z.
Proof.
  intros H. revert z. induction H as [|d objs Hd _ IH]; intros z; simpl; [lia|].
  rewrite (isTypeCode_not_blank _ Hd). simpl. rewrite IH, potentialSeats_spec.
  unfold userBlockedCount. lia.
Qed.

(** C7. For desks whose type codes are strings over {0,1}, the seat count
    of the availability check is the sum over the desks of the occupiable
    seat count of the type code (the number of ['1'] when there is one, else
    the number of ['0']) minus the number of user-blocked seats; the codes
    ["101"], ["00"] and ["11"] count 2 seats each. *)
Theorem C7_available_seats_count (layoutObjects : list LayoutObject) :
  Forall (fun d => isTypeCode (LO.type d) = true) layoutObjects ->
  Forall (fun d => App.potentialSeats (LO.type d) = occupiableSeatCount (LO.type d))
         layoutObjects /\
  App.availableSeats layoutObjects =
    foldr Z.add 0%Z
      (map (fun d => (Z.of_nat (occupiableSeatCount (LO.type d)) -
                      Z.of_nat (userBlockedCount d))%Z) layoutObjects) /\
  App.potentialSeats "101" = 2%nat /\
  App.potentialSeats "00" = 2%nat /\
  App.potentialSeats "11" = 2%nat.
Proof.
  intros H. split; [|split].
  - apply Forall_forall. intros d _. apply potentialSeats_spec.
  - unfold App.availableSeats. rewrite availableSeats_fold by exact H. lia.
  - repeat split; reflexivity.
Qed.

Lemma C7_available_seats_count_witness :
  App.availableSeats
    [ LO.mk "a" "101" 0 0 12 4 None None None;
      LO.mk "b" "00" 0 6 8 4 None None (Some []);
      LO.mk "c" "11" 10 6 8 4 None None (Some [0%nat]) ] = 5%Z.
Proof.
  pose proof (C7_available_seats_count
    [ LO.mk "a" "101" 0 0 12 4 None None None;
      LO.mk "b" "00" 0 6 8 4 None None (Some []);
      LO.mk "c" "11" 10 6 8 4 None None (Some [0%nat]) ]) as H.
  destruct H as (_ & H & _).
  - repeat constructor.
  - rewrite H. reflexivity.
Defined.

(** * The collision test *)

Lemma overlaps_true a b :
  Editor.overlaps a b = true <->
  (LO.x a < LO.x b + LO.width b /\ LO.x b < LO.x a + LO.width a /\
   LO.y a < LO.y b + LO.height b /\ LO.y b < LO.y a + LO.height a)%Q.
Proof.
  unfold Editor.overlaps. rewrite !andb_true_iff, !Qlt_bool_iff. tauto.
Qed.

Lemma rectanglesOverlap_overlaps a b :
  rectanglesOverlap a b -> Editor.overlaps a b = true.
Proof.
  intros (px & py & Ha & Hb). unfold inRectangle in *.
  apply overlaps_true. repeat split; lra.
Qed.

(** For rectangles of positive size the test is exactly the sharing of a
    point of the half-open rectangles. *)
Lemma overlaps_rectanglesOverlap a b :
  (0 < LO.width a)%Q -> (0 < LO.height a)%Q ->
  (0 < LO.width b)%Q -> (0 < LO.height b)%Q ->
  Editor.overlaps a b = true -> rectanglesOverlap a b.
Proof.
  intros Hwa Hha Hwb Hhb H. apply overlaps_true in H as (H1 & H2 & H3 & H4).
  unfold rectanglesOverlap, inRectangle.
  destruct (Qlt_le_dec (LO.x a) (LO.x b)), (Qlt_le_dec (LO.y a) (LO.y b)).
  - exists (LO.x b), (LO.y b). repeat split; lra.
  - exists (LO.x b), (LO.y a). repeat split; lra.
  - exists (LO.x a), (LO.y b). repeat split; lra.
  - exists (LO.x a), (LO.y a). repeat split; lra.
Qed.

Lemma rectanglesTouch_overlaps a b :
  rectanglesTouch a b -> Editor.overlaps a b = false.
Proof.
  intros H. destruct (Editor.overlaps a b) eqn:E; [|reflexivity].
  apply overlaps_true in E. unfold rectanglesTouch in H. lra.
Qed.

Lemma checkCollision_true newDesk existingDesks other :
  other ∈ existingDesks ->
  LO.id other <> LO.id newDesk ->
  Editor.overlaps newDesk other = true ->
  Editor.checkCollision newDesk existingDesks = true.
Proof.
  intros Hin Hid Hov. induction existingDesks as [|d l IH]; [inversion Hin|].
  simpl. destruct (String.eqb_spec (LO.id d) (LO.id newDesk)) as [E|NE].
  - apply elem_of_cons in Hin as [->|Hin]; [congruence|]. now apply IH.
  - destruct (Editor.overlaps newDesk d) eqn:Ed; [reflexivity|].
    apply elem_of_cons in Hin as [->|Hin]; [congruence|]. now apply IH.
Qed.

Lemma checkCollision_false newDesk existingDesks :
  Forall (fun d => LO.id d = LO.id newDesk \/ Editor.overlaps newDesk d = false)
         existingDesks ->
  Editor.checkCollision newDesk existingDesks = false.
Proof.
  induction 1 as [|d l Hd _ IH]; simpl; [reflexivity|].
  destruct (String.eqb_spec (LO.id d) (LO.id newDesk)) as [E|NE]; [exact IH|].
  destruct Hd as [Hd|Hd]; [congruence|]. now rewrite Hd.
Qed.

(** C9. A drop (add or move) whose target rectangle shares a point with the
    rectangle of another desk leaves the desk set as it was: the handler
    returns the state unchanged but for a console warning.  Rectangles that
    only meet along an edge are not in collision. *)
Theorem C9_colliding_drop_is_a_silent_noop
    (e : Editor.DropEvent) (st : Editor.State) (d : Editor.DragData)
    (rectLeft rectTop : Q) (other : LayoutObject) :
  Editor.dragData st = Some d ->
  Editor.editorRect e = Some (rectLeft, rectTop) ->
  other ∈ Editor.layoutObjects st ->
  LO.id other <> LO.id (Editor.newDeskOf d e rectLeft rectTop) ->
  rectanglesOverlap (Editor.newDeskOf d e rectLeft rectTop) other ->
  Editor.handleDrop e st =
    {| Editor.layoutObjects := Editor.layoutObjects st;
       Editor.dragData := Editor.dragData st;
       Editor.console := Editor.console st ++ ["Collision detected!"] |} /\
  (forall a b, rectanglesTouch a b -> Editor.overlaps a b = false).
Proof.
  intros Hd He Hin Hid Hov. split; [|exact rectanglesTouch_overlaps].
  unfold Editor.handleDrop. rewrite Hd, He.
  rewrite (checkCollision_true _ _ other); [reflexivity| |exact Hid|].
  - apply list_elem_of_In, filter_In. split; [now apply list_elem_of_In|].
    apply negb_true_iff, String.eqb_neq, Hid.
  - now apply rectanglesOverlap_overlaps.
Qed.


(** * The service call *)

Lemma truthy_not_null v : JS.truthy v = true -> exists w, v = Some w /\ w <> JS.Null.
Proof.
  destruct v as [w|]; [|discriminate].
  intros H. exists w. split; [reflexivity|]. intros ->. discriminate.
Qed.

(** What the [try] block comes to for a parsed reply whose [error] is absent
    or empty and whose [seating] is missing or not an array: the
    invalid-format exception, which the [catch] clause then replaces. *)
Lemma tryBlock_invalid_format parsed parsedError parsedSeating :
  JS.getProp parsed "error" = JS.Normal parsedError ->
  JS.truthy parsedError = false ->
  JS.getProp parsed "seating" = JS.Normal parsedSeating ->
  JS.isArray parsedSeating = false ->
  Service.tryBlock (Service.Parsed parsed) = JS.Throw Service.INVALID_FORMAT.
Proof.
  intros He Ht Hs Ha. unfold Service.tryBlock. rewrite He. simpl. rewrite Ht, Hs. simpl.
  rewrite Ha, orb_true_r. reflexivity.
Qed.

Lemma invalid_format_reported_as_communication_error
    request parsed parsedError parsedSeating :
  JS.getProp parsed "error" = JS.Normal parsedError ->
  JS.truthy parsedError = false ->
  JS.getProp parsed "seating" = JS.Normal parsedSeating ->
  JS.isArray parsedSeating = false ->
  Service.generateSeatingArrangement request (Service.Parsed parsed) =
    ({| Service.seating := None;
        Service.error := Some (JS.Str Service.COMMUNICATION_ERROR) |},
     [Service.INVALID_FORMAT]).
Proof.
  intros He Ht Hs Ha. unfold Service.generateSeatingArrangement.
  now rewrite (tryBlock_invalid_format _ _ _ He Ht Hs Ha).
Qed.

(** C5. On the reply [{"seating": null, "error": null}] (no error, no
    seating array) the caller receives the communication-error message, the
    very result of a transport failure; the invalid-format message only
    reaches the console. *)
Theorem C5_invalid_format_message_is_lost :
  let request :=
    {| Service.layoutMatrix := "11"; Service.students := ["Alice"; "Bob"];
       Service.conditions := ""; Service.numberedMatrix := "L1   ";
       Service.currentArrangementMatrix := None |} in
  let reply := Service.Parsed (JS.Obj [("seating", JS.Null); ("error", JS.Null)]) in
  Service.generateSeatingArrangement request reply =
    ({| Service.seating := None;
        Service.error := Some (JS.Str Service.COMMUNICATION_ERROR) |},
     [Service.INVALID_FORMAT]) /\
  fst (Service.generateSeatingArrangement request reply) =
  fst (Service.generateSeatingArrangement request (Service.TransportError "fetch failed")) /\
  Service.COMMUNICATION_ERROR <> Service.INVALID_FORMAT.
Proof.
  repeat split. discriminate.
Qed.

(** C10. The error of the reply is returned unchecked.  The function is
    declared to return [error: string | null], and it checks the [seating]
    of the reply before it returns it: a reply [{"seating": 5}] comes back as
    the communication error.  The [error] of the reply is returned as it
    came: the reply [{"error": 5}] comes back with the number 5 as its error,
    which is no string, so the result is not of the shape the claim and the
    declared type give. *)
Theorem C10_error_need_not_be_a_string :
  let request :=
    {| Service.layoutMatrix := "11"; Service.students := ["Alice"];
       Service.conditions := ""; Service.numberedMatrix := "L1   ";
       Service.currentArrangementMatrix := None |} in
  let reply := Service.Parsed (JS.Obj [("error", JS.Num 5)]) in
  fst (Service.generateSeatingArrangement request reply) =
    {| Service.seating := None; Service.error := Some (JS.Num 5) |} /\
  ~ exclusiveResult (fst (Service.generateSeatingArrangement request reply)) /\
  fst (Service.generateSeatingArrangement request
         (Service.Parsed (JS.Obj [("seating", JS.Num 5)]))) =
    {| Service.seating := None;
       Service.error :=
         Some (JS.Str "Při komunikaci s AI službou nastala chyba. Zkuste to prosím znovu.") |}.
Proof.
  split; [reflexivity|]. split; [|reflexivity].
  intros [[H _]|[_ [s H]]]; simpl in H.
  - now apply H.
  - discriminate.
Qed.

(** The shapes of the result, for every reply, thrown exceptions included:
    a seating array with no error, or no seating with a non-null error, which
    is the communication-error string or the truthy [error] field of the
    reply (never both non-null, never both null). *)
Lemma generateSeatingArrangement_cases (request : Service.Request) (reply : Service.Reply) :
  let r := fst (Service.generateSeatingArrangement request reply) in
  ((exists rows, Service.seating r = Some rows) /\ Service.error r = None) \/
  (Service.seating r = None /\
   exists v, Service.error r = Some v /\ v <> JS.Null /\
     (v = JS.Str Service.COMMUNICATION_ERROR \/
      exists parsed, reply = Service.Parsed parsed /\
                     JS.getProp parsed "error" = JS.Normal (Some v) /\
                     JS.truthy (Some v) = true)).
Proof.
  unfold Service.generateSeatingArrangement.
  assert (forall v, v = JS.Str Service.COMMUNICATION_ERROR -> v <> JS.Null) as Hc
    by (intros v -> ; discriminate).
  destruct reply as [m|m|parsed]; simpl.
  1,2: right; split; [reflexivity|]; eexists; split; [reflexivity|]; split;
       [now apply Hc | now left].
  destruct (JS.getProp parsed "error") as [parsedError|m] eqn:He; simpl.
  2: { right; split; [reflexivity|]; eexists; split; [reflexivity|]; split;
       [now apply Hc | now left]. }
  destruct (JS.truthy parsedError) eqn:Ht; simpl.
  - right. split; [reflexivity|].
    destruct (truthy_not_null _ Ht) as (w & -> & Hw).
    exists w. split; [reflexivity|]. split; [exact Hw|].
    right. exists parsed. repeat split; assumption.
  - destruct (JS.getProp parsed "seating") as [parsedSeating|m] eqn:Hs; simpl.
    2: { right; split; [reflexivity|]; eexists; split; [reflexivity|]; split;
         [now apply Hc | now left]. }
    destruct (negb (JS.truthy parsedSeating) || negb (JS.isArray parsedSeating)); simpl.
    { right; split; [reflexivity|]; eexists; split; [reflexivity|]; split;
         [now apply Hc | now left]. }
    destruct parsedSeating as [[| | | |rows|]|]; simpl.
    5: { left. split; [now exists rows | reflexivity]. }
    all: right; split; [reflexivity|]; eexists; split; [reflexivity|]; split;
         [now apply Hc | now left].
Qed.

(** When the reply keeps to the response schema, where [error] is a string
    or null, the error of the result is a string. *)
Lemma result_error_is_string request parsed :
  (forall v, JS.getProp parsed "error" = JS.Normal (Some v) ->
             v = JS.Null \/ exists s, v = JS.Str s) ->
  exclusiveResult (fst (Service.generateSeatingArrangement request (Service.Parsed parsed))).
Proof.
  intros Hschema.
  destruct (generateSeatingArrangement_cases request (Service.Parsed parsed))
    as [[[rows Hr] He]|[Hs (v & Hv & Hn & [->|(p & Hp & Hg & _)])]].
  - left. split; [congruence|exact He].
  - right. split; [exact Hs|]. now exists Service.COMMUNICATION_ERROR.
  - right. split; [exact Hs|]. inversion Hp; subst p.
    destruct (Hschema v Hg) as [->|[s ->]]; [congruence|now exists s].
Qed.


(** * Placing the desks of a row *)

Lemma nearerColumn_Some deskCenter l : forall i b m,
  exists b' m',
    JS.forEachFrom (nearerColumn deskCenter) i l (Some b, Some m) = (Some b', Some m') /\
    (b' = b \/ (i <= b' < i + length l)%nat).
Proof.
  induction l as [|c l IH]; intros i b m; simpl.
  - exists b, m. split; [reflexivity | now left].
  - unfold nearerColumn at 2. simpl.
    destruct (JS.Qlt_bool (Qabs (deskCenter - c)) m).
    + destruct (IH (S i) i (Qabs (deskCenter - c))) as (b' & m' & E & H).
      exists b', m'. split; [exact E|]. right. lia.
    + destruct (IH (S i) b m) as (b' & m' & E & H).
      exists b', m'. split; [exact E|]. destruct H; [now left | right; lia].
Qed.

Lemma bestColumn_lt columnCenters deskCenter :
  columnCenters <> [] ->
  exists best, (bestColumn columnCenters deskCenter).1 = Some best /\
               (best < length columnCenters)%nat.
Proof.
  destruct columnCenters as [|c l]; [congruence|]. intros _.
  unfold bestColumn, JS.forEach. simpl. unfold nearerColumn at 2. simpl.
  destruct (nearerColumn_Some deskCenter l 1 0%nat (Qabs (deskCenter - c)))
    as (b' & m' & E & H).
  rewrite E. exists b'. split; [reflexivity|]. lia.
Qed.

Lemma isFree_true newRow i :
  (i < length newRow)%nat -> isFree newRow i = true -> newRow !! i = Some "--".
Proof.
  intros Hi. unfold isFree.
  destruct (newRow !! i) as [cell|] eqn:E.
  - intros H. apply String.eqb_eq in H. now subst.
  - apply lookup_ge_None in E. lia.
Qed.

Lemma find_seq_lt (p : nat -> bool) n i :
  List.find p (seq 0 n) = Some i -> (i < n)%nat /\ p i = true.
Proof.
  intros H. apply find_some in H as [H1 H2]. apply in_seq in H1. split; [lia|exact H2].
Qed.

(** One desk goes to a cell that held ["--"], or to a new cell at the end. *)
Lemma placeDesk_cases columnCenters n rowIndex newRow positionMap desk :
  columnCenters <> [] -> n = length columnCenters -> (n <= length newRow)%nat ->
  exists c newRow',
    placeDesk columnCenters n rowIndex (newRow, positionMap) desk =
      (newRow', <[positionKey rowIndex c := LO.id desk]> positionMap) /\
    ((newRow !! c = Some "--" /\ newRow' = <[c := LO.type desk]> newRow) \/
     (c = length newRow /\ newRow' = newRow ++ [LO.type desk])).
Proof.
  intros Hne Hn Hlen. unfold placeDesk. simpl.
  destruct (bestColumn_lt columnCenters (horizontalCenter desk) Hne) as (best & -> & Hb).
  destruct (isFree newRow best) eqn:Efree.
  - exists best, (<[best := LO.type desk]> newRow). split; [reflexivity|]. left.
    split; [|reflexivity]. apply isFree_true; [lia|exact Efree].
  - destruct (List.find (isFree newRow) (seq 0 n)) as [i|] eqn:Ef.
    + apply find_seq_lt in Ef as [Hi Hfree].
      exists i, (<[i := LO.type desk]> newRow). split; [reflexivity|]. left.
      split; [|reflexivity]. apply isFree_true; [lia|exact Hfree].
    + exists (length newRow), (newRow ++ [LO.type desk]). split; [reflexivity|].
      now right.
Qed.

Lemma RowOK_replicate n : RowOK (replicate n "--") [].
Proof.
  split; [constructor|]. split.
  - intros c d H. inversion H.
  - intros c t H Ht. apply lookup_replicate in H as [-> _]. congruence.
Qed.

Lemma RowOK_lt newRow occ c d :
  RowOK newRow occ -> (c, d) ∈ occ -> (c < length newRow)%nat.
Proof.
  intros (_ & H & _) Hin. destruct (H c d Hin) as [E _].
  now apply lookup_lt_Some in E.
Qed.

Lemma RowOK_fresh newRow occ c :
  RowOK newRow occ ->
  (newRow !! c = Some "--" \/ c = length newRow) -> c ∉ map fst occ.
Proof.
  intros HOK Hc Hin. apply list_elem_of_fmap in Hin as ([c' d] & -> & Hin). simpl in Hc.
  pose proof (RowOK_lt _ _ _ _ HOK Hin) as Hlt.
  destruct HOK as (_ & H & _). destruct (H c' d Hin) as [E Ht].
  destruct Hc as [Hc|Hc]; [|lia]. congruence.
Qed.

Lemma RowOK_step newRow occ c d newRow' :
  RowOK newRow occ -> LO.type d <> "--" ->
  ((newRow !! c = Some "--" /\ newRow' = <[c := LO.type d]> newRow) \/
   (c = length newRow /\ newRow' = newRow ++ [LO.type d])) ->
  RowOK newRow' (occ ++ [(c, d)]).
Proof.
  intros HOK Ht Hc.
  assert (c ∉ map fst occ) as Hfresh.
  { apply (RowOK_fresh newRow); [exact HOK|]. destruct Hc as [[H _]|[H _]]; auto. }
  pose proof HOK as (Hnd & Hcells & Hocc).
  split; [|split].
  - rewrite map_app. simpl. apply NoDup_app. split; [exact Hnd|]. split.
    + intros x Hx Hx'. apply list_elem_of_singleton in Hx'. now subst.
    + apply NoDup_singleton.
  - intros c' d' Hin. apply elem_of_app in Hin as [Hin|Hin].
    + destruct (Hcells c' d' Hin) as [E Ht']. split; [|exact Ht'].
      assert (c' <> c) as Hne.
      { intros ->. apply Hfresh. apply list_elem_of_fmap. now exists (c, d'). }
      destruct Hc as [[_ ->]|[_ ->]].
      * now rewrite list_lookup_insert_ne.
      * rewrite lookup_app_l; [exact E|]. now apply lookup_lt_Some in E.
    + apply list_elem_of_singleton in Hin. inversion Hin; subst c' d'. split; [|exact Ht].
      destruct Hc as [[E ->]|[-> ->]].
      * apply list_lookup_insert_eq. now apply lookup_lt_Some in E.
      * rewrite lookup_app_r by lia. now rewrite Nat.sub_diag.
  - intros c' t E Hne. rewrite map_app. apply elem_of_app. simpl.
    destruct (decide (c' = c)) as [->|Hcc]; [right; apply list_elem_of_singleton; reflexivity|].
    left. apply (Hocc c' t); [|exact Hne].
    destruct Hc as [[_ ->]|[-> ->]].
    + now rewrite list_lookup_insert_ne in E.
    + apply lookup_app_Some in E as [E|[Hge E]]; [exact E|].
      destruct (c' - length newRow)%nat as [|k] eqn:Ek; [lia|]. simpl in E.
      now rewrite lookup_nil in E.
Qed.

Lemma placeDesk_length columnCenters n rowIndex newRow positionMap desk :
  (length newRow <=
   length (placeDesk columnCenters n rowIndex (newRow, positionMap) desk).1)%nat.
Proof.
  unfold placeDesk. simpl.
  destruct (bestColumn columnCenters (horizontalCenter desk)).1 as [best|]; simpl; [|lia].
  destruct (isFree newRow best); simpl; [rewrite length_insert; lia|].
  destruct (List.find (isFree newRow) (seq 0 n)); simpl.
  - rewrite length_insert; lia.
  - rewrite length_app. simpl. lia.
Qed.

(** The row loop: every desk of the row is given a column of its own. *)
Lemma placeRow_spec columnCenters n rowIndex row :
  columnCenters <> [] -> n = length columnCenters ->
  Forall (fun d => LO.type d <> "--") row ->
  forall newRow positionMap occ,
    RowOK newRow occ -> (n <= length newRow)%nat ->
    exists occ',
      map snd occ' = row /\
      let res := fold_left (placeDesk columnCenters n rowIndex) row (newRow, positionMap) in
      RowOK res.1 (occ ++ occ') /\ (n <= length res.1)%nat /\
      res.2 = recordRow rowIndex occ' positionMap.
Proof.
  intros Hne Hn Hrow. induction Hrow as [|d row Ht _ IH]; intros newRow positionMap occ HOK Hlen.
  - exists []. simpl. rewrite app_nil_r. auto.
  - simpl.
    destruct (placeDesk_cases columnCenters n rowIndex newRow positionMap d Hne Hn Hlen)
      as (c & newRow' & E & Hc).
    rewrite E.
    pose proof (RowOK_step _ _ _ _ _ HOK Ht Hc) as HOK'.
    assert (n <= length newRow')%nat as Hlen'.
    { pose proof (placeDesk_length columnCenters n rowIndex newRow positionMap d) as H.
      rewrite E in H. simpl in H. lia. }
    destruct (IH newRow' (<[positionKey rowIndex c := LO.id d]> positionMap)
                 (occ ++ [(c, d)]) HOK' Hlen') as (occ' & Hmap & H).
    exists ((c, d) :: occ'). split; [simpl; now rewrite Hmap|].
    simpl in *. rewrite <- app_assoc in H. exact H.
Qed.

Lemma buildRow_spec columnCenters n rowIndex row positionMap :
  columnCenters <> [] -> n = length columnCenters ->
  Forall (fun d => LO.type d <> "--") row ->
  exists occ,
    map snd occ = row /\
    RowOK (buildRow columnCenters n rowIndex row positionMap).1 occ /\
    (n <= length (buildRow columnCenters n rowIndex row positionMap).1)%nat /\
    (buildRow columnCenters n rowIndex row positionMap).2 =
      recordRow rowIndex occ positionMap.
Proof.
  intros Hne Hn Hrow.
  destruct (placeRow_spec columnCenters n rowIndex row Hne Hn Hrow
              (replicate n "--") positionMap [] (RowOK_replicate n))
    as (occ & Hmap & H).
  - now rewrite length_replicate.
  - exists occ. split; [exact Hmap|]. exact H.
Qed.


(** * The grid and the position map *)

Lemma recordRow_lookup rowIndex occ : forall positionMap k v,
  NoDup (map fst occ) ->
  (recordRow rowIndex occ positionMap !! k = Some v <->
   (exists c d, (c, d) ∈ occ /\ k = positionKey rowIndex c /\ v = LO.id d) \/
   ((forall c, c ∈ map fst occ -> k <> positionKey rowIndex c) /\
    positionMap !! k = Some v)).
Proof.
  induction occ as [|[c d] occ IH]; intros positionMap k v Hnd.
  - simpl. split.
    + intros H. right. split; [|exact H]. intros c Hc. inversion Hc.
    + intros [(c & d & H & _)|[_ H]]; [inversion H|exact H].
  - simpl in Hnd. apply NoDup_cons in Hnd as [Hc Hnd].
    unfold recordRow in *. simpl. rewrite IH by exact Hnd. clear IH. split.
    + intros [(c' & d' & Hin & -> & ->)|[Hk H]].
      * left. exists c', d'. split; [now right|auto].
      * apply lookup_insert_Some in H as [[<- <-]|[Hne H]].
        -- left. exists c, d. split; [now left|auto].
        -- right. split; [|exact H]. intros c' Hc'.
           apply elem_of_cons in Hc' as [->|Hc']; [congruence|now apply Hk].
    + intros [(c' & d' & Hin & -> & ->)|[Hk H]].
      * apply elem_of_cons in Hin as [Hin|Hin].
        -- inversion Hin; subst c' d'. right. split.
           ++ intros c' Hc' E. apply positionKey_inj in E as [_ ->]. contradiction.
           ++ apply lookup_insert_eq.
        -- left. exists c', d'. auto.
      * right. split.
        -- intros c' Hc'. apply Hk. now right.
        -- rewrite lookup_insert_ne; [exact H|]. intros E. apply (Hk c); [now left|].
           now symmetry.
Qed.

Lemma elem_of_placesOfRow r occ r' c d :
  (r', c, d) ∈ placesOfRow r occ <-> r' = r /\ (c, d) ∈ occ.
Proof.
  unfold placesOfRow. rewrite list_elem_of_fmap. split.
  - intros ([c' d'] & E & H). inversion E; subst. auto.
  - intros [-> H]. now exists (c, d).
Qed.

Lemma cellAt_app_l {A} (grid : list (list A)) row r c :
  (r < length grid)%nat -> cellAt (grid ++ [row]) r c = cellAt grid r c.
Proof. intros H. unfold cellAt. now rewrite lookup_app_l. Qed.

Lemma cellAt_app_r {A} (grid : list (list A)) row c :
  cellAt (grid ++ [row]) (length grid) c = row !! c.
Proof.
  unfold cellAt. rewrite lookup_app_r by lia. now rewrite Nat.sub_diag.
Qed.

Lemma cellAt_lt {A} (grid : list (list A)) r c t :
  cellAt grid r c = Some t -> (r < length grid)%nat.
Proof.
  unfold cellAt. destruct (grid !! r) eqn:E; [|discriminate].
  intros _. now apply lookup_lt_Some in E.
Qed.

Lemma Placed_nil : Placed [] [] ∅ [].
Proof.
  repeat split; simpl; try constructor.
  - inversion H.
  - inversion H.
  - inversion H.
  - intros r row d H. now rewrite lookup_nil in H.
  - intros r c t H. discriminate.
  - intros H. now rewrite lookup_empty in H.
  - intros (r & c & d & H & _). inversion H.
Qed.

Lemma Placed_row_lt rows grid pm P r c d :
  Placed rows grid pm P -> (r, c, d) ∈ P -> (r < length rows)%nat.
Proof.
  intros (_ & _ & _ & H & _) Hin.
  destruct (H r c d Hin) as ((row & E & _) & _). now apply lookup_lt_Some in E.
Qed.

(** Adding a built row keeps the description. *)
Lemma Placed_snoc rows grid pm P row newRow occ :
  Placed rows grid pm P ->
  map snd occ = row -> RowOK newRow occ ->
  Placed (rows ++ [row]) (grid ++ [newRow])
         (recordRow (length rows) occ pm) (P ++ placesOfRow (length rows) occ).
Proof.
  intros HP Hmap HOK.
  pose proof HP as (Hlen & Hnd & Hsnd & Hin & Hrow & Hcell & Hpm).
  pose proof HOK as (Hnd' & Hcells' & Hocc').
  assert (forall c d, (c, d) ∈ occ -> d ∈ row) as Hocc_row.
  { intros c d H. rewrite <- Hmap. apply list_elem_of_fmap. now exists (c, d). }
  split; [|split; [|split; [|split; [|split; [|split]]]]].
  - rewrite !length_app. simpl. lia.
  - rewrite map_app. apply NoDup_app. split; [exact Hnd|]. split.
    + intros [r c] H1 H2.
      apply list_elem_of_fmap in H1 as ([[r1 c1] d1] & E1 & H1). inversion E1; subst r1 c1.
      apply list_elem_of_fmap in H2 as ([[r2 c2] d2] & E2 & H2). inversion E2; subst r2 c2.
      apply elem_of_placesOfRow in H2 as [-> _].
      pose proof (Placed_row_lt _ _ _ _ _ _ _ HP H1). lia.
    + assert (map fst (placesOfRow (length rows) occ) =
              map (fun c => (length rows, c)) (map fst occ)) as ->
        by (unfold placesOfRow; now rewrite !map_map).
      apply (NoDup_fmap_2 (fun c => (length rows, c))); exact Hnd'.
  - rewrite map_app, concat_app, Hsnd. simpl. rewrite app_nil_r. f_equal.
    unfold placesOfRow. rewrite map_map. simpl. exact Hmap.
  - intros r c d H. apply elem_of_app in H as [H|H].
    + destruct (Hin r c d H) as ((row' & E & Hd) & Hc & Ht).
      pose proof (lookup_lt_Some _ _ _ E) as Hlt.
      split; [|split; [|exact Ht]].
      * exists row'. split; [|exact Hd]. now rewrite lookup_app_l.
      * rewrite cellAt_app_l by lia. exact Hc.
    + apply elem_of_placesOfRow in H as [-> H].
      destruct (Hcells' c d H) as [E Ht].
      split; [|split; [|exact Ht]].
      * exists row. split; [|now apply (Hocc_row c)].
        rewrite lookup_app_r by lia. now rewrite Nat.sub_diag.
      * rewrite <- Hlen, cellAt_app_r. exact E.
  - intros r row' d E Hd. apply lookup_app_Some in E as [E|[Hge E]].
    + destruct (Hrow r row' d E Hd) as [c Hc]. exists c. apply elem_of_app. now left.
    + destruct (r - length rows)%nat as [|k] eqn:Ek; simpl in E;
        [|now rewrite lookup_nil in E].
      inversion E; subst row'. assert (r = length rows) as -> by lia.
      rewrite <- Hmap in Hd. apply list_elem_of_fmap in Hd as ([c d'] & -> & Hd).
      exists c. apply elem_of_app. right. now apply elem_of_placesOfRow.
  - intros r c t E Ht.
    destruct (decide (r < length grid)%nat) as [Hlt|Hge].
    + rewrite cellAt_app_l in E by exact Hlt.
      destruct (Hcell r c t E Ht) as [d Hd]. exists d. apply elem_of_app. now left.
    + pose proof (cellAt_lt _ _ _ _ E) as Hr. rewrite length_app in Hr. simpl in Hr.
      assert (r = length grid) as -> by lia. rewrite cellAt_app_r in E.
      pose proof (Hocc' c t E Ht) as Hc.
      apply list_elem_of_fmap in Hc as ([c' d] & -> & Hc).
      exists d. apply elem_of_app. right. apply elem_of_placesOfRow. split; [lia|exact Hc].
  - intros k v. rewrite recordRow_lookup by exact Hnd'. rewrite Hpm. split.
    + intros [(c & d & H & -> & ->)|[Hk (r & c & d & H & -> & ->)]].
      * exists (length rows), c, d. split; [|auto].
        apply elem_of_app. right. now apply elem_of_placesOfRow.
      * exists r, c, d. split; [|auto]. apply elem_of_app. now left.
    + intros (r & c & d & H & -> & ->). apply elem_of_app in H as [H|H].
      * right. split; [|now exists r, c, d].
        intros c' _ E. apply positionKey_inj in E as [-> _].
        pose proof (Placed_row_lt _ _ _ _ _ _ _ HP H). lia.
      * apply elem_of_placesOfRow in H as [-> H]. left. now exists c, d.
Qed.

Lemma buildGrid_from columnCenters n :
  columnCenters <> [] -> n = length columnCenters ->
  forall rows done grid pm P,
    Forall (Forall (fun d => LO.type d <> "--")) rows ->
    Placed done grid pm P ->
    exists P',
      Placed (done ++ rows)
        (JS.forEachFrom (gridStep columnCenters n) (length done) rows (grid, pm)).1
        (JS.forEachFrom (gridStep columnCenters n) (length done) rows (grid, pm)).2
        P'.
Proof.
  intros Hne Hn rows. induction rows as [|row rows IH]; intros done grid pm P Ht HP.
  - exists P. simpl. rewrite app_nil_r. exact HP.
  - inversion_clear Ht as [|? ? Hrow Hrows]. simpl. unfold gridStep at 2 4. simpl.
    destruct (buildRow_spec columnCenters n (length done) row pm Hne Hn Hrow)
      as (occ & Hmap & HOK & Hlen & Hpm).
    rewrite Hpm.
    pose proof (Placed_snoc _ _ _ _ _ _ _ HP Hmap HOK) as HP'.
    destruct (IH (done ++ [row]) _ _ _ Hrows HP') as (P' & H).
    rewrite length_app in H. simpl in H.
    rewrite Nat.add_1_r in H. rewrite <- app_assoc in H. simpl in H.
    exists P'. exact H.
Qed.

Lemma buildRow_length columnCenters n rowIndex row pm :
  (n <= length (buildRow columnCenters n rowIndex row pm).1)%nat.
Proof.
  unfold buildRow.
  assert (forall st, (n <= length st.1)%nat ->
            (n <= length (fold_left (placeDesk columnCenters n rowIndex) row st).1)%nat) as H.
  { induction row as [|d row IH]; intros st Hst; simpl; [exact Hst|].
    apply IH. destruct st as [newRow pm'].
    pose proof (placeDesk_length columnCenters n rowIndex newRow pm' d). simpl in *. lia. }
  apply H. simpl. now rewrite length_replicate.
Qed.

Lemma buildGrid_from_lengths columnCenters n rows : forall i grid pm,
  Forall (fun row => (n <= length row)%nat) grid ->
  Forall (fun row => (n <= length row)%nat)
    (JS.forEachFrom (gridStep columnCenters n) i rows (grid, pm)).1.
Proof.
  induction rows as [|row rows IH]; intros i grid pm H; simpl; [exact H|].
  unfold gridStep at 2. simpl. apply IH.
  apply Forall_app. split; [exact H|]. constructor; [|constructor].
  apply buildRow_length.
Qed.

Lemma buildGrid_Placed columnCenters rows :
  columnCenters <> [] ->
  Forall (Forall (fun d => LO.type d <> "--")) rows ->
  exists P,
    Placed rows (buildGrid columnCenters (numCols columnCenters) rows).1
                (buildGrid columnCenters (numCols columnCenters) rows).2 P.
Proof.
  intros Hne Ht.
  assert (numCols columnCenters = length columnCenters) as Hn.
  { unfold numCols. destruct columnCenters; [congruence|reflexivity]. }
  exact (buildGrid_from columnCenters _ Hne Hn rows [] [] ∅ [] Ht Placed_nil).
Qed.

Lemma buildGrid_lengths columnCenters rows :
  Forall (fun row => (numCols columnCenters <= length row)%nat)
         (buildGrid columnCenters (numCols columnCenters) rows).1.
Proof. apply buildGrid_from_lengths. constructor. Qed.


(** * Rows, columns and padding *)

Lemma groupRowsFrom_Permutation rest : forall currentRow,
  Permutation (concat (groupRowsFrom currentRow rest)) (currentRow ++ rest).
Proof.
  induction rest as [|d rest IH]; intros currentRow; simpl.
  - rewrite !app_nil_r. apply sort_Permutation.
  - destruct currentRow as [|first currentRow'].
    + rewrite IH. reflexivity.
    + destruct (sameRow d first).
      * rewrite IH. now rewrite <- app_assoc.
      * change (concat (?r :: ?l)) with (r ++ concat l).
        apply Permutation_app; [apply sort_Permutation | apply (IH [d])].
Qed.

Lemma groupRows_Permutation objects : Permutation (concat (groupRows objects)) objects.
Proof.
  unfold groupRows. rewrite <- (sort_Permutation compareY objects) at 2.
  fold (sortedByY objects). destruct (sortedByY objects) as [|first rest]; [reflexivity|].
  apply (groupRowsFrom_Permutation rest [first]).
Qed.

Lemma groupRowsFrom_not_nil currentRow rest : groupRowsFrom currentRow rest <> [].
Proof.
  revert currentRow. induction rest as [|d rest IH]; intros currentRow; simpl; [congruence|].
  destruct currentRow as [|first ?]; [apply IH|].
  destruct (sameRow d first); [apply IH|congruence].
Qed.

Lemma groupRows_not_nil objects : objects <> [] -> groupRows objects <> [].
Proof.
  intros H. unfold groupRows. destruct (sortedByY objects) as [|first rest] eqn:E.
  - apply sort_nil_inv in E. contradiction.
  - apply groupRowsFrom_not_nil.
Qed.

Lemma groupRowsFrom_rows_not_nil rest : forall currentRow,
  currentRow <> [] -> Forall (fun row => row <> []) (groupRowsFrom currentRow rest).
Proof.
  assert (forall l : list LayoutObject, l <> [] -> JS.sort compareX l <> []) as Hs.
  { intros l Hl E. now apply sort_nil_inv in E. }
  induction rest as [|d rest IH]; intros currentRow Hne; simpl.
  - constructor; [now apply Hs|constructor].
  - destruct currentRow as [|first currentRow']; [congruence|].
    destruct (sameRow d first).
    + apply IH. now destruct currentRow'.
    + constructor; [now apply Hs|]. now apply IH.
Qed.

Lemma groupRows_rows_not_nil objects : Forall (fun row => row <> []) (groupRows objects).
Proof.
  unfold groupRows. destruct (sortedByY objects) as [|first rest]; [constructor|].
  now apply groupRowsFrom_rows_not_nil.
Qed.

Lemma elem_of_concat {A} (x : A) (ls : list (list A)) :
  x ∈ concat ls <-> exists l, l ∈ ls /\ x ∈ l.
Proof.
  rewrite list_elem_of_In, in_concat. split.
  - intros (l & H1 & H2). exists l. now rewrite !list_elem_of_In.
  - intros (l & H1 & H2). exists l. now rewrite <- !list_elem_of_In.
Qed.

Lemma groupRows_types objects (Q : LayoutObject -> Prop) :
  Forall Q objects -> Forall (Forall Q) (groupRows objects).
Proof.
  intros H. apply Forall_forall. intros row Hrow. apply Forall_forall. intros d Hd.
  rewrite Forall_forall in H. apply H.
  rewrite <- (groupRows_Permutation objects). apply elem_of_concat. now exists row.
Qed.

Lemma setAdd_not_nil seen v : JS.setAdd seen v <> [].
Proof. destruct seen as [|w seen]; simpl; [congruence|]. now destruct (Qeq_bool w v). Qed.

Lemma uniqueNumbers_not_nil a : a <> [] -> JS.uniqueNumbers a <> [].
Proof.
  unfold JS.uniqueNumbers. destruct a as [|v a]; [congruence|]. intros _. simpl.
  assert (forall l seen, seen <> [] -> fold_left JS.setAdd l seen <> []) as H.
  { induction l as [|w l IH]; intros seen Hs; simpl; [exact Hs|].
    apply IH, setAdd_not_nil. }
  apply H. congruence.
Qed.

Lemma clusterFrom_not_nil currentCluster rest : clusterFrom currentCluster rest <> [].
Proof.
  revert currentCluster. induction rest as [|c rest IH]; intros cur; simpl; [congruence|].
  destruct (JS.Qlt_bool _ _); [apply IH|congruence].
Qed.

Lemma columnCenters_not_nil objects : objects <> [] -> columnCenters objects <> [].
Proof.
  intros H. unfold columnCenters, sortedUniqueCenters.
  destruct (JS.sort Qminus _) as [|first rest] eqn:E.
  - apply sort_nil_inv in E. apply uniqueNumbers_not_nil in E; [contradiction|].
    now destruct objects.
  - apply clusterFrom_not_nil.
Qed.

Lemma numCols_pos columnCenters : (1 <= numCols columnCenters)%nat.
Proof. unfold numCols. destruct columnCenters; simpl; lia. Qed.

(** ** Padding *)

Lemma fold_max_ge (grid : list (list string)) : forall m,
  (m <= fold_left (fun max row => Nat.max max (length row)) grid m)%nat /\
  Forall (fun row => (length row <=
            fold_left (fun max row => Nat.max max (length row)) grid m)%nat) grid.
Proof.
  induction grid as [|row grid IH]; intros m; simpl; [split; [lia|constructor]|].
  destruct (IH (Nat.max m (length row))) as [H1 H2]. split; [lia|].
  constructor; [lia|exact H2].
Qed.

Lemma maxRowLength_ge grid row :
  row ∈ grid -> (length row <= maxRowLength grid)%nat.
Proof.
  intros H. destruct (fold_max_ge grid 0) as [_ HF].
  rewrite Forall_forall in HF. now apply HF.
Qed.

Lemma padRows_lookup grid r :
  padRows grid !! r =
  (fun row => row ++ replicate (maxRowLength grid - length row) "--") <$> grid !! r.
Proof. unfold padRows. apply list_lookup_fmap. Qed.

Lemma padRows_length grid : length (padRows grid) = length grid.
Proof. unfold padRows. apply length_map. Qed.

(** The padded grid is rectangular. *)
Lemma padRows_rectangular grid row :
  row ∈ padRows grid -> length row = maxRowLength grid.
Proof.
  unfold padRows. intros H. apply list_elem_of_fmap in H as (row0 & -> & H).
  rewrite length_app, length_replicate.
  pose proof (maxRowLength_ge _ _ H). lia.
Qed.

Lemma cellAt_padRows grid r c t :
  cellAt (padRows grid) r c = Some t <->
  cellAt grid r c = Some t \/
  (t = "--" /\ exists row, grid !! r = Some row /\
                           (length row <= c < maxRowLength grid)%nat).
Proof.
  unfold cellAt. rewrite padRows_lookup.
  destruct (grid !! r) as [row|] eqn:E; simpl.
  - split.
    + intros H. apply lookup_app_Some in H as [H|[Hge H]]; [now left|].
      right. apply lookup_replicate in H as [-> H]. split; [reflexivity|].
      exists row. split; [reflexivity|]. lia.
    + intros [H|(-> & row' & Er & Hc)].
      * now apply lookup_app_l_Some.
      * inversion Er; subst row'. apply lookup_app_Some. right. split; [lia|].
        apply lookup_replicate. split; [reflexivity|]. lia.
  - split; [discriminate|]. intros [H|(_ & row & H & _)]; discriminate.
Qed.

Lemma Placed_padRows rows grid pm P :
  Placed rows grid pm P -> Placed rows (padRows grid) pm P.
Proof.
  intros (Hlen & Hnd & Hsnd & Hin & Hrow & Hcell & Hpm).
  split; [|split; [|split; [|split; [|split; [|split]]]]]; try assumption.
  - now rewrite padRows_length.
  - intros r c d H. destruct (Hin r c d H) as (H1 & H2 & H3).
    split; [exact H1|]. split; [|exact H3]. apply cellAt_padRows. now left.
  - intros r c t H Ht. apply cellAt_padRows in H as [H|[-> _]]; [|congruence].
    now apply (Hcell r c t).
Qed.

(** ** The conversion, unfolded *)

Lemma convert_eq objects :
  objects <> [] ->
  let centers := columnCenters objects in
  let g := buildGrid centers (numCols centers) (groupRows objects) in
  convertObjectsToLayoutMatrix objects =
    {| matrix := serializeGrid (padRows g.1);
       layout := padRows g.1;
       positionMap := g.2;
       numberedMatrix :=
         serializeGrid
           (map (map (JS.padEnd 5))
                (numberedGrid (padRows g.1) g.2 (deskNumberMap objects))) |}.
Proof.
  intros H. unfold convertObjectsToLayoutMatrix.
  destruct objects as [|d objects]; [congruence|].
  pose proof (groupRows_not_nil (d :: objects) H) as Hr.
  destruct (groupRows (d :: objects)); [congruence|reflexivity].
Qed.

(** The description of the result: every desk sits in one cell of the layout,
    recorded in the position map. *)
Lemma convert_Placed objects :
  objects <> [] ->
  Forall (fun d => LO.type d <> "--") objects ->
  exists P,
    Placed (groupRows objects)
           (layout (convertObjectsToLayoutMatrix objects))
           (positionMap (convertObjectsToLayoutMatrix objects)) P.
Proof.
  intros Hne Ht. rewrite convert_eq by exact Hne. simpl.
  destruct (buildGrid_Placed (columnCenters objects) (groupRows objects))
    as [P HP].
  - now apply columnCenters_not_nil.
  - now apply groupRows_types.
  - exists P. now apply Placed_padRows.
Qed.

Lemma convert_layout_rectangular objects row :
  row ∈ layout (convertObjectsToLayoutMatrix objects) ->
  length row = length (default [] (head (layout (convertObjectsToLayoutMatrix objects)))) /\
  (1 <= length row)%nat.
Proof.
  destruct objects as [|d objects]; [intros H; inversion H|].
  rewrite convert_eq by congruence. simpl.
  set (g := buildGrid _ _ _). intros H.
  pose proof (padRows_rectangular _ _ H) as Hlen.
  split.
  - destruct (padRows g.1) as [|row0 rest] eqn:E; [inversion H|]. simpl.
    rewrite Hlen. symmetry. apply padRows_rectangular. rewrite E. now left.
  - unfold padRows in H. apply list_elem_of_fmap in H as (row0 & -> & H).
    pose proof (buildGrid_lengths (columnCenters (d :: objects)) (groupRows (d :: objects))) as HF.
    rewrite Forall_forall in HF. specialize (HF row0 H).
    pose proof (numCols_pos (columnCenters (d :: objects))).
    rewrite length_app. lia.
Qed.


(** * Every desk in exactly one cell *)

Lemma NoDup_map_inj {A B} (f : A -> B) (l : list A) x y :
  NoDup (map f l) -> x ∈ l -> y ∈ l -> f x = f y -> x = y.
Proof.
  induction l as [|a l IH]; intros Hnd Hx Hy E; [inversion Hx|].
  simpl in Hnd. apply NoDup_cons in Hnd as [Ha Hnd].
  apply elem_of_cons in Hx as [->|Hx], Hy as [->|Hy]; auto.
  - exfalso. apply Ha. rewrite E. apply list_elem_of_fmap. now exists y.
  - exfalso. apply Ha. rewrite <- E. apply list_elem_of_fmap. now exists x.
Qed.

Lemma Placed_ids rows grid pm P objects :
  Placed rows grid pm P -> Permutation (concat rows) objects ->
  NoDup (map LO.id objects) ->
  NoDup (map (fun p => LO.id (snd p)) P).
Proof.
  intros (_ & _ & Hsnd & _) Hperm Hnd.
  rewrite <- (map_map snd LO.id), Hsnd. now rewrite Hperm.
Qed.

Lemma Placed_elem_of rows grid pm P objects d :
  Placed rows grid pm P -> Permutation (concat rows) objects ->
  d ∈ objects -> exists r c, (r, c, d) ∈ P.
Proof.
  intros HP Hperm Hd. pose proof HP as (_ & _ & _ & _ & Hrow & _).
  rewrite <- Hperm in Hd. apply elem_of_concat in Hd as (row & Hrow' & Hd).
  apply list_elem_of_lookup in Hrow' as [r Hr].
  destruct (Hrow r row d Hr Hd) as [c Hc]. now exists r, c.
Qed.

Lemma Placed_desk rows grid pm P objects r c d :
  Placed rows grid pm P -> Permutation (concat rows) objects ->
  (r, c, d) ∈ P -> d ∈ objects.
Proof.
  intros (_ & _ & _ & Hin & _) Hperm H.
  destruct (Hin r c d H) as ((row & Hr & Hd) & _).
  rewrite <- Hperm. apply elem_of_concat. exists row. split; [|exact Hd].
  apply list_elem_of_lookup. now exists r.
Qed.

(** With distinct ids, a desk id sits under one key only. *)
Lemma Placed_key_unique rows grid pm P objects r c d k :
  Placed rows grid pm P -> Permutation (concat rows) objects ->
  NoDup (map LO.id objects) ->
  (r, c, d) ∈ P -> pm !! k = Some (LO.id d) -> k = positionKey r c.
Proof.
  intros HP Hperm Hnd Hin Hk.
  pose proof (Placed_ids _ _ _ _ _ HP Hperm Hnd) as HndP.
  destruct HP as (_ & _ & _ & _ & _ & _ & Hpm).
  apply Hpm in Hk as (r' & c' & d' & Hin' & -> & E).
  assert ((r, c, d) = (r', c', d')) as E'.
  { apply (NoDup_map_inj (fun p => LO.id (snd p)) P); assumption. }
  now inversion E'.
Qed.

Lemma Placed_lookup rows grid pm P r c d :
  Placed rows grid pm P -> (r, c, d) ∈ P ->
  pm !! positionKey r c = Some (LO.id d) /\ cellAt grid r c = Some (LO.type d).
Proof.
  intros (_ & _ & _ & Hin & _ & _ & Hpm) H. split.
  - apply Hpm. now exists r, c, d.
  - now destruct (Hin r c d H) as (_ & Hc & _).
Qed.

(** C3. The layout grid is rectangular: all its rows have one length, and a
    cell holds ["--"] unless a desk sits there.  With distinct desk ids and
    type codes other than ["--"], the id of every desk is the value of exactly
    one key [row-col] of the position map, and the cell of that row and
    column holds the desk's type code. *)
Theorem C3_rectangular_grid_and_one_cell_per_desk (objects : list LayoutObject) :
  NoDup (map LO.id objects) ->
  Forall (fun d => LO.type d <> "--") objects ->
  let m := convertObjectsToLayoutMatrix objects in
  (forall row1 row2, row1 ∈ layout m -> row2 ∈ layout m -> length row1 = length row2) /\
  (forall r c t, cellAt (layout m) r c = Some t ->
     t = "--" \/
     exists d, d ∈ objects /\ t = LO.type d /\
               positionMap m !! positionKey r c = Some (LO.id d)) /\
  (forall d, d ∈ objects ->
     exists r c,
       positionMap m !! positionKey r c = Some (LO.id d) /\
       cellAt (layout m) r c = Some (LO.type d) /\
       forall k, positionMap m !! k = Some (LO.id d) -> k = positionKey r c).
Proof.
  intros Hnd Ht m. split.
  { intros row1 row2 H1 H2.
    destruct (convert_layout_rectangular objects row1 H1) as [-> _].
    now destruct (convert_layout_rectangular objects row2 H2) as [-> _]. }
  destruct objects as [|d0 objects].
  { split.
    - intros r c t H. discriminate.
    - intros d H. inversion H. }
  destruct (convert_Placed (d0 :: objects)) as [P HP]; [congruence|exact Ht|].
  fold m in HP. pose proof (groupRows_Permutation (d0 :: objects)) as Hperm.
  split.
  - intros r c t H. destruct (String.eqb_spec t "--") as [->|Hne]; [now left|right].
    pose proof HP as (_ & _ & _ & Hin & _ & Hcell & _).
    destruct (Hcell r c t H Hne) as [d Hd]. exists d.
    destruct (Placed_lookup _ _ _ _ _ _ _ HP Hd) as [Hk Hc].
    split; [now apply (Placed_desk _ _ _ _ _ _ _ _ HP Hperm Hd)|].
    split; [congruence|exact Hk].
  - intros d Hd.
    destruct (Placed_elem_of _ _ _ _ _ _ HP Hperm Hd) as (r & c & Hin).
    exists r, c.
    destruct (Placed_lookup _ _ _ _ _ _ _ HP Hin) as [Hk Hc].
    split; [exact Hk|]. split; [exact Hc|].
    intros k. now apply (Placed_key_unique _ _ _ _ _ _ _ _ _ HP Hperm Hnd Hin).
Qed.


(** * The matrix text *)

Lemma cleanCell_spec s :
  cleanCell s = true <-> JS.includes "," s = false /\ JS.includes JS.LF s = false.
Proof.
  unfold cleanCell. rewrite andb_true_iff, !negb_true_iff. tauto.
Qed.

(** Reading the text of a grid gives the grid back when no cell holds a
    separator and no row is empty. *)
Lemma cellsOfText_serializeGrid (grid : list (list string)) :
  grid <> [] ->
  Forall (fun row => row <> [] /\ Forall (fun s => cleanCell s = true) row) grid ->
  cellsOfText (serializeGrid grid) = grid.
Proof.
  intros Hne H. unfold cellsOfText, serializeGrid.
  rewrite split_join.
  - rewrite map_map. rewrite <- (map_id grid) at 2. apply map_ext_in.
    intros row Hrow. apply list_elem_of_In in Hrow.
    rewrite Forall_forall in H. destruct (H row Hrow) as [Hr Hc].
    apply split_join; [exact Hr|].
    eapply Forall_impl; [exact Hc|]. intros s Hs. now apply cleanCell_spec in Hs.
  - now destruct grid.
  - apply Forall_forall. intros line Hline.
    apply list_elem_of_fmap in Hline as (row & -> & Hrow).
    rewrite Forall_forall in H. destruct (H row Hrow) as [_ Hc].
    apply join_includes; [reflexivity|].
    eapply Forall_impl; [exact Hc|]. intros s Hs. now apply cleanCell_spec in Hs.
Qed.

Lemma isTypeCode_cleanCell s : isTypeCode s = true -> cleanCell s = true.
Proof.
  intros H. apply cleanCell_spec.
  induction s as [|a s IH]; [split; reflexivity|].
  simpl in H. apply andb_true_iff in H as [Ha Hs].
  destruct (IH Hs) as [H1 H2]. simpl. rewrite H1, H2.
  apply orb_true_iff in Ha as [Ha|Ha]; apply Ascii.eqb_eq in Ha; subst a; split; reflexivity.
Qed.

Lemma isTypeCode_noWhiteSpace s : isTypeCode s = true -> noWhiteSpace s = true.
Proof.
  induction s as [|a s IH]; [reflexivity|].
  simpl. intros H. apply andb_true_iff in H as [Ha Hs]. rewrite (IH Hs).
  apply orb_true_iff in Ha as [Ha|Ha]; apply Ascii.eqb_eq in Ha; subst a; reflexivity.
Qed.

Lemma isTypeCode_ne_blank s : isTypeCode s = true -> s <> "--".
Proof. intros H ->. discriminate. Qed.

(** The cells of the layout are clean when the type codes are. *)
Lemma layout_cells_clean objects :
  Forall (fun d => isTypeCode (LO.type d) = true) objects ->
  Forall (fun row => row <> [] /\ Forall (fun s => cleanCell s = true) row)
         (layout (convertObjectsToLayoutMatrix objects)).
Proof.
  intros Ht. destruct objects as [|d0 objects]; [constructor|].
  assert (Forall (fun d => LO.type d <> "--") (d0 :: objects)) as Hnb.
  { eapply Forall_impl; [exact Ht|]. intros d. apply isTypeCode_ne_blank. }
  destruct (convert_Placed (d0 :: objects)) as [P HP]; [congruence|exact Hnb|].
  pose proof (groupRows_Permutation (d0 :: objects)) as Hperm.
  apply Forall_forall. intros row Hrow. split.
  - destruct (convert_layout_rectangular _ _ Hrow) as [_ H]. destruct row; simpl in H; [lia|congruence].
  - apply Forall_forall. intros s Hs.
    apply list_elem_of_lookup in Hrow as [r Hr], Hs as [c Hc].
    assert (cellAt (layout (convertObjectsToLayoutMatrix (d0 :: objects))) r c = Some s) as Hcell.
    { unfold cellAt. rewrite Hr. exact Hc. }
    destruct (String.eqb_spec s "--") as [->|Hne]; [reflexivity|].
    pose proof HP as (_ & _ & _ & Hin & _ & Hcells & _).
    destruct (Hcells r c s Hcell Hne) as [d Hd].
    destruct (Hin r c d Hd) as (_ & Hc' & _).
    assert (s = LO.type d) as -> by congruence.
    apply isTypeCode_cleanCell. rewrite Forall_forall in Ht. apply Ht.
    now apply (Placed_desk _ _ _ _ _ _ _ _ HP Hperm Hd).
Qed.

Lemma cellsOfText_matrix objects :
  objects <> [] ->
  Forall (fun d => isTypeCode (LO.type d) = true) objects ->
  cellsOfText (matrix (convertObjectsToLayoutMatrix objects)) =
  layout (convertObjectsToLayoutMatrix objects).
Proof.
  intros Hne Ht. pose proof (layout_cells_clean objects Ht) as Hclean.
  rewrite convert_eq in * by exact Hne. simpl in *.
  apply cellsOfText_serializeGrid; [|exact Hclean].
  intros E.
  pose proof (padRows_length
    (buildGrid (columnCenters objects) (numCols (columnCenters objects))
               (groupRows objects)).1) as Hlen.
  rewrite E in Hlen.
  destruct (buildGrid_Placed (columnCenters objects) (groupRows objects)) as [P HP].
  - now apply columnCenters_not_nil.
  - apply groupRows_types. eapply Forall_impl; [exact Ht|]. intros d. apply isTypeCode_ne_blank.
  - destruct HP as (Hl & _). rewrite Hl in Hlen.
    pose proof (groupRows_not_nil objects Hne). destruct (groupRows objects); simpl in *; [congruence|lia].
Qed.


(** * The order of the rows *)

Lemma sameRow_sameLine a b : sameRow a b = true <-> sameLine a b.
Proof. unfold sameRow, sameLine. apply Qlt_bool_iff. Qed.

Lemma sameRow_not_sameLine a b : sameRow a b = false <-> ~ sameLine a b.
Proof.
  rewrite <- sameRow_sameLine. destruct (sameRow a b); split; congruence.
Qed.

Lemma filter_Permutation {A} (p : A -> bool) l l' :
  Permutation l l' -> Permutation (List.filter p l) (List.filter p l').
Proof.
  induction 1 as [|x l l' _ IH|x y l|l l' l'' _ IH1 _ IH2]; simpl.
  - reflexivity.
  - destruct (p x); [now constructor|exact IH].
  - destruct (p x), (p y); try reflexivity. apply perm_swap.
  - now transitivity (List.filter p l').
Qed.

Lemma filter_all {A} (p : A -> bool) l :
  (forall x, x ∈ l -> p x = true) -> List.filter p l = l.
Proof.
  induction l as [|a l IH]; intros H; simpl; [reflexivity|].
  rewrite (H a) by now left. f_equal. apply IH. intros x Hx. apply H. now right.
Qed.

Lemma filter_none {A} (p : A -> bool) l :
  (forall x, x ∈ l -> p x = false) -> List.filter p l = [].
Proof.
  induction l as [|a l IH]; intros H; simpl; [reflexivity|].
  rewrite (H a) by now left. apply IH. intros x Hx. apply H. now right.
Qed.

(** A sorted list splits at a downward-closed predicate. *)
Lemma sorted_split {A} (R : A -> A -> Prop) (p : A -> bool) l :
  StronglySorted R l ->
  (forall a b, R a b -> p b = true -> p a = true) ->
  l = List.filter p l ++ List.filter (fun x => negb (p x)) l.
Proof.
  intros Hs Hp. induction Hs as [|a l Hl IH Ha]; simpl; [reflexivity|].
  destruct (p a) eqn:Ea; simpl.
  - now rewrite <- IH.
  - rewrite (filter_none p l).
    + simpl. f_equal. symmetry. apply filter_all. intros x Hx. apply negb_true_iff.
      destruct (p x) eqn:Ex; [|reflexivity].
      rewrite Forall_forall in Ha. rewrite (Hp a x (Ha x Hx) Ex) in Ea. discriminate.
    + intros x Hx. destruct (p x) eqn:Ex; [|reflexivity].
      rewrite Forall_forall in Ha. rewrite (Hp a x (Ha x Hx) Ex) in Ea. discriminate.
Qed.

(** The desks behind come first in the order of [y]. *)
Lemma sortedByY_split objects behind front :
  Permutation objects (behind ++ front) ->
  (forall b f, b ∈ behind -> f ∈ front -> (LO.y b < LO.y f)%Q) ->
  exists sb sf,
    sortedByY objects = sb ++ sf /\ Permutation sb behind /\ Permutation sf front.
Proof.
  intros Hperm Hy.
  set (p := fun d => forallb (fun f => JS.Qlt_bool (LO.y d) (LO.y f)) front).
  assert (forall b, b ∈ behind -> p b = true) as Hpb.
  { intros b Hb. apply forallb_forall. intros f Hf. apply Qlt_bool_iff.
    apply Hy; [exact Hb|now apply list_elem_of_In]. }
  assert (forall f, f ∈ front -> p f = false) as Hpf.
  { intros f Hf. destruct (p f) eqn:E; [|reflexivity].
    unfold p in E. rewrite forallb_forall in E.
    specialize (E f (proj1 (list_elem_of_In _ _) Hf)). apply Qlt_bool_iff in E. lra. }
  exists (List.filter p (sortedByY objects)),
         (List.filter (fun x => negb (p x)) (sortedByY objects)).
  assert (Permutation (sortedByY objects) (behind ++ front)) as Hperm'.
  { unfold sortedByY. now rewrite sort_Permutation. }
  split; [|split].
  - apply (sorted_split (before compareY)); [apply sortedByY_sorted|].
    intros a b Hab Hb. unfold p in *. rewrite forallb_forall in *.
    intros f Hf. specialize (Hb f Hf). apply Qlt_bool_iff in Hb. apply Qlt_bool_iff.
    apply compareY_before in Hab. lra.
  - rewrite (filter_Permutation p _ _ Hperm'), List.filter_app.
    rewrite (filter_all p behind Hpb), (filter_none p front Hpf). now rewrite app_nil_r.
  - rewrite (filter_Permutation _ _ _ Hperm'), List.filter_app.
    rewrite (filter_none _ behind), (filter_all _ front); [reflexivity| |].
    + intros f Hf. now rewrite (Hpf f Hf).
    + intros b Hb. now rewrite (Hpb b Hb).
Qed.

Lemma groupRowsFrom_join ds : forall first currentRow rest,
  (forall d, d ∈ ds -> sameRow d first = true) ->
  groupRowsFrom (first :: currentRow) (ds ++ rest) =
  groupRowsFrom (first :: currentRow ++ ds) rest.
Proof.
  induction ds as [|d ds IH]; intros first currentRow rest H.
  - now rewrite app_nil_r.
  - simpl. rewrite (H d) by now left.
    change (first :: currentRow ++ [d]) with (first :: (currentRow ++ [d])).
    rewrite IH by (intros d' Hd'; apply H; now right).
    now rewrite <- app_assoc.
Qed.

(** The first row is the group behind all other desks. *)
Lemma groupRows_head objects back rest :
  Permutation objects (back ++ rest) -> back <> [] ->
  physicalRow back -> inFrontOf rest back ->
  exists sb rows',
    groupRows objects = JS.sort compareX sb :: rows' /\ Permutation sb back /\
    (rest <> [] -> rows' <> []).
Proof.
  intros Hperm Hne Hrow Hfront.
  destruct (sortedByY_split objects back rest Hperm) as (sb & sr & Hs & Hsb & Hsr).
  { intros b f Hb Hf. now destruct (Hfront f b Hf Hb). }
  unfold groupRows. rewrite Hs.
  destruct sb as [|b0 sb'].
  { apply Permutation_nil in Hsb. congruence. }
  simpl. rewrite groupRowsFrom_join.
  - destruct sr as [|o sr'].
    + exists (b0 :: sb'), []. simpl. split; [reflexivity|]. split; [exact Hsb|].
      intros Hr. apply Permutation_nil in Hsr. congruence.
    + exists (b0 :: sb'), (groupRowsFrom [o] sr'). simpl.
      assert (sameRow o b0 = false) as ->.
      { apply sameRow_not_sameLine. apply (Hfront o b0).
        - rewrite <- Hsr. now left.
        - rewrite <- Hsb. now left. }
      split; [reflexivity|]. split; [exact Hsb|]. intros _. apply groupRowsFrom_not_nil.
  - intros d Hd. apply sameRow_sameLine. apply Hrow; rewrite <- Hsb; [now right|now left].
Qed.

Lemma groupRowsFrom_last f0 sf' sr : forall first currentRow,
  sameRow f0 first = false ->
  (forall o, o ∈ sr -> sameRow f0 o = false) ->
  (forall f, f ∈ sf' -> sameRow f f0 = true) ->
  last (groupRowsFrom (first :: currentRow) (sr ++ f0 :: sf')) =
    Some (JS.sort compareX (f0 :: sf')) /\
  (2 <= length (groupRowsFrom (first :: currentRow) (sr ++ f0 :: sf')))%nat.
Proof.
  induction sr as [|o sr IH]; intros first currentRow Hfirst Hsr Hsf.
  - simpl. rewrite Hfirst.
    pose proof (groupRowsFrom_join sf' f0 [] [] Hsf) as E.
    rewrite app_nil_r in E. simpl in E. rewrite E. simpl. split; [reflexivity|lia].
  - simpl. destruct (sameRow o first).
    + apply (IH first (currentRow ++ [o])); [exact Hfirst| |exact Hsf].
      intros o' Ho'. apply Hsr. now right.
    + destruct (IH o [] (Hsr o (list_elem_of_here _ _))) as [H1 H2].
      * intros o' Ho'. apply Hsr. now right.
      * exact Hsf.
      * split.
        -- rewrite last_cons, H1. reflexivity.
        -- simpl. lia.
Qed.

(** The last row is the group in front of all other desks. *)
Lemma groupRows_last objects rest front :
  Permutation objects (rest ++ front) -> rest <> [] -> front <> [] ->
  physicalRow front -> inFrontOf front rest ->
  exists sf,
    last (groupRows objects) = Some (JS.sort compareX sf) /\ Permutation sf front /\
    (2 <= length (groupRows objects))%nat.
Proof.
  intros Hperm Hr Hf Hrow Hfront.
  destruct (sortedByY_split objects rest front Hperm) as (sr & sf & Hs & Hsr & Hsf).
  { intros b f Hb Hf'. now destruct (Hfront f b Hf' Hb). }
  unfold groupRows. rewrite Hs.
  destruct sr as [|o0 sr']; [apply Permutation_nil in Hsr; congruence|].
  destruct sf as [|f0 sf']; [apply Permutation_nil in Hsf; congruence|].
  simpl.
  destruct (groupRowsFrom_last f0 sf' sr' o0 []) as [H1 H2].
  - apply sameRow_not_sameLine, Hfront; [rewrite <- Hsf|rewrite <- Hsr]; now left.
  - intros o Ho. apply sameRow_not_sameLine, Hfront;
      [rewrite <- Hsf; now left | rewrite <- Hsr; now right].
  - intros f Hf'. apply sameRow_sameLine, Hrow; rewrite <- Hsf; [now right|now left].
  - exists (f0 :: sf'). auto.
Qed.

(** Rows are listed in the order of [y]: a desk of an earlier row is not in
    front of a desk of a later row. *)
Lemma groupRowsFrom_monotone rest : forall currentRow,
  StronglySorted (before compareY) (currentRow ++ rest) ->
  forall i j rowi rowj a b,
    (i < j)%nat ->
    groupRowsFrom currentRow rest !! i = Some rowi ->
    groupRowsFrom currentRow rest !! j = Some rowj ->
    a ∈ rowi -> b ∈ rowj -> (LO.y a <= LO.y b)%Q.
Proof.
  induction rest as [|d rest IH]; intros currentRow Hs i j rowi rowj a b Hij Hi Hj Ha Hb.
  - simpl in *. destruct j; [lia|]. simpl in Hj. now rewrite lookup_nil in Hj.
  - simpl in Hi, Hj. destruct currentRow as [|first currentRow'].
    + now apply (IH [d] Hs i j rowi rowj).
    + destruct (sameRow d first).
      * apply (IH ((first :: currentRow') ++ [d])) with i j rowi rowj; try assumption.
        now rewrite <- app_assoc.
      * destruct i as [|i].
        -- simpl in Hi. inversion Hi; subst rowi. destruct j as [|j]; [lia|]. simpl in Hj.
           rewrite sort_elem_of in Ha.
           assert (b ∈ d :: rest) as Hb'.
           { rewrite <- (groupRowsFrom_Permutation rest [d]). apply elem_of_concat.
             exists rowj. split; [|exact Hb]. apply list_elem_of_lookup. now exists j. }
           apply compareY_before.
           clear - Hs Ha Hb'.
           induction (first :: currentRow') as [|x l IHl]; [inversion Ha|].
           simpl in Hs. apply StronglySorted_inv in Hs as [Hs Hx].
           apply elem_of_cons in Ha as [->|Ha]; [|now apply IHl].
           rewrite Forall_forall in Hx. apply Hx. apply elem_of_app. now right.
        -- destruct j as [|j]; [lia|]. simpl in Hi, Hj.
           apply (IH [d]) with i j rowi rowj; try assumption; [|lia].
           clear - Hs. induction (first :: currentRow') as [|x l IHl]; [exact Hs|].
           simpl in Hs. apply StronglySorted_inv in Hs as [Hs _]. now apply IHl.
Qed.

Lemma groupRows_monotone objects i j rowi rowj a b :
  (i < j)%nat ->
  groupRows objects !! i = Some rowi -> groupRows objects !! j = Some rowj ->
  a ∈ rowi -> b ∈ rowj -> (LO.y a <= LO.y b)%Q.
Proof.
  unfold groupRows. pose proof (sortedByY_sorted objects) as Hs.
  destruct (sortedByY objects) as [|first rest]; [intros _ H; now rewrite lookup_nil in H|].
  now apply (groupRowsFrom_monotone rest [first]).
Qed.


Section Lines.
Variable objects : list LayoutObject.
Hypothesis objects_not_nil : objects <> [].
Hypothesis typeCodes : Forall (fun d => isTypeCode (LO.type d) = true) objects.

#[local] Abbreviation m := (convertObjectsToLayoutMatrix objects).

Lemma typeCodes_not_blank : Forall (fun d => LO.type d <> "--") objects.
Proof. eapply Forall_impl; [exact typeCodes|]. intros d. apply isTypeCode_ne_blank. Qed.

(** A desk of the [r]-th row of the grouping appears in text line [r]. *)
Lemma row_appearsInLine r row d :
  groupRows objects !! r = Some row -> d ∈ row -> appearsInLine m d r.
Proof.
  intros Hr Hd.
  destruct (convert_Placed objects objects_not_nil typeCodes_not_blank) as [P HP].
  pose proof HP as (_ & _ & _ & _ & Hrow & _).
  destruct (Hrow r row d Hr Hd) as [c Hc].
  destruct (Placed_lookup _ _ _ _ _ _ _ HP Hc) as [Hk Hcell].
  exists c. rewrite cellsOfText_matrix by assumption. auto.
Qed.

Lemma lines_length :
  length (JS.split JS.LF (matrix m)) = length (groupRows objects).
Proof.
  destruct (convert_Placed objects objects_not_nil typeCodes_not_blank) as [P HP].
  destruct HP as (Hlen & _). rewrite <- Hlen.
  rewrite <- (cellsOfText_matrix objects) by assumption.
  unfold cellsOfText. now rewrite length_map.
Qed.

(** With distinct ids, the line a desk appears in is its row. *)
Lemma appearsInLine_row d r :
  NoDup (map LO.id objects) -> d ∈ objects -> appearsInLine m d r ->
  exists row, groupRows objects !! r = Some row /\ d ∈ row.
Proof.
  destruct (convert_Placed objects objects_not_nil typeCodes_not_blank) as [P HP].
  intros Hnd Hd [c [_ Hk]].
  pose proof (groupRows_Permutation objects) as Hperm.
  pose proof HP as (_ & _ & _ & Hin & _ & _ & Hpm).
  apply Hpm in Hk as (r' & c' & d' & Hin' & E & Eid).
  apply positionKey_inj in E as [-> ->].
  assert (d = d') as <-.
  { apply (NoDup_map_inj LO.id objects); try assumption.
    now apply (Placed_desk _ _ _ _ _ _ _ _ HP Hperm Hin'). }
  now destruct (Hin r' c' d Hin') as (H & _).
Qed.

End Lines.

(** C1. The matrix text lists the rows back to front.  For desks with
    distinct ids and type codes over {0,1}: when a group [back] forms one
    physical row behind all other desks and a group [front] forms one
    physical row in front of all other desks, the matrix has at least two
    lines, every desk of [back] appears in the FIRST line and every desk of
    [front] in the LAST line; and in general a desk with a smaller [y] never
    appears in a later line than a desk with a larger [y]. *)
Theorem C1_rows_are_listed_back_to_front
    (objects back middle front : list LayoutObject) :
  Permutation objects (back ++ middle ++ front) ->
  back <> [] -> front <> [] ->
  NoDup (map LO.id objects) ->
  Forall (fun d => isTypeCode (LO.type d) = true) objects ->
  physicalRow back -> physicalRow front ->
  inFrontOf (middle ++ front) back -> inFrontOf front (back ++ middle) ->
  let m := convertObjectsToLayoutMatrix objects in
  let lines := JS.split JS.LF (matrix m) in
  (2 <= length lines)%nat /\
  (forall b, b ∈ back -> appearsInLine m b 0) /\
  (forall f, f ∈ front -> appearsInLine m f (length lines - 1)) /\
  (forall a b i j, a ∈ objects -> b ∈ objects ->
     appearsInLine m a i -> appearsInLine m b j ->
     (LO.y a < LO.y b)%Q -> (i <= j)%nat).
Proof.
  intros Hperm Hback Hfront Hnd Ht Hrb Hrf Hfb Hff m lines.
  assert (objects <> []) as Hne.
  { intros ->. apply Permutation_nil in Hperm. destruct back; [congruence|discriminate]. }
  destruct (groupRows_head objects back (middle ++ front) Hperm Hback Hrb Hfb)
    as (sb & rows' & Hrows & Hsb & _).
  assert (Permutation objects ((back ++ middle) ++ front)) as Hperm'
    by now rewrite <- app_assoc.
  destruct (groupRows_last objects (back ++ middle) front Hperm') as (sf & Hlast & Hsf & Hlen);
    try assumption.
  { destruct back; [congruence|discriminate]. }
  unfold lines, m. rewrite (lines_length objects Hne Ht).
  split; [exact Hlen|]. split; [|split].
  - intros b Hb. apply (row_appearsInLine objects Hne Ht 0 (JS.sort compareX sb)).
    + now rewrite Hrows.
    + rewrite sort_elem_of. now rewrite Hsb.
  - intros f Hf. apply (row_appearsInLine objects Hne Ht _ (JS.sort compareX sf)).
    + rewrite last_lookup in Hlast. now rewrite Nat.sub_1_r.
    + rewrite sort_elem_of. now rewrite Hsf.
  - intros a b i j Ha Hb Hai Hbj Hy.
    destruct (appearsInLine_row objects Hne Ht a i Hnd Ha Hai) as (rowi & Hi & Hai').
    destruct (appearsInLine_row objects Hne Ht b j Hnd Hb Hbj) as (rowj & Hj & Hbj').
    destruct (le_lt_dec i j) as [H|H]; [exact H|].
    pose proof (groupRows_monotone objects j i rowj rowi b a H Hj Hi Hbj' Hai'). lra.
Qed.


(** * The cells of a grid in reading order *)

Section GridCells.
Context {A : Type}.

Lemma elem_of_rowCellsFrom (row : list A) : forall r c r' c' a,
  (r', c', a) ∈ rowCellsFrom r c row <->
  r' = r /\ (c <= c')%nat /\ row !! (c' - c)%nat = Some a.
Proof.
  induction row as [|x row IH]; intros r c r' c' a; simpl.
  - split; [intros H; inversion H|]. intros (_ & _ & H). now rewrite lookup_nil in H.
  - rewrite elem_of_cons, IH. split.
    + intros [E|(-> & Hc & H)].
      * inversion E; subst. rewrite Nat.sub_diag. auto.
      * split; [reflexivity|]. split; [lia|].
        replace (c' - c)%nat with (S (c' - S c)) by lia. exact H.
    + intros (-> & Hc & H). destruct (decide (c' = c)) as [->|Hne].
      * left. rewrite Nat.sub_diag in H. simpl in H. now inversion H.
      * right. split; [reflexivity|]. split; [lia|].
        replace (c' - c)%nat with (S (c' - S c)) in H by lia. exact H.
Qed.

Lemma elem_of_gridCellsFrom (grid : list (list A)) : forall r r' c a,
  (r', c, a) ∈ gridCellsFrom r grid <->
  (r <= r')%nat /\ cellAt grid (r' - r) c = Some a.
Proof.
  induction grid as [|row grid IH]; intros r r' c a; simpl.
  - split; [intros H; inversion H|]. intros (_ & H). discriminate.
  - rewrite elem_of_app, elem_of_rowCellsFrom, IH. unfold cellAt. split.
    + intros [(-> & _ & H)|(Hr & H)].
      * rewrite Nat.sub_diag, Nat.sub_0_r in *. auto.
      * split; [lia|]. replace (r' - r)%nat with (S (r' - S r)) by lia. exact H.
    + intros (Hr & H). destruct (decide (r' = r)) as [->|Hne].
      * left. rewrite Nat.sub_diag in H. simpl in H. rewrite Nat.sub_0_r.
        split; [reflexivity|]. split; [lia|exact H].
      * right. split; [lia|].
        replace (r' - r)%nat with (S (r' - S r)) in H by lia. exact H.
Qed.

Lemma elem_of_gridCells (grid : list (list A)) r c a :
  (r, c, a) ∈ gridCells grid <-> cellAt grid r c = Some a.
Proof.
  unfold gridCells. rewrite elem_of_gridCellsFrom, Nat.sub_0_r. split; [tauto|].
  intros H. split; [lia|exact H].
Qed.

Lemma NoDup_rowCellsFrom (row : list A) r c : NoDup (rowCellsFrom r c row).
Proof.
  revert c. induction row as [|x row IH]; intros c; simpl; [constructor|].
  apply NoDup_cons. split; [|apply IH].
  intros H. apply elem_of_rowCellsFrom in H as (_ & H & _). lia.
Qed.

Lemma NoDup_gridCellsFrom (grid : list (list A)) r : NoDup (gridCellsFrom r grid).
Proof.
  revert r. induction grid as [|row grid IH]; intros r; simpl; [constructor|].
  apply NoDup_app. split; [apply NoDup_rowCellsFrom|]. split; [|apply IH].
  intros [[r' c'] a] H1 H2.
  apply elem_of_rowCellsFrom in H1 as (-> & _).
  apply elem_of_gridCellsFrom in H2 as (H2 & _). lia.
Qed.

Lemma NoDup_gridCells (grid : list (list A)) : NoDup (gridCells grid).
Proof. apply NoDup_gridCellsFrom. Qed.

Lemma rowCellsFrom_values (row : list A) r c : map snd (rowCellsFrom r c row) = row.
Proof. revert c. induction row as [|x row IH]; intros c; simpl; [reflexivity|]. now rewrite IH. Qed.

Lemma gridCellsFrom_values (grid : list (list A)) r :
  map snd (gridCellsFrom r grid) = concat grid.
Proof.
  revert r. induction grid as [|row grid IH]; intros r; simpl; [reflexivity|].
  now rewrite map_app, rowCellsFrom_values, IH.
Qed.

Lemma gridCells_values (grid : list (list A)) : map snd (gridCells grid) = concat grid.
Proof. apply gridCellsFrom_values. Qed.

(** A grid computed cell by cell. *)
Lemma imap_rowCellsFrom {B} (f : nat -> nat -> A -> B) (row : list A) r : forall c,
  imap (fun i a => f r (c + i)%nat a) row =
  map (fun p => f (fst (fst p)) (snd (fst p)) (snd p)) (rowCellsFrom r c row).
Proof.
  induction row as [|x row IH]; intros c; simpl; [reflexivity|].
  rewrite Nat.add_0_r. f_equal. rewrite <- IH. apply imap_ext.
  intros i a _. simpl. f_equal. lia.
Qed.

Lemma imap_gridCellsFrom {B} (f : nat -> nat -> A -> B) (grid : list (list A)) : forall r,
  concat (imap (fun i row => imap (fun j a => f (r + i)%nat j a) row) grid) =
  map (fun p => f (fst (fst p)) (snd (fst p)) (snd p)) (gridCellsFrom r grid).
Proof.
  induction grid as [|row grid IH]; intros r; simpl; [reflexivity|].
  rewrite map_app, <- IH, Nat.add_0_r. f_equal.
  - rewrite <- (imap_rowCellsFrom f row r 0). now apply imap_ext.
  - f_equal. apply imap_ext. intros i row' _. simpl. apply imap_ext.
    intros j a _. f_equal. lia.
Qed.

End GridCells.

Lemma filter_map_comm {A B} (f : A -> B) (p : B -> bool) (l : list A) :
  List.filter p (map f l) = map f (List.filter (fun x => p (f x)) l).
Proof.
  induction l as [|a l IH]; simpl; [reflexivity|].
  destruct (p (f a)); simpl; now rewrite IH.
Qed.

Lemma elem_of_list_filter {A} (p : A -> bool) (l : list A) x :
  x ∈ List.filter p l <-> x ∈ l /\ p x = true.
Proof. rewrite !list_elem_of_In. apply filter_In. Qed.

Lemma NoDup_list_filter {A} (p : A -> bool) (l : list A) :
  NoDup l -> NoDup (List.filter p l).
Proof.
  induction 1 as [|x l Hx Hl IH]; simpl; [constructor|].
  destruct (p x); [|exact IH]. constructor; [|exact IH].
  rewrite elem_of_list_filter. tauto.
Qed.

(** The cells that hold a desk are the places of the desks. *)
Lemma Placed_cells rows grid pm P :
  Placed rows grid pm P ->
  Permutation (List.filter holdsDesk (gridCells grid))
              (map (fun p => (fst p, LO.type (snd p))) P).
Proof.
  intros (_ & Hnd & _ & Hin & _ & Hcell & _).
  apply NoDup_Permutation.
  - apply NoDup_list_filter, NoDup_gridCells.
  - apply (NoDup_fmap_1 fst). unfold fmap, list_fmap.
    change (NoDup (map fst (map (fun p => (fst p, LO.type (snd p))) P))).
    now rewrite map_map.
  - intros [[r c] t]. rewrite elem_of_list_filter, elem_of_gridCells, list_elem_of_fmap.
    unfold holdsDesk. simpl. split.
    + intros [H Ht]. apply negb_true_iff, String.eqb_neq in Ht.
      destruct (Hcell r c t H Ht) as [d Hd].
      exists (r, c, d). split; [|exact Hd]. simpl.
      destruct (Hin r c d Hd) as (_ & E & _). congruence.
    + intros ([[r' c'] d] & E & Hd). simpl in E. inversion E; subst r' c' t.
      destruct (Hin r c d Hd) as (_ & Hc & Ht). split; [exact Hc|].
      now apply negb_true_iff, String.eqb_neq.
Qed.

(** The desk cells of the layout hold the type codes of the desks. *)
Lemma layout_desk_cells objects :
  Forall (fun d => LO.type d <> "--") objects ->
  Permutation
    (List.filter (fun t => negb (String.eqb t "--"))
                 (concat (layout (convertObjectsToLayoutMatrix objects))))
    (map LO.type objects).
Proof.
  intros Ht. destruct objects as [|d0 objects]; [reflexivity|].
  destruct (convert_Placed (d0 :: objects)) as [P HP]; [congruence|exact Ht|].
  rewrite <- gridCells_values, filter_map_comm.
  change (fun x : nat * nat * string => negb (String.eqb (snd x) "--")) with holdsDesk.
  rewrite (Placed_cells _ _ _ _ HP), map_map. simpl.
  rewrite <- (map_map snd LO.type).
  destruct HP as (_ & _ & -> & _). now rewrite groupRows_Permutation.
Qed.


(** * The numbered matrix *)

Lemma deskNumber_other l : forall i (m : gmap string nat) k,
  k ∉ map LO.id l ->
  JS.forEachFrom (fun m desk index => <[LO.id desk := (index + 1)%nat]> m) i l m !! k = m !! k.
Proof.
  induction l as [|a l IH]; intros i m k Hk; simpl; [reflexivity|].
  simpl in Hk. apply not_elem_of_cons in Hk as [Hka Hk].
  rewrite IH by exact Hk. now rewrite lookup_insert_ne.
Qed.

Lemma deskNumber_lookup l : forall i (m : gmap string nat) k d,
  NoDup (map LO.id l) -> l !! k = Some d ->
  JS.forEachFrom (fun m desk index => <[LO.id desk := (index + 1)%nat]> m) i l m !! LO.id d
  = Some (i + k + 1)%nat.
Proof.
  induction l as [|a l IH]; intros i m k d Hnd Hk; [now rewrite lookup_nil in Hk|].
  simpl in Hnd. apply NoDup_cons in Hnd as [Ha Hnd]. simpl.
  destruct k as [|k]; simpl in Hk.
  - inversion Hk; subst a. rewrite deskNumber_other by exact Ha.
    rewrite lookup_insert_eq. f_equal. lia.
  - rewrite (IH (S i) _ k d Hnd Hk). f_equal. lia.
Qed.

Lemma deskNumberMap_lookup objects k d :
  NoDup (map LO.id objects) -> uiSortedObjects objects !! k = Some d ->
  deskNumberMap objects !! LO.id d = Some (k + 1)%nat.
Proof.
  intros Hnd Hk. unfold deskNumberMap, JS.forEach.
  rewrite (deskNumber_lookup _ 0 ∅ k d); [reflexivity| |exact Hk].
  unfold uiSortedObjects. now rewrite sort_Permutation.
Qed.

Lemma cellAt_map {A B} (f : A -> B) (grid : list (list A)) r c :
  cellAt (map (map f) grid) r c = f <$> cellAt grid r c.
Proof.
  unfold cellAt. rewrite list_lookup_fmap.
  destruct (grid !! r) as [row|]; simpl; [|reflexivity]. apply list_lookup_fmap.
Qed.

Lemma cellAt_numberedGrid grid pm dnm r c :
  cellAt (numberedGrid grid pm dnm) r c = numberedCell pm dnm r c <$> cellAt grid r c.
Proof.
  unfold cellAt, numberedGrid. rewrite list_lookup_imap.
  destruct (grid !! r) as [row|]; simpl; [|reflexivity]. apply list_lookup_imap.
Qed.

Lemma numberedGrid_cells grid pm dnm :
  concat (numberedGrid grid pm dnm) =
  map (fun p => numberedCell pm dnm (fst (fst p)) (snd (fst p)) (snd p)) (gridCells grid).
Proof. exact (imap_gridCellsFrom (numberedCell pm dnm) grid 0). Qed.

Lemma spaces_clean n : cleanCell (JS.spaces n) = true.
Proof. induction n as [|n IH]; [reflexivity|]. exact IH. Qed.

Lemma cleanCell_app s t : cleanCell s = true -> cleanCell t = true -> cleanCell (s +:+ t) = true.
Proof.
  rewrite !cleanCell_spec, !includes_app. intros [-> ->] [-> ->]. auto.
Qed.

Lemma padEnd_clean n s : cleanCell s = true -> cleanCell (JS.padEnd n s) = true.
Proof. intros H. unfold JS.padEnd. apply cleanCell_app; [exact H|apply spaces_clean]. Qed.

Lemma label_clean n : cleanCell ("L" +:+ JS.string_of_nat n) = true.
Proof.
  apply cleanCell_spec. simpl.
  split; apply allDigits_excludes; try reflexivity; apply string_of_nat_digits.
Qed.

Lemma numberedCell_clean pm dnm r c t : cleanCell (numberedCell pm dnm r c t) = true.
Proof.
  unfold numberedCell.
  destruct (negb (String.eqb t "--")); [|reflexivity].
  destruct (pm !! positionKey r c) as [deskId|]; [|reflexivity].
  destruct (negb (String.eqb deskId "")); [|reflexivity].
  destruct (dnm !! deskId); [apply label_clean|reflexivity].
Qed.

Lemma labelText_not_blank n : String.eqb (labelText n) blankText = false.
Proof. reflexivity. Qed.

Lemma map_seq_lookup {A B} (f : A -> B) (g : nat -> B) (l : list A) : forall i,
  (forall k d, l !! k = Some d -> f d = g (i + k)%nat) ->
  map f l = map g (seq i (length l)).
Proof.
  induction l as [|a l IH]; intros i H; simpl; [reflexivity|].
  rewrite (H 0%nat a eq_refl), Nat.add_0_r. f_equal.
  apply IH. intros k d Hk. rewrite (H (S k) d Hk). f_equal. lia.
Qed.

Lemma uiCompare_total a b : before uiCompare a b \/ before uiCompare b a.
Proof.
  unfold before, uiCompare.
  assert (Qabs (LO.y b - LO.y a) == Qabs (LO.y a - LO.y b))%Q as E.
  { rewrite <- (Qabs_opp (LO.y a - LO.y b)). apply Qabs_wd. ring. }
  destruct (JS.Qlt_bool (DESK_HEIGHT_UNITS / 2) (Qabs (LO.y a - LO.y b))) eqn:E1;
  destruct (JS.Qlt_bool (DESK_HEIGHT_UNITS / 2) (Qabs (LO.y b - LO.y a))) eqn:E2;
  try (apply Qlt_bool_iff in E1); try (apply Qlt_bool_iff in E2);
  try (apply Qlt_bool_false_iff in E1); try (apply Qlt_bool_false_iff in E2);
  try lra.
Qed.

Section Numbered.
Variable objects : list LayoutObject.
Hypothesis objects_not_nil : objects <> [].
Hypothesis distinct_ids : NoDup (map LO.id objects).
Hypothesis ids_not_empty : Forall (fun d => LO.id d <> "") objects.
Hypothesis types_not_blank : Forall (fun d => LO.type d <> "--") objects.

#[local] Abbreviation m := (convertObjectsToLayoutMatrix objects).
#[local] Abbreviation N :=
  (numberedGrid (layout m) (positionMap m) (deskNumberMap objects)).

Lemma numberedMatrix_eq : numberedMatrix m = serializeGrid (map (map (JS.padEnd 5)) N).
Proof. now rewrite convert_eq. Qed.

Lemma numbered_cells : cellsOfText (numberedMatrix m) = map (map (JS.padEnd 5)) N.
Proof.
  rewrite numberedMatrix_eq. apply cellsOfText_serializeGrid.
  - intros E. apply (f_equal length) in E. rewrite length_map in E.
    unfold numberedGrid in E. rewrite length_imap in E. simpl in E.
    destruct (convert_Placed objects objects_not_nil types_not_blank) as [P (Hlen & _)].
    pose proof (groupRows_not_nil objects objects_not_nil).
    destruct (groupRows objects); simpl in *; [congruence|lia].
  - apply Forall_forall. intros row Hrow.
    apply list_elem_of_fmap in Hrow as (row0 & -> & Hrow0).
    unfold numberedGrid in Hrow0. apply list_elem_of_lookup in Hrow0 as [r Hr].
    rewrite list_lookup_imap in Hr.
    destruct (layout m !! r) as [lrow|] eqn:El; [|discriminate].
    simpl in Hr. inversion Hr; subst row0. split.
    + intros E. apply (f_equal length) in E. rewrite length_map, length_imap in E.
      destruct (convert_layout_rectangular objects lrow) as [_ H].
      * apply list_elem_of_lookup. now exists r.
      * simpl in E. lia.
    + apply Forall_forall. intros s Hs.
      apply list_elem_of_fmap in Hs as (s0 & -> & Hs0).
      apply list_elem_of_lookup in Hs0 as [c Hc]. rewrite list_lookup_imap in Hc.
      destruct (lrow !! c); [|discriminate]. simpl in Hc. inversion Hc.
      apply padEnd_clean, numberedCell_clean.
Qed.

(** The numbered cell of a desk holds the label of its place in the UI
    order. *)
Lemma numberedCell_desk d k r c :
  uiSortedObjects objects !! k = Some d ->
  positionMap m !! positionKey r c = Some (LO.id d) ->
  JS.padEnd 5 (numberedCell (positionMap m) (deskNumberMap objects) r c (LO.type d))
  = labelText (k + 1).
Proof.
  intros Hk Hpm.
  assert (d ∈ objects) as Hd.
  { rewrite <- (sort_Permutation uiCompare objects). apply list_elem_of_lookup. now exists k. }
  unfold numberedCell. rewrite Forall_forall in types_not_blank, ids_not_empty.
  rewrite (proj2 (String.eqb_neq _ _) (types_not_blank d Hd)). simpl.
  rewrite Hpm. rewrite (proj2 (String.eqb_neq _ _) (ids_not_empty d Hd)). simpl.
  now rewrite (deskNumberMap_lookup objects k d distinct_ids Hk).
Qed.

Lemma ui_index d : d ∈ objects -> exists k, uiSortedObjects objects !! k = Some d.
Proof.
  intros Hd. apply list_elem_of_lookup. unfold uiSortedObjects. now rewrite sort_Permutation.
Qed.

Lemma numbered_labels :
  Permutation
    (List.filter (fun s => negb (String.eqb s blankText))
                 (concat (cellsOfText (numberedMatrix m))))
    (map labelText (seq 1 (length objects))).
Proof.
  destruct (convert_Placed objects objects_not_nil types_not_blank) as [P HP].
  pose proof (groupRows_Permutation objects) as Hperm.
  rewrite numbered_cells, <- concat_map, numberedGrid_cells, map_map, filter_map_comm.
  set (F := fun p : nat * nat * string =>
              JS.padEnd 5 (numberedCell (positionMap m) (deskNumberMap objects)
                             (fst (fst p)) (snd (fst p)) (snd p))).
  rewrite (List.filter_ext_in _ holdsDesk).
  2: { intros [[r c] t] Hin. apply list_elem_of_In, elem_of_gridCells in Hin.
       unfold holdsDesk, F. simpl.
       destruct (String.eqb_spec t "--") as [->|Hne]; [reflexivity|]. simpl.
       pose proof HP as (_ & _ & _ & HinP & _ & Hcell & _).
       destruct (Hcell r c t Hin Hne) as [d Hd].
       destruct (Placed_lookup _ _ _ _ _ _ _ HP Hd) as [Hk Hc].
       assert (t = LO.type d) as -> by congruence.
       destruct (ui_index d (Placed_desk _ _ _ _ _ _ _ _ HP Hperm Hd)) as [k Hui].
       rewrite (numberedCell_desk d k r c Hui Hk). now rewrite labelText_not_blank. }
  rewrite (Placed_cells _ _ _ _ HP), map_map.
  set (label := fun d => labelText (default 0%nat (deskNumberMap objects !! LO.id d))).
  rewrite (map_ext_in _ (fun p => label (snd p))).
  2: { intros [[r c] d] Hin. apply list_elem_of_In in Hin. unfold F, label. simpl.
       destruct (Placed_lookup _ _ _ _ _ _ _ HP Hin) as [Hk Hc].
       destruct (ui_index d (Placed_desk _ _ _ _ _ _ _ _ HP Hperm Hin)) as [k Hui].
       rewrite (numberedCell_desk d k r c Hui Hk).
       now rewrite (deskNumberMap_lookup objects k d distinct_ids Hui). }
  rewrite <- (map_map snd label).
  destruct HP as (_ & _ & -> & _).
  rewrite Hperm, <- (sort_Permutation uiCompare objects).
  fold (uiSortedObjects objects).
  rewrite (map_seq_lookup label labelText (uiSortedObjects objects) 1).
  - unfold uiSortedObjects. now rewrite sort_length.
  - intros k d Hk. unfold label.
    rewrite (deskNumberMap_lookup objects k d distinct_ids Hk). simpl. f_equal. lia.
Qed.

Lemma numbered_reading_order k d :
  uiSortedObjects objects !! k = Some d ->
  exists r c,
    positionMap m !! positionKey r c = Some (LO.id d) /\
    cellAt (cellsOfText (numberedMatrix m)) r c = Some (labelText (k + 1)).
Proof.
  destruct (convert_Placed objects objects_not_nil types_not_blank) as [P HP].
  intros Hk.
  pose proof (groupRows_Permutation objects) as Hperm.
  assert (d ∈ objects) as Hd.
  { rewrite <- (sort_Permutation uiCompare objects). apply list_elem_of_lookup. now exists k. }
  destruct (Placed_elem_of _ _ _ _ _ _ HP Hperm Hd) as (r & c & Hin).
  destruct (Placed_lookup _ _ _ _ _ _ _ HP Hin) as [Hpm Hc].
  exists r, c. split; [exact Hpm|].
  rewrite numbered_cells, cellAt_map, cellAt_numberedGrid, Hc. simpl.
  now rewrite (numberedCell_desk d k r c Hk Hpm).
Qed.

End Numbered.


(** * Validation before the call *)

Lemma convert_nil_layout : layout (convertObjectsToLayoutMatrix []) = [].
Proof. reflexivity. Qed.

(** A layout with desks whose type codes are non-empty strings over {0,1}
    passes the emptiness test. *)
Lemma matrix_not_empty objects :
  objects <> [] ->
  Forall (fun d => isTypeCode (LO.type d) = true /\ LO.type d <> "") objects ->
  String.eqb (matrix (convertObjectsToLayoutMatrix objects)) "" ||
  Nat.eqb (length (layout (convertObjectsToLayoutMatrix objects))) 0 = false.
Proof.
  intros Hne Ht.
  assert (Forall (fun d => isTypeCode (LO.type d) = true) objects) as Ht1
    by (eapply Forall_impl; [exact Ht|]; now intros d [H _]).
  assert (Forall (fun d => LO.type d <> "--") objects) as Ht2
    by (eapply Forall_impl; [exact Ht1|]; intros d; apply isTypeCode_ne_blank).
  destruct (convert_Placed objects Hne Ht2) as [P HP].
  pose proof (groupRows_Permutation objects) as Hperm.
  pose proof (cellsOfText_matrix objects Hne Ht1) as Hcells.
  destruct objects as [|d0 objects']; [congruence|].
  destruct (Placed_elem_of _ _ _ _ _ d0 HP Hperm) as (r & c & Hin); [now left|].
  destruct (Placed_lookup _ _ _ _ _ _ _ HP Hin) as [_ Hc].
  apply orb_false_iff. split.
  - apply String.eqb_neq. intros E. rewrite E in Hcells.
    rewrite <- Hcells in Hc. unfold cellsOfText in Hc. simpl in Hc.
    destruct r as [|r]; [|discriminate]. destruct c as [|c]; [|discriminate].
    simpl in Hc. rewrite Forall_forall in Ht.
    destruct (Ht d0 (list_elem_of_here _ _)) as [_ H].
    apply H. unfold cellAt in Hc. simpl in Hc. now inversion Hc.
  - apply Nat.eqb_neq. intros E. apply cellAt_lt in Hc. lia.
Qed.

Lemma handleGenerateClick_empty_layout st :
  App.layoutObjects st = [] ->
  App.handleGenerateClick st = App.Returned (refused st App.EMPTY_LAYOUT).
Proof. intros H. unfold App.handleGenerateClick, refused. rewrite H. reflexivity. Qed.

(** In generation mode the handler returns with one of the three messages,
    without a call, as soon as the layout is empty, the roster is empty or
    the roster exceeds the seats. *)
Lemma handleGenerateClick_refuses st :
  App.finalArrangement st = None ->
  let roster := App.studentListOf (App.students st) in
  let seats := App.availableSeats (App.layoutObjects st) in
  App.layoutObjects st = [] \/ roster = [] \/ (seats < Z.of_nat (length roster))%Z ->
  exists message,
    App.handleGenerateClick st = App.Returned (refused st message) /\
    (message = App.EMPTY_LAYOUT \/ message = App.EMPTY_ROSTER \/
     message = App.insufficientSeats (length roster) seats) /\
    (Forall (fun d => isTypeCode (LO.type d) = true /\ LO.type d <> "")
            (App.layoutObjects st) ->
     message =
       match App.layoutObjects st, roster with
       | [], _ => App.EMPTY_LAYOUT
       | _, [] => App.EMPTY_ROSTER
       | _, _ => App.insufficientSeats (length roster) seats
       end).
Proof.
  intros Hgen roster seats Hcase.
  unfold App.handleGenerateClick. rewrite Hgen. fold roster. fold seats.
  destruct (String.eqb (matrix (convertObjectsToLayoutMatrix (App.layoutObjects st))) "" ||
            Nat.eqb (length (layout (convertObjectsToLayoutMatrix (App.layoutObjects st)))) 0)
    eqn:Eempty.
  { exists App.EMPTY_LAYOUT. unfold refused. rewrite Hgen.
    split; [reflexivity|]. split; [now left|].
    intros Ht. destruct (App.layoutObjects st) as [|d0 l] eqn:El; [reflexivity|].
    rewrite matrix_not_empty in Eempty; [discriminate|congruence|exact Ht]. }
  assert (App.layoutObjects st <> []) as Hne.
  { intros E. rewrite E in Eempty. discriminate. }
  destruct roster as [|s roster'] eqn:Er.
  { exists App.EMPTY_ROSTER. unfold refused. rewrite Hgen. simpl.
    split; [reflexivity|]. split; [auto|].
    intros _. now destruct (App.layoutObjects st). }
  destruct Hcase as [H|[H|H]]; [contradiction|discriminate|].
  apply Z.ltb_lt in H. rewrite H.
  exists (App.insufficientSeats (length (s :: roster')) seats). unfold refused. rewrite Hgen.
  split; [reflexivity|]. split; [auto|].
  intros _. now destruct (App.layoutObjects st).
Qed.

(** With a layout of desks whose type codes are non-empty strings over
    {0,1}, a generation request without a roster is refused for the roster,
    and one with more names than seats for the seats. *)
Lemma handleGenerateClick_roster st :
  App.finalArrangement st = None ->
  App.layoutObjects st <> [] ->
  Forall (fun d => isTypeCode (LO.type d) = true /\ LO.type d <> "") (App.layoutObjects st) ->
  let roster := App.studentListOf (App.students st) in
  let seats := App.availableSeats (App.layoutObjects st) in
  (roster = [] ->
   App.handleGenerateClick st = App.Returned (refused st App.EMPTY_ROSTER)) /\
  (roster <> [] -> (seats < Z.of_nat (length roster))%Z ->
   App.handleGenerateClick st =
     App.Returned (refused st (App.insufficientSeats (length roster) seats))).
Proof.
  intros Hgen Hne Ht roster seats.
  assert (forall case : App.layoutObjects st = [] \/ roster = [] \/
                        (seats < Z.of_nat (length roster))%Z,
            exists message,
              App.handleGenerateClick st = App.Returned (refused st message) /\
              message = match App.layoutObjects st, roster with
                        | [], _ => App.EMPTY_LAYOUT
                        | _, [] => App.EMPTY_ROSTER
                        | _, _ => App.insufficientSeats (length roster) seats
                        end) as H.
  { intros Hcase.
    destruct (handleGenerateClick_refuses st Hgen Hcase) as (message & H1 & _ & H3).
    exists message. split; [exact H1|exact (H3 Ht)]. }
  split.
  - intros Hr. destruct (H (or_intror (or_introl Hr))) as (message & H1 & ->).
    rewrite H1. destruct (App.layoutObjects st); [congruence|]. fold roster. now rewrite Hr.
  - intros Hr Hlt. destruct (H (or_intror (or_intror Hlt))) as (message & H1 & ->).
    rewrite H1. destruct (App.layoutObjects st); [congruence|].
    destruct roster; [congruence|reflexivity].
Qed.

(** C6. [handleGenerateClick] refuses a request before any call of
    [generateSeatingArrangement]: the run is a plain return, which leaves the
    message of the case in [error], clears [isLoading] and the raw chart and
    keeps the rest of the state.  An empty layout is refused with
    "Rozložení lavic je prázdné. Přidejte lavice v editoru." whether an
    arrangement is on display or not.  A generation request (no arrangement
    on display) is refused with one of the three messages as soon as the
    layout is empty, the roster is empty or the roster exceeds the available
    seats; with a layout of desks whose type codes are non-empty strings over
    {0,1} the message is "Seznam žáků je prázdný." for an empty roster and
    "Nedostatek míst. Počet žáků (n) přesahuje počet dostupných míst (s)."
    for n names and s seats otherwise.  The three messages differ from each
    other.  The layout ["1"] with a roster of two names is refused for 2
    names and 1 seat. *)
Theorem C6_generation_request_refused_locally (st : App.State) :
  let roster := App.studentListOf (App.students st) in
  let seats := App.availableSeats (App.layoutObjects st) in
  let emptyLayout := "Rozložení lavic je prázdné. Přidejte lavice v editoru." in
  let emptyRoster := "Seznam žáků je prázdný." in
  let insufficientSeats (n : nat) (s : Z) :=
    "Nedostatek míst. Počet žáků (" +:+ JS.string_of_nat n +:+
    ") přesahuje počet dostupných míst (" +:+ JS.string_of_Z s +:+ ")." in
  (App.layoutObjects st = [] ->
   App.handleGenerateClick st = App.Returned (refused st emptyLayout)) /\
  (App.finalArrangement st = None ->
   App.layoutObjects st = [] \/ roster = [] \/ (seats < Z.of_nat (length roster))%Z ->
   exists message,
     App.handleGenerateClick st = App.Returned (refused st message) /\
     (message = emptyLayout \/ message = emptyRoster \/
      message = insufficientSeats (length roster) seats)) /\
  (App.finalArrangement st = None ->
   App.layoutObjects st <> [] ->
   Forall (fun d => isTypeCode (LO.type d) = true /\ LO.type d <> "")
          (App.layoutObjects st) ->
   (roster = [] ->
    App.handleGenerateClick st = App.Returned (refused st emptyRoster)) /\
   (roster <> [] -> (seats < Z.of_nat (length roster))%Z ->
    App.handleGenerateClick st =
      App.Returned (refused st (insufficientSeats (length roster) seats)))) /\
  (forall message,
     App.error (refused st message) = Some (JS.Str message) /\
     App.isLoading (refused st message) = false /\
     App.seatingChart (refused st message) = None /\
     App.layoutObjects (refused st message) = App.layoutObjects st /\
     App.students (refused st message) = App.students st /\
     App.conditions (refused st message) = App.conditions st /\
     App.finalArrangement (refused st message) = App.finalArrangement st) /\
  (emptyLayout <> emptyRoster /\
   forall n s, insufficientSeats n s <> emptyLayout /\ insufficientSeats n s <> emptyRoster) /\
  App.handleGenerateClick oneSeatRequest =
    App.Returned
      (refused oneSeatRequest
         "Nedostatek míst. Počet žáků (2) přesahuje počet dostupných míst (1).").
Proof.
  intros roster seats emptyLayout emptyRoster insufficientSeats.
  split; [|split; [|split; [|split; [|split]]]].
  - exact (handleGenerateClick_empty_layout st).
  - intros Hgen Hcase.
    destruct (handleGenerateClick_refuses st Hgen Hcase) as (message & H1 & H2 & _).
    exists message. split; [exact H1|exact H2].
  - intros Hgen Hne Ht. exact (handleGenerateClick_roster st Hgen Hne Ht).
  - intros message. repeat split.
  - split; [discriminate|]. intros n s. split; discriminate.
  - vm_compute. reflexivity.
Qed.


(** * Applying a seating result *)

Lemma applyCells_rowCellsFrom pm r cells : forall c populated,
  JS.forEachFrom (App.applyCell pm r) c cells populated =
  fold_left (applyAt pm) (rowCellsFrom r c cells) populated.
Proof.
  induction cells as [|v cells IH]; intros c populated; simpl; [reflexivity|].
  now rewrite IH.
Qed.

Lemma applyRows_gridCellsFrom pm rows : forall r populated,
  JS.forEachFrom (App.applyRow pm) r (map JS.Arr rows) (JS.Normal populated) =
  JS.Normal (fold_left (applyAt pm) (gridCellsFrom r rows) populated).
Proof.
  induction rows as [|row rows IH]; intros r populated; simpl; [reflexivity|].
  unfold JS.forEach. rewrite applyCells_rowCellsFrom, IH. now rewrite fold_left_app.
Qed.

Lemma withStudents_id o students : LO.id (App.withStudents o students) = LO.id o.
Proof. reflexivity. Qed.

Lemma withStudents_twice o s1 s2 :
  App.withStudents (App.withStudents o s1) s2 = App.withStudents o s2.
Proof. reflexivity. Qed.

(** With distinct ids the first object with an id is the only one. *)
Lemma setStudents_map oid students populated :
  NoDup (map LO.id populated) ->
  App.setStudents oid students populated =
  map (fun o => if String.eqb (LO.id o) oid then App.withStudents o students else o)
      populated.
Proof.
  induction populated as [|o l IH]; intros Hnd; simpl; [reflexivity|].
  simpl in Hnd. apply NoDup_cons in Hnd as [Ho Hnd].
  destruct (String.eqb_spec (LO.id o) oid) as [E|NE].
  - f_equal. rewrite <- (map_id l) at 1. apply map_ext_in. intros o' Ho'.
    destruct (String.eqb_spec (LO.id o') oid) as [E'|]; [|reflexivity].
    exfalso. apply Ho. rewrite E, <- E'. apply list_elem_of_fmap. exists o'.
    split; [reflexivity|now apply list_elem_of_In].
  - f_equal. now apply IH.
Qed.

Lemma seatAt_id pm o cell : LO.id (seatAt pm o cell) = LO.id o.
Proof.
  unfold seatAt. destruct (snd cell); try reflexivity.
  destruct (pm !! _); [|reflexivity]. now destruct (_ && _).
Qed.

Lemma applyAt_map pm populated cell :
  NoDup (map LO.id populated) ->
  applyAt pm populated cell = map (fun o => seatAt pm o cell) populated.
Proof.
  intros Hnd. unfold applyAt, App.applyCell, seatAt.
  destruct cell as [[r c] v]. simpl.
  assert (populated = map (fun o : LayoutObject => o) populated) as Hid
    by now rewrite map_id.
  destruct v as [| b | q | s | seats | fields]; simpl;
    repeat match goal with
           | |- context [if ?b then _ else _] => destruct b
           | |- context [match ?x with Some _ => _ | None => _ end] => destruct x
           end; simpl; try exact Hid.
  now apply setStudents_map.
Qed.

Lemma fold_applyAt pm cells : forall populated,
  NoDup (map LO.id populated) ->
  fold_left (applyAt pm) cells populated =
  map (fun o => fold_left (seatAt pm) cells o) populated.
Proof.
  induction cells as [|cell cells IH]; intros populated Hnd; simpl.
  - now rewrite map_id.
  - rewrite applyAt_map by exact Hnd. rewrite IH.
    + now rewrite map_map.
    + rewrite map_map. erewrite map_ext; [exact Hnd|]. intros o. apply seatAt_id.
Qed.

Lemma seatAt_seats pm o cell students :
  LO.id o <> "" -> seats pm o cell students ->
  seatAt pm o cell = App.withStudents o (map App.seatName students).
Proof.
  intros Hid [Hv Hk]. unfold seatAt. rewrite Hv, Hk.
  rewrite (proj2 (String.eqb_neq _ _) Hid), String.eqb_refl. reflexivity.
Qed.

Lemma seatAt_other pm o cell :
  (forall students, ~ seats pm o cell students) -> seatAt pm o cell = o.
Proof.
  intros H. unfold seatAt. destruct (snd cell) as [| | | |students|] eqn:Ev; try reflexivity.
  destruct (pm !! _) as [oid|] eqn:Ek; [|reflexivity].
  destruct (String.eqb_spec (LO.id o) oid) as [E|NE]; [|now rewrite andb_false_r].
  exfalso. apply (H students). split; [exact Ev|]. now rewrite Ek, E.
Qed.

Lemma fold_seatAt_other pm cells : forall o,
  (forall cell students, cell ∈ cells -> ~ seats pm o cell students) ->
  fold_left (seatAt pm) cells o = o.
Proof.
  induction cells as [|cell cells IH]; intros o H; simpl; [reflexivity|].
  rewrite seatAt_other by (intros s; apply H; now left).
  apply IH. intros c s Hc. apply H. now right.
Qed.

Lemma seats_withStudents pm o s cell students :
  seats pm (App.withStudents o s) cell students <-> seats pm o cell students.
Proof. reflexivity. Qed.

Lemma seatAt_cases pm o cell :
  LO.id o <> "" ->
  (exists s, seats pm o cell s /\
             seatAt pm o cell = App.withStudents o (map App.seatName s)) \/
  ((forall s, ~ seats pm o cell s) /\ seatAt pm o cell = o).
Proof.
  intros Hid. unfold seats, seatAt.
  destruct (snd cell) as [|b|q|str|students|fields];
    try (right; split; [intros s [H _]; discriminate|reflexivity]).
  destruct (pm !! _) as [oid|]; [|right; split; [intros s [_ H]; discriminate|reflexivity]].
  destruct (String.eqb_spec (LO.id o) oid) as [E|NE].
  - left. exists students. subst oid. rewrite (proj2 (String.eqb_neq _ _) Hid). auto.
  - right. rewrite andb_false_r. split; [|reflexivity]. intros s [_ H]. congruence.
Qed.

(** The object gets the seat list of the one cell that seats it, or the empty
    list when no cell does. *)
Lemma fold_seatAt_spec pm d cells :
  LO.id d <> "" ->
  exists students,
    fold_left (seatAt pm) cells (App.withStudents d []) = App.withStudents d students /\
    (forall cell s, cell ∈ cells -> seats pm d cell s ->
       (forall cell' s', cell' ∈ cells -> seats pm d cell' s' -> cell' = cell) ->
       students = map App.seatName s) /\
    ((forall cell s, cell ∈ cells -> ~ seats pm d cell s) -> students = []).
Proof.
  intros Hid. induction cells as [|x cells IH] using rev_ind.
  - exists []. split; [reflexivity|]. split; [|reflexivity]. intros cell s H. inversion H.
  - destruct IH as (students0 & Hfold & Hone & Hnone).
    rewrite fold_left_app. simpl. rewrite Hfold.
    destruct (seatAt_cases pm (App.withStudents d students0) x Hid)
      as [(s & Hs & E)|[Hno E]]; rewrite E.
    + exists (map App.seatName s). split; [reflexivity|]. split.
      * intros cell s' Hin Hseat Huniq.
        assert (x = cell) as <-.
        { apply (Huniq x s); [apply elem_of_app; right; now left|exact Hs]. }
        destruct Hs as [Hv _], Hseat as [Hv' _]. congruence.
      * intros H. exfalso. apply (H x s); [apply elem_of_app; right; now left|exact Hs].
    + exists students0. split; [reflexivity|]. split.
      * intros cell s Hin Hseat Huniq. apply elem_of_app in Hin as [Hin|Hin].
        -- apply (Hone cell s Hin Hseat). intros cell' s' Hin' Hseat'.
           apply (Huniq cell' s'); [apply elem_of_app; now left|exact Hseat'].
        -- apply list_elem_of_singleton in Hin. subst cell. now destruct (Hno s).
      * intros H. apply Hnone. intros cell s Hin. apply H. apply elem_of_app. now left.
Qed.

(** The projection, for a position map that gives each id one key at most. *)
Lemma applySeating_spec objects pm rows :
  NoDup (map LO.id objects) ->
  Forall (fun d => LO.id d <> "") objects ->
  (forall d k1 k2, d ∈ objects ->
     pm !! k1 = Some (LO.id d) -> pm !! k2 = Some (LO.id d) -> k1 = k2) ->
  exists populated,
    App.applySeating objects pm (map JS.Arr rows) = JS.Normal populated /\
    length populated = length objects /\
    forall i d, objects !! i = Some d ->
      exists students,
        populated !! i = Some (App.withStudents d students) /\
        (forall r c s, cellAt rows r c = Some (JS.Arr s) ->
           pm !! positionKey r c = Some (LO.id d) ->
           students = map App.seatName s) /\
        ((forall r c s, cellAt rows r c = Some (JS.Arr s) ->
            pm !! positionKey r c <> Some (LO.id d)) ->
         students = []).
Proof.
  intros Hnd Hid Hinj.
  unfold App.applySeating, JS.forEach. rewrite applyRows_gridCellsFrom.
  fold (gridCells rows).
  rewrite fold_applyAt.
  2: { rewrite map_map. erewrite map_ext; [exact Hnd|]. reflexivity. }
  rewrite map_map. eexists. split; [reflexivity|]. split; [now rewrite length_map|].
  intros i d Hi.
  assert (d ∈ objects) as Hd by (apply list_elem_of_lookup; now exists i).
  rewrite Forall_forall in Hid.
  destruct (fold_seatAt_spec pm d (gridCells rows) (Hid d Hd)) as (students & Hfold & Hone & Hnone).
  exists students. split; [|split].
  - rewrite list_lookup_fmap, Hi. simpl. now rewrite Hfold.
  - intros r c s Hcell Hk.
    apply (Hone (r, c, JS.Arr s) s).
    + now apply elem_of_gridCells.
    + split; [reflexivity|exact Hk].
    + intros [[r' c'] v'] s' Hin' [Hv' Hk']. simpl in *. subst v'.
      pose proof (Hinj d _ _ Hd Hk Hk') as E.
      apply positionKey_inj in E as [-> ->].
      apply elem_of_gridCells in Hin'. rewrite Hcell in Hin'. now inversion Hin'.
  - intros H. apply Hnone. intros [[r c] v] s Hin [Hv Hk]. simpl in *. subst v.
    apply elem_of_gridCells in Hin. now apply (H r c s Hin).
Qed.

(** C8. Applying a seating result is a projection.  For desks with distinct
    non-empty ids and type codes other than ["--"], and a seating matrix
    whose rows are arrays: every desk keeps its place in the list and all its
    fields but [students], which becomes a list; when a cell [(row, col)] of
    the matrix holds a seat list and the position map gives the desk's id for
    ["row-col"], [students] is that seat list with every string kept and
    every other entry turned into [null]; when no such cell refers to the
    desk, [students] is the empty list.  In the one-desk ["11"] scenario with
    the reply [{seating: [[["Alice","Bob"]]], error: null}] the desk's
    students become [["Alice","Bob"]]. *)
Theorem C8_seating_result_is_projected
    (objects : list LayoutObject) (rows : list (list JS.Value)) :
  NoDup (map LO.id objects) ->
  Forall (fun d => LO.id d <> "") objects ->
  Forall (fun d => LO.type d <> "--") objects ->
  let pm := positionMap (convertObjectsToLayoutMatrix objects) in
  (exists populated,
    App.applySeating objects pm (map JS.Arr rows) = JS.Normal populated /\
    length populated = length objects /\
    forall i d, objects !! i = Some d ->
      exists d' students,
        populated !! i = Some d' /\
        LO.students d' = Some students /\
        LO.id d' = LO.id d /\ LO.type d' = LO.type d /\
        LO.x d' = LO.x d /\ LO.y d' = LO.y d /\
        LO.width d' = LO.width d /\ LO.height d' = LO.height d /\
        LO.rotation d' = LO.rotation d /\
        LO.userBlockedSeats d' = LO.userBlockedSeats d /\
        (forall r c s, cellAt rows r c = Some (JS.Arr s) ->
           pm !! positionKey r c = Some (LO.id d) ->
           students = map (fun seat => match seat with
                                       | JS.Str name => Some name
                                       | _ => None
                                       end) s) /\
        ((forall r c s, cellAt rows r c = Some (JS.Arr s) ->
            pm !! positionKey r c <> Some (LO.id d)) ->
         students = [])) /\
  (let desk := LO.mk "desk-1" "11" 0 0 8 4 (Some 0%Q) None (Some []) in
   let st := {| App.layoutObjects := [desk];
                App.students := "Alice" +:+ String JS.LF "Bob";
                App.conditions := ""; App.seatingChart := None;
                App.finalArrangement := None; App.isLoading := false;
                App.error := None |} in
   exists request resume st',
     App.handleGenerateClick st = App.Awaits request resume /\
     resume {| Service.seating := Some [JS.Arr [JS.Arr [JS.Str "Alice"; JS.Str "Bob"]]];
               Service.error := None |} = JS.Normal st' /\
     App.finalArrangement st' =
       Some [LO.mk "desk-1" "11" 0 0 8 4 (Some 0%Q)
                   (Some [Some "Alice"; Some "Bob"]) (Some [])]).
Proof.
  intros Hnd Hid Ht pm. split.
  - destruct (applySeating_spec objects pm rows Hnd Hid) as (populated & H1 & H2 & H3).
    { intros d k1 k2 Hd H1 H2.
      destruct objects as [|d0 objects']; [inversion Hd|].
      destruct (convert_Placed (d0 :: objects')) as [P HP]; [congruence|exact Ht|].
      pose proof (groupRows_Permutation (d0 :: objects')) as Hperm.
      destruct (Placed_elem_of _ _ _ _ _ _ HP Hperm Hd) as (r & c & Hin).
      rewrite (Placed_key_unique _ _ _ _ _ _ _ _ k1 HP Hperm Hnd Hin H1).
      now rewrite (Placed_key_unique _ _ _ _ _ _ _ _ k2 HP Hperm Hnd Hin H2). }
    exists populated. split; [exact H1|]. split; [exact H2|].
    intros i d Hi. destruct (H3 i d Hi) as (students & Hp & Hone & Hnone).
    exists (App.withStudents d students), students.
    split; [exact Hp|]. repeat (split; [reflexivity|]).
    split; [exact Hone|exact Hnone].
  - vm_compute. eexists _, _, _. split; [reflexivity|]. split; reflexivity.
Qed.


(** * Parsing a matrix text *)

Lemma forEachFrom_map {A B St} (f : St -> B -> nat -> St) (g : A -> B) (l : list A) :
  forall i s,
    JS.forEachFrom f i (map g l) s = JS.forEachFrom (fun s a i => f s (g a) i) i l s.
Proof. induction l as [|a l IH]; intros i s; simpl; [reflexivity|apply IH]. Qed.

(** Two nested loops over a grid visit its cells in reading order. *)
Lemma forEachFrom_rowCells {A St} (f : nat -> St -> A -> nat -> St) r (row : list A) :
  forall c s,
    JS.forEachFrom (f r) c row s =
    fold_left (fun s cell => f (fst (fst cell)) s (snd cell) (snd (fst cell)))
              (rowCellsFrom r c row) s.
Proof. induction row as [|a row IH]; intros c s; simpl; [reflexivity|apply IH]. Qed.

Lemma forEachFrom_gridCells {A St} (f : nat -> St -> A -> nat -> St) (grid : list (list A)) :
  forall r s,
    JS.forEachFrom (fun s row r => JS.forEach (f r) row s) r grid s =
    fold_left (fun s cell => f (fst (fst cell)) s (snd cell) (snd (fst cell)))
              (gridCellsFrom r grid) s.
Proof.
  induction grid as [|row grid IH]; intros r s; simpl; [reflexivity|].
  rewrite fold_left_app, IH. f_equal. unfold JS.forEach.
  apply forEachFrom_rowCells.
Qed.

Lemma parseCell_fold cells : forall objects k,
  fold_left (fun st cell => parseCell (fst (fst cell)) st (snd cell) (snd (fst cell)))
            cells (objects, k) =
  (objects ++ parsedFrom k cells, (k + length (parsedFrom k cells))%nat).
Proof.
  induction cells as [|[[r c] t] cells IH]; intros objects k; simpl.
  - now rewrite app_nil_r, Nat.add_0_r.
  - unfold parseCell at 2. simpl. fold (isDeskText t).
    destruct (isDeskText t); simpl.
    + rewrite IH, <- app_assoc. simpl. f_equal. lia.
    + apply IH.
Qed.

(** The parser, as a function of the cells of the trimmed text. *)
Lemma parse_cells matrix :
  parseLayoutMatrixToObjects matrix =
  parsedFrom 0 (gridCells (cellsOfText (JS.trim matrix))).
Proof.
  assert (forall lines s,
            JS.forEachFrom parseRow 0 lines s =
            fold_left
              (fun st cell => parseCell (fst (fst cell)) st (snd cell) (snd (fst cell)))
              (gridCellsFrom 0 (map (JS.split ",") lines)) s) as E.
  { intros lines s. rewrite <- (forEachFrom_gridCells parseCell), forEachFrom_map.
    reflexivity. }
  unfold parseLayoutMatrixToObjects, JS.forEach, cellsOfText, gridCells.
  now rewrite E, parseCell_fold.
Qed.

(** ** Trimming the text of a grid *)

Lemma string_app_nil s t : s +:+ t = "" -> t = "".
Proof. destruct s; simpl; [auto|discriminate]. Qed.

Lemma string_app_assoc s t u : (s +:+ t) +:+ u = s +:+ (t +:+ u).
Proof.
  induction s as [|a s IH]; [reflexivity|].
  change (String a ((s +:+ t) +:+ u) = String a (s +:+ (t +:+ u))). now rewrite IH.
Qed.

Lemma join_snoc sep (l : list string) x :
  exists pre, JS.join sep (l ++ [x]) = pre +:+ x.
Proof.
  induction l as [|a l [pre IH]].
  - now exists "".
  - exists (a +:+ sep +:+ pre).
    change (JS.join sep ((a :: l) ++ [x])) with (JS.join sep (a :: (l ++ [x]))).
    destruct (l ++ [x]) as [|y l'] eqn:E; [now destruct l|].
    change (JS.join sep (a :: y :: l')) with (a +:+ sep +:+ JS.join sep (y :: l')).
    rewrite IH. now rewrite !string_app_assoc.
Qed.

Lemma join_snoc_sep c (l : list string) x :
  l <> [] ->
  exists pre, JS.join (String c "") (l ++ [x]) = pre +:+ String c x.
Proof.
  induction l as [|a l IH]; [congruence|]. intros _.
  destruct l as [|b l].
  - exists a. reflexivity.
  - destruct IH as [pre IH]; [discriminate|].
    exists (a +:+ String c pre).
    change (JS.join (String c "") ((a :: b :: l) ++ [x]))
      with (a +:+ String c (JS.join (String c "") ((b :: l) ++ [x]))).
    rewrite IH. rewrite string_app_assoc. reflexivity.
Qed.

Lemma layoutCell_noWhiteSpace t : layoutCell t -> noWhiteSpace t = true /\ t <> "".
Proof.
  intros [->|[H Hne]]; [split; [reflexivity|discriminate]|].
  split; [now apply isTypeCode_noWhiteSpace|exact Hne].
Qed.

Lemma layoutCell_clean t : layoutCell t -> cleanCell t = true.
Proof. intros [->|[H _]]; [reflexivity|now apply isTypeCode_cleanCell]. Qed.

Lemma layoutCell_trim t : layoutCell t -> JS.trim t = t.
Proof. intros H. apply trim_noWhiteSpace. now apply layoutCell_noWhiteSpace. Qed.

Lemma trim_serializeGrid (grid : list (list string)) :
  grid <> [] ->
  Forall (fun row => row <> [] /\ Forall layoutCell row) grid ->
  JS.trim (serializeGrid grid) = serializeGrid grid.
Proof.
  intros Hne Hg. unfold JS.trim.
  assert (JS.trimStart (serializeGrid grid) = serializeGrid grid) as ->.
  { destruct grid as [|row grid]; [congruence|].
    inversion_clear Hg as [|? ? [Hrow Hcells] _].
    destruct row as [|t row]; [congruence|].
    inversion_clear Hcells as [|? ? Ht _].
    apply layoutCell_noWhiteSpace in Ht as [Hws Hnet].
    destruct t as [|a t]; [congruence|].
    assert (exists rest, serializeGrid ((String a t :: row) :: grid) = String a rest) as [rest ->].
    { unfold serializeGrid. simpl map.
      destruct row, grid; simpl; eexists; reflexivity. }
    destruct (noWhiteSpace_cons a t Hws) as (Ha & Hlt & _).
    now apply trimStart_keeps. }
  destruct (exists_last Hne) as (grid' & row & ->).
  rewrite Forall_app in Hg. destruct Hg as [_ Hg].
  inversion_clear Hg as [|? ? [Hrow Hcells] _].
  destruct (exists_last Hrow) as (row' & t & ->).
  rewrite Forall_app in Hcells. destruct Hcells as [_ Hcells].
  inversion_clear Hcells as [|? ? Ht _].
  apply layoutCell_noWhiteSpace in Ht as [Hws Hnet].
  unfold serializeGrid. rewrite map_app. simpl map.
  destruct (join_snoc (String JS.LF "") (map (JS.join ",") grid') (JS.join "," (row' ++ [t])))
    as [pre ->].
  destruct (join_snoc "," row' t) as [pre' ->].
  rewrite <- string_app_assoc.
  destruct t as [|c t']; [congruence|].
  destruct (noWhiteSpace_cons c t' Hws) as (_ & Hlt & _).
  apply trimEnd_app; [exact Hlt|now apply trimEnd_noWhiteSpace].
Qed.

(** The parser on the text of a grid of layout cells. *)
Lemma parse_serializeGrid (grid : list (list string)) :
  grid <> [] ->
  Forall (fun row => row <> [] /\ Forall layoutCell row) grid ->
  parseLayoutMatrixToObjects (serializeGrid grid) = parsedFrom 0 (gridCells grid).
Proof.
  intros Hne Hg. rewrite parse_cells, trim_serializeGrid by assumption.
  rewrite cellsOfText_serializeGrid; [reflexivity|exact Hne|].
  eapply Forall_impl; [exact Hg|]. intros row [Hr Hc]. split; [exact Hr|].
  eapply Forall_impl; [exact Hc|]. intros t. apply layoutCell_clean.
Qed.


(** * The rows of a parsed grid *)

Lemma parsedFrom_app l1 : forall k l2,
  parsedFrom k (l1 ++ l2) =
  parsedFrom k l1 ++ parsedFrom (k + length (parsedFrom k l1)) l2.
Proof.
  induction l1 as [|cell l1 IH]; intros k l2; simpl.
  - now rewrite Nat.add_0_r.
  - destruct (isDeskText (snd cell)); simpl.
    + rewrite IH. now rewrite Nat.add_succ_r.
    + apply IH.
Qed.

Lemma parsedFrom_gridCellsFrom grid : forall k r,
  parsedFrom k (gridCellsFrom r grid) = concat (parsedRows k r grid).
Proof.
  induction grid as [|row grid IH]; intros k r; simpl; [reflexivity|].
  now rewrite parsedFrom_app, IH.
Qed.

Lemma elem_of_parsedFrom cells : forall k d,
  d ∈ parsedFrom k cells ->
  exists k' cell, cell ∈ cells /\ isDeskText (snd cell) = true /\ d = parsedDesk k' cell.
Proof.
  induction cells as [|cell cells IH]; intros k d H; simpl in H; [inversion H|].
  destruct (isDeskText (snd cell)) eqn:E.
  - apply elem_of_cons in H as [->|H].
    + exists k, cell. split; [now left|auto].
    + destruct (IH _ _ H) as (k' & cell' & H1 & H2). exists k', cell'. split; [now right|auto].
  - destruct (IH _ _ H) as (k' & cell' & H1 & H2). exists k', cell'. split; [now right|auto].
Qed.

Lemma parsedFrom_elem_of cells : forall k cell,
  cell ∈ cells -> isDeskText (snd cell) = true ->
  exists k', parsedDesk k' cell ∈ parsedFrom k cells.
Proof.
  induction cells as [|cell0 cells IH]; intros k cell H Hd; [inversion H|].
  simpl. apply elem_of_cons in H as [->|H].
  - rewrite Hd. exists k. now left.
  - destruct (IH (if isDeskText (snd cell0) then S k else k) cell H Hd) as [k' Hk'].
    exists k'. destruct (isDeskText (snd cell0)); [now right|exact Hk'].
Qed.

(** Sizes of parsed desks. *)
Lemma deskConfig_cases t :
  snd (deskConfig t) = DESK_HEIGHT_UNITS /\
  (fst (deskConfig t) = (DESK_WIDTH_UNITS / 2)%Q \/
   fst (deskConfig t) = DESK_WIDTH_UNITS \/
   fst (deskConfig t) = (DESK_WIDTH_UNITS + DESK_WIDTH_UNITS / 2)%Q).
Proof.
  unfold deskConfig, PALETTE_DESKS. simpl.
  repeat match goal with
         | |- context [if ?b then _ else _] => destruct b; simpl
         end; auto.
Qed.

Lemma parsedDesk_verticalCenter k cell :
  (verticalCenter (parsedDesk k cell) == 6 * Qnat (fst (fst cell)) + 2)%Q.
Proof.
  unfold verticalCenter, parsedDesk. simpl.
  destruct (deskConfig_cases (JS.trim (snd cell))) as [-> _].
  unfold Qnat, DESK_HEIGHT_UNITS. field.
Qed.

Lemma Qnat_lt a b : (a < b)%nat -> (Qnat a + 1 <= Qnat b)%Q.
Proof.
  intros H. unfold Qnat.
  assert (inject_Z (Z.of_nat a) + 1 == inject_Z (Z.of_nat a + 1))%Q as ->
    by (rewrite inject_Z_plus; reflexivity).
  rewrite <- Zle_Qle. lia.
Qed.

Lemma Qnat_le a b : (a <= b)%nat -> (Qnat a <= Qnat b)%Q.
Proof. intros H. unfold Qnat. rewrite <- Zle_Qle. lia. Qed.

Lemma Qnat_nonneg a : (0 <= Qnat a)%Q.
Proof. unfold Qnat. change 0%Q with (inject_Z 0). rewrite <- Zle_Qle. lia. Qed.

Lemma sameRow_parsed k k' cell cell' :
  sameRow (parsedDesk k cell) (parsedDesk k' cell') =
  Nat.eqb (fst (fst cell)) (fst (fst cell')).
Proof.
  unfold sameRow.
  pose proof (parsedDesk_verticalCenter k cell) as E1.
  pose proof (parsedDesk_verticalCenter k' cell') as E2.
  destruct (Nat.eqb_spec (fst (fst cell)) (fst (fst cell'))) as [E|NE].
  - apply Qlt_bool_iff. rewrite E1, E2, E. unfold DESK_HEIGHT_UNITS.
    apply Qabs_Qlt_condition. split; lra.
  - apply Qlt_bool_false_iff. rewrite E1, E2. unfold DESK_HEIGHT_UNITS.
    destruct (Nat.lt_total (fst (fst cell)) (fst (fst cell'))) as [H|[H|H]]; [|contradiction|].
    + apply Qnat_lt in H. rewrite <- Qabs_opp. eapply Qle_trans; [|apply Qle_Qabs]. lra.
    + apply Qnat_lt in H. eapply Qle_trans; [|apply Qle_Qabs]. lra.
Qed.

Lemma groupRowsFrom_blocks blocks : forall first cur,
  Blocks first blocks ->
  groupRowsFrom (first :: cur) (concat blocks) =
  JS.sort compareX (first :: cur) :: map (JS.sort compareX) blocks.
Proof.
  induction blocks as [|block blocks IH]; intros first cur H; [reflexivity|].
  destruct block as [|b block]; [contradiction|].
  destruct H as (Hb & Hblock & Hrest).
  change (concat ((b :: block) :: blocks)) with (b :: (block ++ concat blocks)).
  simpl. rewrite Hb. f_equal.
  rewrite (groupRowsFrom_join block b [] (concat blocks) Hblock).
  now apply IH.
Qed.

Lemma StronglySorted_app {A} (R : A -> A -> Prop) l1 l2 :
  StronglySorted R l1 -> StronglySorted R l2 ->
  (forall a b, a ∈ l1 -> b ∈ l2 -> R a b) ->
  StronglySorted R (l1 ++ l2).
Proof.
  intros H1 H2 H. induction H1 as [|a l1 H1 IH Ha]; simpl; [exact H2|].
  constructor.
  - apply IH. intros x y Hx Hy. apply H; [now right|exact Hy].
  - apply Forall_app. split; [exact Ha|].
    apply Forall_forall. intros y Hy. apply H; [now left|exact Hy].
Qed.

Lemma elem_of_parsed_row k r c row d :
  d ∈ parsedFrom k (rowCellsFrom r c row) ->
  exists k' c' t,
    d = parsedDesk k' (r, c', t) /\ (c <= c')%nat /\
    row !! (c' - c)%nat = Some t /\ isDeskText t = true.
Proof.
  intros H. apply elem_of_parsedFrom in H as (k' & [[r' c'] t] & Hin & Hd & ->).
  apply elem_of_rowCellsFrom in Hin as (-> & Hc & Ht).
  exists k', c', t. auto.
Qed.

Lemma elem_of_parsedRows grid : forall k r block d,
  block ∈ parsedRows k r grid -> d ∈ block ->
  exists k' r' c t,
    d = parsedDesk k' (r', c, t) /\ (r <= r')%nat /\
    cellAt grid (r' - r) c = Some t /\ isDeskText t = true.
Proof.
  induction grid as [|row grid IH]; intros k r block d Hb Hd; simpl in Hb; [inversion Hb|].
  apply elem_of_cons in Hb as [->|Hb].
  - apply elem_of_parsed_row in Hd as (k' & c & t & -> & _ & Ht & Hdesk).
    exists k', r, c, t. rewrite Nat.sub_diag, Nat.sub_0_r in *. auto.
  - destruct (IH _ _ _ _ Hb Hd) as (k' & r' & c & t & -> & Hr & Ht & Hdesk).
    exists k', r', c, t. split; [reflexivity|]. split; [lia|].
    replace (r' - r)%nat with (S (r' - S r)) by lia. auto.
Qed.

Lemma parsedDesk_y k r c t : LO.y (parsedDesk k (r, c, t)) = (Qnat r * (DESK_HEIGHT_UNITS + 2))%Q.
Proof. reflexivity. Qed.

Lemma parsedDesk_x k r c t : LO.x (parsedDesk k (r, c, t)) = (Qnat c * (DESK_WIDTH_UNITS + 2))%Q.
Proof. reflexivity. Qed.

Lemma parsed_row_sortedX row : forall k r c,
  StronglySorted (before compareX) (parsedFrom k (rowCellsFrom r c row)).
Proof.
  induction row as [|t row IH]; intros k r c; simpl; [constructor|].
  destruct (isDeskText t); [|apply IH].
  constructor; [apply IH|].
  apply Forall_forall. intros d Hd.
  apply elem_of_parsed_row in Hd as (k' & c' & t' & -> & Hc & _).
  apply compareX_before. rewrite !parsedDesk_x.
  assert (c < c')%nat as Hlt by lia. apply Qnat_lt in Hlt.
  unfold DESK_WIDTH_UNITS. lra.
Qed.

Lemma parsed_row_sameY k r c row a b :
  a ∈ parsedFrom k (rowCellsFrom r c row) -> b ∈ parsedFrom k (rowCellsFrom r c row) ->
  LO.y a = LO.y b.
Proof.
  intros Ha Hb.
  apply elem_of_parsed_row in Ha as (? & ? & ? & -> & _).
  apply elem_of_parsed_row in Hb as (? & ? & ? & -> & _). reflexivity.
Qed.

Lemma parsedRows_sortedY grid : forall k r,
  StronglySorted (before compareY) (concat (parsedRows k r grid)).
Proof.
  induction grid as [|row grid IH]; intros k r; simpl; [constructor|].
  apply StronglySorted_app; [|apply IH|].
  - set (l := parsedFrom k (rowCellsFrom r 0 row)).
    assert (forall a b, a ∈ l -> b ∈ l -> LO.y a = LO.y b) as Hy
      by (intros a b; apply parsed_row_sameY).
    clearbody l. induction l as [|a l IHl]; constructor.
    + apply IHl. intros x y Hx Hy'. apply Hy; now right.
    + apply Forall_forall. intros b Hb. apply compareY_before.
      rewrite (Hy a b); [lra|now left|now right].
  - intros a b Ha Hb.
    apply elem_of_parsed_row in Ha as (? & ? & ? & -> & _).
    apply elem_of_concat in Hb as (block & Hblock & Hb).
    destruct (elem_of_parsedRows _ _ _ _ _ Hblock Hb) as (k' & r' & c' & t' & -> & Hr & _).
    apply compareY_before. rewrite !parsedDesk_y.
    assert (r < r')%nat as Hlt by lia. apply Qnat_lt in Hlt.
    unfold DESK_HEIGHT_UNITS. lra.
Qed.

Lemma parsed_row_not_nil k r c row :
  rowHasDesk row -> parsedFrom k (rowCellsFrom r c row) <> [].
Proof.
  intros (t & Hin & Hd) E.
  apply list_elem_of_lookup in Hin as [i Hi].
  destruct (parsedFrom_elem_of (rowCellsFrom r c row) k (r, (c + i)%nat, t)) as [k' Hk'].
  - apply elem_of_rowCellsFrom. split; [reflexivity|]. split; [lia|].
    now replace (c + i - c)%nat with i by lia.
  - exact Hd.
  - rewrite E in Hk'. inversion Hk'.
Qed.

Lemma parsedRows_Blocks grid : forall k r k0 r0 c0 t0,
  (r0 < r)%nat -> Forall rowHasDesk grid ->
  Blocks (parsedDesk k0 (r0, c0, t0)) (parsedRows k r grid).
Proof.
  induction grid as [|row grid IH]; intros k r k0 r0 c0 t0 Hr Hg; simpl; [exact I|].
  inversion_clear Hg as [|? ? Hrow Hgrid].
  pose proof (parsed_row_not_nil k r 0 row Hrow) as Hne.
  destruct (parsedFrom k (rowCellsFrom r 0 row)) as [|b block] eqn:E; [congruence|].
  assert (forall d, d ∈ b :: block -> exists k' c' t', d = parsedDesk k' (r, c', t')) as Hform.
  { intros d Hd. rewrite <- E in Hd.
    apply elem_of_parsed_row in Hd as (k' & c' & t' & -> & _). now exists k', c', t'. }
  destruct (Hform b (list_elem_of_here _ _)) as (kb & cb & tb & ->).
  split; [|split].
  - rewrite sameRow_parsed. simpl. apply Nat.eqb_neq. lia.
  - intros d Hd. destruct (Hform d) as (k' & c' & t' & ->); [now right|].
    rewrite sameRow_parsed. simpl. apply Nat.eqb_refl.
  - apply IH; [lia|exact Hgrid].
Qed.

(** The row grouping of the parsed objects of a grid gives the rows of the
    grid back. *)
Lemma groupRows_parsed grid :
  Forall rowHasDesk grid ->
  groupRows (parsedFrom 0 (gridCells grid)) = parsedRows 0 0 grid.
Proof.
  intros Hg. unfold gridCells. rewrite parsedFrom_gridCellsFrom.
  unfold groupRows, sortedByY.
  rewrite sort_sorted_id by apply parsedRows_sortedY.
  destruct grid as [|row grid]; [reflexivity|]. simpl.
  inversion_clear Hg as [|? ? Hrow Hgrid].
  pose proof (parsed_row_not_nil 0 0 0 row Hrow) as Hne.
  pose proof (parsed_row_sortedX row 0 0 0) as Hsx.
  assert (forall d, d ∈ parsedFrom 0 (rowCellsFrom 0 0 row) ->
                    exists k' c' t', d = parsedDesk k' (0%nat, c', t')) as Hform.
  { intros d Hd. apply elem_of_parsed_row in Hd as (k' & c' & t' & -> & _).
    now exists k', c', t'. }
  destruct (parsedFrom 0 (rowCellsFrom 0 0 row)) as [|b block] eqn:E; [congruence|].
  simpl.
  destruct (Hform b (list_elem_of_here _ _)) as (kb & cb & tb & Eb).
  rewrite (groupRowsFrom_join block b [] _).
  - simpl. rewrite groupRowsFrom_blocks.
    + rewrite (sort_sorted_id compareX _ Hsx). f_equal.
      rewrite <- (map_id (parsedRows _ _ _)) at 2. apply map_ext_in.
      intros blk Hblk. apply sort_sorted_id.
      match type of Hblk with
      | In _ (parsedRows ?k ?r grid) => revert Hblk; generalize k, r
      end.
      clear. induction grid as [|row' grid IH]; intros k r Hblk; simpl in Hblk; [contradiction|].
      destruct Hblk as [<-|Hblk]; [apply parsed_row_sortedX|]. now apply (IH _ _ Hblk).
    + rewrite Eb. apply parsedRows_Blocks; [lia|exact Hgrid].
  - intros d Hd. rewrite Eb. destruct (Hform d) as (k' & c' & t' & ->); [now right|].
    rewrite sameRow_parsed. reflexivity.
Qed.


(** * The columns of a parsed grid *)

Lemma inColumn_le u c u' c' :
  inColumn u c -> inColumn u' c' -> (u <= u')%Q -> (c <= c')%nat.
Proof.
  intros [H1 H2] [H1' H2'] Hle.
  destruct (le_lt_dec c c') as [H|H]; [exact H|].
  apply Qnat_lt in H. lra.
Qed.

Lemma inColumn_inj u c c' : inColumn u c -> inColumn u c' -> c = c'.
Proof.
  intros H H'.
  pose proof (inColumn_le u c u c' H H' (Qle_refl u)).
  pose proof (inColumn_le u c' u c H' H (Qle_refl u)). lia.
Qed.

Lemma Qnat_S n : (Qnat (S n) == Qnat n + 1)%Q.
Proof.
  unfold Qnat. rewrite Nat2Z.inj_succ. unfold Z.succ. rewrite inject_Z_plus. reflexivity.
Qed.

Lemma fold_left_Qplus_bounds lo hi l : forall a,
  Forall (fun u => (lo <= u /\ u <= hi)%Q) l ->
  (a + Qnat (length l) * lo <= fold_left Qplus l a /\
   fold_left Qplus l a <= a + Qnat (length l) * hi)%Q.
Proof.
  induction l as [|u l IH]; intros a H; simpl.
  - change (Qnat 0) with 0%Q. split; lra.
  - inversion_clear H as [|? ? [Hu1 Hu2] Hl].
    destruct (IH (a + u)%Q Hl) as [H1 H2]. rewrite Qnat_S. split; lra.
Qed.

Lemma clusterCenter_bounds lo hi l :
  l <> [] -> Forall (fun u => (lo <= u /\ u <= hi)%Q) l ->
  (lo <= clusterCenter l /\ clusterCenter l <= hi)%Q.
Proof.
  intros Hne H. unfold clusterCenter. fold (Qnat (length l)).
  destruct (fold_left_Qplus_bounds lo hi l 0 H) as [H1 H2].
  assert (0 < Qnat (length l))%Q as Hpos.
  { destruct l; [congruence|]. simpl length. rewrite Qnat_S.
    pose proof (Qnat_nonneg (length l)). lra. }
  split.
  - apply Qle_shift_div_l; [exact Hpos|]. lra.
  - apply Qle_shift_div_r; [exact Hpos|]. lra.
Qed.

Lemma clusterCenter_inColumn c l :
  l <> [] -> Forall (fun u => inColumn u c) l -> inColumn (clusterCenter l) c.
Proof. intros Hne H. now apply clusterCenter_bounds. Qed.

Lemma half_width : (DESK_WIDTH_UNITS / 2 == 4)%Q.
Proof. reflexivity. Qed.

Lemma last_snoc {A} (l : list A) x d : List.last (l ++ [x]) d = x.
Proof. apply List.last_last. Qed.

(** Clustering a chain gives one centre per column, inside the column. *)
Lemma clusterFrom_Chain c v rest cEnd :
  Chain c v rest cEnd ->
  forall cur, cur <> [] -> List.last cur 0%Q = v -> Forall (fun u => inColumn u c) cur ->
    (c <= cEnd)%nat /\
    length (clusterFrom cur rest) = S (cEnd - c) /\
    forall j m, clusterFrom cur rest !! j = Some m -> inColumn m (c + j).
Proof.
  induction 1 as [c v|c v u rest cEnd Hu Hgap Hch IH|c v u rest cEnd Hu Hgap Hch IH];
    intros cur Hne Hlast Hcur; simpl.
  - split; [lia|]. split; [now rewrite Nat.sub_diag|].
    intros [|j] m Hm; simpl in Hm; [|now rewrite lookup_nil in Hm].
    inversion Hm; subst m. rewrite Nat.add_0_r. now apply clusterCenter_inColumn.
  - rewrite Hlast. rewrite (proj2 (Qlt_bool_iff _ _) Hgap).
    apply IH.
    + now destruct cur.
    + apply last_snoc.
    + apply Forall_app. split; [exact Hcur|]. now constructor.
  - rewrite Hlast. rewrite (proj2 (Qlt_bool_false_iff _ _) Hgap).
    destruct (IH [u]) as (Hle & Hlen & Hm); [congruence|reflexivity|now constructor|].
    split; [lia|]. split; [simpl; rewrite Hlen; lia|].
    intros [|j] m Hj; simpl in Hj.
    + inversion Hj; subst m. rewrite Nat.add_0_r. now apply clusterCenter_inColumn.
    + replace (c + S j)%nat with (S c + j)%nat by lia. now apply Hm.
Qed.

(** ** Building the chain from a sorted list of centres *)

Section BuildChain.
Variable U : list Q.
Variable W : nat.
Hypothesis U_columns : forall z, z ∈ U -> exists c, (c < W)%nat /\ inColumn z c.
Hypothesis U_covers : forall c, (c < W)%nat -> exists z, z ∈ U /\ inColumn z c.
Hypothesis U_no_split : forall c,
  (exists z, z ∈ U /\ z == 10 * Qnat c + 2)%Q ->
  (exists z, z ∈ U /\ z == 10 * Qnat c + 6)%Q ->
  (exists z, z ∈ U /\ z == 10 * Qnat c + 4)%Q.

Lemma build_chain rest : forall v c,
  inColumn v c -> (c < W)%nat ->
  StronglySorted (before Qminus) (v :: rest) ->
  (forall z, z ∈ U -> (z <= v)%Q \/ z ∈ rest) ->
  v ∈ U -> (forall z, z ∈ rest -> z ∈ U) ->
  Chain c v rest (W - 1).
Proof.
  induction rest as [|u rest IH]; intros v c Hv Hc Hs Hcut HvU Hrest.
  - assert (c = W - 1)%nat as ->; [|constructor].
    destruct (U_covers (W - 1)%nat) as (z & Hz & Hzc); [lia|].
    destruct (Hcut z Hz) as [Hle|Hin]; [|inversion Hin].
    pose proof (inColumn_le _ _ _ _ Hzc Hv Hle). lia.
  - apply StronglySorted_inv in Hs as [Hs Hall].
    assert (v <= u)%Q as Hvu.
    { rewrite Forall_forall in Hall. apply Qminus_before, Hall. now left. }
    assert (u ∈ U) as HuU by (apply Hrest; now left).
    destruct (U_columns u HuU) as (c' & Hc' & Hu).
    pose proof (inColumn_le _ _ _ _ Hv Hu Hvu) as Hcc.
    assert (forall z, z ∈ U -> (z <= u)%Q \/ z ∈ rest) as Hcut'.
    { intros z Hz. destruct (Hcut z Hz) as [H|H]; [left; lra|].
      apply elem_of_cons in H as [->|H]; [left; lra|now right]. }
    assert (forall z, z ∈ U -> (z <= v)%Q \/ (u <= z)%Q) as Hgap.
    { intros z Hz. destruct (Hcut z Hz) as [H|H]; [now left|right].
      apply elem_of_cons in H as [->|H]; [lra|].
      apply StronglySorted_inv in Hs as [_ Hall'].
      rewrite Forall_forall in Hall'. now apply Qminus_before, Hall'. }
    assert (forall z, z ∈ rest -> z ∈ U) as Hrest' by (intros z Hz; apply Hrest; now right).
    destruct (decide (c' = c)) as [->|Hne].
    + apply Chain_same; [exact Hu| |now apply IH].
      rewrite half_width.
      destruct (Qlt_le_dec (u - v) 4) as [H|H]; [lra|exfalso].
      destruct Hv as [Hv1 Hv2], Hu as [Hu1 Hu2].
      destruct (U_no_split c) as (z & Hz & Ez).
      * exists v. split; [exact HvU|lra].
      * exists u. split; [exact HuU|lra].
      * destruct (Hgap z Hz); lra.
    + assert (c' = S c) as ->.
      { destruct (le_lt_dec c' (S c)) as [H|H]; [lia|exfalso].
        destruct (U_covers (S c)) as (z & Hz & Hzc); [lia|].
        destruct (Hgap z Hz) as [Hle|Hle].
        - pose proof (inColumn_le _ _ _ _ Hzc Hv Hle). lia.
        - pose proof (inColumn_le _ _ _ _ Hu Hzc Hle). lia. }
      apply Chain_next; [exact Hu| |now apply IH].
      destruct Hv as [Hv1 Hv2], Hu as [Hu1 Hu2]. rewrite Qnat_S in Hu1.
      rewrite half_width. lra.
Qed.

(** The centres of the columns: one per column, inside the column. *)
Lemma columns_of_sorted first rest :
  U = first :: rest -> StronglySorted (before Qminus) U -> (0 < W)%nat ->
  length (clusterFrom [first] rest) = W /\
  forall c m, clusterFrom [first] rest !! c = Some m -> inColumn m c.
Proof.
  intros E Hs HW.
  assert (first ∈ U) as Hf by (rewrite E; now left).
  destruct (U_columns first Hf) as (c0 & Hc0 & Hfc).
  assert (c0 = 0%nat) as ->.
  { destruct (U_covers 0%nat HW) as (z & Hz & Hzc).
    assert (first <= z)%Q as Hle.
    { rewrite E in Hz, Hs. apply elem_of_cons in Hz as [->|Hz]; [lra|].
      apply StronglySorted_inv in Hs as [_ Hall]. rewrite Forall_forall in Hall.
      now apply Qminus_before, Hall. }
    pose proof (inColumn_le _ _ _ _ Hfc Hzc Hle). lia. }
  assert (Chain 0 first rest (W - 1)) as Hch.
  { apply build_chain; try assumption.
    - now rewrite <- E.
    - intros z Hz. rewrite E in Hz. apply elem_of_cons in Hz as [->|Hz]; [left; lra|now right].
    - intros z Hz. rewrite E. now right. }
  destruct (clusterFrom_Chain _ _ _ _ Hch [first]) as (_ & Hlen & Hm);
    [congruence|reflexivity|now constructor|].
  split; [rewrite Hlen; lia|exact Hm].
Qed.

End BuildChain.


(** ** The set of distinct centres *)

Lemma elem_of_setAdd seen v z : z ∈ JS.setAdd seen v -> z ∈ seen \/ z = v.
Proof.
  induction seen as [|w seen IH]; simpl.
  - intros H. apply list_elem_of_singleton in H. now right.
  - destruct (Qeq_bool w v); [now left|].
    intros H. apply elem_of_cons in H as [->|H]; [left; now left|].
    destruct (IH H) as [H'|H']; [left; now right|now right].
Qed.

Lemma setAdd_keeps seen v z : z ∈ seen -> z ∈ JS.setAdd seen v.
Proof.
  induction seen as [|w seen IH]; intros H; [inversion H|]. simpl.
  destruct (Qeq_bool w v); [exact H|].
  apply elem_of_cons in H as [->|H]; [now left|right; now apply IH].
Qed.

Lemma setAdd_has seen v : exists u, u ∈ JS.setAdd seen v /\ (u == v)%Q.
Proof.
  induction seen as [|w seen [u [Hu E]]]; simpl.
  - exists v. split; [now left|reflexivity].
  - destruct (Qeq_bool w v) eqn:Ew.
    + exists w. split; [now left|now apply Qeq_bool_iff].
    + exists u. split; [now right|exact E].
Qed.

Lemma uniqueNumbers_from l : forall seen,
  (forall z, z ∈ fold_left JS.setAdd l seen -> z ∈ seen \/ z ∈ l) /\
  (forall z, z ∈ seen -> z ∈ fold_left JS.setAdd l seen) /\
  (forall v, v ∈ l -> exists u, u ∈ fold_left JS.setAdd l seen /\ (u == v)%Q).
Proof.
  induction l as [|a l IH]; intros seen; simpl.
  - split; [now left|]. split; [auto|]. intros v H. inversion H.
  - destruct (IH (JS.setAdd seen a)) as (H1 & H2 & H3). split; [|split].
    + intros z Hz. destruct (H1 z Hz) as [H|H]; [|right; now right].
      apply elem_of_setAdd in H as [H| ->]; [now left|right; now left].
    + intros z Hz. now apply H2, setAdd_keeps.
    + intros v Hv. apply elem_of_cons in Hv as [->|Hv]; [|now apply H3].
      destruct (setAdd_has seen a) as (u & Hu & E). exists u. split; [now apply H2|exact E].
Qed.

Lemma sortedUniqueCenters_subset objects z :
  z ∈ sortedUniqueCenters objects -> exists d, d ∈ objects /\ z = horizontalCenter d.
Proof.
  unfold sortedUniqueCenters. rewrite sort_elem_of. unfold JS.uniqueNumbers. intros H.
  destruct (uniqueNumbers_from (map horizontalCenter objects) []) as (H1 & _).
  destruct (H1 z H) as [H'|H']; [inversion H'|].
  apply list_elem_of_fmap in H' as (d & -> & Hd). now exists d.
Qed.

Lemma sortedUniqueCenters_covers objects d :
  d ∈ objects -> exists u, u ∈ sortedUniqueCenters objects /\ (u == horizontalCenter d)%Q.
Proof.
  intros Hd.
  destruct (uniqueNumbers_from (map horizontalCenter objects) []) as (_ & _ & H3).
  destruct (H3 (horizontalCenter d)) as (u & Hu & E).
  - apply list_elem_of_fmap. now exists d.
  - exists u. split; [|exact E]. unfold sortedUniqueCenters. now rewrite sort_elem_of.
Qed.

(** ** The nearest column *)

Lemma forEachFrom_app {A St} (f : St -> A -> nat -> St) l1 : forall l2 i s,
  JS.forEachFrom f i (l1 ++ l2) s =
  JS.forEachFrom f (i + length l1) l2 (JS.forEachFrom f i l1 s).
Proof.
  induction l1 as [|a l1 IH]; intros l2 i s; simpl.
  - now rewrite Nat.add_0_r.
  - rewrite IH. f_equal. lia.
Qed.

Section Nearest.
Variables (v m : Q).

Lemma nearer_prefix pre : forall i st,
  farther v m st ->
  (forall m', m' ∈ pre -> (Qabs (v - m) < Qabs (v - m'))%Q) ->
  farther v m (JS.forEachFrom (nearerColumn v) i pre st).
Proof.
  induction pre as [|m' pre IH]; intros i st Hst Hpre; simpl; [exact Hst|].
  apply IH; [|intros x Hx; apply Hpre; now right].
  unfold nearerColumn. destruct (match st.2 with None => true | Some d => _ end); [|exact Hst].
  unfold farther. simpl. apply Hpre. now left.
Qed.

Lemma nearer_at st c :
  farther v m st -> nearerColumn v st m c = (Some c, Some (Qabs (v - m))).
Proof.
  unfold farther, nearerColumn. destruct st.2 as [d|]; [|reflexivity].
  intros H. now rewrite (proj2 (Qlt_bool_iff _ _) H).
Qed.

Lemma nearer_suffix post : forall i c,
  (forall m', m' ∈ post -> (Qabs (v - m) < Qabs (v - m'))%Q) ->
  JS.forEachFrom (nearerColumn v) i post (Some c, Some (Qabs (v - m))) =
  (Some c, Some (Qabs (v - m))).
Proof.
  induction post as [|m' post IH]; intros i c Hpost; simpl; [reflexivity|].
  unfold nearerColumn at 2. simpl.
  assert (JS.Qlt_bool (Qabs (v - m')) (Qabs (v - m)) = false) as ->.
  { apply Qlt_bool_false_iff. apply Qlt_le_weak, Hpost. now left. }
  apply IH. intros x Hx. apply Hpost. now right.
Qed.

End Nearest.

Lemma bestColumn_nearest ms v c m :
  ms !! c = Some m ->
  (forall j m', ms !! j = Some m' -> j <> c -> (Qabs (v - m) < Qabs (v - m'))%Q) ->
  (bestColumn ms v).1 = Some c.
Proof.
  intros Hc Hfar.
  destruct (list_elem_of_split_length ms c m Hc) as (pre & post & -> & Hlen).
  unfold bestColumn, JS.forEach.
  rewrite forEachFrom_app. simpl.
  rewrite (nearer_at v m _ (length pre)).
  - rewrite nearer_suffix; [simpl; now rewrite Hlen|].
    intros m' Hm'. apply list_elem_of_lookup in Hm' as [j Hj].
    apply (Hfar (length pre + S j)%nat); [|lia].
    rewrite lookup_app_r by lia.
    replace (length pre + S j - length pre)%nat with (S j) by lia. exact Hj.
  - apply nearer_prefix; [exact I|].
    intros m' Hm'. apply list_elem_of_lookup in Hm' as [j Hj].
    pose proof (lookup_lt_Some _ _ _ Hj) as Hlt.
    apply (Hfar j); [|lia]. now rewrite lookup_app_l.
Qed.

Lemma bestColumn_inColumn ms v c :
  (forall j m, ms !! j = Some m -> inColumn m j) ->
  (c < length ms)%nat -> inColumn v c ->
  (bestColumn ms v).1 = Some c.
Proof.
  intros Hms Hc Hv.
  destruct (lookup_lt_is_Some_2 ms c Hc) as [m Hm].
  apply (bestColumn_nearest ms v c m Hm).
  intros j m' Hj Hne.
  pose proof (Hms c m Hm) as [H1 H2]. pose proof (Hms j m' Hj) as [H1' H2'].
  destruct Hv as [Hv1 Hv2].
  assert (Qabs (v - m) <= 4)%Q as Hnear by (apply Qabs_Qle_condition; split; lra).
  assert (6 <= Qabs (v - m'))%Q as Hfar.
  { destruct (Nat.lt_total j c) as [H|[H|H]]; [|contradiction|].
    - apply Qnat_lt in H. eapply Qle_trans; [|apply Qle_Qabs]. lra.
    - apply Qnat_lt in H. rewrite <- Qabs_opp. eapply Qle_trans; [|apply Qle_Qabs]. lra. }
  lra.
Qed.


(** * Converting the parsed objects of a grid *)

(** Linear arithmetic with halves. *)
Ltac qlra := unfold Qdiv in *; change (/ 2)%Q with (1 # 2)%Q in *; lra.

Lemma layoutCell_isDeskText t : layoutCell t -> isDeskText t = negb (String.eqb t "--").
Proof.
  intros H. unfold isDeskText. rewrite (layoutCell_trim t H).
  destruct (layoutCell_noWhiteSpace t H) as [_ Hne].
  now rewrite (proj2 (String.eqb_neq _ _) Hne).
Qed.

Lemma parsedDesk_center k r c t :
  (horizontalCenter (parsedDesk k (r, c, t)) == 10 * Qnat c + cellWidth t / 2)%Q.
Proof.
  unfold horizontalCenter, parsedDesk, cellWidth, Qnat. simpl. unfold DESK_WIDTH_UNITS, Qdiv. ring.
Qed.

Lemma cellWidth_cases t :
  (cellWidth t == 4 \/ cellWidth t == 8 \/ cellWidth t == 12)%Q.
Proof.
  unfold cellWidth. destruct (deskConfig_cases (JS.trim t)) as [_ [-> | [-> | ->]]];
    [left|right; left|right; right]; reflexivity.
Qed.

Lemma parsedDesk_inColumn k r c t : inColumn (horizontalCenter (parsedDesk k (r, c, t))) c.
Proof.
  unfold inColumn. rewrite parsedDesk_center.
  destruct (cellWidth_cases t) as [E|[E|E]]; rewrite E; split; qlra.
Qed.

Section ParsedGrid.
Variable G : list (list string).
Variable W : nat.
Hypothesis G_cells : Forall (fun row => length row = W /\ Forall layoutCell row) G.
Hypothesis G_rows : Forall rowHasDesk G.
Hypothesis G_columns : forall c, (c < W)%nat -> exists r t, cellAt G r c = Some t /\ t <> "--".
Hypothesis G_no_split : noSplitColumn G.
Hypothesis W_pos : (0 < W)%nat.

#[local] Abbreviation O := (parsedFrom 0 (gridCells G)).

Lemma G_cell r c t : cellAt G r c = Some t -> (c < W)%nat /\ layoutCell t.
Proof.
  unfold cellAt. destruct (G !! r) as [row|] eqn:Er; [|discriminate]. simpl. intros Hc.
  rewrite Forall_forall in G_cells.
  destruct (G_cells row) as [Hlen Hcells]; [apply list_elem_of_lookup; now exists r|].
  split; [rewrite <- Hlen; now apply lookup_lt_Some in Hc|].
  rewrite Forall_forall in Hcells. apply Hcells. apply list_elem_of_lookup. now exists c.
Qed.

Lemma O_elem_of d :
  d ∈ O -> exists k r c t, d = parsedDesk k (r, c, t) /\ cellAt G r c = Some t /\ t <> "--".
Proof.
  intros H. apply elem_of_parsedFrom in H as (k & [[r c] t] & Hin & Hd & ->).
  apply elem_of_gridCells in Hin. exists k, r, c, t. split; [reflexivity|]. split; [exact Hin|].
  destruct (G_cell r c t Hin) as [_ Hl]. simpl in Hd.
  rewrite (layoutCell_isDeskText t Hl) in Hd.
  now apply negb_true_iff, String.eqb_neq in Hd.
Qed.

Lemma O_has r c t :
  cellAt G r c = Some t -> t <> "--" -> exists k, parsedDesk k (r, c, t) ∈ O.
Proof.
  intros Hc Ht. apply (parsedFrom_elem_of (gridCells G) 0 (r, c, t)).
  - now apply elem_of_gridCells.
  - simpl. destruct (G_cell r c t Hc) as [_ Hl]. rewrite (layoutCell_isDeskText t Hl).
    now apply negb_true_iff, String.eqb_neq.
Qed.

Lemma O_not_nil : O <> [].
Proof.
  destruct (G_columns 0%nat W_pos) as (r & t & Hc & Ht).
  destruct (O_has r 0%nat t Hc Ht) as [k Hk]. intros E. rewrite E in Hk. inversion Hk.
Qed.

Lemma U_columns z :
  z ∈ sortedUniqueCenters O -> exists c, (c < W)%nat /\ inColumn z c.
Proof.
  intros H. apply sortedUniqueCenters_subset in H as (d & Hd & ->).
  apply O_elem_of in Hd as (k & r & c & t & -> & Hc & _).
  exists c. split; [now destruct (G_cell r c t Hc)|apply parsedDesk_inColumn].
Qed.

Lemma inColumn_Qeq u v c : (u == v)%Q -> inColumn v c -> inColumn u c.
Proof. unfold inColumn. intros E [H1 H2]. split; lra. Qed.

Lemma U_covers c :
  (c < W)%nat -> exists z, z ∈ sortedUniqueCenters O /\ inColumn z c.
Proof.
  intros Hc. destruct (G_columns c Hc) as (r & t & Hcell & Ht).
  destruct (O_has r c t Hcell Ht) as [k Hk].
  destruct (sortedUniqueCenters_covers O _ Hk) as (u & Hu & E).
  exists u. split; [exact Hu|]. apply (inColumn_Qeq _ _ _ E), parsedDesk_inColumn.
Qed.

Lemma U_width c z delta :
  z ∈ sortedUniqueCenters O -> (z == 10 * Qnat c + delta)%Q ->
  (2 <= delta)%Q -> (delta <= 6)%Q ->
  columnHoldsWidth G c (2 * delta).
Proof.
  intros H E H2 H6. apply sortedUniqueCenters_subset in H as (d & Hd & ->).
  apply O_elem_of in Hd as (k & r & c' & t & -> & Hc & Ht).
  assert (c' = c) as ->.
  { apply (inColumn_inj (horizontalCenter (parsedDesk k (r, c', t)))); [apply parsedDesk_inColumn|].
    unfold inColumn. rewrite E. split; lra. }
  exists r, t. split; [exact Hc|]. split; [exact Ht|].
  rewrite parsedDesk_center in E. qlra.
Qed.

Lemma U_has_width c w :
  columnHoldsWidth G c w ->
  exists z, z ∈ sortedUniqueCenters O /\ (z == 10 * Qnat c + w / 2)%Q.
Proof.
  intros (r & t & Hc & Ht & Ew).
  destruct (O_has r c t Hc Ht) as [k Hk].
  destruct (sortedUniqueCenters_covers O _ Hk) as (u & Hu & E).
  exists u. split; [exact Hu|]. rewrite E, parsedDesk_center, Ew. reflexivity.
Qed.

Lemma columnHoldsWidth_Qeq c w w' :
  (w == w')%Q -> columnHoldsWidth G c w -> columnHoldsWidth G c w'.
Proof. intros E (r & t & H1 & H2 & H3). exists r, t. rewrite <- E. auto. Qed.

Lemma U_no_split c :
  (exists z, z ∈ sortedUniqueCenters O /\ z == 10 * Qnat c + 2)%Q ->
  (exists z, z ∈ sortedUniqueCenters O /\ z == 10 * Qnat c + 6)%Q ->
  (exists z, z ∈ sortedUniqueCenters O /\ z == 10 * Qnat c + 4)%Q.
Proof.
  intros (z2 & Hz2 & E2) (z6 & Hz6 & E6).
  pose proof (U_width c z2 2 Hz2 E2 ltac:(lra) ltac:(lra)) as H4.
  pose proof (U_width c z6 6 Hz6 E6 ltac:(lra) ltac:(lra)) as H12.
  destruct (U_has_width c DESK_WIDTH_UNITS) as (z & Hz & E).
  - apply G_no_split.
    + eapply columnHoldsWidth_Qeq; [|exact H4]. reflexivity.
    + eapply columnHoldsWidth_Qeq; [|exact H12]. reflexivity.
  - exists z. split; [exact Hz|]. rewrite E, half_width. reflexivity.
Qed.

(** One centre per column of the grid, inside the column. *)
Lemma columnCenters_parsed :
  length (columnCenters O) = W /\
  forall c m, columnCenters O !! c = Some m -> inColumn m c.
Proof.
  unfold columnCenters.
  destruct (sortedUniqueCenters O) as [|first rest] eqn:E.
  - destruct (U_covers 0%nat W_pos) as (z & Hz & _). rewrite E in Hz. inversion Hz.
  - apply (columns_of_sorted (first :: rest) W).
    + rewrite <- E. exact U_columns.
    + rewrite <- E. exact U_covers.
    + rewrite <- E. exact U_no_split.
    + reflexivity.
    + rewrite <- E. apply sort_Qminus_sorted.
    + exact W_pos.
Qed.

(** ** Placing the desks of a parsed row *)

Lemma placeDesk_free columnCenters n rowIndex newRow pm desk c :
  (bestColumn columnCenters (horizontalCenter desk)).1 = Some c ->
  newRow !! c = Some "--" ->
  placeDesk columnCenters n rowIndex (newRow, pm) desk =
    (<[c := LO.type desk]> newRow, <[positionKey rowIndex c := LO.id desk]> pm).
Proof.
  intros Hb Hc. unfold placeDesk. simpl. rewrite Hb. unfold isFree. now rewrite Hc.
Qed.

Lemma place_parsed_row r cells : forall k done pm,
  (length done + length cells = W)%nat -> Forall layoutCell cells ->
  (fold_left (placeDesk (columnCenters O) W r)
     (parsedFrom k (rowCellsFrom r (length done) cells))
     (done ++ replicate (length cells) "--", pm)).1 = done ++ cells.
Proof.
  destruct columnCenters_parsed as [Hlen Hms].
  induction cells as [|t cells IH]; intros k done pm HW Hcells; [reflexivity|].
  inversion_clear Hcells as [|? ? Ht Hcells'].
  assert (length (done ++ [t]) = S (length done)) as Hlen'
    by (rewrite length_app; simpl; lia).
  assert (length (done ++ [t]) + length cells = W)%nat as HW'
    by (rewrite Hlen'; simpl in HW; lia).
  simpl. rewrite (layoutCell_isDeskText t Ht).
  destruct (String.eqb_spec t "--") as [->|Hne]; simpl.
  - specialize (IH k (done ++ ["--"]) pm HW' Hcells'). rewrite Hlen' in IH.
    rewrite <- !app_assoc in IH. exact IH.
  - rewrite (placeDesk_free _ _ _ _ _ _ (length done)).
    + simpl. rewrite (layoutCell_trim t Ht).
      rewrite insert_app_r_alt by lia. rewrite Nat.sub_diag. simpl.
      specialize (IH (S k) (done ++ [t]) (<[positionKey r (length done) := "desk-initial-" +:+ JS.string_of_nat k]> pm) HW' Hcells').
      rewrite Hlen' in IH. rewrite <- !app_assoc in IH. exact IH.
    + apply bestColumn_inColumn; [exact Hms| |apply parsedDesk_inColumn].
      rewrite Hlen. simpl in HW. lia.
    + rewrite lookup_app_r by lia. now rewrite Nat.sub_diag.
Qed.

Lemma buildRow_parsed r row k pm :
  length row = W -> Forall layoutCell row ->
  (buildRow (columnCenters O) W r (parsedFrom k (rowCellsFrom r 0 row)) pm).1 = row.
Proof.
  intros Hlen Hcells. unfold buildRow.
  pose proof (place_parsed_row r row k [] pm ltac:(simpl; lia) Hcells) as H.
  simpl in H. rewrite Hlen in H. exact H.
Qed.

Lemma buildGrid_parsed_from G' : forall k r grid pm,
  Forall (fun row => length row = W /\ Forall layoutCell row) G' ->
  (JS.forEachFrom (gridStep (columnCenters O) W) r (parsedRows k r G') (grid, pm)).1
  = grid ++ G'.
Proof.
  induction G' as [|row G' IH]; intros k r grid pm HG'; simpl.
  - now rewrite app_nil_r.
  - inversion_clear HG' as [|? ? [Hlen Hcells] HG''].
    unfold gridStep at 2. simpl.
    rewrite (buildRow_parsed r row k pm Hlen Hcells).
    rewrite IH by exact HG''. now rewrite <- app_assoc.
Qed.

Lemma padRows_id (grid : list (list string)) n :
  Forall (fun row => length row = n) grid -> padRows grid = grid.
Proof.
  intros H. unfold padRows. rewrite <- (map_id grid) at 2. apply map_ext_in.
  intros row Hrow. apply list_elem_of_In in Hrow.
  assert (maxRowLength grid <= n)%nat as Hmax.
  { unfold maxRowLength.
    assert (forall l m, (m <= n)%nat -> Forall (fun row : list string => length row = n) l ->
              (fold_left (fun max row => Nat.max max (length row)) l m <= n)%nat) as Hf.
    { induction l as [|x l IHl]; intros m Hm Hl; simpl; [exact Hm|].
      inversion_clear Hl as [|? ? Hx Hl']. apply IHl; [lia|exact Hl']. }
    apply Hf; [lia|exact H]. }
  rewrite Forall_forall in H. rewrite (H row Hrow).
  replace (maxRowLength grid - n)%nat with 0%nat by lia. apply app_nil_r.
Qed.

(** The conversion of the parsed objects gives the grid back. *)
Lemma convert_parsed :
  layout (convertObjectsToLayoutMatrix O) = G /\
  matrix (convertObjectsToLayoutMatrix O) = serializeGrid G.
Proof.
  rewrite convert_eq by exact O_not_nil. simpl.
  destruct columnCenters_parsed as [Hlen _].
  assert (numCols (columnCenters O) = W) as ->.
  { unfold numCols. rewrite Hlen. destruct W; [lia|reflexivity]. }
  rewrite (groupRows_parsed G G_rows).
  unfold buildGrid, JS.forEach. rewrite buildGrid_parsed_from by exact G_cells. simpl.
  rewrite (padRows_id G W); [auto|].
  eapply Forall_impl; [exact G_cells|]. now intros row [H _].
Qed.

End ParsedGrid.


(** * Every column of a layout holds a desk *)

(** ** The occupied columns of a row *)

Lemma occupied_insert row c i t :
  occupied row c -> t <> "--" -> occupied (<[i := t]> row) c.
Proof.
  intros (t0 & E & Ht0) Ht. destruct (decide (i = c)) as [->|Hne].
  - exists t. split; [|exact Ht]. apply list_lookup_insert_eq. now apply lookup_lt_Some in E.
  - exists t0. split; [|exact Ht0]. now rewrite list_lookup_insert_ne.
Qed.

Lemma occupied_app row c l : occupied row c -> occupied (row ++ l) c.
Proof.
  intros (t & E & Ht). exists t. split; [|exact Ht].
  rewrite lookup_app_l; [exact E|]. now apply lookup_lt_Some in E.
Qed.

Lemma occupied_snoc row t : t <> "--" -> occupied (row ++ [t]) (length row).
Proof.
  intros Ht. exists t. split; [|exact Ht]. rewrite lookup_app_r by lia.
  now rewrite Nat.sub_diag.
Qed.

Lemma occupied_at row c t : (c < length row)%nat -> t <> "--" -> occupied (<[c := t]> row) c.
Proof. intros Hc Ht. exists t. split; [|exact Ht]. now apply list_lookup_insert_eq. Qed.

Lemma occupied_lt row c : occupied row c -> (c < length row)%nat.
Proof. intros (t & E & _). now apply lookup_lt_Some in E. Qed.

Lemma not_free_occupied row i :
  (i < length row)%nat -> isFree row i = false -> occupied row i.
Proof.
  intros Hi. unfold isFree. destruct (row !! i) as [t|] eqn:E.
  - intros H. exists t. split; [exact E|]. now apply String.eqb_neq.
  - discriminate.
Qed.

Lemma bestColumn_Some_lt columnCenters v b :
  (bestColumn columnCenters v).1 = Some b -> (b < length columnCenters)%nat.
Proof.
  destruct columnCenters as [|c l]; [discriminate|]. intros H.
  destruct (bestColumn_lt (c :: l) v) as (best & E & Hlt); [congruence|].
  rewrite E in H. now inversion H; subst.
Qed.

Section PlaceDesk.
Variables (columnCenters : list Q) (n rowIndex : nat).
Variable desk : LayoutObject.
Hypothesis desk_type : LO.type desk <> "--".

Lemma placeDesk_occupied newRow pm c :
  occupied newRow c ->
  occupied (placeDesk columnCenters n rowIndex (newRow, pm) desk).1 c.
Proof.
  intros H. unfold placeDesk. simpl.
  destruct (bestColumn columnCenters (horizontalCenter desk)).1 as [best|]; [|exact H].
  destruct (isFree newRow best); simpl; [now apply occupied_insert|].
  destruct (List.find (isFree newRow) (seq 0 n)); simpl;
    [now apply occupied_insert|now apply occupied_app].
Qed.

Lemma placeDesk_best newRow pm b :
  (bestColumn columnCenters (horizontalCenter desk)).1 = Some b ->
  (b < length newRow)%nat ->
  occupied (placeDesk columnCenters n rowIndex (newRow, pm) desk).1 b.
Proof.
  intros Hb Hlt. unfold placeDesk. simpl. rewrite Hb.
  destruct (isFree newRow b) eqn:Efree; simpl; [now apply occupied_at|].
  pose proof (not_free_occupied newRow b Hlt Efree) as Hocc.
  destruct (List.find (isFree newRow) (seq 0 n)); simpl;
    [now apply occupied_insert|now apply occupied_app].
Qed.

Lemma placeDesk_tail newRow pm :
  (forall c, (n <= c < length newRow)%nat -> occupied newRow c) ->
  forall c, (n <= c < length (placeDesk columnCenters n rowIndex (newRow, pm) desk).1)%nat ->
    occupied (placeDesk columnCenters n rowIndex (newRow, pm) desk).1 c.
Proof.
  intros H c. unfold placeDesk. simpl.
  destruct (bestColumn columnCenters (horizontalCenter desk)).1 as [best|]; [|apply H].
  destruct (isFree newRow best); simpl.
  { rewrite length_insert. intros Hc. apply occupied_insert; [now apply H|exact desk_type]. }
  destruct (List.find (isFree newRow) (seq 0 n)); simpl.
  { rewrite length_insert. intros Hc. apply occupied_insert; [now apply H|exact desk_type]. }
  rewrite length_app. simpl. intros Hc.
  destruct (decide (c = length newRow)) as [->|Hne]; [now apply occupied_snoc|].
  apply occupied_app, H. lia.
Qed.

End PlaceDesk.

Lemma placeRow_full columnCenters n rowIndex row :
  n = length columnCenters ->
  Forall (fun d => LO.type d <> "--") row ->
  forall newRow pm,
    (n <= length newRow)%nat ->
    (forall c, (n <= c < length newRow)%nat -> occupied newRow c) ->
    let res := (fold_left (placeDesk columnCenters n rowIndex) row (newRow, pm)).1 in
    (forall c, occupied newRow c -> occupied res c) /\
    (forall d b, d ∈ row -> (bestColumn columnCenters (horizontalCenter d)).1 = Some b ->
       occupied res b) /\
    (forall c, (n <= c < length res)%nat -> occupied res c).
Proof.
  intros Hn Hrow. induction Hrow as [|d row Ht _ IH]; intros newRow pm Hlen Htail; simpl.
  - split; [auto|]. split; [|exact Htail]. intros d b H. inversion H.
  - destruct (placeDesk columnCenters n rowIndex (newRow, pm) d) as [newRow' pm'] eqn:E.
    assert (newRow' = (placeDesk columnCenters n rowIndex (newRow, pm) d).1) as E1
      by now rewrite E.
    assert (n <= length newRow')%nat as Hlen'.
    { pose proof (placeDesk_length columnCenters n rowIndex newRow pm d). rewrite E1. lia. }
    destruct (IH newRow' pm' Hlen') as (H1 & H2 & H3).
    { rewrite E1. now apply placeDesk_tail. }
    split; [|split; [|exact H3]].
    + intros c Hc. apply H1. rewrite E1. now apply placeDesk_occupied.
    + intros d' b Hd' Hb. apply elem_of_cons in Hd' as [->|Hd']; [|now apply (H2 d')].
      apply H1. rewrite E1. apply placeDesk_best; [exact Ht|exact Hb|].
      apply bestColumn_Some_lt in Hb. lia.
Qed.

Lemma buildRow_full columnCenters n rowIndex row pm :
  n = length columnCenters ->
  Forall (fun d => LO.type d <> "--") row ->
  let res := (buildRow columnCenters n rowIndex row pm).1 in
  (forall d b, d ∈ row -> (bestColumn columnCenters (horizontalCenter d)).1 = Some b ->
     occupied res b) /\
  (forall c, (n <= c < length res)%nat -> occupied res c).
Proof.
  intros Hn Hrow. unfold buildRow.
  destruct (placeRow_full columnCenters n rowIndex row Hn Hrow (replicate n "--") pm)
    as (_ & H2 & H3).
  - now rewrite length_replicate.
  - rewrite length_replicate. intros c Hc. lia.
  - split; [exact H2|exact H3].
Qed.

(** ** The rows of the grid *)

Lemma gridStep_rows columnCenters n rows : forall i grid pm,
  exists built,
    (JS.forEachFrom (gridStep columnCenters n) i rows (grid, pm)).1 = grid ++ built /\
    Forall2 (fun row newRow => exists r pm', newRow = (buildRow columnCenters n r row pm').1)
            rows built.
Proof.
  induction rows as [|row rows IH]; intros i grid pm; simpl.
  - exists []. split; [now rewrite app_nil_r|constructor].
  - unfold gridStep at 2. simpl.
    destruct (IH (S i) (grid ++ [(buildRow columnCenters n i row pm).1])
                 (buildRow columnCenters n i row pm).2) as (built & E & HF).
    exists ((buildRow columnCenters n i row pm).1 :: built). split.
    + rewrite E. now rewrite <- app_assoc.
    + constructor; [now exists i, pm|exact HF].
Qed.

Lemma buildGrid_rows columnCenters n rows :
  Forall2 (fun row newRow => exists r pm', newRow = (buildRow columnCenters n r row pm').1)
          rows (buildGrid columnCenters n rows).1.
Proof.
  unfold buildGrid, JS.forEach.
  destruct (gridStep_rows columnCenters n rows 0 [] ∅) as (built & E & HF).
  now rewrite E.
Qed.


(** ** The clusters of the centres *)

Lemma clusterFrom_clusters rest : forall cur,
  clusterFrom cur rest = map clusterCenter (clustersFrom cur rest).
Proof.
  induction rest as [|c rest IH]; intros cur; simpl; [reflexivity|].
  destruct (JS.Qlt_bool _ _); simpl; now rewrite IH.
Qed.

Lemma last_elem_of {A} (l : list A) d : l <> [] -> List.last l d ∈ l.
Proof.
  induction l as [|a l IH]; [congruence|]. intros _.
  destruct l as [|b l]; [now left|].
  change (List.last (a :: b :: l) d) with (List.last (b :: l) d).
  right. apply IH. congruence.
Qed.

Lemma Tight_snoc cur c :
  cur <> [] -> Tight cur ->
  (List.last cur 0 <= c)%Q -> (c - List.last cur 0 < DESK_WIDTH_UNITS / 2)%Q ->
  Tight (cur ++ [c]).
Proof.
  induction cur as [|a cur IH]; [congruence|]. intros _ Ht Hle Hgap.
  destruct cur as [|b cur].
  - simpl in *. auto.
  - destruct Ht as (Hab & Hgab & Ht'). change (Tight (a :: (b :: cur) ++ [c])).
    simpl. split; [exact Hab|]. split; [exact Hgab|].
    apply IH; [congruence|exact Ht'|exact Hle|exact Hgap].
Qed.

Lemma sorted_le_last cur x :
  StronglySorted (before Qminus) cur -> x ∈ cur -> (x <= List.last cur 0)%Q.
Proof.
  revert x. induction cur as [|a cur IH]; intros x Hs Hx; [inversion Hx|].
  apply StronglySorted_inv in Hs as [Hs Hall].
  destruct cur as [|b cur].
  - apply list_elem_of_singleton in Hx. subst. simpl. lra.
  - change (List.last (a :: b :: cur) 0%Q) with (List.last (b :: cur) 0%Q).
    apply elem_of_cons in Hx as [->|Hx]; [|now apply IH].
    rewrite Forall_forall in Hall.
    assert (a <= b)%Q as Hab by (apply Qminus_before, Hall; now left).
    assert (b <= List.last (b :: cur) 0)%Q by (apply IH; [exact Hs|now left]). lra.
Qed.

Lemma sorted_app_inv (l1 l2 : list Q) :
  StronglySorted (before Qminus) (l1 ++ l2) ->
  StronglySorted (before Qminus) l1 /\ StronglySorted (before Qminus) l2 /\
  forall x y, x ∈ l1 -> y ∈ l2 -> (x <= y)%Q.
Proof.
  induction l1 as [|a l1 IH]; simpl; intros Hs.
  - split; [constructor|]. split; [exact Hs|]. intros x y Hx. inversion Hx.
  - apply StronglySorted_inv in Hs as [Hs Hall].
    destruct (IH Hs) as (H1 & H2 & H3). rewrite Forall_forall in Hall.
    split; [|split; [exact H2|]].
    + constructor; [exact H1|]. apply Forall_forall. intros x Hx. apply Hall.
      apply elem_of_app. now left.
    + intros x y Hx Hy. apply elem_of_cons in Hx as [->|Hx]; [|now apply H3].
      apply Qminus_before, Hall. apply elem_of_app. now right.
Qed.

Lemma clustersFrom_spec rest : forall cur,
  cur <> [] -> StronglySorted (before Qminus) (cur ++ rest) -> Tight cur ->
  Forall (fun l => l <> [] /\ Tight l) (clustersFrom cur rest) /\
  concat (clustersFrom cur rest) = cur ++ rest /\
  Separated (clustersFrom cur rest).
Proof.
  induction rest as [|c rest IH]; intros cur Hne Hs Ht; simpl.
  - split; [now repeat constructor|]. split; [reflexivity|]. split; [|exact I].
    intros x y _ Hy. inversion Hy.
  - destruct (sorted_app_inv cur (c :: rest) Hs) as (Hs1 & Hs2 & Hle).
    assert (List.last cur 0%Q ∈ cur) as Hlast.
    { now apply last_elem_of. }
    destruct (JS.Qlt_bool (c - List.last cur 0%Q) (DESK_WIDTH_UNITS / 2)) eqn:E.
    + apply Qlt_bool_iff in E.
      destruct (IH (cur ++ [c])) as (H1 & H2 & H3).
      * now destruct cur.
      * now rewrite <- app_assoc.
      * apply Tight_snoc; [exact Hne|exact Ht| |exact E]. apply Hle; [exact Hlast|now left].
      * split; [exact H1|]. split; [|exact H3]. now rewrite H2, <- app_assoc.
    + apply Qlt_bool_false_iff in E.
      destruct (IH [c]) as (H1 & H2 & H3); [congruence|exact Hs2|exact I|].
      split; [constructor; [now split|exact H1]|]. split; [simpl; now rewrite H2|].
      split; [|exact H3]. rewrite H2. simpl. intros x y Hx Hy.
      pose proof (sorted_le_last cur x Hs1 Hx) as Hxl.
      assert (c <= y)%Q as Hcy.
      { apply elem_of_cons in Hy as [->|Hy]; [lra|].
        apply StronglySorted_inv in Hs2 as [_ Hall]. rewrite Forall_forall in Hall.
        now apply Qminus_before, Hall. }
      lra.
Qed.

Lemma Tight_bounds l : forall a,
  Tight (a :: l) ->
  Forall (fun u => (a <= u /\ u <= List.last (a :: l) 0)%Q) (a :: l).
Proof.
  induction l as [|b l IH]; intros a Ht.
  - constructor; [simpl; lra|constructor].
  - destruct Ht as (Hab & _ & Ht'). pose proof (IH b Ht') as HF.
    change (List.last (a :: b :: l) 0%Q) with (List.last (b :: l) 0%Q).
    pose proof (Forall_inv HF) as [_ Hbl]. constructor; [lra|].
    eapply Forall_impl; [exact HF|]. simpl. intros u [H1 H2]. split; lra.
Qed.

Lemma Tight_between l : forall a m,
  Tight (a :: l) -> (a <= m)%Q -> (m <= List.last (a :: l) 0)%Q ->
  exists v, v ∈ a :: l /\ (Qabs (v - m) < DESK_WIDTH_UNITS / 4)%Q.
Proof.
  assert (DESK_WIDTH_UNITS / 4 == 2)%Q as E4 by reflexivity.
  induction l as [|b l IH]; intros a m Ht Ha Hm.
  - simpl in Hm. exists a. split; [now left|].
    rewrite E4. apply Qabs_Qlt_condition. split; lra.
  - destruct Ht as (Hab & Hgap & Ht').
    change (List.last (a :: b :: l) 0%Q) with (List.last (b :: l) 0%Q) in Hm.
    rewrite half_width in Hgap.
    destruct (Qlt_le_dec m b) as [Hmb|Hbm].
    + destruct (Qlt_le_dec (m - a) 2) as [H|H].
      * exists a. split; [now left|].
        rewrite E4. apply Qabs_Qlt_condition. split; lra.
      * exists b. split; [right; now left|].
        rewrite E4. apply Qabs_Qlt_condition. split; lra.
    + destruct (IH b m Ht' Hbm Hm) as (v & Hv & Hd).
      exists v. split; [now right|exact Hd].
Qed.

Lemma Tight_mean l :
  l <> [] -> Tight l ->
  (exists v, v ∈ l /\ (Qabs (v - clusterCenter l) < DESK_WIDTH_UNITS / 4)%Q) /\
  (exists lo hi, lo ∈ l /\ hi ∈ l /\ (lo <= clusterCenter l /\ clusterCenter l <= hi)%Q).
Proof.
  destruct l as [|a l]; [congruence|]. intros _ Ht.
  pose proof (Tight_bounds l a Ht) as HF.
  destruct (clusterCenter_bounds a (List.last (a :: l) 0%Q) (a :: l)) as [H1 H2];
    [congruence|exact HF|].
  split; [now apply Tight_between|].
  exists a, (List.last (a :: l) 0%Q). split; [now left|]. split; [|now split].
  apply last_elem_of. congruence.
Qed.

Lemma Separated_lookup cs : forall i j l l' x y,
  Separated cs -> cs !! i = Some l -> cs !! j = Some l' -> (i < j)%nat ->
  x ∈ l -> y ∈ l' -> (DESK_WIDTH_UNITS / 2 <= y - x)%Q.
Proof.
  induction cs as [|l0 cs IH]; intros i j l l' x y Hsep Hi Hj Hlt Hx Hy.
  - now rewrite lookup_nil in Hi.
  - destruct Hsep as [H0 Hsep]. destruct j as [|j]; [lia|]. simpl in Hj.
    destruct i as [|i]; simpl in Hi.
    + inversion Hi; subst l0. apply H0; [exact Hx|].
      apply elem_of_concat. exists l'. split; [|exact Hy].
      apply list_elem_of_lookup. now exists j.
    + apply (IH i j l l' x y); auto. lia.
Qed.

(** Every cluster holds a centre that is nearer to its mean than to any other
    mean. *)
Lemma cluster_has_nearest first rest c m :
  StronglySorted (before Qminus) (first :: rest) ->
  clusterFrom [first] rest !! c = Some m ->
  exists v, v ∈ first :: rest /\
    forall j m', clusterFrom [first] rest !! j = Some m' -> j <> c ->
      (Qabs (v - m) < Qabs (v - m'))%Q.
Proof.
  intros Hs Hc. rewrite clusterFrom_clusters in *.
  destruct (clustersFrom_spec rest [first]) as (Hall & Hcat & Hsep);
    [congruence|exact Hs|exact I|].
  rewrite Forall_forall in Hall.
  rewrite list_lookup_fmap in Hc.
  destruct (clustersFrom [first] rest !! c) as [l|] eqn:El; [|discriminate].
  simpl in Hc. inversion Hc; subst m. clear Hc.
  destruct (Hall l) as [Hne Ht]; [apply list_elem_of_lookup; now exists c|].
  destruct (Tight_mean l Hne Ht) as ((v & Hv & Hnear) & _).
  exists v. split.
  - change (first :: rest) with ([first] ++ rest). rewrite <- Hcat.
    apply elem_of_concat. exists l. split; [|exact Hv].
    apply list_elem_of_lookup. now exists c.
  - intros j m' Hj Hjc. rewrite list_lookup_fmap in Hj.
    destruct (clustersFrom [first] rest !! j) as [l'|] eqn:El'; [|discriminate].
    simpl in Hj. inversion Hj; subst m'. clear Hj.
    destruct (Hall l') as [Hne' Ht']; [apply list_elem_of_lookup; now exists j|].
    destruct (Tight_mean l' Hne' Ht') as (_ & lo & hi & Hlo & Hhi & Hm1 & Hm2).
    assert (DESK_WIDTH_UNITS / 4 == 2)%Q as E4 by reflexivity.
    rewrite E4 in Hnear.
    assert (4 <= Qabs (v - clusterCenter l'))%Q; [|lra].
    destruct (Nat.lt_total j c) as [H|[H|H]]; [|contradiction|].
    + pose proof (Separated_lookup _ j c l' l hi v Hsep El' El H Hhi Hv) as Hd.
      rewrite half_width in Hd. eapply Qle_trans; [|apply Qle_Qabs]. lra.
    + pose proof (Separated_lookup _ c j l l' v lo Hsep El El' H Hv Hlo) as Hd.
      rewrite half_width in Hd. rewrite <- Qabs_opp.
      eapply Qle_trans; [|apply Qle_Qabs]. lra.
Qed.

(** Every column is the nearest column of some desk. *)
Lemma column_has_desk objects c :
  (c < length (columnCenters objects))%nat ->
  exists d, d ∈ objects /\
    (bestColumn (columnCenters objects) (horizontalCenter d)).1 = Some c.
Proof.
  intros Hc. destruct (lookup_lt_is_Some_2 _ _ Hc) as [m Hm].
  unfold columnCenters in *.
  pose proof (sort_Qminus_sorted (JS.uniqueNumbers (map horizontalCenter objects))) as Hs.
  fold (sortedUniqueCenters objects) in Hs.
  pose proof (sortedUniqueCenters_subset objects) as Hsub.
  destruct (sortedUniqueCenters objects) as [|first rest]; [simpl in Hc; lia|].
  destruct (cluster_has_nearest first rest c m Hs Hm) as (v & Hv & Hfar).
  destruct (Hsub v Hv) as (d & Hd & ->).
  exists d. split; [exact Hd|]. now apply (bestColumn_nearest _ _ c m).
Qed.


(** ** The layout of a set of desks *)

Lemma maxRowLength_attained (grid : list (list string)) c :
  (c < maxRowLength grid)%nat -> exists row, row ∈ grid /\ (c < length row)%nat.
Proof.
  unfold maxRowLength.
  assert (forall m, (c < fold_left (fun max row => Nat.max max (length row)) grid m)%nat ->
            (c < m)%nat \/ exists row : list string, row ∈ grid /\ (c < length row)%nat) as H.
  { induction grid as [|row grid IH]; intros m Hm; simpl in Hm; [now left|].
    destruct (IH _ Hm) as [H|(row' & Hin & Hlt)].
    - destruct (le_lt_dec (length row) c) as [Hle|Hlt]; [left; lia|].
      right. exists row. split; [now left|exact Hlt].
    - right. exists row'. split; [now right|exact Hlt]. }
  intros Hc. destruct (H 0%nat Hc) as [Hlt|Hex]; [lia|exact Hex].
Qed.

Lemma occupied_cellAt (grid : list (list string)) r row c :
  grid !! r = Some row -> occupied row c ->
  exists t, cellAt grid r c = Some t /\ t <> "--".
Proof.
  intros Hr (t & Hc & Ht). exists t. split; [|exact Ht]. unfold cellAt. now rewrite Hr.
Qed.

(** Every column of the grid holds a desk in some row. *)
Lemma buildGrid_columns objects c :
  objects <> [] -> Forall (fun d => LO.type d <> "--") objects ->
  let centers := columnCenters objects in
  let g := buildGrid centers (numCols centers) (groupRows objects) in
  (c < maxRowLength g.1)%nat ->
  exists r t, cellAt g.1 r c = Some t /\ t <> "--".
Proof.
  intros Hne Ht centers g Hc.
  pose proof (columnCenters_not_nil objects Hne) as Hcc. fold centers in Hcc.
  assert (numCols centers = length centers) as Hn.
  { unfold numCols. destruct centers; [congruence|reflexivity]. }
  pose proof (buildGrid_rows centers (numCols centers) (groupRows objects)) as HF.
  fold g in HF.
  pose proof (groupRows_types objects _ Ht) as Hrows. rewrite Forall_forall in Hrows.
  destruct (le_lt_dec (length centers) c) as [Hge|Hlt].
  - destruct (maxRowLength_attained g.1 c Hc) as (newRow & Hin & Hlen).
    apply list_elem_of_lookup in Hin as [r Hr].
    destruct (Forall2_lookup_r _ _ _ _ _ HF Hr) as (row & Hrow & r' & pm' & E).
    exists r. apply (occupied_cellAt g.1 r newRow c Hr). subst newRow.
    apply buildRow_full; [exact Hn| |lia].
    apply Hrows. apply list_elem_of_lookup. now exists r.
  - destruct (column_has_desk objects c Hlt) as (d & Hd & Hb).
    rewrite <- (groupRows_Permutation objects) in Hd.
    apply elem_of_concat in Hd as (row & Hrow & Hdr).
    apply list_elem_of_lookup in Hrow as [r Hr].
    destruct (Forall2_lookup_l _ _ _ _ _ HF Hr) as (newRow & Hnew & r' & pm' & E).
    exists r. apply (occupied_cellAt g.1 r newRow c Hnew). subst newRow.
    apply (buildRow_full centers (numCols centers) r' row pm' Hn) with (d := d).
    + apply Hrows. apply list_elem_of_lookup. now exists r.
    + exact Hdr.
    + exact Hb.
Qed.

Section OriginalLayout.
Variable objects : list LayoutObject.
Hypothesis objects_not_nil : objects <> [].
Hypothesis objects_types :
  Forall (fun d => isTypeCode (LO.type d) = true /\ LO.type d <> "") objects.

#[local] Abbreviation L := (layout (convertObjectsToLayoutMatrix objects)).
#[local] Abbreviation W := (length (default [] (head L))).

Lemma types_not_blank : Forall (fun d => LO.type d <> "--") objects.
Proof.
  eapply Forall_impl; [exact objects_types|]. intros d [H _]. now apply isTypeCode_ne_blank.
Qed.

Lemma layout_cell r c t : cellAt L r c = Some t -> layoutCell t.
Proof.
  destruct (convert_Placed objects objects_not_nil types_not_blank)
    as (P & _ & _ & _ & Hin & _ & Hcell & _).
  intros Hc. destruct (String.eqb_spec t "--") as [->|Hne]; [now left|right].
  destruct (Hcell r c t Hc Hne) as [d Hd].
  destruct (Hin r c d Hd) as ((row & Hrow & Hdr) & Hc' & _).
  rewrite Hc in Hc'. inversion Hc'; subst t.
  pose proof objects_types as Ht. rewrite Forall_forall in Ht. apply Ht.
  rewrite <- (groupRows_Permutation objects). apply elem_of_concat. exists row.
  split; [|exact Hdr]. apply list_elem_of_lookup. now exists r.
Qed.

Lemma layout_cells :
  Forall (fun row => length row = W /\ Forall layoutCell row) L.
Proof.
  apply Forall_forall. intros row Hrow. split.
  - now apply convert_layout_rectangular.
  - apply Forall_forall. intros t Ht.
    apply list_elem_of_lookup in Hrow as [r Hr]. apply list_elem_of_lookup in Ht as [c Hc].
    apply (layout_cell r c). unfold cellAt. now rewrite Hr.
Qed.

Lemma layout_rows : Forall rowHasDesk L.
Proof.
  destruct (convert_Placed objects objects_not_nil types_not_blank)
    as (P & Hlen & _ & _ & Hin & Hrow & _ & _).
  apply Forall_forall. intros row Hr. apply list_elem_of_lookup in Hr as [r Hr].
  pose proof (lookup_lt_Some _ _ _ Hr) as Hlt. rewrite Hlen in Hlt.
  destruct (lookup_lt_is_Some_2 _ _ Hlt) as [drow Hdrow].
  pose proof (groupRows_rows_not_nil objects) as Hnn. rewrite Forall_forall in Hnn.
  assert (drow <> []) as Hne by (apply Hnn, list_elem_of_lookup; now exists r).
  destruct drow as [|d drow]; [congruence|].
  destruct (Hrow r (d :: drow) d Hdrow) as [c Hc]; [now left|].
  destruct (Hin r c d Hc) as (_ & Hcell & Hnb).
  exists (LO.type d). unfold cellAt in Hcell. rewrite Hr in Hcell. simpl in Hcell. split.
  - apply list_elem_of_lookup. now exists c.
  - rewrite layoutCell_isDeskText.
    + now apply negb_true_iff, String.eqb_neq.
    + apply (layout_cell r c). unfold cellAt. now rewrite Hr.
Qed.

Lemma layout_not_nil : L <> [].
Proof.
  destruct (convert_Placed objects objects_not_nil types_not_blank) as (P & Hlen & _).
  pose proof (groupRows_not_nil objects objects_not_nil) as Hne.
  intros E. rewrite E in Hlen. destruct (groupRows objects); [congruence|discriminate].
Qed.

Lemma layout_width_pos : (0 < W)%nat.
Proof.
  pose proof layout_not_nil as Hne. destruct L as [|row rest] eqn:E; [congruence|].
  destruct (convert_layout_rectangular objects row) as [_ H]; [rewrite E; now left|].
  simpl. lia.
Qed.

Lemma layout_columns c :
  (c < W)%nat -> exists r t, cellAt L r c = Some t /\ t <> "--".
Proof.
  intros Hc.
  pose proof layout_not_nil as Hne.
  pose proof (buildGrid_columns objects c objects_not_nil types_not_blank) as Hcols.
  rewrite convert_eq in * by exact objects_not_nil. simpl in *.
  set (g := buildGrid _ _ _) in *.
  destruct (padRows g.1) as [|row rest] eqn:E; [congruence|]. simpl in Hc.
  assert (length row = maxRowLength g.1) as Hlen.
  { apply padRows_rectangular. rewrite E. now left. }
  destruct Hcols as (r & t & Hcell & Ht); [lia|].
  exists r, t. split; [|exact Ht]. rewrite <- E. apply cellAt_padRows. now left.
Qed.

Lemma layout_rows_not_nil :
  Forall (fun row => row <> [] /\ Forall layoutCell row) L.
Proof.
  eapply Forall_impl; [exact layout_cells|]. intros row [Hlen Hc]. split; [|exact Hc].
  pose proof layout_width_pos. intros ->. simpl in Hlen. lia.
Qed.

Lemma matrix_serializeGrid :
  matrix (convertObjectsToLayoutMatrix objects) = serializeGrid L.
Proof. now rewrite convert_eq by exact objects_not_nil. Qed.

(** Parsing the matrix gives the desks of the cells of the layout, in
    reading order. *)
Lemma parse_matrix :
  parseLayoutMatrixToObjects (matrix (convertObjectsToLayoutMatrix objects)) =
  parsedFrom 0 (gridCells L).
Proof.
  rewrite matrix_serializeGrid.
  apply parse_serializeGrid; [exact layout_not_nil|exact layout_rows_not_nil].
Qed.

End OriginalLayout.

Lemma parsedFrom_types cells : forall k,
  Forall (fun cell => layoutCell (snd cell)) cells ->
  map LO.type (parsedFrom k cells) =
  List.filter (fun t => negb (String.eqb t "--")) (map snd cells).
Proof.
  induction cells as [|cell cells IH]; intros k H; [reflexivity|].
  inversion_clear H as [|? ? Hc Hcells]. simpl.
  rewrite (layoutCell_isDeskText _ Hc).
  destruct (negb (String.eqb (snd cell) "--")); simpl; [|now apply IH].
  rewrite (layoutCell_trim _ Hc). f_equal. now apply IH.
Qed.

(** The type codes of the parsed desks are the type codes of the desks. *)
Lemma parse_matrix_types objects :
  Forall (fun d => isTypeCode (LO.type d) = true /\ LO.type d <> "") objects ->
  Permutation
    (map LO.type (parseLayoutMatrixToObjects (matrix (convertObjectsToLayoutMatrix objects))))
    (map LO.type objects).
Proof.
  intros Ht. destruct objects as [|d0 objects]; [reflexivity|].
  rewrite parse_matrix by (congruence || exact Ht).
  rewrite parsedFrom_types.
  - rewrite gridCells_values. apply layout_desk_cells.
    apply types_not_blank. exact Ht.
  - apply Forall_forall. intros [[r c] t] Hin. apply elem_of_gridCells in Hin.
    simpl. apply (layout_cell (d0 :: objects)) with (r := r) (c := c);
      [congruence|exact Ht|exact Hin].
Qed.

(** Converting the parsed desks gives the layout and the matrix back when no
    column is split. *)
Lemma convert_parse_matrix objects :
  objects <> [] ->
  Forall (fun d => isTypeCode (LO.type d) = true /\ LO.type d <> "") objects ->
  noSplitColumn (layout (convertObjectsToLayoutMatrix objects)) ->
  let parsed :=
    parseLayoutMatrixToObjects (matrix (convertObjectsToLayoutMatrix objects)) in
  layout (convertObjectsToLayoutMatrix parsed) =
    layout (convertObjectsToLayoutMatrix objects) /\
  matrix (convertObjectsToLayoutMatrix parsed) =
    matrix (convertObjectsToLayoutMatrix objects).
Proof.
  intros Hne Ht Hsplit parsed. unfold parsed.
  rewrite (parse_matrix objects Hne Ht), (matrix_serializeGrid objects Hne).
  apply (convert_parsed _ _ (layout_cells objects Hne Ht) (layout_rows objects Hne Ht)
           (layout_columns objects Hne Ht) Hsplit (layout_width_pos objects Hne Ht)).
Qed.


(** * The round trip *)

(** C2, as worded, fails.  A single desk centred behind a triple desk is a
    layout the editor produces with two drops of palette desks; the desks
    do not overlap.  Their centres are 2 units apart, so both go to one
    column and the matrix is ["1" / "111"].  Parsed back, both desks start at
    the left edge of the column, their centres are 4 units apart, and the
    conversion gives them a column each: ["1,--" / "--,111"]. *)
Lemma C2_centred_desk_splits_the_column :
  dropNew "111" (DESK_WIDTH_UNITS + DESK_WIDTH_UNITS / 2) 96 128 2
    (dropNew "1" (DESK_WIDTH_UNITS / 2) 64 32 1 []) = centredDesks /\
  handAuthored centredDesks /\
  nonOverlapping centredDesks /\
  matrix (convertObjectsToLayoutMatrix centredDesks) = "1" +:+ String JS.LF "111" /\
  matrix (convertObjectsToLayoutMatrix (roundTrip centredDesks)) =
    "1,--" +:+ String JS.LF "--,111" /\
  ~ roundTripStable centredDesks.
Proof.
  split; [vm_compute; reflexivity|]. split; [|split; [|split; [|split]]].
  - split.
    + constructor; [|constructor; [|constructor]].
      * split; [|exists 2%nat, 0%nat; split; reflexivity].
        exists {| p_type := "1"; p_name := "Jednolavice";
                  p_width := DESK_WIDTH_UNITS / 2; p_height := DESK_HEIGHT_UNITS |}.
        split; [now left|]. repeat split.
      * split; [|exists 0%nat, 6%nat; split; reflexivity].
        exists {| p_type := "111"; p_name := "Trojlavice";
                  p_width := DESK_WIDTH_UNITS + (DESK_WIDTH_UNITS / 2);
                  p_height := DESK_HEIGHT_UNITS |}.
        split; [right; right; now left|]. repeat split.
    + apply NoDup_cons. split; [|apply NoDup_singleton].
      intros H. apply list_elem_of_singleton in H. discriminate H.
  - intros i j a b Hi Hj Hij (px & py & (_ & _ & Ha1 & Ha2) & (_ & _ & Hb1 & Hb2)).
    destruct i as [|[|i]], j as [|[|j]]; simpl in Hi, Hj; try discriminate; try lia;
      inversion Hi; inversion Hj; subst a b;
      unfold singleDesk, tripleDesk, DESK_HEIGHT_UNITS in *; simpl in *; lra.
  - vm_compute. reflexivity.
  - vm_compute. reflexivity.
  - intros (_ & _ & H). vm_compute in H. discriminate H.
Qed.

(** C2, amended.  For desks whose type codes are non-empty strings over
    {0,1}, parsing the matrix back gives as many desks, with the same type
    codes; and when no column of the layout holds a desk of half width and a
    desk of one and a half width without a desk of full width, the conversion
    of the parsed desks gives the same layout and the same matrix. *)
Theorem C2_round_trip_without_split_columns (objects : list LayoutObject) :
  Forall (fun d => isTypeCode (LO.type d) = true /\ LO.type d <> "") objects ->
  length (roundTrip objects) = length objects /\
  Permutation (map LO.type (roundTrip objects)) (map LO.type objects) /\
  (noSplitColumn (layout (convertObjectsToLayoutMatrix objects)) ->
   layout (convertObjectsToLayoutMatrix (roundTrip objects)) =
     layout (convertObjectsToLayoutMatrix objects) /\
   matrix (convertObjectsToLayoutMatrix (roundTrip objects)) =
     matrix (convertObjectsToLayoutMatrix objects)).
Proof.
  intros Ht. pose proof (parse_matrix_types objects Ht) as Hperm. fold (roundTrip objects) in Hperm.
  split; [|split; [exact Hperm|]].
  - apply Permutation_length in Hperm. now rewrite !length_map in Hperm.
  - intros Hsplit. destruct objects as [|d0 objects]; [split; reflexivity|].
    apply convert_parse_matrix; [congruence|exact Ht|exact Hsplit].
Qed.


(** * The theorems on the example layouts *)

Lemma centredDesks_ids : NoDup (map LO.id centredDesks).
Proof.
  apply NoDup_cons. split; [|apply NoDup_singleton].
  intros H. apply list_elem_of_singleton in H. discriminate H.
Defined.

Lemma centredDesks_ids_not_empty : Forall (fun d => LO.id d <> "") centredDesks.
Proof. repeat constructor; discriminate. Defined.

Lemma centredDesks_types : Forall (fun d => isTypeCode (LO.type d) = true) centredDesks.
Proof. repeat constructor. Defined.

Lemma centredDesks_not_blank : Forall (fun d => LO.type d <> "--") centredDesks.
Proof. repeat constructor; discriminate. Defined.

(** The single desk is the back row, the triple desk the front row. *)
Lemma C1_rows_are_listed_back_to_front_witness :
  let m := convertObjectsToLayoutMatrix centredDesks in
  let lines := JS.split JS.LF (matrix m) in
  physicalRow [singleDesk] /\ physicalRow [tripleDesk] /\
  inFrontOf [tripleDesk] [singleDesk] /\
  (2 <= length lines)%nat /\
  (forall b, b ∈ [singleDesk] -> appearsInLine m b 0) /\
  (forall f, f ∈ [tripleDesk] -> appearsInLine m f (length lines - 1)).
Proof.
  intros m lines.
  assert (physicalRow [singleDesk]) as Hback.
  { intros a b Ha Hb. apply list_elem_of_singleton in Ha, Hb. subst a b. reflexivity. }
  assert (physicalRow [tripleDesk]) as Hfront.
  { intros a b Ha Hb. apply list_elem_of_singleton in Ha, Hb. subst a b. reflexivity. }
  assert (inFrontOf [tripleDesk] [singleDesk]) as Hin.
  { intros f b Hf Hb. apply list_elem_of_singleton in Hf, Hb. subst f b.
    split; [reflexivity|]. intros H. vm_compute in H. discriminate H. }
  split; [exact Hback|]. split; [exact Hfront|]. split; [exact Hin|].
  destruct (C1_rows_are_listed_back_to_front centredDesks [singleDesk] [] [tripleDesk])
    as (H1 & H2 & H3 & _).
  - reflexivity.
  - discriminate.
  - discriminate.
  - exact centredDesks_ids.
  - exact centredDesks_types.
  - exact Hback.
  - exact Hfront.
  - exact Hin.
  - exact Hin.
  - split; [exact H1|]. split; [exact H2|exact H3].
Defined.

Lemma C3_rectangular_grid_and_one_cell_per_desk_witness :
  let m := convertObjectsToLayoutMatrix centredDesks in
  NoDup (map LO.id centredDesks) /\
  forall d, d ∈ centredDesks ->
    exists r c,
      positionMap m !! positionKey r c = Some (LO.id d) /\
      cellAt (layout m) r c = Some (LO.type d) /\
      forall k, positionMap m !! k = Some (LO.id d) -> k = positionKey r c.
Proof.
  split; [exact centredDesks_ids|].
  exact (proj2 (proj2 (C3_rectangular_grid_and_one_cell_per_desk centredDesks
                         centredDesks_ids centredDesks_not_blank))).
Defined.

(** The layout ["1"] with the roster Alice, Bob. *)
Lemma C6_generation_request_refused_locally_witness :
  App.finalArrangement oneSeatRequest = None /\
  App.studentListOf (App.students oneSeatRequest) = ["Alice"; "Bob"] /\
  App.availableSeats (App.layoutObjects oneSeatRequest) = 1%Z /\
  App.handleGenerateClick oneSeatRequest =
    App.Returned
      (refused oneSeatRequest
         "Nedostatek míst. Počet žáků (2) přesahuje počet dostupných míst (1).").
Proof.
  split; [reflexivity|]. split; [vm_compute; reflexivity|].
  split; [vm_compute; reflexivity|].
  destruct (C6_generation_request_refused_locally oneSeatRequest)
    as (_ & _ & H & _).
  destruct H as [_ H].
  - reflexivity.
  - vm_compute. discriminate.
  - assert (map LO.type (App.layoutObjects oneSeatRequest) = ["1"]) as E
      by (vm_compute; reflexivity).
    destruct (App.layoutObjects oneSeatRequest) as [|d [|d' l]]; try discriminate E.
    inversion E as [Ed]. constructor; [|constructor]. rewrite Ed.
    split; [reflexivity|discriminate].
  - rewrite H.
    + vm_compute. reflexivity.
    + vm_compute. discriminate.
    + vm_compute. reflexivity.
Defined.

(** The centred desks with a seat list for each: the string is kept, [null]
    and the number 3 become [null]. *)
Lemma C8_seating_result_is_projected_witness :
  let pm := positionMap (convertObjectsToLayoutMatrix centredDesks) in
  let rows := [[JS.Arr [JS.Str "Alice"]]; [JS.Arr [JS.Str "Bob"; JS.Null; JS.Num 3]]] in
  exists populated,
    App.applySeating centredDesks pm (map JS.Arr rows) = JS.Normal populated /\
    length populated = length centredDesks /\
    map LO.students populated =
      [Some [Some "Alice"]; Some [Some "Bob"; None; None]] /\
    map LO.id populated = ["desk-1"; "desk-2"].
Proof.
  intros pm rows.
  destruct (C8_seating_result_is_projected centredDesks rows
              centredDesks_ids centredDesks_ids_not_empty centredDesks_not_blank)
    as ((populated & H1 & H2 & _) & _).
  exists populated. split; [exact H1|]. split; [exact H2|].
  fold pm in H1.
  assert (App.applySeating centredDesks pm (map JS.Arr rows) =
          JS.Normal [App.withStudents singleDesk [Some "Alice"];
                     App.withStudents tripleDesk [Some "Bob"; None; None]]) as E
    by (vm_compute; reflexivity).
  rewrite E in H1. inversion H1. split; reflexivity.
Defined.

(** A new double desk dropped on the double desk of the editor. *)
Lemma C9_colliding_drop_is_a_silent_noop_witness :
  let e := dropAt 64 32 2 in
  let st := dragging (dragNew "11" DESK_WIDTH_UNITS) [doubleDesk] in
  rectanglesOverlap (Editor.newDeskOf (dragNew "11" DESK_WIDTH_UNITS) e 0 0) doubleDesk /\
  Editor.handleDrop e st =
    {| Editor.layoutObjects := [doubleDesk];
       Editor.dragData := Editor.dragData st;
       Editor.console := ["Collision detected!"] |}.
Proof.
  intros e st.
  assert (rectanglesOverlap (Editor.newDeskOf (dragNew "11" DESK_WIDTH_UNITS) e 0 0)
                            doubleDesk) as Hov.
  { exists 0%Q, 0%Q. vm_compute. repeat split; intros H; discriminate H. }
  split; [exact Hov|].
  refine (proj1 (C9_colliding_drop_is_a_silent_noop e st (dragNew "11" DESK_WIDTH_UNITS)
                   0 0 doubleDesk eq_refl eq_refl _ _ Hov)).
  - now left.
  - discriminate.
Defined.

(** The classroom has no split column, and its matrix comes back. *)
Lemma C2_round_trip_without_split_columns_witness :
  noSplitColumn (layout (convertObjectsToLayoutMatrix classroom)) /\
  length (roundTrip classroom) = length classroom /\
  matrix (convertObjectsToLayoutMatrix (roundTrip classroom)) =
    matrix (convertObjectsToLayoutMatrix classroom).
Proof.
  assert (noSplitColumn (layout (convertObjectsToLayoutMatrix classroom))) as Hsplit.
  { assert (layout (convertObjectsToLayoutMatrix classroom) =
            [["11"; "1"]; ["111"; "--"]]) as -> by (vm_compute; reflexivity).
    intros c (r4 & t4 & Hc4 & Ht4 & Hw4) (r12 & t12 & Hc12 & Ht12 & Hw12).
    destruct c as [|[|c]].
    - exists 0%nat, "11". split; [reflexivity|]. split; [discriminate|reflexivity].
    - exfalso. destruct r12 as [|[|r12]]; simpl in Hc12; try discriminate Hc12;
        inversion Hc12; subst t12; [vm_compute in Hw12; discriminate Hw12|congruence].
    - exfalso. destruct r4 as [|[|r4]]; simpl in Hc4; discriminate Hc4. }
  split; [exact Hsplit|].
  destruct (C2_round_trip_without_split_columns classroom) as (H1 & _ & H3).
  - repeat constructor; discriminate.
  - split; [exact H1|]. exact (proj2 (H3 Hsplit)).
Defined.


(** * The editor: drops, removals, rotations and seat clicks *)

Lemma overlaps_sym a b : Editor.overlaps a b = Editor.overlaps b a.
Proof.
  unfold Editor.overlaps.
  destruct (JS.Qlt_bool (LO.x a) (LO.x b + LO.width b)),
           (JS.Qlt_bool (LO.x b) (LO.x a + LO.width a)),
           (JS.Qlt_bool (LO.y a) (LO.y b + LO.height b)),
           (JS.Qlt_bool (LO.y b) (LO.y a + LO.height a)); reflexivity.
Qed.

Lemma overlaps_ext a a' b :
  LO.x a = LO.x a' -> LO.y a = LO.y a' ->
  LO.width a = LO.width a' -> LO.height a = LO.height a' ->
  Editor.overlaps a b = Editor.overlaps a' b.
Proof. unfold Editor.overlaps. now intros -> -> -> ->. Qed.

Lemma checkCollision_false_inv newDesk existingDesks o :
  Editor.checkCollision newDesk existingDesks = false ->
  o ∈ existingDesks -> LO.id o <> LO.id newDesk ->
  Editor.overlaps newDesk o = false.
Proof.
  intros Hc Hin Hid. induction existingDesks as [|d l IH]; [inversion Hin|].
  simpl in Hc. destruct (String.eqb_spec (LO.id d) (LO.id newDesk)) as [E|NE].
  - apply elem_of_cons in Hin as [->|Hin]; [congruence|now apply IH].
  - destruct (Editor.overlaps newDesk d) eqn:Ed; [discriminate|].
    apply elem_of_cons in Hin as [->|Hin]; [exact Ed|now apply IH].
Qed.

Lemma NoDup_ids_lookup (objects : list LayoutObject) i j a b :
  NoDup (map LO.id objects) ->
  objects !! i = Some a -> objects !! j = Some b -> LO.id a = LO.id b -> i = j.
Proof.
  intros Hnd Hi Hj E.
  apply (NoDup_lookup (LO.id <$> objects) i j (LO.id a) Hnd).
  - now rewrite list_lookup_fmap, Hi.
  - rewrite list_lookup_fmap, Hj. simpl. now rewrite E.
Qed.

Lemma removeDesk_fresh id objects :
  id ∉ map LO.id objects -> LayoutEditor.removeDesk id objects = objects.
Proof.
  intros H. unfold LayoutEditor.removeDesk. apply filter_all.
  intros d Hd. apply negb_true_iff, String.eqb_neq.
  intros E. apply H. apply list_elem_of_fmap. now exists d.
Qed.

Lemma collisionFree_snoc objects newDesk :
  collisionFree objects ->
  (forall o, o ∈ objects -> Editor.overlaps newDesk o = false) ->
  collisionFree (objects ++ [newDesk]).
Proof.
  intros Hcf Hnew i j a b Hi Hj Hij.
  apply lookup_app_Some in Hi as [Hi|[Hi1 Hi2]], Hj as [Hj|[Hj1 Hj2]].
  - now apply (Hcf i j).
  - destruct (j - length objects)%nat eqn:Ej; simpl in Hj2; [|now rewrite lookup_nil in Hj2].
    inversion Hj2; subst b. rewrite overlaps_sym. apply Hnew.
    apply list_elem_of_lookup. now exists i.
  - destruct (i - length objects)%nat eqn:Ei; simpl in Hi2; [|now rewrite lookup_nil in Hi2].
    inversion Hi2; subst a. apply Hnew. apply list_elem_of_lookup. now exists j.
  - destruct (i - length objects)%nat eqn:Ei; simpl in Hi2; [|now rewrite lookup_nil in Hi2].
    destruct (j - length objects)%nat eqn:Ej; simpl in Hj2; [|now rewrite lookup_nil in Hj2].
    lia.
Qed.

Lemma collisionFree_replace objects moved id :
  NoDup (map LO.id objects) -> collisionFree objects ->
  (forall o, o ∈ objects -> LO.id o <> id -> Editor.overlaps moved o = false) ->
  collisionFree (map (fun o => if String.eqb (LO.id o) id then moved else o) objects).
Proof.
  intros Hnd Hcf Hmoved i j a b Hi Hj Hij.
  change (map ?f objects) with (f <$> objects) in Hi, Hj.
  rewrite list_lookup_fmap in Hi, Hj.
  destruct (objects !! i) as [a0|] eqn:Ea; [|discriminate].
  destruct (objects !! j) as [b0|] eqn:Eb; [|discriminate].
  simpl in Hi, Hj. inversion Hi; inversion Hj; subst a b. clear Hi Hj.
  assert (a0 ∈ objects) as Ha by (apply list_elem_of_lookup; now exists i).
  assert (b0 ∈ objects) as Hb by (apply list_elem_of_lookup; now exists j).
  destruct (String.eqb_spec (LO.id a0) id) as [E1|N1],
           (String.eqb_spec (LO.id b0) id) as [E2|N2].
  - exfalso. apply Hij. apply (NoDup_ids_lookup objects i j a0 b0); congruence.
  - now apply Hmoved.
  - rewrite overlaps_sym. now apply Hmoved.
  - now apply (Hcf i j).
Qed.

Lemma find_by_id (objects : list LayoutObject) d :
  NoDup (map LO.id objects) -> d ∈ objects ->
  List.find (fun o => String.eqb (LO.id o) (LO.id d)) objects = Some d.
Proof.
  induction objects as [|a l IH]; intros Hnd Hd; [inversion Hd|].
  simpl in Hnd. apply NoDup_cons in Hnd as [Hnotin Hnd]. simpl.
  destruct (String.eqb_spec (LO.id a) (LO.id d)) as [E|NE].
  - apply elem_of_cons in Hd as [->|Hd]; [reflexivity|].
    exfalso. apply Hnotin. rewrite E. apply list_elem_of_fmap. now exists d.
  - apply elem_of_cons in Hd as [->|Hd]; [congruence|now apply IH].
Qed.

Lemma map_replace_ids (objects : list LayoutObject) moved id :
  LO.id moved = id ->
  map LO.id (map (fun o => if String.eqb (LO.id o) id then moved else o) objects) =
  map LO.id objects.
Proof.
  intros E. rewrite map_map. apply map_ext. intros o.
  destruct (String.eqb_spec (LO.id o) id); congruence.
Qed.

(** The id of the desk [handleDrop] builds. *)
Lemma newDeskOf_id_new d e rectLeft rectTop :
  Editor.id d = None -> LO.id (Editor.newDeskOf d e rectLeft rectTop) = newDeskId (Editor.now e).
Proof. intros H. unfold Editor.newDeskOf. simpl. now rewrite H. Qed.

Lemma newDeskOf_id_old d e rectLeft rectTop id :
  Editor.id d = Some id -> id <> "" ->
  LO.id (Editor.newDeskOf d e rectLeft rectTop) = id.
Proof.
  intros H Hne. unfold Editor.newDeskOf. simpl. rewrite H.
  now rewrite (proj2 (String.eqb_neq _ _) Hne).
Qed.

(** X1. Drops keep the desks apart.  When the desks of the editor have
    distinct ids and no two of them are in collision, they still are after a
    drag and drop: of a palette desk whose new id [desk-{now}] is not in
    use, or of a desk of the canvas with a non-empty id. *)
Theorem X1_drop_keeps_desks_apart
    (e0 : LayoutEditor.DragStartEvent) (e : Editor.DropEvent)
    (desk : Editor.DragData) (st : Editor.State) :
  NoDup (map LO.id (Editor.layoutObjects st)) ->
  collisionFree (Editor.layoutObjects st) ->
  (Editor.isNew desk = true /\ Editor.id desk = None /\
   newDeskId (Editor.now e) ∉ map LO.id (Editor.layoutObjects st)) \/
  (exists d, d ∈ Editor.layoutObjects st /\ LO.id d <> "" /\
             desk = LayoutEditor.canvasDesk d) ->
  let st' := Editor.handleDrop e (LayoutEditor.handleDragStart e0 desk st) in
  NoDup (map LO.id (Editor.layoutObjects st')) /\
  collisionFree (Editor.layoutObjects st').
Proof.
  intros Hnd Hcf Hdrag. unfold Editor.handleDrop, LayoutEditor.handleDragStart.
  cbn [Editor.dragData Editor.layoutObjects Editor.console].
  destruct (Editor.editorRect e) as [[rectLeft rectTop]|]; [|now split].
  set (d' := {| Editor.type := Editor.type desk |}).
  set (newDesk := Editor.newDeskOf d' e rectLeft rectTop).
  destruct (Editor.checkCollision newDesk _) eqn:Hc; [now split|].
  assert (forall o, o ∈ Editor.layoutObjects st -> LO.id o <> LO.id newDesk ->
                    Editor.overlaps newDesk o = false) as Hfree.
  { intros o Ho Hid. apply (checkCollision_false_inv _ _ _ Hc); [|exact Hid].
    apply list_elem_of_In, filter_In. split; [now apply list_elem_of_In|].
    now apply negb_true_iff, String.eqb_neq. }
  destruct Hdrag as [(Hnew & Hid & Hfresh)|(d & Hd & Hne & ->)].
  - assert (LO.id newDesk = newDeskId (Editor.now e)) as Hidn
      by (apply newDeskOf_id_new; exact Hid).
    cbn [Editor.isNew d']. rewrite Hnew. cbn [Editor.layoutObjects]. split.
    + rewrite map_app. apply NoDup_app. split; [exact Hnd|]. split; [|apply NoDup_singleton].
      intros x Hx Hx'. simpl in Hx'. apply list_elem_of_singleton in Hx'. subst x.
      apply Hfresh. now rewrite <- Hidn.
    + apply collisionFree_snoc; [exact Hcf|]. intros o Ho. apply Hfree; [exact Ho|].
      rewrite Hidn. intros E. apply Hfresh. rewrite <- E.
      apply list_elem_of_fmap. now exists o.
  - assert (LO.id newDesk = LO.id d) as Hidn
      by (apply newDeskOf_id_old; [reflexivity|exact Hne]).
    cbn [Editor.isNew d' LayoutEditor.canvasDesk]. cbn [Editor.layoutObjects].
    rewrite Hidn, (find_by_id _ d Hnd Hd). split.
    + rewrite map_replace_ids; [exact Hnd|reflexivity].
    + apply collisionFree_replace; [exact Hnd|exact Hcf|].
      intros o Ho Hid. rewrite <- (Hfree o Ho) by (now rewrite Hidn).
      apply overlaps_ext; reflexivity.
Qed.

(** X2. Removing the desk a drop has just added gives the layout back: when
    the id [desk-{now}] of the new desk is not in use, the drop of a palette
    desk followed by [removeDesk] of that id leaves the desks as they were,
    whether the drop was accepted or refused. *)
Theorem X2_remove_undoes_add
    (e0 : LayoutEditor.DragStartEvent) (e : Editor.DropEvent)
    (p : PaletteDesk) (st : Editor.State) :
  newDeskId (Editor.now e) ∉ map LO.id (Editor.layoutObjects st) ->
  LayoutEditor.removeDesk (newDeskId (Editor.now e))
    (Editor.layoutObjects
       (Editor.handleDrop e
          (LayoutEditor.handleDragStart e0 (LayoutEditor.paletteDesk p) st))) =
  Editor.layoutObjects st.
Proof.
  intros Hfresh. unfold Editor.handleDrop, LayoutEditor.handleDragStart.
  cbn [Editor.dragData Editor.layoutObjects Editor.console].
  destruct (Editor.editorRect e) as [[rectLeft rectTop]|]; [|now apply removeDesk_fresh].
  destruct (Editor.checkCollision _ _); [now apply removeDesk_fresh|].
  cbn [Editor.isNew LayoutEditor.paletteDesk Editor.layoutObjects].
  unfold LayoutEditor.removeDesk. rewrite List.filter_app.
  fold (LayoutEditor.removeDesk (newDeskId (Editor.now e)) (Editor.layoutObjects st)).
  rewrite (removeDesk_fresh _ _ Hfresh). simpl.
  unfold newDeskId. rewrite String.eqb_refl. simpl. apply app_nil_r.
Qed.

Lemma checkCollision_existsb newDesk existingDesks :
  Editor.checkCollision newDesk existingDesks =
  existsb (fun o => negb (String.eqb (LO.id o) (LO.id newDesk)) &&
                    Editor.overlaps newDesk o) existingDesks.
Proof.
  induction existingDesks as [|d l IH]; simpl; [reflexivity|].
  destruct (String.eqb (LO.id d) (LO.id newDesk)); simpl; [exact IH|].
  destruct (Editor.overlaps newDesk d); simpl; [reflexivity|exact IH].
Qed.

Lemma existsb_pointwise {A} (p q : A -> bool) l :
  (forall x, p x = q x) -> existsb p l = existsb q l.
Proof. intros H. induction l as [|a l IH]; simpl; [reflexivity|]. now rewrite H, IH. Qed.

Lemma existsb_filter_same {A} (p q : A -> bool) l :
  (forall x, q x = true -> p x = true) ->
  existsb q (List.filter p l) = existsb q l.
Proof.
  intros H. induction l as [|a l IH]; simpl; [reflexivity|].
  destruct (p a) eqn:Ep; simpl; [now rewrite IH|].
  destruct (q a) eqn:Eq; [|exact IH]. rewrite (H a Eq) in Ep. discriminate.
Qed.

(** X3. Moving a desk changes its place only.  For desks with distinct ids,
    the drag of a desk of the canvas (with a non-empty id) and its drop at a
    place where it is in collision with no other desk give the same list
    with that desk at the grid position nearest to the pointer, its type,
    size, rotation and blocked seats kept; a drop in collision with another
    desk leaves the list as it was and logs the warning. *)
Theorem X3_move_changes_position_only
    (e0 : LayoutEditor.DragStartEvent) (e : Editor.DropEvent)
    (d : LayoutObject) (st : Editor.State) (rectLeft rectTop : Q) :
  NoDup (map LO.id (Editor.layoutObjects st)) ->
  d ∈ Editor.layoutObjects st -> LO.id d <> "" ->
  Editor.editorRect e = Some (rectLeft, rectTop) ->
  let st' := Editor.handleDrop e
               (LayoutEditor.handleDragStart e0 (LayoutEditor.canvasDesk d) st) in
  let gridX := JS.round ((Editor.clientX e - rectLeft -
                          (LayoutEditor.clientX e0 - LayoutEditor.targetLeft e0))
                         / GRID_SIZE) in
  let gridY := JS.round ((Editor.clientY e - rectTop -
                          (LayoutEditor.clientY e0 - LayoutEditor.targetTop e0))
                         / GRID_SIZE) in
  let moved := movedTo gridX gridY d in
  if existsb (fun o => negb (String.eqb (LO.id o) (LO.id d)) && Editor.overlaps moved o)
             (Editor.layoutObjects st)
  then Editor.layoutObjects st' = Editor.layoutObjects st /\
       Editor.console st' = Editor.console st ++ ["Collision detected!"]
  else Editor.layoutObjects st' =
         map (fun o => if String.eqb (LO.id o) (LO.id d) then moved else o)
             (Editor.layoutObjects st) /\
       Editor.dragData st' = None /\ Editor.console st' = Editor.console st.
Proof.
  intros Hnd Hd Hne Hrect st' gridX gridY moved. subst st'.
  unfold Editor.handleDrop, LayoutEditor.handleDragStart.
  cbn [Editor.dragData Editor.layoutObjects Editor.console]. rewrite Hrect.
  match goal with
  | |- context [Editor.newDeskOf ?dd e rectLeft rectTop] =>
      set (d' := dd); set (newDesk := Editor.newDeskOf d' e rectLeft rectTop)
  end.
  assert (LO.id newDesk = LO.id d) as Hidn
    by (apply newDeskOf_id_old; [reflexivity|exact Hne]).
  rewrite checkCollision_existsb, Hidn.
  rewrite existsb_filter_same
    by (intros x Hx; now apply andb_true_iff in Hx as [Hx _]).
  assert (forall o, Editor.overlaps newDesk o = Editor.overlaps moved o) as Hov
    by (intros o; apply overlaps_ext; reflexivity).
  assert (existsb (fun o => negb (String.eqb (LO.id o) (LO.id d)) &&
                           Editor.overlaps newDesk o) (Editor.layoutObjects st) =
          existsb (fun o => negb (String.eqb (LO.id o) (LO.id d)) &&
                           Editor.overlaps moved o) (Editor.layoutObjects st)) as ->
    by (apply existsb_pointwise; intros o; now rewrite Hov).
  destruct (existsb _ _); [now split|].
  cbn [Editor.isNew d' Editor.layoutObjects Editor.dragData Editor.console].
  rewrite (find_by_id _ d Hnd Hd). split; [|now split].
  apply map_ext. intros o. destruct (String.eqb (LO.id o) (LO.id d)); reflexivity.
Qed.

Lemma round_bounds q :
  (q - (1 # 2) < inject_Z (JS.round q) /\ inject_Z (JS.round q) <= q + (1 # 2))%Q.
Proof.
  unfold JS.round.
  pose proof (Qfloor_le (q + (1 # 2))) as H1.
  pose proof (Qlt_floor (q + (1 # 2))) as H2.
  rewrite inject_Z_plus in H2. change (inject_Z 1) with 1%Q in H2. split; lra.
Qed.

Lemma snap_bounds p :
  (- (GRID_SIZE / 2) < GRID_SIZE * inject_Z (JS.round (p / GRID_SIZE)) - p /\
   GRID_SIZE * inject_Z (JS.round (p / GRID_SIZE)) - p <= GRID_SIZE / 2)%Q.
Proof.
  destruct (round_bounds (p / GRID_SIZE)) as [H1 H2].
  assert (p == GRID_SIZE * (p / GRID_SIZE))%Q as E by (unfold GRID_SIZE; field).
  assert (GRID_SIZE / 2 == 8)%Q as E8 by reflexivity.
  assert (GRID_SIZE == 16)%Q as E16 by reflexivity.
  set (q := (p / GRID_SIZE)%Q) in *. set (r := inject_Z (JS.round q)) in *.
  rewrite E16 in E. rewrite E8, E16. split; lra.
Qed.

(** X4. A dropped desk lands on the grid.  For a pointer, an editor
    rectangle and an anchor in whole pixels (the size of a new desk in whole
    grid units, the grab offset of a moved one in whole pixels), the position
    [handleDrop] gives a desk is in whole grid units, and in pixels it is
    within half a grid cell of the place the pointer asks for: the pointer
    minus the anchor, which is the middle of a new desk and the grab offset
    of a moved one. *)
Theorem X4_drop_snaps_to_grid
    (d : Editor.DragData) (e : Editor.DropEvent) (rectLeft rectTop : Q) :
  wholePixel (Editor.clientX e) -> wholePixel (Editor.clientY e) ->
  wholePixel rectLeft -> wholePixel rectTop ->
  (if Editor.isNew d
   then wholePixel (Editor.width d) /\ wholePixel (Editor.height d)
   else wholePixel (Editor.orZero (Editor.offsetX d)) /\
        wholePixel (Editor.orZero (Editor.offsetY d))) ->
  let desk := Editor.newDeskOf d e rectLeft rectTop in
  let askedX := (Editor.clientX e - rectLeft -
                 (if Editor.isNew d then Editor.width d * GRID_SIZE / 2
                  else Editor.orZero (Editor.offsetX d)))%Q in
  let askedY := (Editor.clientY e - rectTop -
                 (if Editor.isNew d then Editor.height d * GRID_SIZE / 2
                  else Editor.orZero (Editor.offsetY d)))%Q in
  (exists gridX gridY : Z, LO.x desk = inject_Z gridX /\ LO.y desk = inject_Z gridY) /\
  (- (GRID_SIZE / 2) < GRID_SIZE * LO.x desk - askedX /\
   GRID_SIZE * LO.x desk - askedX <= GRID_SIZE / 2)%Q /\
  (- (GRID_SIZE / 2) < GRID_SIZE * LO.y desk - askedY /\
   GRID_SIZE * LO.y desk - askedY <= GRID_SIZE / 2)%Q.
Proof.
  intros _ _ _ _ _ desk askedX askedY. split; [|split].
  - eexists _, _. split; reflexivity.
  - exact (snap_bounds askedX).
  - exact (snap_bounds askedY).
Qed.


(** * Rotations and seat clicks *)

Lemma rotate_rotate_rotate d :
  LayoutEditor.rotate (LayoutEditor.rotate (LayoutEditor.rotate d)) = LayoutEditor.rotate d.
Proof.
  unfold LayoutEditor.rotate. simpl.
  destruct (Qeq_bool (Editor.orZero (LO.rotation d)) 0); reflexivity.
Qed.

Lemma rotate_rotate d :
  LO.rotation d = Some 0%Q \/ LO.rotation d = Some 90%Q ->
  LayoutEditor.rotate (LayoutEditor.rotate d) = d.
Proof.
  destruct d as [id type x y w h r s b]. simpl. intros [->| ->]; reflexivity.
Qed.

(** X5. Rotation is an involution on the desks it turns.  [handleRotateDesk]
    swaps width and height of the desks with the given id and sets their
    rotation to 90 or 0; it keeps ids, types, positions, students and
    blocked seats, and the other desks.  Rotating twice gives the layout
    back when the rotations are 0 or 90 (as the editor and the parser set
    them), and three rotations are one rotation for any layout. *)
Theorem X5_rotation_is_an_involution (id : string) (layoutObjects : list LayoutObject) :
  Forall (fun d => LO.rotation d = Some 0%Q \/ LO.rotation d = Some 90%Q) layoutObjects ->
  LayoutEditor.handleRotateDesk id (LayoutEditor.handleRotateDesk id layoutObjects) =
    layoutObjects /\
  LayoutEditor.handleRotateDesk id
    (LayoutEditor.handleRotateDesk id (LayoutEditor.handleRotateDesk id layoutObjects)) =
    LayoutEditor.handleRotateDesk id layoutObjects /\
  Forall (fun d => LO.rotation d = Some 0%Q \/ LO.rotation d = Some 90%Q)
         (LayoutEditor.handleRotateDesk id layoutObjects) /\
  (forall i d, layoutObjects !! i = Some d ->
     exists d', LayoutEditor.handleRotateDesk id layoutObjects !! i = Some d' /\
       LO.id d' = LO.id d /\ LO.type d' = LO.type d /\
       LO.x d' = LO.x d /\ LO.y d' = LO.y d /\
       LO.students d' = LO.students d /\
       LO.userBlockedSeats d' = LO.userBlockedSeats d /\
       (if String.eqb (LO.id d) id
        then LO.width d' = LO.height d /\ LO.height d' = LO.width d
        else d' = d)).
Proof.
  intros Hrot. unfold LayoutEditor.handleRotateDesk. split; [|split; [|split]].
  - rewrite map_map. rewrite <- (map_id layoutObjects) at 2. apply map_ext_in.
    intros d Hd. rewrite Forall_forall in Hrot.
    destruct (String.eqb (LO.id d) id) eqn:E; simpl; rewrite E; [|reflexivity].
    apply rotate_rotate, Hrot. now apply list_elem_of_In.
  - rewrite !map_map. apply map_ext. intros d.
    destruct (String.eqb (LO.id d) id) eqn:E; simpl; rewrite E; simpl; rewrite ?E;
      [apply rotate_rotate_rotate|reflexivity].
  - apply Forall_forall. intros d' Hd'. apply list_elem_of_fmap in Hd' as (d & -> & Hd).
    rewrite Forall_forall in Hrot.
    destruct (String.eqb (LO.id d) id); [|now apply Hrot].
    unfold LayoutEditor.rotate. simpl.
    destruct (Qeq_bool (Editor.orZero (LO.rotation d)) 0); [now right|now left].
  - intros i d Hi. change (map ?f layoutObjects) with (f <$> layoutObjects).
    rewrite list_lookup_fmap, Hi. simpl. eexists. split; [reflexivity|].
    destruct (String.eqb (LO.id d) id); simpl; repeat split; reflexivity.
Qed.

(** ** Seat clicks and the seat count *)

Lemma availableSeats_sum objects :
  App.availableSeats objects = foldr Z.add 0%Z (map deskSeats objects).
Proof.
  unfold App.availableSeats.
  assert (forall z,
    fold_left
      (fun availableSeats desk =>
         if negb (String.eqb (LO.type desk) "--") then
           (availableSeats +
            (Z.of_nat (App.potentialSeats (LO.type desk)) -
             Z.of_nat (App.lengthOrZero (LO.userBlockedSeats desk))))%Z
         else availableSeats) objects z
    = (z + foldr Z.add 0 (map deskSeats objects))%Z) as H.
  { induction objects as [|d l IH]; intros z; simpl; [lia|].
    rewrite IH. unfold deskSeats.
    destruct (negb (String.eqb (LO.type d) "--")); lia. }
  rewrite H. lia.
Qed.

Lemma sum_replace (g : LayoutObject -> Z) (t : LayoutObject -> LayoutObject)
    (objects : list LayoutObject) d :
  NoDup (map LO.id objects) -> d ∈ objects ->
  foldr Z.add 0%Z
    (map g (map (fun o => if String.eqb (LO.id o) (LO.id d) then t o else o) objects)) =
  (foldr Z.add 0%Z (map g objects) + g (t d) - g d)%Z.
Proof.
  induction objects as [|a l IH]; intros Hnd Hd; [inversion Hd|].
  simpl in Hnd. apply NoDup_cons in Hnd as [Hnotin Hnd]. simpl.
  destruct (String.eqb_spec (LO.id a) (LO.id d)) as [E|NE].
  - assert (a = d) as ->.
    { apply elem_of_cons in Hd as [->|Hd]; [reflexivity|].
      exfalso. apply Hnotin. rewrite E. apply list_elem_of_fmap. now exists d. }
    assert (map (fun o => if String.eqb (LO.id o) (LO.id d) then t o else o) l = l) as ->.
    { rewrite <- (map_id l) at 2. apply map_ext_in. intros o Ho.
      destruct (String.eqb_spec (LO.id o) (LO.id d)) as [E'|]; [|reflexivity].
      exfalso. apply Hnotin. rewrite <- E'. apply list_elem_of_fmap. exists o.
      split; [reflexivity|now apply list_elem_of_In]. }
    lia.
  - apply elem_of_cons in Hd as [->|Hd]; [congruence|]. rewrite (IH Hnd Hd). lia.
Qed.

Lemma existsb_eqb_elem_of (x : nat) l : existsb (Nat.eqb x) l = true <-> x ∈ l.
Proof.
  rewrite existsb_exists. split.
  - intros (y & Hy & E). apply Nat.eqb_eq in E. subst. now apply list_elem_of_In.
  - intros H. exists x. split; [now apply list_elem_of_In|apply Nat.eqb_refl].
Qed.

Lemma length_filter_remove (x : nat) l :
  NoDup l -> x ∈ l ->
  S (length (List.filter (fun i => negb (Nat.eqb i x)) l)) = length l.
Proof.
  induction l as [|a l IH]; intros Hnd Hx; [inversion Hx|].
  apply NoDup_cons in Hnd as [Hnotin Hnd]. simpl.
  destruct (Nat.eqb_spec a x) as [->|NE]; simpl.
  - f_equal. f_equal. apply filter_all. intros y Hy.
    apply negb_true_iff, Nat.eqb_neq. intros ->. contradiction.
  - f_equal. apply elem_of_cons in Hx as [->|Hx]; [congruence|now apply IH].
Qed.

(** X6. A seat click changes the seat count by one.  For desks with distinct
    ids, a click on a seat of a desk that is not the empty space takes one
    seat off the count of the availability check when the seat was free,
    and gives one back when the seat was blocked (and listed once). *)
Theorem X6_seat_click_changes_the_count_by_one
    (layoutObjects : list LayoutObject) (d : LayoutObject) (seatIndex : nat) :
  NoDup (map LO.id layoutObjects) -> d ∈ layoutObjects -> LO.type d <> "--" ->
  NoDup (App.orEmpty (LO.userBlockedSeats d)) ->
  App.availableSeats (LayoutEditor.handleSeatClick (LO.id d) seatIndex layoutObjects) =
    if existsb (Nat.eqb seatIndex) (App.orEmpty (LO.userBlockedSeats d))
    then (App.availableSeats layoutObjects + 1)%Z
    else (App.availableSeats layoutObjects - 1)%Z.
Proof.
  intros Hnd Hd Ht Hb. rewrite !availableSeats_sum. unfold LayoutEditor.handleSeatClick.
  rewrite (sum_replace deskSeats (LayoutEditor.toggleSeat seatIndex) _ d Hnd Hd).
  unfold deskSeats, LayoutEditor.toggleSeat. simpl.
  rewrite (proj2 (String.eqb_neq _ _) Ht). simpl.
  assert (App.lengthOrZero (LO.userBlockedSeats d) =
          length (App.orEmpty (LO.userBlockedSeats d))) as -> by now destruct (LO.userBlockedSeats d).
  destruct (existsb (Nat.eqb seatIndex) (App.orEmpty (LO.userBlockedSeats d))) eqn:E.
  - apply existsb_eqb_elem_of in E.
    pose proof (length_filter_remove seatIndex _ Hb E). lia.
  - rewrite length_app. simpl. lia.
Qed.


(** * The seats of a rendered desk *)

Lemma filter_imap_length {A B} (p : B -> bool) (q : A -> bool) (l : list A) :
  forall f : nat -> A -> B,
  (forall i a, p (f i a) = q a) ->
  length (List.filter p (imap f l)) = length (List.filter q l).
Proof.
  induction l as [|a l IH]; intros f H; [reflexivity|].
  rewrite imap_cons. simpl. rewrite H.
  destruct (q a); simpl; rewrite (IH (f ∘ S)); auto; intros i b; apply H.
Qed.

Lemma typeCode_chars h s :
  isTypeCode s = true ->
  length (List.filter (fun a => negb (h && Ascii.eqb a "0")) (list_ascii_of_string s)) =
  if h then countChar "1" s else String.length s.
Proof.
  destruct h; simpl.
  - induction s as [|a s IH]; simpl; [reflexivity|].
    intros H. apply andb_true_iff in H as [Ha Hs]. specialize (IH Hs).
    apply orb_true_iff in Ha as [Ha|Ha]; apply Ascii.eqb_eq in Ha; subst a;
      simpl; now rewrite IH.
  - intros _. induction s as [|a s IH]; simpl; [reflexivity|]. now rewrite IH.
Qed.

Lemma typeCode_zeros s :
  isTypeCode s = true -> countChar "1" s = 0%nat -> countChar "0" s = String.length s.
Proof.
  induction s as [|a s IH]; simpl; [reflexivity|].
  intros H. apply andb_true_iff in H as [Ha Hs].
  apply orb_true_iff in Ha as [Ha|Ha]; apply Ascii.eqb_eq in Ha; subst a; simpl.
  - intros H1. now rewrite (IH Hs H1).
  - discriminate.
Qed.

Lemma isSeatCode_not_blank type : LayoutPreview.isSeatCode type = true -> String.eqb type "--" = false.
Proof.
  unfold LayoutPreview.isSeatCode. intros H. apply andb_true_iff in H as [_ H].
  now apply isTypeCode_not_blank.
Qed.

Lemma clickable_count type blocked :
  isTypeCode type = true ->
  length (List.filter LayoutPreview.isClickable
            (LayoutPreview.renderDesk type blocked true)) = App.potentialSeats type.
Proof.
  intros Ht. unfold LayoutPreview.renderDesk.
  rewrite (isTypeCode_not_blank _ Ht). unfold LayoutPreview.isSeatCode. rewrite Ht.
  destruct (String.eqb_spec type "") as [->|Hne]; simpl; [reflexivity|].
  rewrite (filter_imap_length _
             (fun a => negb (JS.includes "1" type && Ascii.eqb a "0"))) by reflexivity.
  rewrite (typeCode_chars _ _ Ht), potentialSeats_spec. unfold occupiableSeatCount.
  rewrite includes_countChar.
  destruct (Nat.ltb_spec 0 (countChar "1" type)); [reflexivity|].
  symmetry. apply typeCode_zeros; [exact Ht|lia].
Qed.

(** X7. The seats that answer clicks are the seats that count.  For a type
    code over {0,1}, the element [renderDesk] makes for the editor has one
    seat per character, and the number of its clickable seats is the
    number of seats the availability check counts for the type; without a
    click handler (palette and preview) no seat is clickable. *)
Theorem X7_clickable_seats_are_the_counted_seats
    (type : string) (userBlockedSeats : list nat) :
  isTypeCode type = true ->
  length (List.filter LayoutPreview.isClickable
            (LayoutPreview.renderDesk type userBlockedSeats true)) =
    App.potentialSeats type /\
  length (LayoutPreview.renderDesk type userBlockedSeats true) = String.length type /\
  Forall (fun s => LayoutPreview.isClickable s = false)
         (LayoutPreview.renderDesk type userBlockedSeats false).
Proof.
  intros Ht. split; [now apply clickable_count|].
  unfold LayoutPreview.renderDesk.
  rewrite (isTypeCode_not_blank _ Ht). unfold LayoutPreview.isSeatCode. rewrite Ht.
  destruct (String.eqb_spec type "") as [->|Hne]; simpl; [split; [reflexivity|constructor]|].
  split.
  - rewrite length_imap. clear. induction type; simpl; auto.
  - apply Forall_forall. intros s Hs. apply list_elem_of_lookup in Hs as [i Hi].
    rewrite list_lookup_imap in Hi.
    destruct (list_ascii_of_string type !! i); [|discriminate].
    simpl in Hi. inversion Hi. reflexivity.
Qed.

(** ** Blocked seats are clickable seats *)

Lemma clickableIndices_length seats : forall start,
  length (clickableIndices seats start) =
  length (List.filter LayoutPreview.isClickable seats).
Proof.
  induction seats as [|s seats IH]; intros start; simpl; [reflexivity|].
  rewrite length_app, IH. now destruct (LayoutPreview.isClickable s).
Qed.

Lemma elem_of_clickableIndices seats : forall start i s,
  seats !! i = Some s -> LayoutPreview.isClickable s = true ->
  (start + i)%nat ∈ clickableIndices seats start.
Proof.
  induction seats as [|s0 seats IH]; intros start i s Hi Hs; [now rewrite lookup_nil in Hi|].
  simpl. apply elem_of_app. destruct i as [|i]; simpl in Hi.
  - inversion Hi; subst s0. rewrite Hs. left. rewrite Nat.add_0_r. now left.
  - right. replace (start + S i)%nat with (S start + i)%nat by lia. now apply (IH _ _ s).
Qed.

Lemma renderDesk_blocked_irrelevant type blocked i s :
  LayoutPreview.renderDesk type blocked true !! i = Some s ->
  exists s', LayoutPreview.renderDesk type [] true !! i = Some s' /\
             LayoutPreview.isClickable s' = LayoutPreview.isClickable s.
Proof.
  unfold LayoutPreview.renderDesk.
  destruct (String.eqb type "--"); [now rewrite lookup_nil|].
  destruct (LayoutPreview.isSeatCode type); [|now rewrite lookup_nil].
  rewrite !list_lookup_imap.
  destruct (list_ascii_of_string type !! i); [|discriminate].
  simpl. intros H. inversion H. eexists. split; reflexivity.
Qed.

Lemma toggleSeat_blocked seatIndex d i :
  i ∈ App.orEmpty (LO.userBlockedSeats (LayoutEditor.toggleSeat seatIndex d)) ->
  i ∈ App.orEmpty (LO.userBlockedSeats d) \/ i = seatIndex.
Proof.
  unfold LayoutEditor.toggleSeat. simpl.
  destruct (existsb _ _).
  - intros H. apply list_elem_of_In, filter_In in H as [H _]. left. now apply list_elem_of_In.
  - intros H. apply elem_of_app in H as [H|H]; [now left|right].
    now apply list_elem_of_singleton in H.
Qed.

Lemma NoDup_list_filter_nat (p : nat -> bool) l : NoDup l -> NoDup (List.filter p l).
Proof.
  induction 1 as [|a l Hnotin Hnd IH]; simpl; [constructor|].
  destruct (p a); [|exact IH]. constructor; [|exact IH].
  intros H. apply Hnotin. apply list_elem_of_In, filter_In in H as [H _].
  now apply list_elem_of_In.
Qed.

(** X8. The blocked seats never exceed the seats.  A desk whose blocked
    seats are clickable seats, each listed once, counts no negative number
    of seats in the availability check; a desk without blocked seats is
    such a desk, and a click on a clickable seat keeps the desk such. *)
Theorem X8_blocked_seats_never_exceed_the_seats (d : LayoutObject) :
  blockedByClicks d ->
  (0 <= deskSeats d)%Z /\
  (forall seatIndex, clickableSeat (LO.type d) seatIndex ->
     blockedByClicks (LayoutEditor.toggleSeat seatIndex d)) /\
  (forall d0, App.orEmpty (LO.userBlockedSeats d0) = [] -> blockedByClicks d0).
Proof.
  intros [Hnd Hclick]. split; [|split].
  - unfold deskSeats.
    destruct (negb (String.eqb (LO.type d) "--")) eqn:Eb; [|lia].
    assert (App.lengthOrZero (LO.userBlockedSeats d) =
            length (App.orEmpty (LO.userBlockedSeats d))) as ->
      by now destruct (LO.userBlockedSeats d).
    set (blocked := App.orEmpty (LO.userBlockedSeats d)) in *.
    set (seats := LayoutPreview.renderDesk (LO.type d) [] true) in *.
    assert (length blocked <= length (clickableIndices seats 0))%nat as Hle.
    { apply submseteq_length, NoDup_submseteq; [exact Hnd|].
      intros i Hi. destruct (Hclick i Hi) as (s & Hs & Hc).
      apply (elem_of_clickableIndices seats 0 i s Hs Hc). }
    rewrite clickableIndices_length in Hle. unfold seats in Hle.
    destruct (isTypeCode (LO.type d)) eqn:Et.
    + rewrite (clickable_count _ [] Et) in Hle. lia.
    + assert (LayoutPreview.renderDesk (LO.type d) [] true = []) as E.
      { unfold LayoutPreview.renderDesk, LayoutPreview.isSeatCode. rewrite Et.
        rewrite andb_false_r. now destruct (String.eqb (LO.type d) "--"). }
      rewrite E in Hle. simpl in Hle. lia.
  - intros seatIndex Hseat. split.
    + unfold LayoutEditor.toggleSeat. simpl.
      destruct (existsb (Nat.eqb seatIndex) _) eqn:E.
      * now apply NoDup_list_filter_nat.
      * apply NoDup_app. split; [exact Hnd|]. split; [|apply NoDup_singleton].
        intros x Hx Hx'. apply list_elem_of_singleton in Hx'. subst x.
        apply existsb_eqb_elem_of in Hx. congruence.
    + intros i Hi. apply toggleSeat_blocked in Hi as [Hi| ->]; [now apply Hclick|exact Hseat].
  - intros d0 E. split; rewrite E; [constructor|]. intros i Hi. inversion Hi.
Qed.


(** * Rotation and collisions; the container of the desks *)

(** X9. Rotation is not checked for collisions.  A desk wider than high
    with a desk right below it, under its left part, is in collision with
    that desk once rotated, though the two were not in collision before:
    [handleRotateDesk] turns the desk all the same. *)
Theorem X9_rotation_is_not_collision_checked (a b : LayoutObject) :
  LO.id b <> LO.id a ->
  (0 < LO.height a)%Q -> (LO.height a < LO.width a)%Q -> (0 < LO.height b)%Q ->
  (LO.y b == LO.y a + LO.height a)%Q ->
  (LO.x b < LO.x a + LO.height a)%Q -> (LO.x a < LO.x b + LO.width b)%Q ->
  collisionFree [a; b] /\
  LayoutEditor.handleRotateDesk (LO.id a) [a; b] = [LayoutEditor.rotate a; b] /\
  Editor.overlaps (LayoutEditor.rotate a) b = true /\
  ~ collisionFree (LayoutEditor.handleRotateDesk (LO.id a) [a; b]).
Proof.
  intros Hid Hha Hwide Hhb Hy Hx1 Hx2.
  assert (Editor.overlaps a b = false) as Hab.
  { destruct (Editor.overlaps a b) eqn:E; [|reflexivity].
    apply overlaps_true in E. lra. }
  assert (LayoutEditor.handleRotateDesk (LO.id a) [a; b] = [LayoutEditor.rotate a; b]) as Hrot.
  { unfold LayoutEditor.handleRotateDesk. simpl. rewrite String.eqb_refl.
    now rewrite (proj2 (String.eqb_neq _ _) Hid). }
  assert (Editor.overlaps (LayoutEditor.rotate a) b = true) as Hov.
  { apply overlaps_true. unfold LayoutEditor.rotate. simpl. repeat split; lra. }
  split; [|split; [exact Hrot|split; [exact Hov|]]].
  - intros i j x y Hi Hj Hij.
    destruct i as [|[|i]], j as [|[|j]]; simpl in Hi, Hj; try discriminate; try lia;
      inversion Hi; inversion Hj; subst x y; [exact Hab|now rewrite overlaps_sym].
  - rewrite Hrot. intros Hcf.
    specialize (Hcf 0%nat 1%nat (LayoutEditor.rotate a) b eq_refl eq_refl ltac:(lia)).
    congruence.
Qed.

(** ** The container of the preview and of the chart *)

Lemma Math_max_le a b : (a <= Math_max a b /\ b <= Math_max a b)%Q.
Proof.
  unfold Math_max. destruct (Qle_bool a b) eqn:E.
  - apply Qle_bool_iff in E. split; lra.
  - split; [lra|]. destruct (Qlt_le_dec b a) as [H|H]; [lra|].
    apply Qle_bool_iff in H. congruence.
Qed.

Lemma boundingBox_fold (objects : list LayoutObject) : forall t : Q * Q,
  let total :=
    fold_left
      (fun (t : Q * Q) desk =>
         (Math_max t.1 (LO.x desk + LO.width desk),
          Math_max t.2 (LO.y desk + LO.height desk)))
      objects t in
  (t.1 <= total.1 /\ t.2 <= total.2)%Q /\
  forall d, d ∈ objects ->
    (LO.x d + LO.width d <= total.1 /\ LO.y d + LO.height d <= total.2)%Q.
Proof.
  induction objects as [|a l IH]; intros t; simpl.
  - split; [split; lra|]. intros d H. inversion H.
  - destruct (IH (Math_max t.1 (LO.x a + LO.width a),
                  Math_max t.2 (LO.y a + LO.height a))) as [[H1 H2] H3].
    simpl in H1, H2.
    destruct (Math_max_le t.1 (LO.x a + LO.width a)) as [M1 M2].
    destruct (Math_max_le t.2 (LO.y a + LO.height a)) as [M3 M4].
    split; [split; lra|].
    intros d Hd. apply elem_of_cons in Hd as [->|Hd]; [split; lra|now apply H3].
Qed.

(** X10. The container holds every desk with its padding.  The preview and
    the chart render nothing for an empty list; otherwise the container
    measures at least two grid units each way, and the right and bottom
    edges of every desk, in pixels, stay two grid units inside it. *)
Theorem X10_container_holds_every_desk
    (unit : Q) (layoutObjects : list LayoutObject) :
  (0 <= unit)%Q ->
  match LayoutPreview.containerSize unit layoutObjects with
  | None => layoutObjects = []
  | Some (width, height) =>
      layoutObjects <> [] /\
      (2 * unit <= width /\ 2 * unit <= height)%Q /\
      forall d, d ∈ layoutObjects ->
        (LO.x d * unit + LO.width d * unit + 2 * unit <= width /\
         LO.y d * unit + LO.height d * unit + 2 * unit <= height)%Q
  end.
Proof.
  intros Hunit. unfold LayoutPreview.containerSize.
  destruct layoutObjects as [|d0 l]; [reflexivity|].
  set (objects := d0 :: l). unfold LayoutPreview.boundingBox.
  pose proof (boundingBox_fold objects (0%Q, 0%Q)) as H. cbn zeta in H.
  set (total := fold_left _ objects _) in *.
  destruct H as [[H1 H2] H3]. cbn [fst snd] in *. split; [discriminate|].
  pose proof (Qmult_le_0_compat _ _ H1 Hunit) as P1.
  pose proof (Qmult_le_0_compat _ _ H2 Hunit) as P2.
  split.
  - split; lra.
  - intros d Hd. destruct (H3 d Hd) as [Hx Hy].
    pose proof (Qmult_le_compat_r _ _ unit Hx Hunit) as Q1.
    pose proof (Qmult_le_compat_r _ _ unit Hy Hunit) as Q2.
    split; lra.
Qed.

(** ** The names shown on the chart *)

Lemma filter_imap_le {A B} (p : B -> bool) (q : A -> bool) (l : list A) :
  forall f : nat -> A -> B,
  (forall i a, p (f i a) = true -> q a = true) ->
  (length (List.filter p (imap f l)) <= length (List.filter q l))%nat.
Proof.
  induction l as [|a l IH]; intros f H; [simpl; lia|].
  rewrite imap_cons. simpl.
  assert (length (List.filter p (imap (f ∘ S) l)) <= length (List.filter q l))%nat as Hl
    by (apply IH; intros i b; apply H).
  destruct (p (f 0%nat a)) eqn:Ep.
  - rewrite (H _ _ Ep). simpl. lia.
  - destruct (q a); simpl; lia.
Qed.

Lemma available_count type :
  isTypeCode type = true ->
  length (List.filter (fun a => negb (JS.includes "1" type && Ascii.eqb a "0"))
                      (list_ascii_of_string type)) = App.potentialSeats type.
Proof.
  intros Ht. rewrite (typeCode_chars _ _ Ht), potentialSeats_spec.
  unfold occupiableSeatCount. rewrite includes_countChar.
  destruct (Nat.ltb_spec 0 (countChar "1" type)); [reflexivity|].
  symmetry. apply typeCode_zeros; [exact Ht|lia].
Qed.

(** X11. The chart shows names at available seats only.  For a desk with a
    type code over {0,1}, the chart has one seat per character; a name is
    shown only in a seat that is not a permanently blocked one, and it is
    the non-empty name the desk's [students] hold at the index of the seat;
    so no desk shows more names than the seats the availability check
    counts for its type, whatever the [students] list holds. *)
Theorem X11_chart_shows_names_at_available_seats (desk : LayoutObject) :
  isTypeCode (LO.type desk) = true ->
  let cells := GeneratedChart.renderDeskWithStudents desk in
  length cells = String.length (LO.type desk) /\
  (length (List.filter (fun c => match GeneratedChart.shownName c with
                                 | Some _ => true
                                 | None => false
                                 end) cells)
   <= App.potentialSeats (LO.type desk))%nat /\
  (forall i c name,
     cells !! i = Some c -> GeneratedChart.shownName c = Some name ->
     GeneratedChart.isUnavailable c = false /\ name <> "" /\
     exists students, LO.students desk = Some students /\
                      students !! i = Some (Some name)).
Proof.
  intros Ht cells. subst cells. unfold GeneratedChart.renderDeskWithStudents.
  unfold LayoutPreview.isSeatCode. rewrite Ht.
  destruct (String.eqb_spec (LO.type desk) "") as [E|Hne]; simpl.
  { rewrite E. split; [reflexivity|]. split; [simpl; lia|].
    intros i c name H. now rewrite lookup_nil in H. }
  split; [|split].
  - rewrite length_imap. generalize (LO.type desk). induction s; simpl; auto.
  - rewrite <- (available_count _ Ht). apply filter_imap_le.
    intros i a. simpl.
    destruct (negb (JS.includes "1" (LO.type desk) && Ascii.eqb a "0")); [reflexivity|].
    simpl. discriminate.
  - intros i c name Hc Hn. rewrite list_lookup_imap in Hc.
    destruct (list_ascii_of_string (LO.type desk) !! i) as [a|]; [|discriminate].
    simpl in Hc. inversion Hc; subst c. clear Hc. simpl in *.
    destruct (negb (JS.includes "1" (LO.type desk) && Ascii.eqb a "0")) eqn:Eu;
      [|discriminate].
    apply negb_true_iff in Eu. split; [exact Eu|]. simpl in Hn.
    destruct (LO.students desk) as [students|]; simpl in Hn; [|discriminate].
    destruct (students !! i) as [[n|]|] eqn:Es; simpl in Hn; try discriminate.
    destruct (String.eqb_spec n "") as [->|Hnn]; simpl in Hn; [discriminate|].
    inversion Hn; subst name. split; [exact Hnn|]. now exists students.
Qed.


(** * The request of a generation: conditions, keys and names *)

Lemma findIndexFrom_lookup (l : list LayoutObject) : forall i k d,
  NoDup (map LO.id l) -> l !! k = Some d ->
  JS.findIndexFrom (fun x => String.eqb (LO.id x) (LO.id d)) i l = Some (i + k)%nat.
Proof.
  induction l as [|a l IH]; intros i k d Hnd Hk; [now rewrite lookup_nil in Hk|].
  simpl in Hnd. apply NoDup_cons in Hnd as [Hnotin Hnd]. simpl.
  destruct k as [|k]; simpl in Hk.
  - inversion Hk; subst a. rewrite String.eqb_refl. f_equal. lia.
  - destruct (String.eqb_spec (LO.id a) (LO.id d)) as [E|NE].
    + exfalso. apply Hnotin. rewrite E. apply list_elem_of_fmap. exists d.
      split; [reflexivity|]. apply list_elem_of_lookup. now exists k.
    + rewrite (IH (S i) k d Hnd Hk). f_equal. lia.
Qed.

Lemma flat_map_ext_in {A B} (f g : A -> list B) l :
  (forall a, a ∈ l -> f a = g a) -> flat_map f l = flat_map g l.
Proof.
  induction l as [|a l IH]; intros H; simpl; [reflexivity|].
  rewrite (H a) by now left. f_equal. apply IH. intros b Hb. apply H. now right.
Qed.

(** X12. The blocked-seat conditions quote the numbers of the numbered
    matrix.  For desks with distinct non-empty ids and type codes other than
    ["--"], the sentences added to the conditions are, desk by desk, one
    sentence per blocked seat with the desk's number and the seat's index
    plus one; and that number is the one of the label [L{n}] the numbered
    matrix shows in the desk's cell. *)
Theorem X12_blocked_seat_conditions_quote_the_labels (objects : list LayoutObject) :
  objects <> [] ->
  NoDup (map LO.id objects) ->
  Forall (fun d => LO.id d <> "") objects ->
  Forall (fun d => LO.type d <> "--") objects ->
  let m := convertObjectsToLayoutMatrix objects in
  App.additionalConditions objects =
    flat_map (fun d =>
                match deskNumberMap objects !! LO.id d with
                | Some n => map (blockedSeatSentence n) (App.orEmpty (LO.userBlockedSeats d))
                | None => []
                end) objects /\
  forall d, d ∈ objects ->
    exists n r c,
      deskNumberMap objects !! LO.id d = Some n /\
      positionMap m !! positionKey r c = Some (LO.id d) /\
      cellAt (cellsOfText (numberedMatrix m)) r c = Some (labelText n).
Proof.
  intros Hne Hnd Hids Hts m. split.
  - unfold App.additionalConditions. apply flat_map_ext_in. intros d Hd.
    destruct (ui_index objects d Hd) as [k Hk].
    rewrite (deskNumberMap_lookup objects k d Hnd Hk).
    destruct (LO.userBlockedSeats d) as [[|b bs]|]; simpl; [reflexivity| |reflexivity].
    unfold JS.findIndex.
    rewrite (findIndexFrom_lookup _ 0 k d); [reflexivity| |exact Hk].
    fold (uiSortedObjects objects). unfold uiSortedObjects. now rewrite sort_Permutation.
  - intros d Hd. destruct (ui_index objects d Hd) as [k Hk].
    destruct (numbered_reading_order objects Hne Hnd Hids Hts k d Hk) as (r & c & H1 & H2).
    exists (k + 1)%nat, r, c. split; [|split; assumption].
    now apply deskNumberMap_lookup.
Qed.

(** ** Position keys *)

Lemma Number_string_of_nat n : JS.Number (JS.string_of_nat n) = Some n.
Proof.
  unfold JS.Number, JS.string_of_nat.
  pose proof (NilEmpty.usu (Nat.to_uint n)) as H.
  destruct (NilEmpty.string_of_uint (Nat.to_uint n)) eqn:E.
  - simpl in H. inversion H as [H']. f_equal.
    rewrite <- (Unsigned.of_to n), <- H'. reflexivity.
  - rewrite H. simpl. f_equal. apply Unsigned.of_to.
Qed.

Lemma split_positionKey r c :
  JS.split "-" (positionKey r c) = [JS.string_of_nat r; JS.string_of_nat c].
Proof.
  unfold positionKey.
  change (JS.split "-" (JS.string_of_nat r +:+ String "-" (JS.string_of_nat c)) =
          [JS.string_of_nat r; JS.string_of_nat c]).
  rewrite split_app_sep
    by (apply allDigits_excludes; [reflexivity|apply string_of_nat_digits]).
  rewrite split_without
    by (apply allDigits_excludes; [reflexivity|apply string_of_nat_digits]).
  reflexivity.
Qed.

(** X13. The key of a desk is read back.  For desks with distinct ids and
    type codes other than ["--"], the search of the position map for a
    desk's id, as the modification request makes it, finds the row and the
    column of the desk: the cell that holds the desk's type code and whose
    key ["row-col"] holds its id. *)
Theorem X13_position_key_is_read_back (objects : list LayoutObject) (d : LayoutObject) :
  NoDup (map LO.id objects) ->
  Forall (fun d => LO.type d <> "--") objects ->
  d ∈ objects ->
  let m := convertObjectsToLayoutMatrix objects in
  exists r c,
    App.positionOf (positionMap m) (LO.id d) = Some (r, c) /\
    positionMap m !! positionKey r c = Some (LO.id d) /\
    cellAt (layout m) r c = Some (LO.type d).
Proof.
  intros Hnd Hts Hd m.
  assert (objects <> []) as Hne by (intros ->; inversion Hd).
  destruct (convert_Placed objects Hne Hts) as [P HP].
  pose proof (groupRows_Permutation objects) as Hperm.
  destruct (Placed_elem_of _ _ _ _ _ d HP Hperm Hd) as (r & c & Hin).
  destruct (Placed_lookup _ _ _ _ _ _ _ HP Hin) as [Hpm Hcell].
  exists r, c. split; [|split; assumption].
  unfold App.positionOf.
  destruct (List.find _ (map_to_list (positionMap m))) as [[pos v]|] eqn:Ef.
  - apply find_some in Ef as [Hin' Hv]. simpl in Hv. apply String.eqb_eq in Hv. subst v.
    apply list_elem_of_In, elem_of_map_to_list in Hin'.
    rewrite (Placed_key_unique _ _ _ _ _ _ _ _ _ HP Hperm Hnd Hin Hin').
    rewrite split_positionKey. simpl. now rewrite !Number_string_of_nat.
  - exfalso.
    assert (In (positionKey r c, LO.id d) (map_to_list (positionMap m))) as Hin'
      by (apply list_elem_of_In, elem_of_map_to_list; exact Hpm).
    pose proof (find_none _ _ Ef _ Hin') as H. simpl in H.
    rewrite String.eqb_refl in H. discriminate.
Qed.


(** * The roster of a modification and the end of a request *)

Lemma setAddString_spec seen v :
  (forall z, z ∈ JS.setAddString seen v <-> z ∈ seen \/ z = v) /\
  (NoDup seen -> NoDup (JS.setAddString seen v)).
Proof.
  induction seen as [|w seen [IH1 IH2]]; simpl.
  - split.
    + intros z. rewrite list_elem_of_singleton. split; [now right|].
      intros [H|H]; [inversion H|exact H].
    + intros _. apply NoDup_singleton.
  - destruct (String.eqb_spec w v) as [->|NE].
    + split; [|auto]. intros z. split; [now left|]. intros [H| ->]; [exact H|now left].
    + split.
      * intros z. rewrite !elem_of_cons, IH1. tauto.
      * intros Hnd. apply NoDup_cons in Hnd as [Hw Hnd]. apply NoDup_cons. split; [|auto].
        rewrite IH1. intros [H|H]; [contradiction|congruence].
Qed.

Lemma uniqueStrings_from l : forall seen,
  (forall z, z ∈ fold_left JS.setAddString l seen <-> z ∈ seen \/ z ∈ l) /\
  (NoDup seen -> NoDup (fold_left JS.setAddString l seen)).
Proof.
  induction l as [|a l IH]; intros seen; simpl.
  - split; [|auto]. intros z. split; [now left|]. intros [H|H]; [exact H|inversion H].
  - destruct (IH (JS.setAddString seen a)) as [H1 H2].
    destruct (setAddString_spec seen a) as [S1 S2]. split.
    + intros z. rewrite H1, S1, elem_of_cons. tauto.
    + intros Hnd. auto.
Qed.

Lemma uniqueStrings_spec l :
  NoDup (JS.uniqueStrings l) /\ forall z, z ∈ JS.uniqueStrings l <-> z ∈ l.
Proof.
  unfold JS.uniqueStrings. destruct (uniqueStrings_from l []) as [H1 H2]. split.
  - apply H2. constructor.
  - intros z. rewrite H1. split; [intros [H|H]; [inversion H|exact H]|now right].
Qed.

Lemma trim_empty : JS.trim "" = "".
Proof. reflexivity. Qed.

(** X14. The roster of a modification request is the set of the seated
    names: [namesOf] lists every name once, and a name is listed exactly
    when some desk of the arrangement holds it in its [students] and the
    name is not blank. *)
Theorem X14_modification_roster_is_the_seated_names (arrangement : list LayoutObject) :
  NoDup (App.namesOf arrangement) /\
  forall name,
    name ∈ App.namesOf arrangement <->
    JS.trim name <> "" /\
    exists desk students,
      desk ∈ arrangement /\ LO.students desk = Some students /\ Some name ∈ students.
Proof.
  unfold App.namesOf.
  destruct (uniqueStrings_spec
              (List.filter (fun s => negb (String.eqb s "") && negb (String.eqb (JS.trim s) ""))
                 (omap (fun s => s)
                    (flat_map (fun desk => App.orEmpty (LO.students desk)) arrangement))))
    as [Hnd Hin].
  split; [exact Hnd|]. intros name. rewrite Hin.
  rewrite list_elem_of_In, filter_In, <- list_elem_of_In, list_elem_of_omap.
  rewrite andb_true_iff, !negb_true_iff, !String.eqb_neq. split.
  - intros [(o & Ho & E) [_ Ht]]. subst o. split; [exact Ht|].
    apply list_elem_of_In, in_flat_map in Ho as (desk & Hd & Hs).
    destruct (LO.students desk) as [students|] eqn:Es; [|inversion Hs].
    exists desk, students. split; [now apply list_elem_of_In|]. split; [exact Es|].
    simpl in Hs. now apply list_elem_of_In.
  - intros [Ht (desk & students & Hd & Es & Hs)]. split.
    + exists (Some name). split; [|reflexivity].
      apply list_elem_of_In, in_flat_map. exists desk. split; [now apply list_elem_of_In|].
      rewrite Es. simpl. now apply list_elem_of_In.
    + split; [|exact Ht]. intros ->. now apply Ht.
Qed.

(** X15. When the validation passes the request goes out.  For a layout
    with desks whose type codes are non-empty strings over {0,1}: in
    generation mode a non-empty roster that does not exceed the seats, and
    in modification mode any state, makes [handleGenerateClick] await one
    call of the service.  The roster of the request is the student list (the
    lines of the student text that hold more than white space) in generation
    mode and the seated names in modification mode, and the request carries
    the text of a current arrangement exactly in modification mode. *)
Theorem X15_request_goes_out_when_validation_passes (st : App.State) :
  App.layoutObjects st <> [] ->
  Forall (fun d => isTypeCode (LO.type d) = true /\ LO.type d <> "")
         (App.layoutObjects st) ->
  (App.finalArrangement st = None ->
   App.studentListOf (App.students st) <> [] /\
   (Z.of_nat (length (App.studentListOf (App.students st))) <=
    App.availableSeats (App.layoutObjects st))%Z) ->
  exists request resume,
    App.handleGenerateClick st = App.Awaits request resume /\
    Service.students request =
      match App.finalArrangement st with
      | Some arrangement => App.namesOf arrangement
      | None => App.studentListOf (App.students st)
      end /\
    (Service.currentArrangementMatrix request = None <-> App.finalArrangement st = None).
Proof.
  intros Hne Ht Hgen. unfold App.handleGenerateClick.
  rewrite (matrix_not_empty _ Hne Ht).
  destruct (App.finalArrangement st) as [arrangement|].
  - eexists _, _. split; [reflexivity|]. split; [reflexivity|].
    simpl. split; discriminate.
  - destruct (Hgen eq_refl) as [Hroster Hseats].
    destruct (App.studentListOf (App.students st)) as [|s roster] eqn:Er; [congruence|].
    simpl length in *. cbn [Nat.eqb].
    rewrite (proj2 (Z.ltb_ge _ _) Hseats). eexists _, _.
    split; [reflexivity|]. split; [reflexivity|]. simpl. split; reflexivity.
Qed.


(** * From the reply of the service to the state of the application *)

Lemma setStudents_frame oid students populated :
  map frame (App.setStudents oid students populated) = map frame populated.
Proof.
  induction populated as [|o l IH]; simpl; [reflexivity|].
  destruct (String.eqb (LO.id o) oid); simpl; [reflexivity|now rewrite IH].
Qed.

Lemma applyCell_frame pm r populated v c :
  map frame (App.applyCell pm r populated v c) = map frame populated.
Proof.
  unfold App.applyCell.
  destruct (JS.truthy (Some v)); [|reflexivity].
  destruct (pm !! positionKey r c) as [oid|]; [|reflexivity].
  destruct (negb (String.eqb oid "")); [|reflexivity].
  destruct v; try reflexivity. apply setStudents_frame.
Qed.

Lemma applyCells_frame pm r cells : forall c populated,
  map frame (JS.forEachFrom (App.applyCell pm r) c cells populated) = map frame populated.
Proof.
  induction cells as [|v cells IH]; intros c populated; simpl; [reflexivity|].
  now rewrite IH, applyCell_frame.
Qed.

Lemma applyRows_throw pm seating : forall r message,
  JS.forEachFrom (App.applyRow pm) r seating (JS.Throw message) = JS.Throw message.
Proof.
  induction seating as [|row seating IH]; intros r message; simpl; [reflexivity|].
  apply IH.
Qed.

Lemma applyRows_cases pm seating : forall r populated,
  match JS.forEachFrom (App.applyRow pm) r seating (JS.Normal populated) with
  | JS.Normal populated' =>
      Forall (fun row => JS.isArray (Some row) = true) seating /\
      map frame populated' = map frame populated
  | JS.Throw _ => Exists (fun row => JS.isArray (Some row) = false) seating
  end.
Proof.
  induction seating as [|row seating IH]; intros r populated; simpl.
  - split; [constructor|reflexivity].
  - destruct row as [| | | |cells|]; simpl;
      try (rewrite applyRows_throw; now left).
    specialize (IH (S r) (JS.forEach (App.applyCell pm r) cells populated)).
    destruct (JS.forEachFrom _ _ _ _) as [populated'|message].
    + destruct IH as [H1 H2]. split; [now constructor|].
      rewrite H2. apply applyCells_frame.
    + now right.
Qed.

Lemma map_withStudents_frame objects :
  map frame (map (fun obj => App.withStudents obj []) objects) = map frame objects.
Proof. rewrite map_map. reflexivity. Qed.

(** What the handler does with the result once the call returns. *)
Lemma handleGenerateClick_resume st request resume result :
  App.handleGenerateClick st = App.Awaits request resume ->
  let m := convertObjectsToLayoutMatrix (App.layoutObjects st) in
  resume result =
    if JS.truthy (Service.error result) then
      JS.Normal
        {| App.layoutObjects := App.layoutObjects st; App.students := App.students st;
           App.conditions := App.conditions st; App.seatingChart := None;
           App.finalArrangement := App.finalArrangement st;
           App.isLoading := false; App.error := Service.error result |}
    else
      match Service.seating result with
      | Some seating =>
          JS.bind (App.applySeating (App.layoutObjects st) (positionMap m) seating)
            (fun populated =>
               JS.Normal
                 {| App.layoutObjects := App.layoutObjects st;
                    App.students := App.students st;
                    App.conditions := App.conditions st;
                    App.seatingChart := Some seating;
                    App.finalArrangement := Some populated;
                    App.isLoading := false; App.error := None |})
      | None =>
          JS.Normal
            {| App.layoutObjects := App.layoutObjects st; App.students := App.students st;
               App.conditions := App.conditions st; App.seatingChart := None;
               App.finalArrangement := App.finalArrangement st;
               App.isLoading := false; App.error := None |}
      end.
Proof.
  intros H m. subst m. unfold App.handleGenerateClick in H.
  destruct (_ || _); [discriminate|].
  destruct (App.finalArrangement st) as [arrangement|].
  - inversion H. reflexivity.
  - destruct (Nat.eqb _ 0); [discriminate|].
    destruct (Z.ltb _ _); [discriminate|].
    inversion H. reflexivity.
Qed.

(** X16. Every reply ends the request, but for a seating with a row that is
    no array.  Once the handler awaits the service, whatever the reply is,
    the resumed handler either clears the loading flag and shows the error
    of the result, keeping the arrangement as it was; or clears the flag and
    sets the arrangement to the desks of the layout, unchanged but for their
    students; or throws, which it does exactly when the seating holds a row
    that is not an array, and then the loading flag stays set. *)
Theorem X16_every_reply_ends_the_request
    (st : App.State) (request : Service.Request)
    (resume : Service.Result -> JS.Completion App.State) (reply : Service.Reply) :
  App.handleGenerateClick st = App.Awaits request resume ->
  let result := fst (Service.generateSeatingArrangement request reply) in
  match resume result with
  | JS.Normal st' =>
      App.isLoading st' = false /\
      App.layoutObjects st' = App.layoutObjects st /\
      ((exists v, Service.error result = Some v /\ v <> JS.Null /\
                  App.error st' = Some v /\
                  App.finalArrangement st' = App.finalArrangement st /\
                  App.seatingChart st' = None) \/
       (exists rows populated,
          Service.seating result = Some rows /\
          Forall (fun row => JS.isArray (Some row) = true) rows /\
          App.error st' = None /\
          App.seatingChart st' = Some rows /\
          App.finalArrangement st' = Some populated /\
          map frame populated = map frame (App.layoutObjects st)))
  | JS.Throw _ =>
      Service.error result = None /\
      exists rows, Service.seating result = Some rows /\
                   Exists (fun row => JS.isArray (Some row) = false) rows
  end.
Proof.
  intros H result. rewrite (handleGenerateClick_resume st request resume result H).
  pose proof (generateSeatingArrangement_cases request reply) as Hcases.
  cbv zeta in Hcases. fold result in Hcases.
  destruct Hcases as [[[rows Hr] He]|[Hs (v & Hv & Hn & Ht)]].
  - rewrite He, Hr. simpl. unfold App.applySeating, JS.forEach.
    pose proof (applyRows_cases
                  (positionMap (convertObjectsToLayoutMatrix (App.layoutObjects st)))
                  rows 0 (map (fun obj => App.withStudents obj []) (App.layoutObjects st)))
      as Hc.
    destruct (JS.forEachFrom _ _ _ _) as [populated|message]; simpl.
    + destruct Hc as [Harr Hframe]. split; [reflexivity|]. split; [reflexivity|].
      right. exists rows, populated. repeat split; try assumption.
      now rewrite Hframe, map_withStudents_frame.
    + split; [reflexivity|]. now exists rows.
  - assert (JS.truthy (Service.error result) = true) as Htr.
    { rewrite Hv. destruct Ht as [->|(parsed & _ & _ & Ht)]; [reflexivity|exact Ht]. }
    rewrite Htr. split; [reflexivity|]. split; [reflexivity|].
    left. exists v. repeat split; assumption.
Qed.


(** * The desks the parser makes *)

Lemma parsedFrom_imap cells : forall k,
  parsedFrom k cells =
  imap (fun i cell => parsedDesk (k + i) cell)
       (List.filter (fun cell => isDeskText (snd cell)) cells).
Proof.
  induction cells as [|cell cells IH]; intros k; simpl; [reflexivity|].
  destruct (isDeskText (snd cell)); [|apply IH].
  rewrite imap_cons, Nat.add_0_r, IH. f_equal.
  apply imap_ext. intros i x _. simpl. f_equal. lia.
Qed.

Lemma NoDup_filter_cells {A} (p : A -> bool) (l : list A) : NoDup l -> NoDup (List.filter p l).
Proof.
  induction 1 as [|a l Hnotin Hnd IH]; simpl; [constructor|].
  destruct (p a); [|exact IH]. constructor; [|exact IH].
  intros H. apply Hnotin. apply list_elem_of_In, filter_In in H as [H _].
  now apply list_elem_of_In.
Qed.

(** Two parsed desks of different cells collide in one way only. *)
Lemma parsedDesk_collision k k' r c t r' c' t' :
  (r, c) <> (r', c') ->
  Editor.overlaps (parsedDesk k (r, c, t)) (parsedDesk k' (r', c', t')) = true ->
  r = r' /\
  ((c' = S c /\ (LO.width (parsedDesk k (r, c, t)) == 12)%Q) \/
   (c = S c' /\ (LO.width (parsedDesk k' (r', c', t')) == 12)%Q)).
Proof.
  intros Hne H. apply overlaps_true in H as (H1 & H2 & H3 & H4).
  rewrite !parsedDesk_x in H1, H2. rewrite !parsedDesk_y in H3, H4.
  unfold parsedDesk in *. cbn [LO.width LO.height fst snd] in *.
  destruct (deskConfig_cases (JS.trim t)) as [Eh Ew].
  destruct (deskConfig_cases (JS.trim t')) as [Eh' Ew'].
  rewrite Eh, Eh' in *. unfold DESK_HEIGHT_UNITS, DESK_WIDTH_UNITS in *.
  assert (r = r') as <-.
  { destruct (Nat.lt_total r r') as [L|[E|L]]; [|exact E|]; apply Qnat_lt in L; lra. }
  split; [reflexivity|].
  assert (c <> c') as Hc by congruence.
  set (w := fst (deskConfig (JS.trim t))) in *.
  set (w' := fst (deskConfig (JS.trim t'))) in *.
  assert (w == 4 \/ w == 8 \/ w == 12)%Q as Hw
    by (destruct Ew as [-> | [-> | ->]]; [left|right; left|right; right]; reflexivity).
  assert (w' == 4 \/ w' == 8 \/ w' == 12)%Q as Hw'
    by (destruct Ew' as [-> | [-> | ->]]; [left|right; left|right; right]; reflexivity).
  clear Ew Ew'.
  destruct (Nat.lt_total c c') as [L|[E|L]]; [|contradiction|].
  - left. pose proof (Qnat_lt _ _ L) as Q1.
    assert (w == 12)%Q as E12 by (destruct Hw as [E|[E|E]]; [lra|lra|exact E]).
    split; [|exact E12].
    destruct (Nat.lt_total (S c) c') as [L'|[E|L']]; [|now symmetry|lia].
    apply Qnat_lt in L'. rewrite Qnat_S in L'. lra.
  - right. pose proof (Qnat_lt _ _ L) as Q1.
    assert (w' == 12)%Q as E12 by (destruct Hw' as [E|[E|E]]; [lra|lra|exact E]).
    split; [|exact E12].
    destruct (Nat.lt_total (S c') c) as [L'|[E|L']]; [|now symmetry|lia].
    apply Qnat_lt in L'. rewrite Qnat_S in L'. lra.
Qed.

(** X17. The desks the parser makes.  For any matrix text the parsed desks
    have the ids [desk-initial-0], [desk-initial-1], ... in order, all
    distinct.  Two of them are in collision only when they stand side by
    side in one row and the left one is a desk of one and a half width (a
    ["111"] or ["101"], 12 units wide on columns 10 units apart); a text
    without such desks gives desks that are free of collisions. *)
Theorem X17_parsed_desks (matrix : string) :
  let objects := parseLayoutMatrixToObjects matrix in
  map LO.id objects = map initialDeskId (seq 0 (length objects)) /\
  NoDup (map LO.id objects) /\
  (forall i j a b,
     objects !! i = Some a -> objects !! j = Some b -> i <> j ->
     Editor.overlaps a b = true ->
     LO.y a = LO.y b /\
     ((LO.x b == LO.x a + (DESK_WIDTH_UNITS + 2) /\ LO.width a == 12) \/
      (LO.x a == LO.x b + (DESK_WIDTH_UNITS + 2) /\ LO.width b == 12))%Q) /\
  (Forall (fun d => (LO.width d <= DESK_WIDTH_UNITS)%Q) objects -> collisionFree objects).
Proof.
  intros objects. subst objects. rewrite parse_cells.
  set (grid := cellsOfText (JS.trim matrix)).
  rewrite parsedFrom_imap.
  set (cells := List.filter (fun cell => isDeskText (snd cell)) (gridCells grid)).
  assert (NoDup cells) as Hcells by (apply NoDup_filter_cells, NoDup_gridCells).
  assert (map LO.id (imap (fun i cell => parsedDesk (0 + i) cell) cells) =
          map initialDeskId (seq 0 (length (imap (fun i cell => parsedDesk (0 + i) cell) cells))))
    as Hids.
  { apply map_seq_lookup. intros k d Hk.
    rewrite list_lookup_imap in Hk. destruct (cells !! k); [|discriminate].
    simpl in Hk. inversion Hk. reflexivity. }
  assert (forall i j a b,
     imap (fun i cell => parsedDesk (0 + i) cell) cells !! i = Some a ->
     imap (fun i cell => parsedDesk (0 + i) cell) cells !! j = Some b -> i <> j ->
     Editor.overlaps a b = true ->
     LO.y a = LO.y b /\
     ((LO.x b == LO.x a + (DESK_WIDTH_UNITS + 2) /\ LO.width a == 12) \/
      (LO.x a == LO.x b + (DESK_WIDTH_UNITS + 2) /\ LO.width b == 12))%Q) as Hcol.
  { intros i j a b Hi Hj Hij Hov. rewrite list_lookup_imap in Hi, Hj.
    destruct (cells !! i) as [[[r c] t]|] eqn:Ei; [|discriminate].
    destruct (cells !! j) as [[[r' c'] t']|] eqn:Ej; [|discriminate].
    simpl in Hi, Hj. inversion Hi; inversion Hj; subst a b. clear Hi Hj.
    assert ((r, c) <> (r', c')) as Hne.
    { intros E. inversion E; subst r' c'. apply Hij.
      assert (t = t') as <-.
      { assert ((r, c, t) ∈ gridCells grid) as H1.
        { apply list_elem_of_In. eapply proj1. apply filter_In.
          apply list_elem_of_In, list_elem_of_lookup. exists i. exact Ei. }
        assert ((r, c, t') ∈ gridCells grid) as H2.
        { apply list_elem_of_In. eapply proj1. apply filter_In.
          apply list_elem_of_In, list_elem_of_lookup. exists j. exact Ej. }
        apply elem_of_gridCells in H1, H2. congruence. }
      apply (NoDup_lookup cells i j (r, c, t) Hcells Ei Ej). }
    destruct (parsedDesk_collision _ _ _ _ _ _ _ _ Hne Hov) as [<- Hside].
    split; [reflexivity|]. rewrite !parsedDesk_x.
    destruct Hside as [[-> Hw]|[-> Hw]]; [left|right]; (split; [|exact Hw]);
      rewrite Qnat_S; ring. }
  split; [exact Hids|]. split; [|split; [exact Hcol|]].
  - rewrite Hids. apply NoDup_fmap_2; [|apply NoDup_seq].
    intros a b E. unfold initialDeskId in E.
    apply string_of_nat_inj. revert E. generalize (JS.string_of_nat a), (JS.string_of_nat b).
    intros s s' E. now inversion E.
  - intros Hw i j a b Hi Hj Hij.
    destruct (Editor.overlaps a b) eqn:Hov; [|reflexivity]. exfalso.
    rewrite Forall_forall in Hw.
    assert (a ∈ imap (fun i cell => parsedDesk (0 + i) cell) cells) as Ha
      by (apply list_elem_of_lookup; now exists i).
    assert (b ∈ imap (fun i cell => parsedDesk (0 + i) cell) cells) as Hb
      by (apply list_elem_of_lookup; now exists j).
    pose proof (Hw a Ha) as Wa. pose proof (Hw b Hb) as Wb.
    unfold DESK_WIDTH_UNITS in Wa, Wb.
    destruct (Hcol i j a b Hi Hj Hij Hov) as [_ [[_ E]|[_ E]]]; lra.
Qed.


(** * The matrix text read and written back; rows and columns of a layout *)

(** X18. A matrix text is read and written back.  For a rectangular grid of
    cells that are ["--"] or type codes over {0,1}, with a desk in every row
    and in every column and no column that holds a desk of half width and a
    desk of one and a half width without a desk of full width: the desks
    parsed from the text of the grid convert to the same grid and the same
    text.  The default layout of the application is such a text. *)
Theorem X18_matrix_text_is_read_and_written_back (G : list (list string)) (W : nat) :
  (0 < W)%nat ->
  Forall (fun row => length row = W /\ Forall layoutCell row) G ->
  Forall rowHasDesk G ->
  (forall c, (c < W)%nat -> exists r t, cellAt G r c = Some t /\ t <> "--") ->
  noSplitColumn G ->
  let objects := parseLayoutMatrixToObjects (serializeGrid G) in
  layout (convertObjectsToLayoutMatrix objects) = G /\
  matrix (convertObjectsToLayoutMatrix objects) = serializeGrid G.
Proof.
  intros HW Hcells Hrows Hcols Hsplit objects. subst objects.
  assert (G <> []) as Hne.
  { destruct (Hcols 0%nat HW) as (r & t & Hc & _). intros ->. discriminate. }
  rewrite parse_serializeGrid; [|exact Hne|].
  - apply (convert_parsed G W Hcells Hrows Hcols Hsplit HW).
  - eapply Forall_impl; [exact Hcells|]. intros row [Hlen Hc]. split; [|exact Hc].
    intros ->. simpl in Hlen. lia.
Qed.

(** X19. A layout has no blank row and no blank column.  For desks with
    type codes other than ["--"], every row of the layout grid of
    [convertObjectsToLayoutMatrix] holds a desk, and so does every column:
    no line of the matrix and no column of it is made of ["--"] only. *)
Theorem X19_layout_has_no_blank_row_or_column (objects : list LayoutObject) :
  Forall (fun d => LO.type d <> "--") objects ->
  let L := layout (convertObjectsToLayoutMatrix objects) in
  (forall r row, L !! r = Some row -> exists c t, row !! c = Some t /\ t <> "--") /\
  (forall r row c, L !! r = Some row -> (c < length row)%nat ->
     exists r' t, cellAt L r' c = Some t /\ t <> "--").
Proof.
  intros Ht L. subst L.
  destruct objects as [|d0 objects'].
  { change (layout (convertObjectsToLayoutMatrix [])) with (@nil (list string)).
    split; [intros r row H|intros r row c H]; now rewrite lookup_nil in H. }
  set (objects := d0 :: objects') in *.
  assert (objects <> []) as Hne by discriminate.
  split.
  - destruct (convert_Placed objects Hne Ht) as (P & Hlen & _ & _ & Hin & Hrow & _ & _).
    intros r row Hr.
    pose proof (lookup_lt_Some _ _ _ Hr) as Hlt. rewrite Hlen in Hlt.
    destruct (lookup_lt_is_Some_2 _ _ Hlt) as [drow Hdrow].
    pose proof (groupRows_rows_not_nil objects) as Hnn. rewrite Forall_forall in Hnn.
    assert (drow <> []) as Hdne by (apply Hnn, list_elem_of_lookup; now exists r).
    destruct drow as [|d drow]; [congruence|].
    destruct (Hrow r (d :: drow) d Hdrow) as [c Hc]; [now left|].
    destruct (Hin r c d Hc) as (_ & Hcell & Hnb).
    exists c, (LO.type d). unfold cellAt in Hcell. rewrite Hr in Hcell. simpl in Hcell.
    now split.
  - intros r row c Hr Hc.
    pose proof (buildGrid_columns objects c Hne Ht) as Hcols.
    rewrite convert_eq in * by exact Hne. simpl in *.
    set (g := buildGrid _ _ _) in *.
    assert (length row = maxRowLength g.1) as Hlen.
    { apply padRows_rectangular. apply list_elem_of_lookup. now exists r. }
    destruct Hcols as (r' & t & Hcell & Hnb); [lia|].
    exists r', t. split; [|exact Hnb]. apply cellAt_padRows. now left.
Qed.


(** * Clearing the chart *)

(** Lines that are their own trim and not empty, joined, are their own trim. *)
Lemma trim_join_lines (l : list string) :
  Forall (fun s => s <> "" /\ JS.trim s = s) l ->
  JS.trim (JS.join (String JS.LF "") l) = JS.join (String JS.LF "") l.
Proof.
  intros H. destruct l as [|a l]; [reflexivity|].
  unfold JS.trim.
  assert (JS.trimStart (JS.join (String JS.LF "") (a :: l)) =
          JS.join (String JS.LF "") (a :: l)) as ->.
  { inversion_clear H as [|? ? [Hne Ha] _]. apply trim_fixed in Ha as [Ha _].
    destruct l as [|b l]; [exact Ha|].
    change (JS.join (String JS.LF "") (a :: b :: l))
      with (a +:+ String JS.LF (JS.join (String JS.LF "") (b :: l))).
    apply trimStart_app; [exact Hne|exact Ha|].
    right. eexists _, _. split; [reflexivity|]. vm_compute. lia. }
  destruct (exists_last (l := a :: l)) as [l' [x E]]; [discriminate|].
  rewrite E in *. apply Forall_app in H as [_ H].
  inversion_clear H as [|? ? [Hne Hx] _]. apply trim_fixed in Hx as [_ Hx].
  destruct l' as [|b l']; [exact Hx|].
  destruct (join_snoc_sep JS.LF (b :: l') x) as [pre ->]; [discriminate|].
  apply trimEnd_app; [vm_compute; lia|].
  rewrite trimEnd_cons, Hx.
  rewrite (trimStart_ws JS.LF x eq_refl).
  destruct x as [|c x']; [congruence|].
  rewrite trimEnd_cons in Hx.
  destruct (JS.trimStart (String c x') =? ""); [discriminate Hx|reflexivity].
Qed.

Lemma namesOf_not_blank arrangement :
  Forall (fun s => s <> "" /\ JS.trim s <> "") (App.namesOf arrangement).
Proof.
  apply Forall_forall. intros s Hs. unfold App.namesOf in Hs.
  apply (proj1 (proj2 (uniqueStrings_spec _) _)) in Hs. apply list_elem_of_In, filter_In in Hs as [_ Hs].
  apply andb_true_iff in Hs as [H1 H2].
  apply negb_true_iff in H1, H2. apply String.eqb_neq in H1, H2. now split.
Qed.

(** The roster read from the joined lines is the lines. *)
Lemma studentListOf_join (l : list string) :
  Forall (fun s => s <> "" /\ JS.includes JS.LF s = false /\ JS.trim s = s) l ->
  App.studentListOf (JS.join (String JS.LF "") l) = l.
Proof.
  intros H. unfold App.studentListOf.
  rewrite trim_join_lines by (eapply Forall_impl; [exact H|]; now intros s (? & ? & ?)).
  destruct l as [|a l]; [reflexivity|].
  rewrite split_join; [|discriminate|eapply Forall_impl; [exact H|]; now intros s (? & ? & ?)].
  apply filter_all. intros s Hs.
  rewrite Forall_forall in H.
  destruct (H s Hs) as (Hne & _ & Ht).
  rewrite Ht. apply negb_true_iff, String.eqb_neq. exact Hne.
Qed.

(** X20.  [handleClearChart] puts the names seated in the final arrangement
    back into the roster: when no seated name holds a line feed or starts or
    ends with white space, the roster read from the student text after the
    clearing is the sorted list of the seated names, so it holds each seated
    name exactly once; the chart, the arrangement, the conditions and the
    error are reset, and the desks stay as they were.  The order of the
    sorting plays no part. *)
Theorem X20_clearing_returns_the_seated_names_to_the_roster
    (defaultCompare : string -> string -> Q) (st : App.State)
    (finalArrangement : list LayoutObject) :
  App.finalArrangement st = Some finalArrangement ->
  Forall (fun name => JS.includes JS.LF name = false /\ JS.trim name = name)
         (App.namesOf finalArrangement) ->
  let st' := Store.handleClearChart defaultCompare st in
  App.studentListOf (App.students st') =
    JS.sort defaultCompare (App.namesOf finalArrangement) /\
  App.studentListOf (App.students st') ≡ₚ App.namesOf finalArrangement /\
  NoDup (App.studentListOf (App.students st')) /\
  App.finalArrangement st' = None /\ App.seatingChart st' = None /\
  App.conditions st' = "" /\ App.error st' = None /\
  App.layoutObjects st' = App.layoutObjects st /\
  App.isLoading st' = App.isLoading st.
Proof.
  intros Hfa Hnames st'.
  assert (App.studentListOf (App.students st') =
          JS.sort defaultCompare (App.namesOf finalArrangement)) as E.
  { subst st'. unfold Store.handleClearChart. rewrite Hfa. simpl.
    apply studentListOf_join.
    pose proof (namesOf_not_blank finalArrangement) as Hnb.
    rewrite Forall_forall in *. intros s Hs.
    assert (s ∈ App.namesOf finalArrangement) as Hs'.
    { now rewrite <- (sort_Permutation defaultCompare (App.namesOf finalArrangement)). }
    destruct (Hnames s Hs') as [H1 H2]. destruct (Hnb s Hs') as [H3 _]. auto. }
  assert (App.studentListOf (App.students st') ≡ₚ App.namesOf finalArrangement) as P.
  { rewrite E. apply sort_Permutation. }
  split; [exact E|]. split; [exact P|]. split.
  { rewrite P. unfold App.namesOf. apply uniqueStrings_spec. }
  subst st'. unfold Store.handleClearChart. simpl. auto 10.
Qed.


(** * The saved classrooms *)

Lemma findIndexFrom_cases {A} (p : A -> bool) (l : list A) : forall i,
  match JS.findIndexFrom p i l with
  | Some k => exists j c, k = (i + j)%nat /\ l !! j = Some c /\ p c = true
  | None => forall c, c ∈ l -> p c = false
  end.
Proof.
  induction l as [|a l IH]; intros i; simpl.
  - intros c Hc. inversion Hc.
  - destruct (p a) eqn:E.
    + exists 0%nat, a. split; [lia|]. now split.
    + specialize (IH (S i)). destruct (JS.findIndexFrom p (S i) l) as [k|].
      * destruct IH as (j & c & -> & Hj & Hc). exists (S j), c.
        split; [lia|]. now split.
      * intros c Hc. apply elem_of_cons in Hc as [->|Hc]; [exact E|now apply IH].
Qed.

Lemma saved_by_name (l : list Store.SavedClassroom) c :
  NoDup (map Store.name l) -> c ∈ l ->
  List.find (fun x => String.eqb (Store.name x) (Store.name c)) l = Some c.
Proof.
  induction l as [|a l IH]; intros Hnd Hc; [inversion Hc|].
  simpl in Hnd. apply NoDup_cons in Hnd as [Hnotin Hnd]. simpl.
  destruct (String.eqb_spec (Store.name a) (Store.name c)) as [E|NE].
  - apply elem_of_cons in Hc as [->|Hc]; [reflexivity|].
    exfalso. apply Hnotin. rewrite E. apply list_elem_of_fmap. now exists c.
  - apply elem_of_cons in Hc as [->|Hc]; [congruence|]. now apply IH.
Qed.

Lemma find_not_listed (l : list Store.SavedClassroom) n :
  (forall c, c ∈ l -> Store.name c <> n) ->
  List.find (fun x => String.eqb (Store.name x) n) l = None.
Proof.
  intros H. destruct (List.find _ l) as [c|] eqn:E; [|reflexivity].
  apply find_some in E as [Hin Hn]. apply String.eqb_eq in Hn.
  exfalso. apply (H c); [now apply list_elem_of_In|exact Hn].
Qed.

(** Two lists with the same classrooms under a name, each name once in
    both, list the same classroom under it. *)
Lemma find_same_members (l l' : list Store.SavedClassroom) n :
  NoDup (map Store.name l) -> NoDup (map Store.name l') ->
  (forall c, Store.name c = n -> c ∈ l' <-> c ∈ l) ->
  List.find (fun x => String.eqb (Store.name x) n) l' =
  List.find (fun x => String.eqb (Store.name x) n) l.
Proof.
  intros Hnd Hnd' H.
  destruct (List.find _ l) as [c|] eqn:E.
  - apply find_some in E as [Hin Hn]. apply String.eqb_eq in Hn. subst n.
    apply saved_by_name; [exact Hnd'|]. apply H; [reflexivity|now apply list_elem_of_In].
  - apply find_not_listed. intros c Hc Hn.
    apply H in Hc; [|exact Hn].
    assert ((Store.name c =? n) = false) as Hf'.
    { apply (find_none _ _ E). now apply list_elem_of_In. }
    apply String.eqb_neq in Hf'. congruence.
Qed.

(** The list [handleSaveLayoutToStorage] writes. *)
Lemma updatedLayouts_spec (localeCompare : string -> string -> Q)
    (l : list Store.SavedClassroom) (new : Store.SavedClassroom) :
  NoDup (map Store.name l) ->
  let updatedLayouts :=
    match JS.findIndex (fun x => String.eqb (Store.name x) (Store.name new)) l with
    | Some i => <[i := new]> l
    | None => l ++ [new]
    end in
  let sorted :=
    JS.sort (fun a b => localeCompare (Store.name a) (Store.name b)) updatedLayouts in
  NoDup (map Store.name sorted) /\
  new ∈ sorted /\
  (forall c, Store.name c <> Store.name new -> c ∈ sorted <-> c ∈ l) /\
  length sorted =
    match List.find (fun x => String.eqb (Store.name x) (Store.name new)) l with
    | Some _ => length l
    | None => S (length l)
    end.
Proof.
  intros Hnd updatedLayouts sorted.
  assert (sorted ≡ₚ updatedLayouts) as P by apply sort_Permutation.
  assert (NoDup (map Store.name updatedLayouts) /\ new ∈ updatedLayouts /\
          (forall c, Store.name c <> Store.name new -> c ∈ updatedLayouts <-> c ∈ l) /\
          length updatedLayouts =
            match List.find (fun x => String.eqb (Store.name x) (Store.name new)) l with
            | Some _ => length l
            | None => S (length l)
            end) as (H1 & H2 & H3 & H4).
  { subst updatedLayouts. unfold JS.findIndex.
    pose proof (findIndexFrom_cases
                  (fun x => String.eqb (Store.name x) (Store.name new)) l 0) as Hf.
    destruct (JS.findIndexFrom _ 0 l) as [k|].
    - destruct Hf as (j & c & -> & Hj & Hc). simpl. apply String.eqb_eq in Hc.
      assert (j < length l)%nat as Hlt by (eapply lookup_lt_Some; eauto).
      split; [|split; [|split]].
      + change (map Store.name (<[j:=new]> l)) with (Store.name <$> <[j:=new]> l).
        rewrite list_fmap_insert, list_insert_id; [exact Hnd|].
        rewrite list_lookup_fmap, Hj. simpl. now rewrite Hc.
      + apply list_elem_of_lookup. exists j. now apply list_lookup_insert_eq.
      + intros c' Hc'. rewrite !list_elem_of_lookup. split; intros [i Hi].
        * destruct (decide (i = j)) as [->|NE].
          -- rewrite list_lookup_insert_eq in Hi by exact Hlt. congruence.
          -- rewrite list_lookup_insert_ne in Hi by congruence. now exists i.
        * exists i. rewrite list_lookup_insert_ne; [exact Hi|].
          intros <-. congruence.
      + rewrite length_insert.
        destruct (List.find _ l) eqn:E; [reflexivity|].
        assert ((Store.name c =? Store.name new) = false) as Hn.
        { apply (find_none _ _ E). apply list_elem_of_In, list_elem_of_lookup. now exists j. }
        apply String.eqb_neq in Hn. congruence.
    - split; [|split; [|split]].
      + rewrite map_app. simpl. apply NoDup_app. split; [exact Hnd|]. split.
        * intros n Hn Hn'. apply list_elem_of_singleton in Hn'. subst n.
          apply list_elem_of_fmap in Hn as (c & Hc & Hin).
          apply Hf in Hin. apply String.eqb_neq in Hin. congruence.
        * apply NoDup_singleton.
      + apply elem_of_app. right. now left.
      + intros c Hc. rewrite elem_of_app, list_elem_of_singleton. split; [|auto].
        intros [H|H]; [exact H|]. subst c. congruence.
      + rewrite length_app. simpl.
        rewrite find_not_listed; [lia|].
        intros c Hc. apply Hf in Hc. now apply String.eqb_neq in Hc. }
  split; [|split; [|split]].
  - change (map Store.name sorted) with (Store.name <$> sorted). now rewrite P.
  - now rewrite P.
  - intros c Hc. rewrite P. now apply H3.
  - now rewrite P.
Qed.

Lemma list_filter_Permutation {A} (p : A -> bool) (l l' : list A) :
  l ≡ₚ l' -> List.filter p l ≡ₚ List.filter p l'.
Proof.
  induction 1 as [|x l l' _ IH|x y l|l l' l'' _ IH1 _ IH2]; simpl.
  - reflexivity.
  - destruct (p x); [now constructor|exact IH].
  - destruct (p x), (p y); try reflexivity. apply perm_swap.
  - now transitivity (List.filter p l').
Qed.

Lemma filter_insert_same {A} (p : A -> bool) (l : list A) : forall i c new,
  l !! i = Some c -> p c = false -> p new = false ->
  List.filter p (<[i := new]> l) = List.filter p l.
Proof.
  induction l as [|a l IH]; intros i c new Hi Hc Hn; [reflexivity|].
  destruct i as [|i]; simpl in *.
  - inversion Hi; subst a. now rewrite Hc, Hn.
  - rewrite (IH i c new Hi Hc Hn). reflexivity.
Qed.

Lemma find_filter_other (l : list Store.SavedClassroom) n n' :
  n' <> n ->
  List.find (fun x => String.eqb (Store.name x) n')
    (List.filter (fun x => negb (String.eqb (Store.name x) n)) l) =
  List.find (fun x => String.eqb (Store.name x) n') l.
Proof.
  intros NE. induction l as [|a l IH]; [reflexivity|]. simpl.
  destruct (String.eqb_spec (Store.name a) n) as [E|E]; simpl.
  - rewrite IH. destruct (String.eqb_spec (Store.name a) n'); [congruence|reflexivity].
  - now rewrite IH.
Qed.

Lemma existsb_saved (l : list Store.SavedClassroom) n :
  existsb (fun x => String.eqb (Store.name x) n) l = true ->
  List.find (fun x => String.eqb (Store.name x) n) l <> None.
Proof.
  intros H E. apply existsb_exists in H as (c & Hin & Hc).
  pose proof (find_none _ _ E c Hin) as Hf. simpl in Hf. congruence.
Qed.

(** X21.  Saving from the dialog.  When the saved classrooms have distinct
    names, the name typed is not blank and an overwrite, if there is one to
    confirm, is confirmed, [handleSaveClick] empties the input, shows no
    alert and either the storage refuses the write, and then the list stays
    as it was and the error message of the save is set, or the list holds
    the classroom once under the trimmed name with the current desks and
    arrangement, every other name lists what it listed before, the names
    stay distinct, the list grows by one exactly when the name was new, and
    loading the classroom from the list gives back the desks and the
    arrangement that were saved and closes the dialog. *)
Theorem X21_saved_classroom_is_listed_once_under_its_name
    (localeCompare : string -> string -> Q)
    (setItem : list Store.SavedClassroom -> bool)
    (newLayoutName : string) (confirmed : bool) (st : Store.State) :
  NoDup (map Store.name (Store.savedLayouts st)) ->
  JS.trim newLayoutName <> "" ->
  (Store.saved (JS.trim newLayoutName) st <> None -> confirmed = true) ->
  let name := JS.trim newLayoutName in
  let result := Store.handleSaveClick localeCompare setItem newLayoutName confirmed st in
  let st' := fst (fst result) in
  snd (fst result) = "" /\ snd result = None /\
  Store.isManageLayoutsModalOpen st' = Store.isManageLayoutsModalOpen st /\
  ((Store.savedLayouts st' = Store.savedLayouts st /\
    Store.app st' = Store.withError Store.SAVE_FAILED (Store.app st)) \/
   (Store.app st' = Store.app st /\
    setItem (Store.savedLayouts st') = true /\
    NoDup (map Store.name (Store.savedLayouts st')) /\
    Store.saved name st' =
      Some {| Store.name := name;
              Store.layout := App.layoutObjects (Store.app st);
              Store.arrangement := App.finalArrangement (Store.app st) |} /\
    (forall other, other <> name -> Store.saved other st' = Store.saved other st) /\
    length (Store.savedLayouts st') =
      match Store.saved name st with
      | Some _ => length (Store.savedLayouts st)
      | None => S (length (Store.savedLayouts st))
      end /\
    (forall c, Store.saved name st' = Some c ->
       let loaded := Store.loadClick c st' in
       App.layoutObjects (Store.app loaded) = App.layoutObjects (Store.app st) /\
       App.finalArrangement (Store.app loaded) = App.finalArrangement (Store.app st) /\
       App.seatingChart (Store.app loaded) = None /\
       Store.isManageLayoutsModalOpen loaded = false))).
Proof.
  intros Hnd Hname Hconfirm name result st'.
  assert (result =
          (Store.handleSaveLayoutToStorage localeCompare setItem name
             (App.layoutObjects (Store.app st)) (App.finalArrangement (Store.app st)) st,
           "", None)) as E.
  { subst result. unfold Store.handleSaveClick. fold name.
    apply String.eqb_neq in Hname. fold name in Hname. rewrite Hname. simpl.
    destruct (existsb _ (Store.savedLayouts st)) eqn:Ex; [|reflexivity].
    apply existsb_saved in Ex. rewrite (Hconfirm Ex). reflexivity. }
  subst st'. rewrite E. simpl. split; [reflexivity|]. split; [reflexivity|].
  set (new := {| Store.name := name;
                 Store.layout := App.layoutObjects (Store.app st);
                 Store.arrangement := App.finalArrangement (Store.app st) |}).
  pose proof (updatedLayouts_spec localeCompare (Store.savedLayouts st) new Hnd) as H.
  cbv zeta in H. unfold Store.handleSaveLayoutToStorage. fold new.
  change (Store.name new) with name in H.
  match type of H with
  | NoDup (map Store.name ?s) /\ _ => set (sorted := s) in *
  end.
  destruct (setItem sorted) eqn:Es; simpl.
  - split; [reflexivity|]. right. destruct H as (H1 & H2 & H3 & H4).
    assert (Store.saved name
              {| Store.app := Store.app st; Store.savedLayouts := sorted;
                 Store.isManageLayoutsModalOpen := Store.isManageLayoutsModalOpen st |} =
            Some new) as Hs.
    { unfold Store.saved. simpl. now apply (saved_by_name sorted new). }
    split; [reflexivity|]. split; [exact Es|]. split; [exact H1|].
    split; [exact Hs|]. split; [|split; [exact H4|]].
    + intros other NE. unfold Store.saved. simpl.
      apply find_same_members; [exact Hnd|exact H1|].
      intros c Hc. apply H3. congruence.
    + intros c Hc. rewrite Hs in Hc. inversion Hc; subst c. simpl. auto.
  - split; [reflexivity|]. left. now split.
Qed.

(** X22.  Deleting from the dialog, when the storage accepts the writes.  A
    confirmed deletion leaves no classroom under the name and lists under
    every other name what was listed before, in the order they had; a
    deletion that is not confirmed changes nothing.  Deleting a name right
    after saving under it leaves the classrooms that were listed under the
    other names, which are all the classrooms when the name was new. *)
Theorem X22_deleting_removes_one_name_only
    (localeCompare : string -> string -> Q)
    (setItem : list Store.SavedClassroom -> bool)
    (name : string) (st : Store.State) :
  (forall l, setItem l = true) ->
  let st' := Store.handleDeleteClick setItem name true st in
  Store.saved name st' = None /\
  (forall other, other <> name -> Store.saved other st' = Store.saved other st) /\
  Store.savedLayouts st' `sublist_of` Store.savedLayouts st /\
  Store.app st' = Store.app st /\
  Store.handleDeleteClick setItem name false st = st /\
  forall layout arrangement,
    let resaved :=
      Store.handleDeleteClick setItem name true
        (Store.handleSaveLayoutToStorage localeCompare setItem name layout arrangement st) in
    Store.savedLayouts resaved ≡ₚ Store.savedLayouts st' /\
    (Store.saved name st = None -> Store.savedLayouts resaved ≡ₚ Store.savedLayouts st).
Proof.
  intros Hset st'. subst st'. unfold Store.handleDeleteClick, Store.handleDeleteLayoutFromStorage.
  rewrite Hset. simpl.
  split.
  { unfold Store.saved. simpl. apply find_not_listed. intros c Hc.
    apply list_elem_of_In, filter_In in Hc as [_ Hc].
    apply negb_true_iff in Hc. now apply String.eqb_neq in Hc. }
  split.
  { intros other NE. unfold Store.saved. simpl. now apply find_filter_other. }
  split.
  { generalize (Store.savedLayouts st). intros l.
    induction l as [|a l IH]; simpl; [constructor|].
    destruct (negb _); now constructor. }
  split; [reflexivity|]. split; [reflexivity|].
  intros layout arrangement. cbv zeta.
  unfold Store.handleSaveLayoutToStorage. rewrite !Hset. simpl.
  set (new := {| Store.name := name; Store.layout := layout;
                 Store.arrangement := arrangement |}).
  set (p := fun l : Store.SavedClassroom => negb (Store.name l =? name)).
  assert (List.filter p
            (JS.sort (fun a b => localeCompare (Store.name a) (Store.name b))
               match JS.findIndex (fun l => Store.name l =? name) (Store.savedLayouts st) with
               | Some i => <[i:=new]> (Store.savedLayouts st)
               | None => Store.savedLayouts st ++ [new]
               end) ≡ₚ List.filter p (Store.savedLayouts st)) as P.
  { etransitivity; [apply list_filter_Permutation, sort_Permutation|].
    unfold JS.findIndex.
    pose proof (findIndexFrom_cases
                  (fun x => String.eqb (Store.name x) name) (Store.savedLayouts st) 0) as Hf.
    assert (p new = false) as Hn by (unfold p; simpl; now rewrite String.eqb_refl).
    destruct (JS.findIndexFrom _ 0 (Store.savedLayouts st)) as [k|].
    - destruct Hf as (j & c & -> & Hj & Hc). simpl.
      rewrite (filter_insert_same p _ j c new Hj); [reflexivity| |exact Hn].
      unfold p. now rewrite Hc.
    - rewrite List.filter_app. simpl. rewrite Hn. now rewrite app_nil_r. }
  split; [exact P|].
  intros Hnone. rewrite P.
  rewrite filter_all; [reflexivity|].
  intros c Hc. unfold p. apply negb_true_iff.
  apply (find_none _ _ Hnone). now apply list_elem_of_In.
Qed.


(** * The further theorems on the example inputs *)

Lemma oneDeskEditor_ids : NoDup (map LO.id (Editor.layoutObjects oneDeskEditor)).
Proof. apply NoDup_singleton. Defined.

Lemma collisionFree_singleton d : collisionFree [d].
Proof.
  intros i j a b Hi Hj NE. exfalso.
  destruct i as [|i]; [|destruct i; discriminate Hi].
  destruct j as [|j]; [|destruct j; discriminate Hj].
  now apply NE.
Defined.

Lemma newDeskId_2_fresh : newDeskId 2 ∉ map LO.id (Editor.layoutObjects oneDeskEditor).
Proof. intros H. apply list_elem_of_singleton in H. vm_compute in H. discriminate H. Defined.

(** A double desk from the palette dropped next to the double desk. *)
Lemma X1_drop_keeps_desks_apart_witness :
  let st' := Editor.handleDrop (dropAt 320 32 2)
               (LayoutEditor.handleDragStart grabAtCorner
                  (LayoutEditor.paletteDesk doublePalette) oneDeskEditor) in
  NoDup (map LO.id (Editor.layoutObjects st')) /\
  collisionFree (Editor.layoutObjects st').
Proof.
  apply (X1_drop_keeps_desks_apart grabAtCorner (dropAt 320 32 2)
           (LayoutEditor.paletteDesk doublePalette) oneDeskEditor).
  - exact oneDeskEditor_ids.
  - apply collisionFree_singleton.
  - left. split; [reflexivity|]. split; [reflexivity|]. exact newDeskId_2_fresh.
Defined.

Lemma X2_remove_undoes_add_witness :
  (newDeskId 2 ∉ map LO.id (Editor.layoutObjects oneDeskEditor)) /\
  LayoutEditor.removeDesk (newDeskId 2)
    (Editor.layoutObjects
       (Editor.handleDrop (dropAt 320 32 2)
          (LayoutEditor.handleDragStart grabAtCorner
             (LayoutEditor.paletteDesk doublePalette) oneDeskEditor))) =
  [doubleDesk].
Proof.
  split; [exact newDeskId_2_fresh|].
  exact (X2_remove_undoes_add grabAtCorner (dropAt 320 32 2) doublePalette oneDeskEditor
           newDeskId_2_fresh).
Defined.

(** The double desk moved to the right. *)
Lemma X3_move_changes_position_only_witness :
  let st' := Editor.handleDrop (dropAt 320 32 2)
               (LayoutEditor.handleDragStart grabAtCorner
                  (LayoutEditor.canvasDesk doubleDesk) oneDeskEditor) in
  let gridX := JS.round ((320 - 0 - (0 - 0)) / GRID_SIZE) in
  let gridY := JS.round ((32 - 0 - (0 - 0)) / GRID_SIZE) in
  let moved := movedTo gridX gridY doubleDesk in
  if existsb (fun o => negb (String.eqb (LO.id o) "desk-1") && Editor.overlaps moved o)
             [doubleDesk]
  then Editor.layoutObjects st' = [doubleDesk] /\
       Editor.console st' = [] ++ ["Collision detected!"]
  else Editor.layoutObjects st' =
         map (fun o => if String.eqb (LO.id o) "desk-1" then moved else o) [doubleDesk] /\
       Editor.dragData st' = None /\ Editor.console st' = [].
Proof.
  apply (X3_move_changes_position_only grabAtCorner (dropAt 320 32 2) doubleDesk
           oneDeskEditor 0 0).
  - exact oneDeskEditor_ids.
  - now left.
  - discriminate.
  - reflexivity.
Defined.

Lemma wholePixel_Z (z : Z) : (Z.abs z <= 2 ^ 32)%Z -> wholePixel (inject_Z z).
Proof. intros H. exists z. split; [reflexivity|exact H]. Defined.

(** A new double desk dropped with the pointer at (330, 41): the desk lands
    at column 17, row 1. *)
Lemma X4_drop_snaps_to_grid_witness :
  let d := dragNew "11" DESK_WIDTH_UNITS in
  let e := dropAt 330 41 2 in
  let desk := Editor.newDeskOf d e 0 0 in
  LO.x desk = 17%Q /\ LO.y desk = 1%Q /\
  (- (GRID_SIZE / 2) < GRID_SIZE * LO.x desk - (330 - 0 - DESK_WIDTH_UNITS * GRID_SIZE / 2) /\
   GRID_SIZE * LO.x desk - (330 - 0 - DESK_WIDTH_UNITS * GRID_SIZE / 2) <= GRID_SIZE / 2)%Q.
Proof.
  intros d e desk.
  destruct (X4_drop_snaps_to_grid d e 0 0) as (_ & H & _).
  - apply (wholePixel_Z 330). vm_compute. discriminate.
  - apply (wholePixel_Z 41). vm_compute. discriminate.
  - apply (wholePixel_Z 0). vm_compute. discriminate.
  - apply (wholePixel_Z 0). vm_compute. discriminate.
  - split; [apply (wholePixel_Z 8)|apply (wholePixel_Z 4)]; vm_compute; discriminate.
  - split; [reflexivity|]. split; [reflexivity|]. exact H.
Defined.

Lemma centredDesks_rotations :
  Forall (fun d => LO.rotation d = Some 0%Q \/ LO.rotation d = Some 90%Q) centredDesks.
Proof. repeat constructor. Defined.

Lemma X5_rotation_is_an_involution_witness :
  LayoutEditor.handleRotateDesk "desk-1" (LayoutEditor.handleRotateDesk "desk-1" centredDesks) =
    centredDesks /\
  Forall (fun d => LO.rotation d = Some 0%Q \/ LO.rotation d = Some 90%Q)
         (LayoutEditor.handleRotateDesk "desk-1" centredDesks).
Proof.
  destruct (X5_rotation_is_an_involution "desk-1" centredDesks centredDesks_rotations)
    as (H1 & _ & H3 & _).
  split; [exact H1|exact H3].
Defined.

(** The middle seat of the triple desk is blocked by a click. *)
Lemma X6_seat_click_changes_the_count_by_one_witness :
  NoDup (App.orEmpty (LO.userBlockedSeats tripleDesk)) /\
  App.availableSeats (LayoutEditor.handleSeatClick "desk-2" 1 centredDesks) =
    (App.availableSeats centredDesks - 1)%Z.
Proof.
  assert (NoDup (App.orEmpty (LO.userBlockedSeats tripleDesk))) as H by apply NoDup_nil_2.
  split; [exact H|].
  apply (X6_seat_click_changes_the_count_by_one centredDesks tripleDesk 1).
  - exact centredDesks_ids.
  - right. now left.
  - discriminate.
  - exact H.
Defined.

Lemma X7_clickable_seats_are_the_counted_seats_witness :
  length (List.filter LayoutPreview.isClickable (LayoutPreview.renderDesk "101" [] true)) =
    App.potentialSeats "101" /\
  length (LayoutPreview.renderDesk "101" [] true) = String.length "101" /\
  Forall (fun s => LayoutPreview.isClickable s = false)
         (LayoutPreview.renderDesk "101" [] false).
Proof. exact (X7_clickable_seats_are_the_counted_seats "101" [] eq_refl). Defined.

Lemma blockedTriple_blockedByClicks :
  blockedByClicks (LayoutEditor.toggleSeat 1 tripleDesk).
Proof.
  split.
  - apply NoDup_singleton.
  - intros i Hi. apply list_elem_of_singleton in Hi. subst i.
    eexists. split; reflexivity.
Defined.

(** The triple desk with its middle seat blocked by a click: it counts two
    seats, and a click on the first seat blocks that one too. *)
Lemma X8_blocked_seats_never_exceed_the_seats_witness :
  let d := LayoutEditor.toggleSeat 1 tripleDesk in
  LO.userBlockedSeats d = Some [1%nat] /\
  blockedByClicks d /\ deskSeats d = 2%Z /\ (0 <= deskSeats d)%Z /\
  LO.userBlockedSeats (LayoutEditor.toggleSeat 0 d) = Some [1%nat; 0%nat] /\
  blockedByClicks (LayoutEditor.toggleSeat 0 d).
Proof.
  intros d.
  destruct (X8_blocked_seats_never_exceed_the_seats d blockedTriple_blockedByClicks)
    as (H1 & H2 & _).
  split; [reflexivity|]. split; [exact blockedTriple_blockedByClicks|].
  split; [reflexivity|]. split; [exact H1|]. split; [reflexivity|].
  apply H2. eexists. split; reflexivity.
Defined.

(** The double desk turned onto the desk below it. *)
Lemma X9_rotation_is_not_collision_checked_witness :
  collisionFree [doubleDesk; deskBelow] /\
  Editor.overlaps (LayoutEditor.rotate doubleDesk) deskBelow = true /\
  ~ collisionFree (LayoutEditor.handleRotateDesk "desk-1" [doubleDesk; deskBelow]).
Proof.
  destruct (X9_rotation_is_not_collision_checked doubleDesk deskBelow)
    as (H1 & _ & H3 & H4); try reflexivity.
  - discriminate.
  - split; [exact H1|]. split; [exact H3|exact H4].
Defined.

(** The preview of the centred desks. *)
Lemma X10_container_holds_every_desk_witness :
  exists width height,
    LayoutPreview.containerSize LayoutPreview.PREVIEW_GRID_UNIT_SIZE centredDesks =
      Some (width, height) /\
    forall d, d ∈ centredDesks ->
      (LO.x d * LayoutPreview.PREVIEW_GRID_UNIT_SIZE +
       LO.width d * LayoutPreview.PREVIEW_GRID_UNIT_SIZE +
       2 * LayoutPreview.PREVIEW_GRID_UNIT_SIZE <= width /\
       LO.y d * LayoutPreview.PREVIEW_GRID_UNIT_SIZE +
       LO.height d * LayoutPreview.PREVIEW_GRID_UNIT_SIZE +
       2 * LayoutPreview.PREVIEW_GRID_UNIT_SIZE <= height)%Q.
Proof.
  assert (0 <= LayoutPreview.PREVIEW_GRID_UNIT_SIZE)%Q as Hunit by discriminate.
  pose proof (X10_container_holds_every_desk LayoutPreview.PREVIEW_GRID_UNIT_SIZE
                centredDesks Hunit) as H.
  destruct (LayoutPreview.containerSize LayoutPreview.PREVIEW_GRID_UNIT_SIZE centredDesks)
    as [[width height]|].
  - exists width, height. split; [reflexivity|]. exact (proj2 (proj2 H)).
  - discriminate H.
Defined.

Lemma X11_chart_shows_names_at_available_seats_witness :
  let cells := GeneratedChart.renderDeskWithStudents seatedTriple in
  length cells = String.length (LO.type seatedTriple) /\
  (length (List.filter (fun c => match GeneratedChart.shownName c with
                                 | Some _ => true
                                 | None => false
                                 end) cells)
   <= App.potentialSeats (LO.type seatedTriple))%nat.
Proof.
  intros cells.
  destruct (X11_chart_shows_names_at_available_seats seatedTriple eq_refl) as (H1 & H2 & _).
  split; [exact H1|exact H2].
Defined.

Lemma centredDesks_not_empty : centredDesks <> [].
Proof. discriminate. Defined.

Lemma X12_blocked_seat_conditions_quote_the_labels_witness :
  let m := convertObjectsToLayoutMatrix centredDesks in
  App.additionalConditions centredDesks =
    flat_map (fun d =>
                match deskNumberMap centredDesks !! LO.id d with
                | Some n => map (blockedSeatSentence n) (App.orEmpty (LO.userBlockedSeats d))
                | None => []
                end) centredDesks /\
  exists n r c,
    deskNumberMap centredDesks !! LO.id tripleDesk = Some n /\
    positionMap m !! positionKey r c = Some (LO.id tripleDesk) /\
    cellAt (cellsOfText (numberedMatrix m)) r c = Some (labelText n).
Proof.
  intros m.
  destruct (X12_blocked_seat_conditions_quote_the_labels centredDesks
              centredDesks_not_empty centredDesks_ids centredDesks_ids_not_empty
              centredDesks_not_blank) as [H1 H2].
  split; [exact H1|]. apply H2. right. now left.
Defined.

Lemma X13_position_key_is_read_back_witness :
  let m := convertObjectsToLayoutMatrix centredDesks in
  exists r c,
    App.positionOf (positionMap m) (LO.id tripleDesk) = Some (r, c) /\
    positionMap m !! positionKey r c = Some (LO.id tripleDesk) /\
    cellAt (layout m) r c = Some (LO.type tripleDesk).
Proof.
  apply (X13_position_key_is_read_back centredDesks tripleDesk
           centredDesks_ids centredDesks_not_blank).
  right. now left.
Defined.

Lemma twoSeatRequest_layout : App.layoutObjects twoSeatRequest <> [].
Proof. vm_compute. discriminate. Defined.

Lemma twoSeatRequest_types :
  Forall (fun d => isTypeCode (LO.type d) = true /\ LO.type d <> "")
         (App.layoutObjects twoSeatRequest).
Proof.
  assert (map LO.type (App.layoutObjects twoSeatRequest) = ["11"]) as E
    by (vm_compute; reflexivity).
  destruct (App.layoutObjects twoSeatRequest) as [|d [|d' l]]; try discriminate E.
  inversion E as [Ed]. constructor; [|constructor]. rewrite Ed.
  split; [reflexivity|discriminate].
Defined.

Lemma twoSeatRequest_roster :
  App.finalArrangement twoSeatRequest = None ->
  App.studentListOf (App.students twoSeatRequest) <> [] /\
  (Z.of_nat (length (App.studentListOf (App.students twoSeatRequest))) <=
   App.availableSeats (App.layoutObjects twoSeatRequest))%Z.
Proof.
  intros _. split; [vm_compute; discriminate|]. vm_compute. discriminate.
Defined.

Lemma seatedChart_types :
  Forall (fun d => isTypeCode (LO.type d) = true /\ LO.type d <> "")
         (App.layoutObjects seatedChart).
Proof. constructor; [|constructor]. split; [reflexivity|discriminate]. Defined.

Lemma seatedChart_roster :
  App.finalArrangement seatedChart = None ->
  App.studentListOf (App.students seatedChart) <> [] /\
  (Z.of_nat (length (App.studentListOf (App.students seatedChart))) <=
   App.availableSeats (App.layoutObjects seatedChart))%Z.
Proof. intros H. discriminate H. Defined.

(** A generation request of two names for the double desk, and a
    modification request for the chart of Bob and Alice. *)
Lemma X15_request_goes_out_when_validation_passes_witness :
  (exists request resume,
     App.handleGenerateClick twoSeatRequest = App.Awaits request resume /\
     Service.students request = ["Alice"; "Bob"] /\
     Service.currentArrangementMatrix request = None) /\
  (exists request resume,
     App.handleGenerateClick seatedChart = App.Awaits request resume /\
     Service.students request = ["Bob"; "Alice"] /\
     Service.currentArrangementMatrix request <> None).
Proof.
  split.
  - destruct (X15_request_goes_out_when_validation_passes twoSeatRequest
                twoSeatRequest_layout twoSeatRequest_types twoSeatRequest_roster)
      as (request & resume & H1 & H2 & H3).
    exists request, resume. split; [exact H1|]. split.
    + rewrite H2. vm_compute. reflexivity.
    + apply H3. reflexivity.
  - assert (App.layoutObjects seatedChart <> []) as Hne by discriminate.
    destruct (X15_request_goes_out_when_validation_passes seatedChart
                Hne seatedChart_types seatedChart_roster)
      as (request & resume & H1 & H2 & H3).
    exists request, resume. split; [exact H1|]. split.
    + rewrite H2. vm_compute. reflexivity.
    + intros E. apply H3 in E. discriminate E.
Defined.

(** The request of two names for the double desk, and a reply that did not
    arrive. *)
Lemma X16_every_reply_ends_the_request_witness :
  exists request resume,
    App.handleGenerateClick twoSeatRequest = App.Awaits request resume /\
    match resume (fst (Service.generateSeatingArrangement request
                         (Service.TransportError "offline"))) with
    | JS.Normal st' => App.isLoading st' = false
    | JS.Throw _ => False
    end.
Proof.
  destruct (App.handleGenerateClick twoSeatRequest) as [st|request resume] eqn:E.
  - exfalso. vm_compute in E. discriminate E.
  - exists request, resume. split; [reflexivity|].
    pose proof (X16_every_reply_ends_the_request twoSeatRequest request resume
                  (Service.TransportError "offline") E) as H.
    cbv zeta in H.
    destruct (resume (fst (Service.generateSeatingArrangement request
                             (Service.TransportError "offline")))) as [st'|v].
    + exact (proj1 H).
    + destruct H as [H _]. vm_compute in H. discriminate H.
Defined.

Lemma layoutCell_double : layoutCell "11".
Proof. right. split; [reflexivity|discriminate]. Defined.

Lemma defaultGrid_cells :
  Forall (fun row => length row = 3%nat /\ Forall layoutCell row) defaultGrid.
Proof.
  assert (length ["11"; "11"; "11"] = 3%nat /\ Forall layoutCell ["11"; "11"; "11"]) as Hrow.
  { split; [reflexivity|].
    repeat (apply List.Forall_cons; [exact layoutCell_double|]). apply List.Forall_nil. }
  repeat (apply List.Forall_cons; [exact Hrow|]). apply List.Forall_nil.
Defined.

Lemma defaultGrid_rows : Forall rowHasDesk defaultGrid.
Proof.
  assert (rowHasDesk ["11"; "11"; "11"]) as Hrow.
  { exists "11". split; [now left|reflexivity]. }
  repeat (apply List.Forall_cons; [exact Hrow|]). apply List.Forall_nil.
Defined.

Lemma defaultGrid_columns (c : nat) :
  (c < 3)%nat -> exists r t, cellAt defaultGrid r c = Some t /\ t <> "--".
Proof.
  intros Hc. exists 0%nat, "11".
  destruct c as [|[|[|c]]]; [| | |lia]; (split; [reflexivity|discriminate]).
Defined.

Lemma defaultGrid_noSplitColumn : noSplitColumn defaultGrid.
Proof.
  intros c (r & t & Hc & Ht & _) _. exists r, t.
  split; [exact Hc|]. split; [exact Ht|].
  destruct r as [|[|[|[|[|r]]]]]; destruct c as [|[|[|c]]];
    vm_compute in Hc; try discriminate Hc; inversion Hc; reflexivity.
Defined.

(** The default layout is read and written back. *)
Lemma X18_matrix_text_is_read_and_written_back_witness :
  serializeGrid defaultGrid = defaultLayout /\
  layout (convertObjectsToLayoutMatrix (parseLayoutMatrixToObjects defaultLayout)) =
    defaultGrid /\
  matrix (convertObjectsToLayoutMatrix (parseLayoutMatrixToObjects defaultLayout)) =
    defaultLayout.
Proof.
  split; [reflexivity|].
  apply (X18_matrix_text_is_read_and_written_back defaultGrid 3).
  - lia.
  - exact defaultGrid_cells.
  - exact defaultGrid_rows.
  - exact defaultGrid_columns.
  - exact defaultGrid_noSplitColumn.
Defined.

Lemma X19_layout_has_no_blank_row_or_column_witness :
  let L := layout (convertObjectsToLayoutMatrix centredDesks) in
  (forall r row, L !! r = Some row -> exists c t, row !! c = Some t /\ t <> "--") /\
  (forall r row c, L !! r = Some row -> (c < length row)%nat ->
     exists r' t, cellAt L r' c = Some t /\ t <> "--").
Proof.
  exact (X19_layout_has_no_blank_row_or_column centredDesks centredDesks_not_blank).
Defined.

Lemma seatedChart_names :
  Forall (fun name => JS.includes JS.LF name = false /\ JS.trim name = name)
         (App.namesOf [seatedTriple]).
Proof.
  assert (App.namesOf [seatedTriple] = ["Bob"; "Alice"]) as -> by (vm_compute; reflexivity).
  repeat (apply List.Forall_cons; [split; reflexivity|]). apply List.Forall_nil.
Defined.

(** The chart of Bob and Alice cleared: the roster [Bob] becomes the two
    seated names. *)
Lemma X20_clearing_returns_the_seated_names_to_the_roster_witness :
  let st' := Store.handleClearChart compareByCode seatedChart in
  App.studentListOf (App.students seatedChart) = ["Bob"] /\
  App.studentListOf (App.students st') = ["Alice"; "Bob"] /\
  App.finalArrangement st' = None.
Proof.
  destruct (X20_clearing_returns_the_seated_names_to_the_roster compareByCode seatedChart
              [seatedTriple] eq_refl seatedChart_names) as (H1 & _ & _ & H4 & _).
  split; [reflexivity|]. split; [|exact H4].
  rewrite H1. vm_compute. reflexivity.
Defined.

Lemma emptyStore_names : NoDup (map Store.name (Store.savedLayouts emptyStore)).
Proof. apply NoDup_nil_2. Defined.

Lemma emptyStore_confirmation :
  Store.saved (JS.trim " 3.B ") emptyStore <> None -> false = true.
Proof. intros H. exfalso. apply H. reflexivity. Defined.

(** The first classroom saved under a name typed with blanks around it. *)
Lemma X21_saved_classroom_is_listed_once_under_its_name_witness :
  let st' := fst (fst (Store.handleSaveClick compareByCode acceptingStorage
                         " 3.B " false emptyStore)) in
  Store.saved "3.B" st' =
    Some {| Store.name := "3.B";
            Store.layout := App.layoutObjects twoSeatRequest;
            Store.arrangement := None |} /\
  length (Store.savedLayouts st') = 1%nat.
Proof.
  assert (JS.trim " 3.B " <> "") as Hname by (vm_compute; discriminate).
  destruct (X21_saved_classroom_is_listed_once_under_its_name compareByCode
              acceptingStorage " 3.B " false emptyStore emptyStore_names Hname
              emptyStore_confirmation) as (_ & _ & _ & [[_ H]|H]).
  - exfalso. apply (f_equal App.error) in H. vm_compute in H. discriminate H.
  - destruct H as (_ & _ & _ & H1 & _ & H2 & _). split; [exact H1|exact H2].
Defined.

(** The classroom saved and deleted again. *)
Lemma X22_deleting_removes_one_name_only_witness :
  let resaved :=
    Store.handleDeleteClick acceptingStorage "3.B" true
      (Store.handleSaveLayoutToStorage compareByCode acceptingStorage "3.B"
         (App.layoutObjects twoSeatRequest) None emptyStore) in
  Store.saved "3.B" (Store.handleDeleteClick acceptingStorage "3.B" true emptyStore) = None /\
  Store.savedLayouts resaved ≡ₚ Store.savedLayouts emptyStore.
Proof.
  destruct (X22_deleting_removes_one_name_only compareByCode acceptingStorage "3.B"
              emptyStore (fun _ => eq_refl)) as (H1 & _ & _ & _ & _ & H2).
  split; [exact H1|].
  exact (proj2 (H2 (App.layoutObjects twoSeatRequest) None) eq_refl).
Defined.


(** * The numbered matrix for every order of the sort *)

Lemma deskNumberMapOf_lookup sorted k d :
  NoDup (map LO.id sorted) -> sorted !! k = Some d ->
  deskNumberMapOf sorted !! LO.id d = Some (k + 1)%nat.
Proof.
  intros Hnd Hk. unfold deskNumberMapOf, JS.forEach.
  now rewrite (deskNumber_lookup _ 0 ∅ k d Hnd Hk).
Qed.

Lemma numberedMatrix_of objects :
  objects <> [] ->
  let m := convertObjectsToLayoutMatrix objects in
  numberedMatrix m = numberedMatrixOf (uiSortedObjects objects) (layout m) (positionMap m).
Proof. intros Hne. cbv zeta. now rewrite convert_eq. Qed.

Section NumberedOf.
Variables objects sorted : list LayoutObject.
Hypothesis objects_not_nil : objects <> [].
Hypothesis distinct_ids : NoDup (map LO.id objects).
Hypothesis ids_not_empty : Forall (fun d => LO.id d <> "") objects.
Hypothesis types_not_blank : Forall (fun d => LO.type d <> "--") objects.
Hypothesis sorted_objects : sorted ≡ₚ objects.

#[local] Abbreviation m := (convertObjectsToLayoutMatrix objects).
#[local] Abbreviation N :=
  (numberedGrid (layout m) (positionMap m) (deskNumberMapOf sorted)).

Lemma sorted_ids : NoDup (map LO.id sorted).
Proof.
  change (NoDup (LO.id <$> sorted)). rewrite sorted_objects. exact distinct_ids.
Qed.

Lemma numberedOf_cells :
  cellsOfText (numberedMatrixOf sorted (layout m) (positionMap m)) =
  map (map (JS.padEnd 5)) N.
Proof.
  unfold numberedMatrixOf. apply cellsOfText_serializeGrid.
  - intros E. apply (f_equal length) in E. rewrite length_map in E.
    unfold numberedGrid in E. rewrite length_imap in E. simpl in E.
    destruct (convert_Placed objects objects_not_nil types_not_blank) as [P (Hlen & _)].
    pose proof (groupRows_not_nil objects objects_not_nil).
    destruct (groupRows objects); simpl in *; [congruence|lia].
  - apply Forall_forall. intros row Hrow.
    apply list_elem_of_fmap in Hrow as (row0 & -> & Hrow0).
    unfold numberedGrid in Hrow0. apply list_elem_of_lookup in Hrow0 as [r Hr].
    rewrite list_lookup_imap in Hr.
    destruct (layout m !! r) as [lrow|] eqn:El; [|discriminate].
    simpl in Hr. inversion Hr; subst row0. split.
    + intros E. apply (f_equal length) in E. rewrite length_map, length_imap in E.
      destruct (convert_layout_rectangular objects lrow) as [_ H].
      * apply list_elem_of_lookup. now exists r.
      * simpl in E. lia.
    + apply Forall_forall. intros s Hs.
      apply list_elem_of_fmap in Hs as (s0 & -> & Hs0).
      apply list_elem_of_lookup in Hs0 as [c Hc]. rewrite list_lookup_imap in Hc.
      destruct (lrow !! c); [|discriminate]. simpl in Hc. inversion Hc.
      apply padEnd_clean, numberedCell_clean.
Qed.

Lemma numberedCellOf_desk d k r c :
  sorted !! k = Some d ->
  positionMap m !! positionKey r c = Some (LO.id d) ->
  JS.padEnd 5 (numberedCell (positionMap m) (deskNumberMapOf sorted) r c (LO.type d))
  = labelText (k + 1).
Proof.
  intros Hk Hpm.
  assert (d ∈ objects) as Hd.
  { rewrite <- sorted_objects. apply list_elem_of_lookup. now exists k. }
  unfold numberedCell. rewrite Forall_forall in types_not_blank, ids_not_empty.
  rewrite (proj2 (String.eqb_neq _ _) (types_not_blank d Hd)). simpl.
  rewrite Hpm. rewrite (proj2 (String.eqb_neq _ _) (ids_not_empty d Hd)). simpl.
  now rewrite (deskNumberMapOf_lookup sorted k d sorted_ids Hk).
Qed.

Lemma sorted_index d : d ∈ objects -> exists k, sorted !! k = Some d.
Proof. intros Hd. apply list_elem_of_lookup. now rewrite sorted_objects. Qed.

Lemma numberedOf_labels :
  Permutation
    (List.filter (fun s => negb (String.eqb s blankText))
       (concat (cellsOfText (numberedMatrixOf sorted (layout m) (positionMap m)))))
    (map labelText (seq 1 (length objects))).
Proof.
  destruct (convert_Placed objects objects_not_nil types_not_blank) as [P HP].
  pose proof (groupRows_Permutation objects) as Hperm.
  rewrite numberedOf_cells, <- concat_map, numberedGrid_cells, map_map, filter_map_comm.
  set (F := fun p : nat * nat * string =>
              JS.padEnd 5 (numberedCell (positionMap m) (deskNumberMapOf sorted)
                             (fst (fst p)) (snd (fst p)) (snd p))).
  rewrite (List.filter_ext_in _ holdsDesk).
  2: { intros [[r c] t] Hin. apply list_elem_of_In, elem_of_gridCells in Hin.
       unfold holdsDesk, F. simpl.
       destruct (String.eqb_spec t "--") as [->|Hne]; [reflexivity|]. simpl.
       pose proof HP as (_ & _ & _ & HinP & _ & Hcell & _).
       destruct (Hcell r c t Hin Hne) as [d Hd].
       destruct (Placed_lookup _ _ _ _ _ _ _ HP Hd) as [Hk Hc].
       assert (t = LO.type d) as -> by congruence.
       destruct (sorted_index d (Placed_desk _ _ _ _ _ _ _ _ HP Hperm Hd)) as [k Hui].
       rewrite (numberedCellOf_desk d k r c Hui Hk). now rewrite labelText_not_blank. }
  rewrite (Placed_cells _ _ _ _ HP), map_map.
  set (label := fun d => labelText (default 0%nat (deskNumberMapOf sorted !! LO.id d))).
  rewrite (map_ext_in _ (fun p => label (snd p))).
  2: { intros [[r c] d] Hin. apply list_elem_of_In in Hin. unfold F, label. simpl.
       destruct (Placed_lookup _ _ _ _ _ _ _ HP Hin) as [Hk Hc].
       destruct (sorted_index d (Placed_desk _ _ _ _ _ _ _ _ HP Hperm Hin)) as [k Hui].
       rewrite (numberedCellOf_desk d k r c Hui Hk).
       now rewrite (deskNumberMapOf_lookup sorted k d sorted_ids Hui). }
  rewrite <- (map_map snd label).
  destruct HP as (_ & _ & -> & _).
  rewrite Hperm, <- sorted_objects.
  rewrite (map_seq_lookup label labelText sorted 1).
  - now rewrite sorted_objects.
  - intros k d Hk. unfold label.
    rewrite (deskNumberMapOf_lookup sorted k d sorted_ids Hk). simpl. f_equal. lia.
Qed.

Lemma numberedOf_label_of_place k d :
  sorted !! k = Some d ->
  exists r c,
    positionMap m !! positionKey r c = Some (LO.id d) /\
    cellAt (cellsOfText (numberedMatrixOf sorted (layout m) (positionMap m))) r c =
      Some (labelText (k + 1)).
Proof.
  destruct (convert_Placed objects objects_not_nil types_not_blank) as [P HP].
  intros Hk.
  pose proof (groupRows_Permutation objects) as Hperm.
  assert (d ∈ objects) as Hd.
  { rewrite <- sorted_objects. apply list_elem_of_lookup. now exists k. }
  destruct (Placed_elem_of _ _ _ _ _ _ HP Hperm Hd) as (r & c & Hin).
  destruct (Placed_lookup _ _ _ _ _ _ _ HP Hin) as [Hpm Hc].
  exists r, c. split; [exact Hpm|].
  rewrite numberedOf_cells, cellAt_map, cellAt_numberedGrid, Hc. simpl.
  now rewrite (numberedCellOf_desk d k r c Hk Hpm).
Qed.

End NumberedOf.

(** ** The visual order *)

Lemma half_height_bounds : (DESK_HEIGHT_UNITS / 2 <= 2)%Q /\ (2 <= DESK_HEIGHT_UNITS / 2)%Q.
Proof. split; apply Qle_bool_iff; reflexivity. Qed.

Lemma gt_half_height x : (DESK_HEIGHT_UNITS / 2 < x <-> 2 < x)%Q.
Proof.
  destruct half_height_bounds as [H1 H2]. split; intros H.
  - eapply Qle_lt_trans; [exact H2|exact H].
  - eapply Qle_lt_trans; [exact H1|exact H].
Qed.

Lemma le_half_height x : (x <= DESK_HEIGHT_UNITS / 2 <-> x <= 2)%Q.
Proof.
  destruct half_height_bounds as [H1 H2]. split; intros H.
  - eapply Qle_trans; [exact H|exact H1].
  - eapply Qle_trans; [exact H|exact H2].
Qed.

Lemma sameBand_bounds a b :
  sameBand a b <-> (- 2 <= LO.y a - LO.y b /\ LO.y a - LO.y b <= 2)%Q.
Proof.
  unfold sameBand. rewrite le_half_height. apply Qabs_Qle_condition.
Qed.

Lemma visuallyBefore_bounds a b :
  visuallyBefore a b <->
  (2 < LO.y a - LO.y b)%Q \/
  ((- 2 <= LO.y a - LO.y b /\ LO.y a - LO.y b <= 2)%Q /\ (LO.x a <= LO.x b)%Q).
Proof. unfold visuallyBefore. now rewrite gt_half_height, sameBand_bounds. Qed.

(** The comparator of the numbering says [<= 0] exactly for a desk that
    comes before the other in the visual order. *)
Lemma before_uiCompare a b : before uiCompare a b <-> visuallyBefore a b.
Proof.
  rewrite visuallyBefore_bounds. unfold before, uiCompare. cbv zeta.
  destruct (JS.Qlt_bool (DESK_HEIGHT_UNITS / 2) (Qabs (LO.y a - LO.y b))) eqn:E.
  - apply Qlt_bool_iff, gt_half_height in E.
    assert (~ (- 2 <= LO.y a - LO.y b /\ LO.y a - LO.y b <= 2))%Q as Hn.
    { intros Hc. apply (proj2 (Qabs_Qle_condition (LO.y a - LO.y b) 2)) in Hc. lra. }
    split.
    + intros H. left. lra.
    + intros [H|[H _]]; [lra|contradiction].
  - apply Qlt_bool_false_iff, le_half_height in E.
    apply (proj1 (Qabs_Qle_condition (LO.y a - LO.y b) 2)) in E. split.
    + intros H. right. split; [exact E|lra].
    + intros [H|[_ H]]; lra.
Qed.

Lemma visuallyBefore_trans objects a b c :
  bandsAreRows objects -> a ∈ objects -> b ∈ objects -> c ∈ objects ->
  visuallyBefore a b -> visuallyBefore b c -> visuallyBefore a c.
Proof.
  intros Hrows Ha Hb Hc Hab Hbc.
  pose proof (Hrows a b c Ha Hb Hc) as R1.
  pose proof (Hrows a c b Ha Hc Hb) as R2.
  pose proof (Hrows b a c Hb Ha Hc) as R3.
  rewrite !sameBand_bounds in R1, R2, R3. rewrite visuallyBefore_bounds in *.
  destruct Hab as [Hab|[Sab Xab]], Hbc as [Hbc|[Sbc Xbc]].
  - left. lra.
  - destruct (Qlt_le_dec 2 (LO.y a - LO.y c)) as [H|H]; [now left|].
    exfalso. assert (- 2 <= LO.y a - LO.y c /\ LO.y a - LO.y c <= 2)%Q as Sac by lra.
    assert (- 2 <= LO.y c - LO.y b /\ LO.y c - LO.y b <= 2)%Q as Scb by lra.
    specialize (R2 Sac Scb). lra.
  - destruct (Qlt_le_dec 2 (LO.y a - LO.y c)) as [H|H]; [now left|].
    exfalso. assert (- 2 <= LO.y a - LO.y c /\ LO.y a - LO.y c <= 2)%Q as Sac by lra.
    assert (- 2 <= LO.y b - LO.y a /\ LO.y b - LO.y a <= 2)%Q as Sba by lra.
    specialize (R3 Sba Sac). lra.
  - right. split; [exact (R1 Sab Sbc)|lra].
Qed.

Lemma StronglySorted_lookup {A} (R : A -> A -> Prop) (l : list A) :
  StronglySorted R l ->
  forall i j a b, l !! i = Some a -> l !! j = Some b -> (i < j)%nat -> R a b.
Proof.
  induction 1 as [|x l Hl IH Hx]; intros i j a b Hi Hj Hlt; [now rewrite lookup_nil in Hi|].
  destruct j as [|j]; [lia|]. simpl in Hj.
  destruct i as [|i]; simpl in Hi.
  - inversion Hi; subst x. rewrite Forall_forall in Hx. apply Hx.
    apply list_elem_of_lookup. now exists j.
  - apply (IH i j); [exact Hi|exact Hj|lia].
Qed.

(** When the bands are rows the sort of the numbering returns the desks in
    the visual order. *)
Lemma uiSortedObjects_visual objects :
  bandsAreRows objects ->
  forall i j a b,
    uiSortedObjects objects !! i = Some a -> uiSortedObjects objects !! j = Some b ->
    (i < j)%nat -> visuallyBefore a b.
Proof.
  intros Hrows i j a b Hi Hj Hlt. apply before_uiCompare.
  apply (StronglySorted_lookup (before uiCompare) (uiSortedObjects objects)) with i j;
    [|exact Hi|exact Hj|exact Hlt].
  apply sort_sorted_on.
  - intros x y _ _. apply uiCompare_total.
  - intros x y z Hx Hy Hz Hxy Hyz. apply before_uiCompare.
    apply before_uiCompare in Hxy, Hyz.
    exact (visuallyBefore_trans objects x y z Hrows Hx Hy Hz Hxy Hyz).
Qed.


Ltac in_list H :=
  repeat (apply elem_of_cons in H; destruct H as [->|H]);
  [..|apply elem_of_nil in H; contradiction].

Lemma staggeredDesks_ids : NoDup (map LO.id staggeredDesks).
Proof.
  unfold staggeredDesks. simpl.
  repeat (apply NoDup_cons; split;
    [intros H; repeat (apply elem_of_cons in H; destruct H as [H|H]; [discriminate H|]);
     apply elem_of_nil in H; exact H|]).
  apply NoDup_nil_2.
Qed.

Lemma staggeredDesks_ids_not_empty : Forall (fun d => LO.id d <> "") staggeredDesks.
Proof. repeat constructor; discriminate. Qed.

Lemma staggeredDesks_not_blank : Forall (fun d => LO.type d <> "--") staggeredDesks.
Proof. repeat constructor; discriminate. Qed.

Lemma staggeredDesks_apart : collisionFree staggeredDesks.
Proof.
  intros i j a b Hi Hj NE.
  destruct i as [|[|[|i]]]; try discriminate Hi;
  destruct j as [|[|[|j]]]; try discriminate Hj; try congruence;
  inversion Hi; inversion Hj; reflexivity.
Qed.

Lemma staggeredDesks_bands : ~ bandsAreRows staggeredDesks.
Proof.
  intros H.
  pose proof (H (LO.mk "desk-1" "11" 0 0 DESK_WIDTH_UNITS DESK_HEIGHT_UNITS
                   (Some 0%Q) None (Some []))
                (LO.mk "desk-2" "11" 10 2 DESK_WIDTH_UNITS DESK_HEIGHT_UNITS
                   (Some 0%Q) None (Some []))
                (LO.mk "desk-3" "11" 20 4 DESK_WIDTH_UNITS DESK_HEIGHT_UNITS
                   (Some 0%Q) None (Some []))) as H3.
  rewrite !sameBand_bounds in H3. simpl in H3.
  assert (- 2 <= 0 - 4 /\ 0 - 4 <= 2)%Q as [H4 _]; [|lra].
  apply H3; try lra.
  - now left.
  - right. now left.
  - right. right. now left.
Qed.


Lemma classroom_ids : NoDup (map LO.id classroom).
Proof.
  unfold classroom. simpl.
  repeat (apply NoDup_cons; split;
    [intros H; repeat (apply elem_of_cons in H; destruct H as [H|H]; [discriminate H|]);
     apply elem_of_nil in H; exact H|]).
  apply NoDup_nil_2.
Defined.

Lemma classroom_bands : bandsAreRows classroom.
Proof.
  intros a b c Ha Hb Hc. unfold classroom in *.
  in_list Ha; in_list Hb; in_list Hc;
    rewrite !sameBand_bounds; simpl; intros H1 H2; lra.
Defined.

